(** * delib-ai-wisdom: the orchestration core, embedded and verified

    Sources embedded here:
    - [src/independent-forecast.js]   (independent stage)
    - [src/deliberative-forecast.js]  (deliberative stage)
    - [src/build-analysis-dataset.js] (dataset reducer)
    - [src/independent-forecasting-agent.js], [src/deliberative-forecasting-agent.js]
      and [getOpenModel] of [src/agentUtils.js] (the two agents)

    Conventions of the embedding.
    - JavaScript strings are [string]; template literals are written with
      [+:+]; an integer rendered inside a template literal is [pretty].
    - Question identifiers and ordinal indices are integers ([Z], [nat]).
    - The numbers handled by the seeded shuffle are finite and their
      arithmetic is taken exactly (rationals, [Q]); [Math.sin] is a host
      built-in and is a parameter of the development: nothing proved below
      depends on what it returns.  This is what the code computes when
      question ids are safe integers ([safeInteger]); [Module Js] follows
      the shuffle on JavaScript numbers, where a product out of range is
      an infinity and its sine is [NaN], and statements that depend on the
      difference carry the range as a hypothesis.
    - A plain object used as a lookup is a map; this is what the code
      computes when no key is looked up that the object lacks and
      [Object.prototype] has ([ownReferences]).
    - [null] and an absent property ([undefined]) are both [None]; the code
      only ever tests them for truthiness.
    - A function that throws returns [Throw]. *)

From Stdlib Require Import QArith Qround Lqa Qabs.
From stdpp Require Import gmap strings list fin_maps pretty sorting.

Open Scope string_scope.
Open Scope list_scope.

(** ** Exceptions *)

Inductive except (A : Type) : Type :=
| Return (a : A)
| Throw (msg : string).
Arguments Return {A} a.
Arguments Throw {A} msg.

(** ** Participant specifications *)

Record ParticipantSpec := mkSpec {
  model : string;
  infoLabel : string;
  instance : option nat
}.

#[global] Instance ParticipantSpec_eq_dec : EqDecision ParticipantSpec.
Proof. solve_decision. Defined.

(** [instance ? `-${instance}` : ''] : [null], [undefined] and [0] are falsy. *)
Definition instanceSuffix (inst : option nat) : string :=
  match inst with
  | Some (S n) => "-" +:+ pretty (S n)
  | _ => ""
  end.

(** [`${instance || ''}`] *)
Definition instanceOrEmpty (inst : option nat) : string :=
  match inst with
  | Some (S n) => pretty (S n)
  | _ => ""
  end.

Definition MODELS : list string := ["pro"; "sonnet"; "gpt5"].

Definition CONDITIONS : list string :=
  ["diverse_full"; "diverse_info"; "homo_full"; "diverse_none"; "homo_none"; "homo_info"].

Definition MAX_RETRIES_PER_QUESTION : nat := 3.
Definition MAX_TOTAL_FAILURES : nat := 5.
Definition BATCH_SIZE : nat := 20.

(** [arr[i]] for an array of strings; reading past the end gives
    [undefined], which is rendered as the empty model name here and is never
    reached by the callers below (their indices are below the length). *)
Definition at_index (arr : list string) (i : nat) : string :=
  default "" (arr !! i).

(** ** Seeded randomisation (identical text in both stages) *)

Section Seeded.

(** The host's [Math.sin]. *)
Variable Math_sin : Q -> Q.

Definition Math_floor (x : Q) : Z := Qfloor x.

(** [const x = Math.sin(seed * 9999) * 10000; return x - Math.floor(x)],
    for a seed whose product is a finite number; [Js.seededRandom] has the
    other case. *)
Definition seededRandom (seed : Q) : Q :=
  let x := (Math_sin (seed * 9999) * 10000)%Q in
  (x - inject_Z (Math_floor x))%Q.

(** [[result[m], result[i]] = [result[i], result[m]]]: both reads happen
    before both writes.  With finite random numbers indices past the end
    are not reached (see [draw_in_range]) and the embedding leaves the
    array as it is there; [Js.swap] writes out what the code does with
    such an index and with [NaN]. *)
Definition swap {A} (result : list A) (m i : nat) : list A :=
  match result !! i, result !! m with
  | Some x, Some y => <[i := y]> (<[m := x]> result)
  | _, _ => result
  end.

(** [Math.floor(seededRandom(seed + m) * m)], as an array index, when
    the random number is finite; [Js.draw] has the case of [NaN]. *)
Definition draw (seed : Q) (m : nat) : nat :=
  Z.to_nat (Math_floor (seededRandom (seed + inject_Z (Z.of_nat m))
                        * inject_Z (Z.of_nat m))%Q).

(** The [while (m)] loop; [m] is decremented after the draw and before
    the swap. *)
Fixpoint shuffleLoop {A} (m : nat) (seed : Q) (result : list A) : list A :=
  match m with
  | O => result
  | S m' =>
      let i := draw seed m in
      shuffleLoop m' seed (swap result m' i)
  end.

Definition seededShuffle {A} (array : list A) (seed : Q) : list A :=
  let result := array in
  shuffleLoop (length result) seed result.

(** The same function on a heap of arrays, to account for aliasing:
    [const result = [...array]] allocates a fresh array, and every swap of
    the loop writes to [result]. *)
Definition heapSwap {A} (h : gmap positive (list A)) (result : positive)
    (m i : nat) : gmap positive (list A) :=
  match h !! result with
  | Some arr => <[result := swap arr m i]> h
  | None => h
  end.

Fixpoint heapShuffleLoop {A} (m : nat) (seed : Q) (result : positive)
    (h : gmap positive (list A)) : gmap positive (list A) :=
  match m with
  | O => h
  | S m' =>
      let i := draw seed m in
      heapShuffleLoop m' seed result (heapSwap h result m' i)
  end.

Definition seededShuffle_heap {A} (h : gmap positive (list A))
    (array : positive) (seed : Q) : option (positive * gmap positive (list A)) :=
  match h !! array with
  | Some arr =>
      let result := fresh (dom h) in
      let h := <[result := arr]> h in
      Some (result, heapShuffleLoop (length arr) seed result h)
  | None => None
  end.

(** ** Independent stage: [getRequiredForecasts] *)

Record Required := mkRequired {
  required : list ParticipantSpec;
  seen : gset string
}.

Definition addForecast (st : Required) (model infoLabel : string)
    (instance : option nat) : Required :=
  let key := model +:+ "-" +:+ infoLabel +:+ "-" +:+ instanceOrEmpty instance in
  if decide (key ∈ seen st) then st
  else {| seen := {[ key ]} ∪ seen st;
          required := required st ++ [mkSpec model infoLabel instance] |}.

Definition getRequiredForecasts (questionId : Z) (qIndex : nat)
    : list ParticipantSpec :=
  let st := mkRequired [] ∅ in
  (* 1. diverse_full *)
  let st := foldl (fun st model => addForecast st model "full" None) st MODELS in
  (* 2. diverse_info *)
  let infoLabels := seededShuffle ["info1"; "info2"; "info3"] (inject_Z questionId) in
  let models := seededShuffle MODELS (inject_Z questionId + 1)%Q in
  let st := foldl (fun st i => addForecast st (at_index models i) (at_index infoLabels i) None)
                  st [0; 1; 2]%nat in
  (* 3. homo_full *)
  let homoModel := at_index MODELS (qIndex mod 3) in
  let st := foldl (fun st instance => addForecast st homoModel "full" (Some instance))
                  st [1; 2; 3]%nat in
  (* 4. sense_check *)
  let st := foldl (fun st model => addForecast st model "none" None) st MODELS in
  (* 5. homo_none *)
  let st := foldl (fun st instance => addForecast st homoModel "none" (Some instance))
                  st [1; 2; 3]%nat in
  (* 6. diverse_none: nothing added *)
  (* 7. homo_info *)
  let homoInfoLabels := ["info1"; "info2"; "info3"] in
  let st := foldl (fun st instance =>
                     addForecast st homoModel (at_index homoInfoLabels (instance - 1))
                                 (Some instance))
                  st [1; 2; 3]%nat in
  required st.

(** ** Deliberative stage: [getGroupComposition] *)

Definition getGroupComposition (condition : string) (questionId : Z)
    (questionIndex : nat) : except (list ParticipantSpec) :=
  if decide (condition = "diverse_full") then
    Return [ mkSpec "pro" "full" None;
             mkSpec "sonnet" "full" None;
             mkSpec "gpt5" "full" None ]
  else if decide (condition = "diverse_info") then
    let infoLabels := seededShuffle ["info1"; "info2"; "info3"] (inject_Z questionId) in
    let models := seededShuffle MODELS (inject_Z questionId + 1)%Q in
    Return [ mkSpec (at_index models 0) (at_index infoLabels 0) None;
             mkSpec (at_index models 1) (at_index infoLabels 1) None;
             mkSpec (at_index models 2) (at_index infoLabels 2) None ]
  else if decide (condition = "homo_full") then
    let homoModel := at_index MODELS (questionIndex mod 3) in
    Return [ mkSpec homoModel "full" (Some 1%nat);
             mkSpec homoModel "full" (Some 2%nat);
             mkSpec homoModel "full" (Some 3%nat) ]
  else if decide (condition = "diverse_none") then
    Return [ mkSpec "pro" "none" None;
             mkSpec "sonnet" "none" None;
             mkSpec "gpt5" "none" None ]
  else if decide (condition = "homo_none") then
    let homoNoneModel := at_index MODELS (questionIndex mod 3) in
    Return [ mkSpec homoNoneModel "none" (Some 1%nat);
             mkSpec homoNoneModel "none" (Some 2%nat);
             mkSpec homoNoneModel "none" (Some 3%nat) ]
  else if decide (condition = "homo_info") then
    let homoInfoModel := at_index MODELS (questionIndex mod 3) in
    Return [ mkSpec homoInfoModel "info1" (Some 1%nat);
             mkSpec homoInfoModel "info2" (Some 2%nat);
             mkSpec homoInfoModel "info3" (Some 3%nat) ]
  else Throw ("Unknown condition: " +:+ condition).

End Seeded.

(** ** The seeded shuffle on JavaScript numbers

    [Section Seeded] takes the arithmetic of a seed exactly.  That is what
    the code computes as long as its numbers stay finite.  A product beyond
    the range of a double is [Infinity] in JavaScript, [Math.sin(Infinity)]
    is [NaN], and [result[NaN]] is a property of the array that is not one
    of its elements.  This module follows the same text with these cases
    written out; [seededShuffle_finite] shows that the two agree on the
    seeds whose products stay in range, which include every question id
    that is a safe integer. *)

(** [Number.isSafeInteger]: an integer that a double holds exactly, that is
    printed in full decimal, and whose products below stay finite. *)
Definition safeInteger (z : Z) : Prop := (Z.abs z <= 2 ^ 53 - 1)%Z.

Module Js.

(** A number: finite, or one of [NaN], [Infinity], [-Infinity].  The code
    only adds and multiplies a seed by positive constants before it takes
    the sine, and the sine of each of the three is [NaN], so they are one
    case here. *)
Inductive number :=
| Finite (q : Q)
| NotFinite.

(** The least magnitude that is rounded to an infinity,
    [2^1024 - 2^970]. *)
Definition overflowBound : Z := (2 ^ 1024 - 2 ^ 970)%Z.

(** The result of an arithmetic operation whose exact value is [q]: an
    infinity when [q] is out of range.  The rounding of a value in range is
    not modelled. *)
Definition ofExact (q : Q) : number :=
  if Qle_bool (inject_Z overflowBound) (Qabs q) then NotFinite else Finite q.

(** [x + c] and [x * c] for a finite constant [c] that is not zero. *)
Definition plus (x : number) (c : Q) : number :=
  match x with
  | Finite q => ofExact (q + c)
  | NotFinite => NotFinite
  end.

Definition times (x : number) (c : Q) : number :=
  match x with
  | Finite q => ofExact (q * c)
  | NotFinite => NotFinite
  end.

(** An index expression: a position, or [NaN], which names the property
    [NaN] of the array. *)
Inductive index :=
| Index (i : nat)
| IndexNaN.

(** An array object: its elements, [None] for [undefined] or a hole, and
    the value of its property [NaN]. *)
Record array (A : Type) := mkArray {
  elements : list (option A);
  propertyNaN : option A
}.
Arguments mkArray {A} elements propertyNaN.
Arguments elements {A} a.
Arguments propertyNaN {A} a.

(** [result[i]] read and written; writing past the end extends the
    array. *)
Definition get {A} (result : array A) (i : index) : option A :=
  match i with
  | Index n => mjoin (elements result !! n)
  | IndexNaN => propertyNaN result
  end.

Definition put {A} (result : array A) (i : index) (v : option A) : array A :=
  match i with
  | Index n =>
      if (n <? length (elements result))%nat
      then mkArray (<[n := v]> (elements result)) (propertyNaN result)
      else mkArray (elements result
                      ++ replicate (n - length (elements result)) None ++ [v])
                   (propertyNaN result)
  | IndexNaN => mkArray (elements result) v
  end.

Section Seeded.

(** The host's [Math.sin] on finite numbers; its result lies between -1
    and 1, so what is computed from it is finite. *)
Variable Math_sin : Q -> Q.

(** [const x = Math.sin(seed * 9999) * 10000; return x - Math.floor(x)] *)
Definition seededRandom (seed : number) : number :=
  match times seed 9999 with
  | Finite y =>
      let x := (Math_sin y * 10000)%Q in
      Finite (x - inject_Z (Math_floor x))%Q
  | NotFinite => NotFinite
  end.

(** [Math.floor(seededRandom(seed + m) * m)] *)
Definition draw (seed : number) (m : nat) : index :=
  match seededRandom (plus seed (inject_Z (Z.of_nat m))) with
  | Finite r => Index (Z.to_nat (Math_floor (r * inject_Z (Z.of_nat m))%Q))
  | NotFinite => IndexNaN
  end.

(** [[result[m], result[i]] = [result[i], result[m]]]: both reads, then
    the write to [result[m]], then the write to [result[i]]. *)
Definition swap {A} (result : array A) (m : nat) (i : index) : array A :=
  let x := get result i in
  let y := get result (Index m) in
  put (put result (Index m) x) i y.

Fixpoint shuffleLoop {A} (m : nat) (seed : number) (result : array A) : array A :=
  match m with
  | O => result
  | S m' =>
      let i := draw seed m in
      shuffleLoop m' seed (swap result m' i)
  end.

Definition seededShuffle {A} (array : list A) (seed : number) : list (option A) :=
  let result := mkArray (Some <$> array) None in
  elements (shuffleLoop (length (elements result)) seed result).

End Seeded.

(** The seeds for which every product of the loop over [n] elements stays
    below [2^1023], half the range, so that the rounding of the sum and of
    the product, which is not modelled, cannot take it out of range. *)
Definition finiteDraws (seed : Q) (n : nat) : Prop :=
  forall m, (1 <= m <= n)%nat ->
    (Qabs ((seed + inject_Z (Z.of_nat m)) * 9999) < inject_Z (2 ^ 1023))%Q.

End Js.

(** ** Questions, results and the artifact store *)

Definition LF : string := String (Ascii.ascii_of_nat 10) "".

Record Question := mkQuestion {
  q_id : Z;
  questionTitle : string;
  resolution : string;
  informationPackages : list string
}.

(** The object produced by the model (the agents' [OUTPUT_SCHEMA]). *)
Record ForecastObject := mkForecastObject {
  probability : Z;
  rationale : string
}.

(** What [independentForecastingAgent] resolves to. *)
Record AgentForecast := mkAgentForecast {
  af_object : ForecastObject;
  af_prompt : string;
  af_id : string;
  af_instance : option nat
}.

(** The record written by the independent stage. *)
Record IndependentResult := mkIndependentResult {
  ir_forecastId : string;
  ir_questionId : Z;
  ir_model : string;
  ir_infoLabel : string;
  ir_instance : option nat;
  ir_information : option string;
  ir_forecast : ForecastObject;
  ir_prompt : string
}.

(** The record returned by [deliberativeForecastingAgent] and written, as it
    is, by the deliberative stage. *)
Record DeliberativeResult := mkDeliberativeResult {
  dr_forecastId : string;
  dr_questionId : Z;
  dr_condition : string;
  dr_model : string;
  dr_position : nat;
  dr_infoLabel : string;
  dr_groupId : string;
  dr_independentForecastId : string;
  dr_otherForecastIds : list string;
  dr_forecast : ForecastObject
}.

(** The argument object of [deliberativeForecastingAgent]. *)
Record DeliberationRequest := mkDeliberationRequest {
  rq_question : Question;
  rq_information : option string;
  rq_independentForecast : option IndependentResult;
  rq_otherForecasts : list (option IndependentResult);
  rq_model : string;
  rq_condition : string;
  rq_position : nat
}.

(** Observable events of a run, oldest first. *)
Inductive Event :=
| EvCall (forecastId : string)   (* the Forecasting Service is invoked *)
| EvSleep (ms : Z).            (* [await sleep(ms)] *)

#[global] Instance Event_eq_dec : EqDecision Event.
Proof. solve_decision. Defined.

(** How often the service was called for a task, and how often the run
    slept, in a trace. *)
Definition callsFor (forecastId : string) (tr : list Event) : nat :=
  length (filter (fun e => e = EvCall forecastId) tr).

Definition isSleep (e : Event) : bool :=
  match e with EvSleep _ => true | EvCall _ => false end.

Definition sleepsIn (tr : list Event) : nat :=
  length (filter (fun e => isSleep e) tr).

(** The two result directories (file path to parsed content), the state of
    the outside world on which the answers of the Forecasting Service may
    depend, and the trace of events. *)
Record State {World : Type} := mkState {
  fs_independent : gmap string IndependentResult;
  fs_deliberative : gmap string DeliberativeResult;
  world : World;
  trace : list Event
}.
Arguments State : clear implicits.
Arguments mkState {World}.

Inductive Status := cached | success | error | persistent_failure.

#[global] Instance Status_eq_dec : EqDecision Status.
Proof. solve_decision. Defined.

Record Outcome := mkOutcome {
  status : Status;
  forecastId : string;
  errorMessage : option string
}.

Definition RETRY_DELAY_MS : Z := 60000.

(** [results.filter(r => r.status === 'success' || r.status === 'cached')] *)
Definition isSucceeded (r : Outcome) : bool :=
  bool_decide (status r = success) || bool_decide (status r = cached).

(** [results.filter(r => r.status === 'error')] *)
Definition isFailed (r : Outcome) : bool := bool_decide (status r = error).

(** [await Promise.all(promises)]: the list of values, or the first
    rejection. *)
Fixpoint promiseAll {A} (rs : list (except A)) : except (list A) :=
  match rs with
  | [] => Return []
  | Throw msg :: _ => Throw msg
  | Return a :: rest =>
      match promiseAll rest with
      | Return l => Return (a :: l)
      | Throw msg => Throw msg
      end
  end.

Record QuestionResult := mkQuestionResult {
  results : list Outcome;
  persistentFailures : nat;
  skipped : nat
}.

(** ** The retry loop shared, word for word, by both [processQuestion]s

    The tasks of one round are started in array order; their files are
    pairwise distinct, so the embedding runs them one after the other and
    threads the store through.  A task that rejects (throws outside its
    [try]) rejects the [Promise.all] of its round once all tasks of the
    round have been started. *)
Section RetryLoop.

Context {World Task : Type}.
Variable forecastIdOf : Task -> string.
Variable run : Task -> State World -> except Outcome * State World.

Definition logEvent (e : Event) (st : State World) : State World :=
  mkState (fs_independent st) (fs_deliberative st) (world st) (trace st ++ [e]).

(** [pending.map(task => run(task))]: the tasks are run one after the
    other, in array order.  This is one of the schedules of the code; the
    others give the same store and outcomes when the tasks write different
    files and the answers of the service do not depend on the order of the
    calls. *)
Fixpoint dispatchAll (pending : list Task) (st : State World)
    : list (except Outcome) * State World :=
  match pending with
  | [] => ([], st)
  | task :: rest =>
      let '(r, st) := run task st in
      let '(rs, st) := dispatchAll rest st in
      (r :: rs, st)
  end.

(** [while (pending.length > 0 && retryCount < MAX_RETRIES_PER_QUESTION)].
    [remaining] is the loop variant
    [MAX_RETRIES_PER_QUESTION - retryCount]: the guard on [retryCount] is
    the match on [remaining].  Returns the final [pending] and
    [allResults]. *)
Fixpoint retryLoop (remaining retryCount : nat) (pending : list Task)
    (allResults : list Outcome) (st : State World)
    : except (list Task * list Outcome) * State World :=
  match remaining, pending with
  | O, _ | _, [] => (Return (pending, allResults), st)
  | S remaining', _ :: _ =>
      let st := if (0 <? retryCount)%nat
                then logEvent (EvSleep RETRY_DELAY_MS) st else st in
      let '(rs, st) := dispatchAll pending st in
      match promiseAll rs with
      | Throw msg => (Throw msg, st)
      | Return results =>
          let succeeded := filter (fun r => isSucceeded r) results in
          let failed := filter (fun r => isFailed r) results in
          let allResults := allResults ++ succeeded in
          if (length failed =? 0)%nat then (Return ([], allResults), st)
          else
            let pending :=
              filter (fun task =>
                        existsb (fun f => bool_decide (forecastId f = forecastIdOf task))
                                failed)
                     pending in
            retryLoop remaining' (S retryCount) pending allResults st
      end
  end.

(** The loop and the code after it: what is still pending is marked
    [persistent_failure]. *)
Definition retryAndReport (tasks : list Task) (skipped : nat) (st : State World)
    : except QuestionResult * State World :=
  let '(r, st) := retryLoop MAX_RETRIES_PER_QUESTION 0 tasks [] st in
  match r with
  | Throw msg => (Throw msg, st)
  | Return (pending, allResults) =>
      let finalFailed := length pending in
      let allResults :=
        if (0 <? finalFailed)%nat
        then allResults ++
             map (fun task => mkOutcome persistent_failure (forecastIdOf task) None)
                 pending
        else allResults in
      (Return (mkQuestionResult allResults finalFailed skipped), st)
  end.

End RetryLoop.

(** ** The batch loop shared by both [main]s *)

Record Totals := mkTotals {
  totalCompleted : nat;
  totalCached : nat;
  totalSkipped : nat;
  totalPersistentFailures : nat;
  questionsWithFailures : list Z
}.

(** How [main] ends: [process.exit(code)]; normal completion (exit status
    0); or a rejection, which [main().catch(console.error)] logs (exit
    status 0). *)
Inductive Termination :=
| Exited (code : nat)
| Finished
| Rejected (msg : string).

Definition exitStatus (t : Termination) : nat :=
  match t with
  | Exited code => code
  | Finished | Rejected _ => 0%nat
  end.

Definition countStatus (s : Status) (rs : list Outcome) : nat :=
  length (filter (fun r => status r = s) rs).

(** The [for (const {...} of batchResults)] loop; [true] when it called
    [process.exit(1)]. *)
Fixpoint processResults (batchResults : list (QuestionResult * Question))
    (acc : Totals) : Totals * bool :=
  match batchResults with
  | [] => (acc, false)
  | (r, question) :: rest =>
      let completed := countStatus success (results r) in
      let cached_ := countStatus cached (results r) in
      let acc := mkTotals (totalCompleted acc + completed)
                          (totalCached acc + cached_)
                          (totalSkipped acc + skipped r)
                          (totalPersistentFailures acc + persistentFailures r)
                          (questionsWithFailures acc) in
      if (0 <? persistentFailures r)%nat then
        let acc := mkTotals (totalCompleted acc) (totalCached acc) (totalSkipped acc)
                            (totalPersistentFailures acc)
                            (questionsWithFailures acc ++ [q_id question]) in
        if (MAX_TOTAL_FAILURES <=? length (questionsWithFailures acc))%nat
        then (acc, true)
        else processResults rest acc
      else processResults rest acc
  end.

Section BatchLoop.

Context {World : Type}.
Variable processQuestion :
  Question -> nat -> State World -> except QuestionResult * State World.

(** [batch.map((question, i) => processQuestion(question, batchStart + i))]:
    the questions of a batch, run one after the other in order (see
    [dispatchAll]). *)
Fixpoint processBatch (batch : list Question) (qIndex : nat) (st : State World)
    : list (except (QuestionResult * Question)) * State World :=
  match batch with
  | [] => ([], st)
  | question :: rest =>
      let '(r, st) := processQuestion question qIndex st in
      let r := match r with
               | Return result => Return (result, question)
               | Throw msg => Throw msg
               end in
      let '(rs, st) := processBatch rest (S qIndex) st in
      (r :: rs, st)
  end.

(** [questions.slice(batchStart, batchEnd)] *)
Definition slice {A} (l : list A) (from to : nat) : list A :=
  take (to - from) (drop from l).

(** [for (let batchStart = 0; batchStart < questions.length;
          batchStart += BATCH_SIZE)].
    [None] only when [fuel] runs out; [Some (inl acc)] when the loop ran
    to its end; [Some (inr t)] when the run ended inside the loop. *)
Fixpoint batchLoop (fuel : nat) (questions : list Question) (batchStart : nat)
    (acc : Totals) (st : State World)
    : option ((Totals + (Termination * Totals)) * State World) :=
  if (batchStart <? length questions)%nat then
    match fuel with
    | O => None
    | S fuel' =>
        let batchEnd := Nat.min (batchStart + BATCH_SIZE) (length questions) in
        let batch := slice questions batchStart batchEnd in
        let '(rs, st) := processBatch batch batchStart st in
        match promiseAll rs with
        | Throw msg => Some (inr (Rejected msg, acc), st)
        | Return batchResults =>
            let '(acc, exited) := processResults batchResults acc in
            if exited then Some (inr (Exited 1, acc), st)
            else batchLoop fuel' questions (batchStart + BATCH_SIZE) acc st
        end
    end
  else Some (inl acc, st).

End BatchLoop.

(** ** Independent stage *)

Module Independent.
Section Stage.

Context {World : Type}.
Variable Math_sin : Q -> Q.
(** The imported [independentForecastingAgent(question, information,
    model, infoLabel, instance)]: it answers or throws, and may depend on
    and change the outside world. *)
Variable independentForecastingAgent :
  World -> Question -> option string -> string -> string -> option nat ->
  World * except AgentForecast.

(** An array element that may be [undefined] is an [option]. *)
Definition getInformation (question : Question) (infoLabel : string)
    : except (option string) :=
  let infoPkgs := informationPackages question in
  if decide (infoLabel = "none") then Return (Some "No additional information available.")
  else if decide (infoLabel = "full") then Return (Some (String.concat (LF +:+ LF) infoPkgs))
  else if decide (infoLabel = "info1") then Return (infoPkgs !! 0%nat)
  else if decide (infoLabel = "info2") then Return (infoPkgs !! 1%nat)
  else if decide (infoLabel = "info3") then Return (infoPkgs !! 2%nat)
  else Throw ("Unknown info label: " +:+ infoLabel).

(** The template literal prints a question id that is a safe integer in
    full decimal, as [pretty] does. *)
Definition forecastIdOf (question : Question) (req : ParticipantSpec) : string :=
  pretty (q_id question) +:+ "-" +:+ model req +:+ "-" +:+ infoLabel req
    +:+ instanceSuffix (instance req).

Definition outputFileOf (forecastId : string) : string :=
  "data/independent-forecasts/" +:+ forecastId +:+ ".json".

Definition generateSingleForecast (question : Question) (req : ParticipantSpec)
    (st : State World) : except Outcome * State World :=
  let forecastId := forecastIdOf question req in
  let outputFile := outputFileOf forecastId in
  (* Skip if already exists *)
  if decide (is_Some (fs_independent st !! outputFile)) then
    (Return (mkOutcome cached forecastId None), st)
  else
    match getInformation question (infoLabel req) with
    | Throw msg => (Throw msg, st)
    | Return information =>
        let st := logEvent (EvCall forecastId) st in
        match independentForecastingAgent (world st) question information
                (model req) (infoLabel req) (instance req) with
        | (w, Return forecast) =>
            let result :=
              mkIndependentResult (af_id forecast) (q_id question) (model req)
                (infoLabel req) (instance req) information (af_object forecast)
                (af_prompt forecast) in
            (Return (mkOutcome success forecastId None),
             mkState (<[outputFile := result]> (fs_independent st))
                     (fs_deliberative st) w (trace st))
        | (w, Throw msg) =>
            (Return (mkOutcome error forecastId (Some msg)),
             mkState (fs_independent st) (fs_deliberative st) w (trace st))
        end
    end.

Definition processQuestion (question : Question) (qIndex : nat)
    (requiredForecasts : list ParticipantSpec) (st : State World)
    : except QuestionResult * State World :=
  retryAndReport (forecastIdOf question) (generateSingleForecast question)
                 requiredForecasts 0 st.

(** [main]; [TEST_MODE] is the [--test] flag and [questions] the parsed
    [data/processed/questions.json]. *)
Definition main (TEST_MODE : bool) (questions : list Question) (st : State World)
    : option ((Termination * Totals) * State World) :=
  let questions := if TEST_MODE then slice questions 0 2 else questions in
  match batchLoop (fun question qIndex =>
                     processQuestion question qIndex
                       (getRequiredForecasts Math_sin (q_id question) qIndex))
                  (length questions) questions 0 (mkTotals 0 0 0 0 []) st with
  | None => None
  | Some (inr t, st) => Some (t, st)
  | Some (inl acc, st) =>
      if (0 <? length (questionsWithFailures acc))%nat
      then Some ((Exited 1, acc), st)
      else Some ((Finished, acc), st)
  end.

End Stage.
End Independent.

(** ** Deliberative stage *)

Module Deliberative.
Section Stage.

Context {World : Type}.
Variable Math_sin : Q -> Q.
(** The imported [deliberativeForecastingAgent({...})]. *)
Variable deliberativeForecastingAgent :
  World -> DeliberationRequest -> World * except DeliberativeResult.

Definition loadIndependentForecast (questionId : Z) (model infoLabel : string)
    (instance : option nat) (st : State World) : option IndependentResult :=
  let suffix := instanceSuffix instance in
  let filename := "data/independent-forecasts/" +:+ pretty questionId +:+ "-"
                    +:+ model +:+ "-" +:+ infoLabel +:+ suffix +:+ ".json" in
  fs_independent st !! filename.

Record Task := mkTask {
  t_question : Question;
  t_condition : string;
  t_groupComposition : list ParticipantSpec;
  t_independentForecasts : list (option IndependentResult);
  t_position : nat;
  t_forecastId : string
}.

(** [groupComposition[position - 1].model]; every group has three members
    and positions are 1, 2, 3, so the read is always inside the group. *)
Definition agentAt (groupComposition : list ParticipantSpec) (position : nat)
    : ParticipantSpec :=
  default (mkSpec "" "" None) (groupComposition !! (position - 1)%nat).

Definition deliberativeId (question : Question) (condition : string)
    (groupComposition : list ParticipantSpec) (position : nat) : string :=
  pretty (q_id question) +:+ "-" +:+ condition +:+ "-"
    +:+ model (agentAt groupComposition position) +:+ "-" +:+ pretty position.

Definition createTask (question : Question) (condition : string)
    (groupComposition : list ParticipantSpec)
    (independentForecasts : list (option IndependentResult)) (position : nat)
    : Task :=
  mkTask question condition groupComposition independentForecasts position
         (deliberativeId question condition groupComposition position).

Definition outputFileOf (forecastId : string) : string :=
  "data/deliberative-forecasts/" +:+ forecastId +:+ ".json".

(** [parseInt(label.slice(-1))]: the last character as a digit, [NaN]
    ([None]) otherwise. *)
Fixpoint lastChar (s : string) : option Ascii.ascii :=
  match s with
  | EmptyString => None
  | String c EmptyString => Some c
  | String _ rest => lastChar rest
  end.

Definition parseLastDigit (s : string) : option nat :=
  match lastChar s with
  | Some c =>
      let n := Ascii.nat_of_ascii c in
      if (48 <=? n)%nat && (n <=? 57)%nat then Some (n - 48)%nat else None
  | None => None
  end.

Definition informationFor (question : Question) (agent : ParticipantSpec)
    : option string :=
  if decide (infoLabel agent = "full")
  then Some (String.concat (LF +:+ LF) (informationPackages question))
  else if decide (infoLabel agent = "none")
  then Some "No additional information available."
  else match parseLastDigit (infoLabel agent) with
       | Some (S n) => informationPackages question !! n
       | _ => None
       end.

(** [independentForecasts.filter((_, i) => i !== position - 1)] *)
Definition others {A} (l : list A) (position : nat) : list A :=
  map snd (List.filter (fun p => negb (fst p =? position - 1)%nat)
                       (imap (fun i x => (i, x)) l)).

Definition generateSingleDeliberativeForecast (question : Question)
    (condition : string) (groupComposition : list ParticipantSpec)
    (independentForecasts : list (option IndependentResult)) (position : nat)
    (st : State World) : except Outcome * State World :=
  let agent := agentAt groupComposition position in
  let forecastId := pretty (q_id question) +:+ "-" +:+ condition +:+ "-"
                      +:+ model agent +:+ "-" +:+ pretty position in
  let outputFile := outputFileOf forecastId in
  (* Skip if already exists *)
  if decide (is_Some (fs_deliberative st !! outputFile)) then
    (Return (mkOutcome cached forecastId None), st)
  else
    let ownForecast := mjoin (independentForecasts !! (position - 1)%nat) in
    let otherForecasts := others independentForecasts position in
    let information := informationFor question agent in
    let st := logEvent (EvCall forecastId) st in
    match deliberativeForecastingAgent (world st)
            (mkDeliberationRequest question information ownForecast otherForecasts
                                   (model agent) condition position) with
    | (w, Return result) =>
        (Return (mkOutcome success forecastId None),
         mkState (fs_independent st)
                 (<[outputFile := result]> (fs_deliberative st)) w (trace st))
    | (w, Throw msg) =>
        (Return (mkOutcome error forecastId (Some msg)),
         mkState (fs_independent st) (fs_deliberative st) w (trace st))
    end.

(** The [for (const condition of CONDITIONS)] loop of [processQuestion]:
    the tasks collected and the number skipped. *)
Fixpoint collectTasks (conditions : list string) (question : Question)
    (qIndex : nat) (st : State World) (allTasks : list Task) (skipped : nat)
    : except (list Task * nat) :=
  match conditions with
  | [] => Return (allTasks, skipped)
  | condition :: rest =>
      match getGroupComposition Math_sin condition (q_id question) qIndex with
      | Throw msg => Throw msg
      | Return groupComposition =>
          let independentForecasts :=
            map (fun agent => loadIndependentForecast (q_id question) (model agent)
                                (infoLabel agent) (instance agent) st)
                groupComposition in
          if existsb (fun f => bool_decide (f = None)) independentForecasts
          then collectTasks rest question qIndex st allTasks (skipped + 3)
          else
            let allTasks :=
              allTasks ++
              map (createTask question condition groupComposition independentForecasts)
                  [1; 2; 3]%nat in
            collectTasks rest question qIndex st allTasks skipped
      end
  end.

Definition runTask (task : Task) (st : State World) : except Outcome * State World :=
  generateSingleDeliberativeForecast (t_question task) (t_condition task)
    (t_groupComposition task) (t_independentForecasts task) (t_position task) st.

Definition processQuestion (question : Question) (qIndex : nat)
    (st : State World) : except QuestionResult * State World :=
  match collectTasks CONDITIONS question qIndex st [] 0 with
  | Throw msg => (Throw msg, st)
  | Return (allTasks, skipped) =>
      if (length allTasks =? 0)%nat
      then (Return (mkQuestionResult [] 0 skipped), st)
      else retryAndReport t_forecastId runTask allTasks skipped st
  end.

Definition main (TEST_MODE : bool) (questions : list Question) (st : State World)
    : option ((Termination * Totals) * State World) :=
  let questions := if TEST_MODE then slice questions 0 2 else questions in
  match batchLoop processQuestion (length questions) questions 0
                  (mkTotals 0 0 0 0 []) st with
  | None => None
  | Some (inr t, st) => Some (t, st)
  | Some (inl acc, st) => Some ((Finished, acc), st)
  end.

End Stage.
End Deliberative.

(** ** Dataset reducer ([build-analysis-dataset.js]) *)

(** A cell of a row object: [null] or [undefined], a string, or a number
    (integers; [String(n)] is [pretty n]). *)
Inductive value :=
| VUndefined
| VString (s : string)
| VNumber (n : Z).

(** A row object: its own properties, each name once, in insertion
    order. *)
Definition rowObject := list (string * value).

Definition comma : Ascii.ascii := Ascii.ascii_of_nat 44.
Definition dquote : Ascii.ascii := Ascii.ascii_of_nat 34.
Definition newline : Ascii.ascii := Ascii.ascii_of_nat 10.
Definition carriageReturn : Ascii.ascii := Ascii.ascii_of_nat 13.

(** A decimal digit, and a text made of digits. *)
Definition isDigit (c : Ascii.ascii) : bool :=
  (48 <=? Ascii.nat_of_ascii c)%nat && (Ascii.nat_of_ascii c <=? 57)%nat.

Fixpoint allDigits (s : string) : bool :=
  match s with
  | EmptyString => true
  | String c rest => isDigit c && allDigits rest
  end.

(** The value of a text of decimal digits. *)
Fixpoint digitsValue (acc : N) (s : string) : N :=
  match s with
  | EmptyString => acc
  | String c rest => digitsValue (acc * 10 + (Ascii.N_of_ascii c - 48))%N rest
  end.

(** A property name that is an array index: the decimal text, without
    leading zero, of an integer from 0 to [2^32 - 2]. *)
Definition arrayIndexName (name : string) : option N :=
  match name with
  | EmptyString => None
  | String c rest =>
      if allDigits name && (bool_decide (rest = "") || negb (bool_decide (c = Ascii.ascii_of_nat 48)))
      then let n := digitsValue 0 name in
           if (n <? 4294967295)%N then Some n else None
      else None
  end.

(** [Object.keys(row)]: the names that are array indices first, in
    ascending order, then the other names in insertion order. *)
Definition objectKeys (row : rowObject) : list string :=
  map snd (@merge_sort _ (fun a b : N * string => (fst a <= fst b)%N)
                       (fun a b => decide_rel N.le (fst a) (fst b))
                       (omap (fun p => (fun n => (n, fst p)) <$> arrayIndexName (fst p))
                             row))
  ++ List.filter (fun name => bool_decide (arrayIndexName name = None)) (map fst row).

(** [v.includes(c)] for a one-character [c]. *)
Fixpoint includes (c : Ascii.ascii) (v : string) : bool :=
  match v with
  | EmptyString => false
  | String d rest => bool_decide (d = c) || includes c rest
  end.

(** [v.replace] with the global pattern for the double quote: every double
    quote is written twice. *)
Fixpoint doubleQuotes (v : string) : string :=
  match v with
  | EmptyString => EmptyString
  | String d rest =>
      if bool_decide (d = dquote)
      then String dquote (String dquote (doubleQuotes rest))
      else String d (doubleQuotes rest)
  end.

(** [row[h]] *)
Fixpoint property (row : rowObject) (h : string) : option value :=
  match row with
  | [] => None
  | (k, v) :: rest => if bool_decide (k = h) then Some v else property rest h
  end.

(** The callback of [headers.map] in [toCSV], followed by the conversion
    [join] applies to the element. *)
Definition csvCell (v : option value) : string :=
  match v with
  | None | Some VUndefined => ""
  | Some (VString s) =>
      if includes comma s || includes dquote s || includes newline s
      then String dquote (doubleQuotes s +:+ String dquote "")
      else s
  | Some (VNumber n) => pretty n
  end.

Definition toCSV (rows : list rowObject) : string :=
  match rows with
  | [] => ""
  | first :: _ =>
      let headers := objectKeys first in
      let lines :=
        String.concat (String comma "") headers
        :: map (fun row =>
                  String.concat (String comma "")
                                (map (fun h => csvCell (property row h)) headers))
               rows in
      String.concat (String newline "") lines
  end.

(** *** A reader for delimited text that ends records at line feeds

    Fields are separated by commas and records by line feeds, the
    separator [toCSV] writes.  A field that starts with a double quote
    extends to the matching closing quote; inside it a doubled quote stands
    for one quote, and commas and line feeds are data.  A quote inside an
    unquoted field, or anything but a separator after a closing quote, is
    an error. *)
Inductive ReaderState := FieldStart | InUnquoted | InQuoted | AfterQuote.

Definition snoc (field : string) (c : Ascii.ascii) : string :=
  field +:+ String c "".

Fixpoint readCSV (state : ReaderState) (field : string) (record : list string)
    (records : list (list string)) (input : string) : option (list (list string)) :=
  match input with
  | EmptyString =>
      match state with
      | InQuoted => None
      | _ => Some (records ++ [record ++ [field]])
      end
  | String c rest =>
      match state with
      | FieldStart =>
          if bool_decide (c = dquote) then readCSV InQuoted "" record records rest
          else if bool_decide (c = comma)
          then readCSV FieldStart "" (record ++ [""]) records rest
          else if bool_decide (c = newline)
          then readCSV FieldStart "" [] (records ++ [record ++ [""]]) rest
          else readCSV InUnquoted (String c "") record records rest
      | InUnquoted =>
          if bool_decide (c = comma)
          then readCSV FieldStart "" (record ++ [field]) records rest
          else if bool_decide (c = newline)
          then readCSV FieldStart "" [] (records ++ [record ++ [field]]) rest
          else if bool_decide (c = dquote) then None
          else readCSV InUnquoted (snoc field c) record records rest
      | InQuoted =>
          if bool_decide (c = dquote) then readCSV AfterQuote field record records rest
          else readCSV InQuoted (snoc field c) record records rest
      | AfterQuote =>
          if bool_decide (c = dquote)
          then readCSV InQuoted (snoc field dquote) record records rest
          else if bool_decide (c = comma)
          then readCSV FieldStart "" (record ++ [field]) records rest
          else if bool_decide (c = newline)
          then readCSV FieldStart "" [] (records ++ [record ++ [field]]) rest
          else None
      end
  end.

Definition parseCSV (input : string) : option (list (list string)) :=
  readCSV FieldStart "" [] [] input.

(** *** A standard reader

    As [readCSV], and outside quotes a carriage return ends the record as a
    line feed does; a line feed that directly follows such a carriage
    return is part of the same line break.  [afterCR] tells that the
    character just read was such a carriage return. *)
Fixpoint readStandard (afterCR : bool) (state : ReaderState) (field : string)
    (record : list string) (records : list (list string)) (input : string)
    : option (list (list string)) :=
  match input with
  | EmptyString =>
      match state with
      | InQuoted => None
      | _ => Some (records ++ [record ++ [field]])
      end
  | String c rest =>
      if afterCR && bool_decide (c = newline)
      then readStandard false state field record records rest
      else
        match state with
        | FieldStart =>
            if bool_decide (c = dquote)
            then readStandard false InQuoted "" record records rest
            else if bool_decide (c = comma)
            then readStandard false FieldStart "" (record ++ [""]) records rest
            else if bool_decide (c = newline)
            then readStandard false FieldStart "" [] (records ++ [record ++ [""]]) rest
            else if bool_decide (c = carriageReturn)
            then readStandard true FieldStart "" [] (records ++ [record ++ [""]]) rest
            else readStandard false InUnquoted (String c "") record records rest
        | InUnquoted =>
            if bool_decide (c = comma)
            then readStandard false FieldStart "" (record ++ [field]) records rest
            else if bool_decide (c = newline)
            then readStandard false FieldStart "" [] (records ++ [record ++ [field]]) rest
            else if bool_decide (c = carriageReturn)
            then readStandard true FieldStart "" [] (records ++ [record ++ [field]]) rest
            else if bool_decide (c = dquote) then None
            else readStandard false InUnquoted (snoc field c) record records rest
        | InQuoted =>
            if bool_decide (c = dquote)
            then readStandard false AfterQuote field record records rest
            else readStandard false InQuoted (snoc field c) record records rest
        | AfterQuote =>
            if bool_decide (c = dquote)
            then readStandard false InQuoted (snoc field dquote) record records rest
            else if bool_decide (c = comma)
            then readStandard false FieldStart "" (record ++ [field]) records rest
            else if bool_decide (c = newline)
            then readStandard false FieldStart "" [] (records ++ [record ++ [field]]) rest
            else if bool_decide (c = carriageReturn)
            then readStandard true FieldStart "" [] (records ++ [record ++ [field]]) rest
            else None
        end
  end.

Definition parseStandard (input : string) : option (list (list string)) :=
  readStandard false FieldStart "" [] [] input.

(** What a reader is expected to return for a cell. *)
Definition cellText (v : option value) : string :=
  match v with
  | None | Some VUndefined => ""
  | Some (VString s) => s
  | Some (VNumber n) => pretty n
  end.

(** *** [buildDataset] *)

(** A JavaScript object used as a map from question ids: its properties in
    insertion order. *)
Definition objectSet {V} (obj : list (Z * V)) (key : Z) (v : V) : list (Z * V) :=
  if existsb (fun p => bool_decide (fst p = key)) obj
  then map (fun p => if bool_decide (fst p = key) then (key, v) else p) obj
  else obj ++ [(key, v)].

Definition objectGet {V} (obj : list (Z * V)) (key : Z) : option V :=
  snd <$> List.find (fun p => bool_decide (fst p = key)) obj.

(** [Object.values]: properties whose name is an array index come first, in
    ascending order, then the others in insertion order. *)
Definition isArrayIndex (key : Z) : bool :=
  bool_decide (0 <= key)%Z && bool_decide (key < 4294967295)%Z.

Definition objectValues {V} (obj : list (Z * V)) : list V :=
  map snd (@merge_sort _ (fun p q => (fst p <= fst q)%Z)
                       (fun p q => decide_rel Z.le (fst p) (fst q))
                       (List.filter (fun p => isArrayIndex (fst p)) obj)
           ++ List.filter (fun p => negb (isArrayIndex (fst p))) obj).

Record QuestionEntry := mkQuestionEntry {
  qe_id : Z;
  qe_title : string;
  qe_resolution : Z
}.

Record ForecastRow := mkForecastRow {
  fr_question_id : Z;
  fr_resolution : Z;
  fr_forecast_id : string;
  fr_stage : string;
  fr_condition : string;
  fr_model : string;
  fr_info_label : string;
  fr_position : option nat;      (* [''] for an independent forecast *)
  fr_probability : Z
}.

Record ConditionRow := mkConditionRow {
  cr_question_id : Z;
  cr_resolution : Z;
  cr_condition : string;
  cr_model : string;
  cr_info_label : string;
  cr_position : nat;
  cr_independent_forecast_id : string;
  cr_deliberative_forecast_id : string;
  cr_independent_prob : Z;
  cr_deliberative_prob : Z
}.

Record QuestionRow := mkQuestionRow {
  qr_question_id : Z;
  qr_resolution : Z;
  qr_title : string
}.

Record Dataset := mkDataset {
  forecastRows : list ForecastRow;
  conditionRows : list ConditionRow;
  questionRows : list QuestionRow
}.

(** [deliberativeByQC[key].push(f)], creating the group when it is new.  The
    keys contain a dash, so they are never array indices and
    [Object.entries] lists the groups in insertion order. *)
Fixpoint groupPush (groups : list (string * list DeliberativeResult)) (key : string)
    (f : DeliberativeResult) : list (string * list DeliberativeResult) :=
  match groups with
  | [] => [(key, [f])]
  | (k, g) :: rest =>
      if bool_decide (k = key) then (k, g ++ [f]) :: rest
      else (k, g) :: groupPush rest key f
  end.

(** [buildDataset], given what it loads.  The lookup [independentMap] is
    a plain object, taken as a map here: on the inputs of [ownReferences]
    that is what it is; on the others the code finds a member inherited
    from [Object.prototype] and throws a [TypeError] while it builds the
    condition-pair rows, and returns no dataset. *)
Definition buildDataset (questions : list Question)
    (independentForecasts : list IndependentResult)
    (deliberativeForecasts : list DeliberativeResult) : Dataset :=
  (* Create question lookup *)
  let questionMap :=
    foldl (fun m q =>
             objectSet m (q_id q)
               (mkQuestionEntry (q_id q) (questionTitle q)
                  (if bool_decide (resolution q = "yes") then 1 else 0)%Z))
          [] questions in
  (* Create independent forecast lookup *)
  let independentMap : gmap string IndependentResult :=
    foldl (fun m f => <[ir_forecastId f := f]> m) ∅ independentForecasts in
  (* Add independent forecasts *)
  let forecastRows :=
    foldl (fun rows f =>
             match objectGet questionMap (ir_questionId f) with
             | None => rows
             | Some q =>
                 rows ++ [mkForecastRow (ir_questionId f) (qe_resolution q)
                            (ir_forecastId f) "independent" "" (ir_model f)
                            (ir_infoLabel f) None (probability (ir_forecast f))]
             end)
          [] independentForecasts in
  (* Add deliberative forecasts *)
  let forecastRows :=
    foldl (fun rows f =>
             match objectGet questionMap (dr_questionId f) with
             | None => rows
             | Some q =>
                 rows ++ [mkForecastRow (dr_questionId f) (qe_resolution q)
                            (dr_forecastId f) "deliberative" (dr_condition f)
                            (dr_model f) (dr_infoLabel f) (Some (dr_position f))
                            (probability (dr_forecast f))]
             end)
          forecastRows deliberativeForecasts in
  (* Group deliberative by question+condition *)
  let deliberativeByQC :=
    foldl (fun groups f =>
             groupPush groups (pretty (dr_questionId f) +:+ "-" +:+ dr_condition f) f)
          [] deliberativeForecasts in
  let conditionRows :=
    foldl (fun rows entry =>
             match snd entry with
             | [] => rows
             | first :: _ =>
                 let qid := dr_questionId first in
                 let condition := dr_condition first in
                 match objectGet questionMap qid with
                 | None => rows
                 | Some q =>
                     (* Add one row per agent in this condition *)
                     foldl (fun rows df =>
                              match independentMap !! dr_independentForecastId df with
                              | None => rows
                              | Some indF =>
                                  rows ++ [mkConditionRow qid (qe_resolution q) condition
                                             (dr_model df) (dr_infoLabel df)
                                             (dr_position df)
                                             (dr_independentForecastId df)
                                             (dr_forecastId df)
                                             (probability (ir_forecast indF))
                                             (probability (dr_forecast df))]
                              end)
                           rows (snd entry)
                 end
             end)
          [] deliberativeByQC in
  (* Build questions table *)
  let questionRows :=
    map (fun q => mkQuestionRow (qe_id q) (qe_resolution q) (qe_title q))
        (objectValues questionMap) in
  mkDataset forecastRows conditionRows questionRows.

(** The row objects handed to [toCSV] by [main], with their properties in
    the order of the object literals. *)
Definition positionCell (p : option nat) : value :=
  match p with
  | Some n => VNumber (Z.of_nat n)
  | None => VString ""
  end.

Definition forecastRowObject (r : ForecastRow) : rowObject :=
  [ ("question_id", VNumber (fr_question_id r));
    ("resolution", VNumber (fr_resolution r));
    ("forecast_id", VString (fr_forecast_id r));
    ("stage", VString (fr_stage r));
    ("condition", VString (fr_condition r));
    ("model", VString (fr_model r));
    ("info_label", VString (fr_info_label r));
    ("position", positionCell (fr_position r));
    ("probability", VNumber (fr_probability r)) ].

Definition conditionRowObject (r : ConditionRow) : rowObject :=
  [ ("question_id", VNumber (cr_question_id r));
    ("resolution", VNumber (cr_resolution r));
    ("condition", VString (cr_condition r));
    ("model", VString (cr_model r));
    ("info_label", VString (cr_info_label r));
    ("position", VNumber (Z.of_nat (cr_position r)));
    ("independent_forecast_id", VString (cr_independent_forecast_id r));
    ("deliberative_forecast_id", VString (cr_deliberative_forecast_id r));
    ("independent_prob", VNumber (cr_independent_prob r));
    ("deliberative_prob", VNumber (cr_deliberative_prob r)) ].

Definition questionRowObject (r : QuestionRow) : rowObject :=
  [ ("question_id", VNumber (qr_question_id r));
    ("resolution", VNumber (qr_resolution r));
    ("title", VString (qr_title r)) ].

(* ================================================================== *)
(** * Vocabulary of the statements *)
(* ================================================================== *)

(** ** Retry loop *)

(** What a re-run does with a task, given the outcome the task had in the
    run that produced the store [st1]: a task marked [persistent_failure]
    calls the service again, a task that succeeded or was cached is
    answered from the store. *)
Definition rerunPrecise {World Task} (idOf : Task -> string)
    (run : Task -> State World -> except Outcome * State World)
    (task : Task) (r : QuestionResult) (st1 : State World) : Prop :=
  ((∃ o, o ∈ results r ∧ forecastId o = idOf task ∧ isSucceeded o = true) ∨
   mkOutcome persistent_failure (idOf task) None ∈ results r) ∧
  (mkOutcome persistent_failure (idOf task) None ∈ results r ->
   ∃ o st2, run task st1 = (Return o, st2)
            ∧ trace st2 = trace st1 ++ [EvCall (idOf task)]) ∧
  ((∃ o, o ∈ results r ∧ forecastId o = idOf task ∧ isSucceeded o = true) ->
   run task st1 = (Return (mkOutcome cached (idOf task) None), st1)).

Section RetryVocabulary.

Context {World Task : Type}.
Variable idOf : Task -> string.
Variable run : Task -> State World -> except Outcome * State World.
Variable fileOfId : string -> string.
Variable dir : State World -> gset string.
Variable throws : Task -> Prop.

(** What one round does, task by task. *)
Inductive Round : State World -> list Task -> list Outcome -> State World -> Prop :=
| Round_nil st : Round st [] [] st
| Round_cached st t ts os st1 :
    fileOfId (idOf t) ∈ dir st ->
    run t st = (Return (mkOutcome cached (idOf t) None), st) ->
    Round st ts os st1 ->
    Round st (t :: ts) (mkOutcome cached (idOf t) None :: os) st1
| Round_success st st' t ts os st1 :
    fileOfId (idOf t) ∉ dir st -> ¬ throws t ->
    run t st = (Return (mkOutcome success (idOf t) None), st') ->
    dir st' = {[ fileOfId (idOf t) ]} ∪ dir st ->
    trace st' = trace st ++ [EvCall (idOf t)] ->
    Round st' ts os st1 ->
    Round st (t :: ts) (mkOutcome success (idOf t) None :: os) st1
| Round_error st st' t ts os st1 msg :
    fileOfId (idOf t) ∉ dir st -> ¬ throws t ->
    run t st = (Return (mkOutcome error (idOf t) (Some msg)), st') ->
    dir st' = dir st ->
    trace st' = trace st ++ [EvCall (idOf t)] ->
    Round st' ts os st1 ->
    Round st (t :: ts) (mkOutcome error (idOf t) (Some msg) :: os) st1.

(** A task all of whose executions fail. *)
Definition alwaysFails (t : Task) : Prop :=
  forall st, fileOfId (idOf t) ∉ dir st ->
    ∃ msg st', run t st = (Return (mkOutcome error (idOf t) (Some msg)), st').

End RetryVocabulary.

(** ** The two stages *)

Section StageVocabulary.

Context {World : Type}.
Variable Math_sin : Q -> Q.

Definition independentDir (st : State World) : gset string := dom (fs_independent st).

Definition deliberativeDir (st : State World) : gset string := dom (fs_deliberative st).

Definition independentThrows (question : Question) (req : ParticipantSpec) : Prop :=
  ∃ msg, Independent.getInformation question (infoLabel req) = Throw msg.

(** A deliberative task as [createTask] builds it: its identifier is the one
    [generateSingleDeliberativeForecast] recomputes. *)
Definition taskWf (task : Deliberative.Task) : Prop :=
  Deliberative.t_forecastId task
  = Deliberative.deliberativeId (Deliberative.t_question task)
      (Deliberative.t_condition task) (Deliberative.t_groupComposition task)
      (Deliberative.t_position task).

(** The part of an independent identifier after the question id. *)
Definition independentSuffix (req : ParticipantSpec) : string :=
  "-" +:+ model req +:+ "-" +:+ infoLabel req +:+ instanceSuffix (instance req).

(** The independent results a group needs, as [processQuestion] loads them. *)
Definition loadGroup (question : Question) (g : list ParticipantSpec)
    (st : State World) : list (option IndependentResult) :=
  map (fun agent => Deliberative.loadIndependentForecast (q_id question) (model agent)
                      (infoLabel agent) (instance agent) st) g.

(** All three independent results of the group of [condition] are in the
    store. *)
Definition groupComplete (question : Question) (qIndex : nat) (st : State World)
    (condition : string) : Prop :=
  match getGroupComposition Math_sin condition (q_id question) qIndex with
  | Return g => Forall is_Some (loadGroup question g st)
  | Throw _ => False
  end.

#[global] Instance groupComplete_dec question qIndex st condition :
  Decision (groupComplete question qIndex st condition).
Proof. unfold groupComplete. destruct (getGroupComposition _ _ _ _); apply _. Defined.

(** The three tasks of a condition. *)
Definition tasksFor (question : Question) (qIndex : nat) (st : State World)
    (condition : string) : list Deliberative.Task :=
  match getGroupComposition Math_sin condition (q_id question) qIndex with
  | Return g =>
      Deliberative.createTask question condition g (loadGroup question g st)
        <$> [1; 2; 3]%nat
  | Throw _ => []
  end.

Definition deliberativeSuffix (condition : string) (g : list ParticipantSpec)
    (position : nat) : string :=
  "-" +:+ condition +:+ "-" +:+ model (Deliberative.agentAt g position)
      +:+ "-" +:+ pretty position.

Definition suffixesFor (questionId : Z) (qIndex : nat) (condition : string)
    : list string :=
  match getGroupComposition Math_sin condition questionId qIndex with
  | Return g => deliberativeSuffix condition g <$> [1; 2; 3]%nat
  | Throw _ => []
  end.

End StageVocabulary.

Definition zeroTotals : Totals := mkTotals 0 0 0 0 [].

(** ** The questions a run tallies *)

(** A result that reports a persistently failed task. *)
Definition hasPersistentFailure (r : QuestionResult) : bool :=
  existsb (fun o => bool_decide (status o = persistent_failure)) (results r).

Section RunVocabulary.

Context {World : Type}.
Variable processQuestion :
  Question -> nat -> State World -> except QuestionResult * State World.

(** The ids of the questions that report a persistently failed task when
    the questions are processed one after the other, in corpus order, from
    index [qIndex] and state [st] on.  A rejection ends the run. *)
Fixpoint failedQuestions (questions : list Question) (qIndex : nat) (st : State World)
    : list Z :=
  match questions with
  | [] => []
  | question :: rest =>
      match processQuestion question qIndex st with
      | (Return r, st) =>
          (if hasPersistentFailure r then [q_id question] else [])
          ++ failedQuestions rest (S qIndex) st
      | (Throw _, _) => []
      end
  end.

End RunVocabulary.

(** The totals a run of the batch loop ends with. *)
Definition totalsOf (x : Totals + Termination * Totals) : Totals :=
  match x with
  | inl acc => acc
  | inr (_, acc) => acc
  end.

(** The ids [processResults] adds to the tally when it reads all of
    [batchResults]. *)
Definition failedIds (batchResults : list (QuestionResult * Question)) : list Z :=
  batchResults ≫= (fun p => if (0 <? persistentFailures (fst p))%nat
                            then [q_id (snd p)] else []).

(** ** Concrete runs *)

(** A stand-in for [Math.sin], a service that is down, and services that
    answer the way the two agent modules build their replies. *)
Definition constantSin : Q -> Q := fun _ => 0%Q.

Definition unavailableAgent
    : unit -> Question -> option string -> string -> string -> option nat ->
      unit * except AgentForecast :=
  fun w _ _ _ _ _ => (w, Throw "service unavailable").

Definition answeringAgent
    : unit -> Question -> option string -> string -> string -> option nat ->
      unit * except AgentForecast :=
  fun w question _ model infoLabel instance =>
    (w, Return (mkAgentForecast (mkForecastObject 70 "rationale") "prompt"
                  (pretty (q_id question) +:+ "-" +:+ model +:+ "-" +:+ infoLabel
                     +:+ instanceSuffix instance)
                  instance)).

Definition unavailableDeliberation
    : unit -> DeliberationRequest -> unit * except DeliberativeResult :=
  fun w _ => (w, Throw "service unavailable").

Definition answeringDeliberation
    : unit -> DeliberationRequest -> unit * except DeliberativeResult :=
  fun w rq =>
    match rq_independentForecast rq with
    | Some own =>
        let question := rq_question rq in
        (w, Return (mkDeliberativeResult
                      (pretty (q_id question) +:+ "-" +:+ rq_condition rq +:+ "-"
                         +:+ rq_model rq +:+ "-" +:+ pretty (rq_position rq))
                      (q_id question) (rq_condition rq) (rq_model rq) (rq_position rq)
                      (ir_infoLabel own)
                      (pretty (q_id question) +:+ "-" +:+ rq_condition rq)
                      (ir_forecastId own)
                      (omap (fun f => ir_forecastId <$> f) (rq_otherForecasts rq))
                      (mkForecastObject 65 "updated rationale")))
    | None =>
        (w, Throw "Need own independent forecast and exactly 2 other forecasts")
    end.

Definition exampleQuestion (questionId : Z) : Question :=
  mkQuestion questionId "Will it happen?" "yes" ["first"; "second"; "third"].

Definition emptyState : State unit := mkState ∅ ∅ tt [].

Definition stateOf {A} (run : option (A * State unit)) : State unit :=
  match run with
  | Some (_, st) => st
  | None => emptyState
  end.

(** The store after the independent stage, and then the deliberative stage,
    ran over one question with services that answer. *)
Definition afterIndependent : State unit :=
  stateOf (Independent.main constantSin answeringAgent false [exampleQuestion 7]
             emptyState).

Definition afterDeliberative : State unit :=
  stateOf (Deliberative.main constantSin answeringDeliberation false [exampleQuestion 7]
             afterIndependent).

(** C3 as the specification states it: the exit status is not zero exactly
    when the tally reached the threshold. *)
Definition exitStatusClaim {World} (run : option ((Termination * Totals) * State World))
    : Prop :=
  ∃ t acc st', run = Some ((t, acc), st') ∧
    (exitStatus t ≠ 0%nat <->
     (MAX_TOTAL_FAILURES <= length (questionsWithFailures acc))%nat).


(** ** The dataset reducer *)

(** A text without comma, double quote or line feed. *)
Fixpoint isPlain (s : string) : bool :=
  match s with
  | EmptyString => true
  | String c rest =>
      negb (bool_decide (c = comma)) && negb (bool_decide (c = dquote))
      && negb (bool_decide (c = newline)) && isPlain rest
  end.

(** The input left when a field ends: nothing, or a comma or a line feed
    and what follows. *)
Definition isDelimited (tail : string) : Prop :=
  tail = "" ∨ ∃ rest, tail = String comma rest ∨ tail = String newline rest.

(** What the reader does at the end of a field whose content is [field]. *)
Definition endField (field : string) (record : list string)
    (records : list (list string)) (tail : string) : option (list (list string)) :=
  match tail with
  | EmptyString => Some (records ++ [record ++ [field]])
  | String c rest =>
      if bool_decide (c = comma)
      then readCSV FieldStart "" (record ++ [field]) records rest
      else readCSV FieldStart "" [] (records ++ [record ++ [field]]) rest
  end.

(** [text] is read as a field of content [content]. *)
Definition encodes (text content : string) : Prop :=
  forall record records tail,
    isDelimited tail ->
    readCSV FieldStart "" record records (text +:+ tail)
    = endField content record records tail.

Definition lineText (cells : list (string * string)) : string :=
  String.concat (String comma "") (map fst cells).

(** No independent result carries the id a deliberative result refers to. *)
Definition referenceAbsent (independentForecasts : list IndependentResult)
    (f : DeliberativeResult) : Prop :=
  forall indF, indF ∈ independentForecasts ->
    ir_forecastId indF ≠ dr_independentForecastId f.

(** The corpus holds the question of a deliberative result. *)
Definition questionKnown (questions : list Question) (f : DeliberativeResult) : Prop :=
  exists q, q ∈ questions ∧ q_id q = dr_questionId f.

(** The forecast row of a deliberative result, for a resolution. *)
Definition deliberativeRow (res : Z) (f : DeliberativeResult) : ForecastRow :=
  mkForecastRow (dr_questionId f) res (dr_forecastId f) "deliberative"
    (dr_condition f) (dr_model f) (dr_infoLabel f) (Some (dr_position f))
    (probability (dr_forecast f)).

Definition independentRow (res : Z) (f : IndependentResult) : ForecastRow :=
  mkForecastRow (ir_questionId f) res (ir_forecastId f) "independent" ""
    (ir_model f) (ir_infoLabel f) None (probability (ir_forecast f)).

(** A deliberative result whose reference is absent has no condition-pair
    row and still has its forecast row. *)
Definition missingJoinClaim (questions : list Question)
    (independentForecasts : list IndependentResult)
    (deliberativeForecasts : list DeliberativeResult) : Prop :=
  let dataset := buildDataset questions independentForecasts deliberativeForecasts in
  forall f, f ∈ deliberativeForecasts ->
    referenceAbsent independentForecasts f ->
    (forall row, row ∈ conditionRows dataset ->
       cr_independent_forecast_id row ≠ dr_independentForecastId f)
    ∧ exists res, deliberativeRow res f ∈ forecastRows dataset.

Definition exampleIndependent : IndependentResult :=
  mkIndependentResult "7-pro-full" 7 "pro" "full" None (Some "first")
    (mkForecastObject 70 "likely") "prompt".

Definition exampleDeliberative : DeliberativeResult :=
  mkDeliberativeResult "7-diverse_full-pro-1" 7 "diverse_full" "pro" 1 "full"
    "7-diverse_full" "7-pro-full" [] (mkForecastObject 65 "less likely").

Definition trickyText : string :=
  "a," +:+ String dquote "b" +:+ String newline "c".

(** A seed far out of range: [2^1020]. *)
Definition hugeSeed : Q := inject_Z (2 ^ 1020).

(** C9 as the claim states it, for an array and a seed: the result holds
    exactly the elements of the array. *)
Definition shuffleClaim {A} (Math_sin : Q -> Q) (array : list A) (seed : Q) : Prop :=
  ∃ result, Js.seededShuffle Math_sin array (Js.Finite seed) = Some <$> result
            ∧ result ≡ₚ array.

(* ================================================================== *)
(** * The rest of the pipeline: file names, agents, reducer tables *)
(* ================================================================== *)



(** The output files of the forecasts a question requires, and those of a
    corpus, whose questions are numbered from [qIndex] on. *)
Definition independentFiles (Math_sin : Q -> Q) (question : Question) (qIndex : nat)
    : list string :=
  (fun req => Independent.outputFileOf (Independent.forecastIdOf question req))
    <$> getRequiredForecasts Math_sin (q_id question) qIndex.

Fixpoint independentCorpusFiles (Math_sin : Q -> Q) (questions : list Question)
    (qIndex : nat) : list string :=
  match questions with
  | [] => []
  | question :: rest =>
      independentFiles Math_sin question qIndex
      ++ independentCorpusFiles Math_sin rest (S qIndex)
  end.

(** The output files of the 18 deliberative tasks of a question. *)
Definition deliberativeFiles (Math_sin : Q -> Q) (question : Question) (qIndex : nat)
    : list string :=
  CONDITIONS ≫= (fun condition =>
    match getGroupComposition Math_sin condition (q_id question) qIndex with
    | Return g =>
        (fun position =>
           Deliberative.outputFileOf
             (Deliberative.deliberativeId question condition g position))
          <$> [1; 2; 3]%nat
    | Throw _ => []
    end).

Fixpoint deliberativeCorpusFiles (Math_sin : Q -> Q) (questions : list Question)
    (qIndex : nat) : list string :=
  match questions with
  | [] => []
  | question :: rest =>
      deliberativeFiles Math_sin question qIndex
      ++ deliberativeCorpusFiles Math_sin rest (S qIndex)
  end.

Definition INFO_LABELS : list string := ["full"; "none"; "info1"; "info2"; "info3"].

(** How the independent stage may change the store: files of the
    independent directory are kept as they are, new ones are among
    [files], and the deliberative directory is untouched. *)
Definition independentFrame {World} (files : gset string) (st st' : State World) : Prop :=
  fs_independent st ⊆ fs_independent st'
  ∧ dom (fs_independent st') ⊆ dom (fs_independent st) ∪ files
  ∧ fs_deliberative st' = fs_deliberative st.

(** The same for the deliberative stage. *)
Definition deliberativeFrame {World} (files : gset string) (st st' : State World) : Prop :=
  fs_deliberative st ⊆ fs_deliberative st'
  ∧ dom (fs_deliberative st') ⊆ dom (fs_deliberative st) ∪ files
  ∧ fs_independent st' = fs_independent st.

(** ** Relations between the states before and after a run *)

(** ** Counting calls and outcomes in the retry loop *)

(** ** The two agents and [getOpenModel]
    ([independent-forecasting-agent.js], [deliberative-forecasting-agent.js],
    [agentUtils.js]) *)

Module Agent.

(** What [modelMapOpenrouter[modelName]] can be when it is truthy: a model
    identifier of the table, or a property every object inherits from
    [Object.prototype]. *)
Inductive ModelHandle :=
| OpenRouterModel (id : string)
| InheritedProperty (name : string).

Definition modelMapOpenrouter : list (string * string) :=
  [ ("pro", "google/gemini-2.5-pro");
    ("sonnet", "anthropic/claude-sonnet-4.5");
    ("gpt5", "openai/gpt-5") ].

Definition objectPrototypeNames : list string :=
  [ "constructor"; "__defineGetter__"; "__defineSetter__"; "hasOwnProperty";
    "__lookupGetter__"; "__lookupSetter__"; "isPrototypeOf";
    "propertyIsEnumerable"; "toString"; "valueOf"; "__proto__";
    "toLocaleString" ].

(** [modelMapOpenrouter[modelName]]; [None] is [undefined]. *)
Definition lookupModel (modelName : string) : option ModelHandle :=
  match List.find (fun p => bool_decide (fst p = modelName)) modelMapOpenrouter with
  | Some p => Some (OpenRouterModel (snd p))
  | None =>
      if bool_decide (modelName ∈ objectPrototypeNames)
      then Some (InheritedProperty modelName)
      else None
  end.

(** [getOpenModel]; the key is [process.env.OPENROUTER_API_KEY], absent or
    a string, and the empty string is falsy. *)
Definition getOpenModel (OPENROUTER_API_KEY : option string) (modelName : string)
    : except ModelHandle :=
  match OPENROUTER_API_KEY with
  | None | Some EmptyString => Throw "OpenRouter API key not configured"
  | Some _ =>
      match lookupModel modelName with
      | None => Throw ("Invalid model: " +:+ modelName)
      | Some m => Return m
      end
  end.

Record Message := mkMessage {
  role : string;
  content : string
}.

(** What [generateObject] is given besides the model: a prompt or a list
    of messages. *)
Inductive Payload :=
| Prompt (prompt : string)
| Messages (messages : list Message).

Definition formatIndependentForecastAsProse (forecast : ForecastObject) : string :=
  rationale forecast +:+ LF +:+ LF +:+ "**Forecast: "
    +:+ pretty (probability forecast) +:+ "%**".

(** The [map] and [join] that build [otherAnalyses]. *)
Definition otherAnalyses (otherForecasts : list ForecastObject) : string :=
  String.concat (LF +:+ LF +:+ "---" +:+ LF +:+ LF)
    (imap (fun i f =>
             "## Forecaster " +:+ pretty (i + 2)%nat +:+ "'s Analysis" +:+ LF +:+ LF
               +:+ formatIndependentForecastAsProse f)
          otherForecasts).

Definition deliberationPrompt (otherForecasts : list ForecastObject) : string :=
  "You are now in a deliberation phase with two other expert forecasters.

Please review their analyses:

---

"
    +:+ otherAnalyses otherForecasts
    +:+ "

---

Consider their reasoning any new information or arguments carefully:
- What evidence or arguments did they raise that you hadn't considered?
- Do you find their reasoning convincing? Why or why not?
- Should you update your forecast based on their input? If so, how much? If not, why not?

Weigh your previous analysis and critically review your own reasoning and evidence in light of any new information or arguments, as if you were participating in a structured deliberation process.

Based on your thoughtful analysis, provide a clear and concise review of all the arguments and information you have considered, your updated rationale, and your updated forecast. Do not feel obligated to update your forecast if you do not think it is warranted.

Provide your updated analysis and forecast.".

Section Service.

Context {World : Type}.
Variable OPENROUTER_API_KEY : option string.
(** [generateObject] of the [ai] package: the object the model produced, or
    an error; it may depend on and change the outside world. *)
Variable generateObject :
  World -> ModelHandle -> Payload -> World * except ForecastObject.
(** The prompt of the independent agent and the reconstructed first
    message of the deliberation: texts built from the question and the
    information. *)
Variable generatePrompt : Question -> option string -> string.
Variable originalPrompt : Question -> option string -> string.

Definition independentForecastingAgent (w : World) (question : Question)
    (information : option string) (model infoLabel : string) (instance : option nat)
    : World * except AgentForecast :=
  if bool_decide (infoLabel = "") || bool_decide (model = "")
  then (w, Throw "Label and model are required")
  else
    let forecastId := pretty (q_id question) +:+ "-" +:+ model +:+ "-" +:+ infoLabel
                        +:+ instanceSuffix instance in
    let prompt := generatePrompt question information in
    match getOpenModel OPENROUTER_API_KEY model with
    | Throw msg => (w, Throw msg)
    | Return handle =>
        match generateObject w handle (Prompt prompt) with
        | (w, Return object) =>
            (w, Return (mkAgentForecast object prompt forecastId instance))
        | (w, Throw msg) => (w, Throw msg)
        end
    end.

Definition buildDeliberationMessages (independentForecast : ForecastObject)
    (otherForecasts : list ForecastObject) (question : Question)
    (information : option string) : list Message :=
  [ mkMessage "user" (originalPrompt question information);
    mkMessage "assistant" (formatIndependentForecastAsProse independentForecast);
    mkMessage "user" (deliberationPrompt otherForecasts) ].

(** [otherForecasts.map(f => f.forecast)]: reading a property of [null]
    throws a [TypeError]. *)
Definition forecastsOf (otherForecasts : list (option IndependentResult))
    : option (list ForecastObject) :=
  mapM (fun f => ir_forecast <$> f) otherForecasts.

Definition deliberativeForecastingAgent (w : World) (request : DeliberationRequest)
    : World * except DeliberativeResult :=
  let question := rq_question request in
  let otherForecasts := rq_otherForecasts request in
  let model := rq_model request in
  let condition := rq_condition request in
  let position := rq_position request in
  match rq_independentForecast request with
  | None => (w, Throw "Need own independent forecast and exactly 2 other forecasts")
  | Some independentForecast =>
      if negb (length otherForecasts =? 2)%nat
      then (w, Throw "Need own independent forecast and exactly 2 other forecasts")
      else if bool_decide (model = "") || bool_decide (condition = "")
              || (position =? 0)%nat
      then (w, Throw "Model, condition, and position are required")
      else
        let forecastId := pretty (q_id question) +:+ "-" +:+ condition +:+ "-"
                            +:+ model +:+ "-" +:+ pretty position in
        let groupId := pretty (q_id question) +:+ "-" +:+ condition in
        match forecastsOf otherForecasts with
        | None => (w, Throw "Cannot read properties of null (reading 'forecast')")
        | Some forecasts =>
            let messages :=
              buildDeliberationMessages (ir_forecast independentForecast) forecasts
                question (rq_information request) in
            match getOpenModel OPENROUTER_API_KEY model with
            | Throw msg => (w, Throw msg)
            | Return handle =>
                match generateObject w handle (Messages messages) with
                | (w, Return object) =>
                    (w, Return (mkDeliberativeResult forecastId (q_id question)
                                  condition model position
                                  (ir_infoLabel independentForecast) groupId
                                  (ir_forecastId independentForecast)
                                  (omap (fun f => ir_forecastId <$> f) otherForecasts)
                                  object))
                | (w, Throw msg) => (w, Throw msg)
                end
            end
        end
  end.

End Service.
End Agent.

(** A column name the reducer can use: no comma, double quote, line feed or
    carriage return (the header line is written without quoting), and not
    the name of a member every object inherits from [Object.prototype]
    (for a row without the property, [row[h]] would be that member). *)
Definition columnName (h : string) : Prop :=
  isPlain h = true ∧ includes carriageReturn h = false
  ∧ h ∉ Agent.objectPrototypeNames.

(** A cell a standard reader gets back: a string that holds a carriage
    return also holds a comma, a double quote or a line feed, so that
    [toCSV] quotes it; a number is a safe integer, printed in full. *)
Definition quotedCell (v : option value) : Prop :=
  match v with
  | Some (VString s) => isPlain s = true -> includes carriageReturn s = false
  | Some (VNumber n) => safeInteger n
  | _ => True
  end.

(** What the standard reader does at the end of a field. *)
Definition endFieldStandard (field : string) (record : list string)
    (records : list (list string)) (tail : string) : option (list (list string)) :=
  match tail with
  | EmptyString => Some (records ++ [record ++ [field]])
  | String c rest =>
      if bool_decide (c = comma)
      then readStandard false FieldStart "" (record ++ [field]) records rest
      else readStandard false FieldStart "" [] (records ++ [record ++ [field]]) rest
  end.

Definition encodesStandard (text content : string) : Prop :=
  forall record records tail,
    isDelimited tail ->
    readStandard false FieldStart "" record records (text +:+ tail)
    = endFieldStandard content record records tail.

(** C8 at a value with a lone carriage return. *)
Definition carriageReturnRow : rowObject :=
  [("rationale", VString ("a" +:+ String carriageReturn "b"))].

(** A text that is written and read without quoting. *)
Definition isBare (s : string) : bool :=
  isPlain s && negb (includes carriageReturn s).

(** The lines [toCSV] joins with line feeds: the header and one line for
    each row. *)
Definition writtenLines (rows : list rowObject) : list string :=
  match rows with
  | [] => []
  | first :: _ =>
      let headers := objectKeys first in
      String.concat (String comma "") headers
      :: map (fun row =>
                String.concat (String comma "")
                              (map (fun h => csvCell (property row h)) headers))
             rows
  end.

(** The inputs on which the lookup [independentMap] of [buildDataset], a
    plain object, is a map.  Assigning to the name [__proto__] sets the
    prototype of the object instead of a property, and looking up a name the
    object lacks but [Object.prototype] has yields the inherited member,
    which is truthy and from which reading [forecast.probability] throws a
    [TypeError].  So no independent result is called [__proto__], and a
    deliberative result that refers to an inherited name refers to a loaded
    independent result. *)
Definition ownReferences (independentForecasts : list IndependentResult)
    (deliberativeForecasts : list DeliberativeResult) : Prop :=
  Forall (fun f => ir_forecastId f ≠ "__proto__") independentForecasts
  ∧ Forall (fun df =>
              dr_independentForecastId df ∈ Agent.objectPrototypeNames ->
              ∃ f, f ∈ independentForecasts
                   ∧ ir_forecastId f = dr_independentForecastId df)
           deliberativeForecasts.

(** The record the deliberative agent returns for a task, from the stored
    record of the task's own agent, those of the two other members of the
    group and the object the model produced. *)
Definition deliberativeRecord (task : Deliberative.Task) (own : IndependentResult)
    (others : list IndependentResult) (object : ForecastObject) : DeliberativeResult :=
  let question := Deliberative.t_question task in
  mkDeliberativeResult (Deliberative.t_forecastId task) (q_id question)
    (Deliberative.t_condition task)
    (model (Deliberative.agentAt (Deliberative.t_groupComposition task)
                                 (Deliberative.t_position task)))
    (Deliberative.t_position task) (ir_infoLabel own)
    (pretty (q_id question) +:+ "-" +:+ Deliberative.t_condition task)
    (ir_forecastId own) (ir_forecastId <$> others) object.
(** ** The agents *)

(** ** The rows of the dataset, stated on the inputs *)

(** [q.resolution === 'yes' ? 1 : 0] *)
Definition resolutionValue (q : Question) : Z :=
  if bool_decide (resolution q = "yes") then 1%Z else 0%Z.

(** The entry of the question lookup for an id: a later question with the
    same id replaces an earlier one. *)
Definition lastQuestion (questions : list Question) (id : Z) : option Question :=
  last (filter (fun q => q_id q = id) questions).

(** The same for the independent lookup. *)
Definition lastIndependent (independentForecasts : list IndependentResult)
    (id : string) : option IndependentResult :=
  last (filter (fun f => ir_forecastId f = id) independentForecasts).

Definition forecastRowOfIndependent (questions : list Question)
    (f : IndependentResult) : option ForecastRow :=
  (fun q => independentRow (resolutionValue q) f)
    <$> lastQuestion questions (ir_questionId f).

Definition forecastRowOfDeliberative (questions : list Question)
    (f : DeliberativeResult) : option ForecastRow :=
  (fun q => deliberativeRow (resolutionValue q) f)
    <$> lastQuestion questions (dr_questionId f).

(** The condition-pair row of a deliberative result: it needs the question
    and the independent result the deliberative result refers to. *)
Definition conditionRowOf (questions : list Question)
    (independentForecasts : list IndependentResult) (df : DeliberativeResult)
    : option ConditionRow :=
  match lastQuestion questions (dr_questionId df),
        lastIndependent independentForecasts (dr_independentForecastId df) with
  | Some q, Some indF =>
      Some (mkConditionRow (dr_questionId df) (resolutionValue q) (dr_condition df)
              (dr_model df) (dr_infoLabel df) (dr_position df)
              (dr_independentForecastId df) (dr_forecastId df)
              (probability (ir_forecast indF)) (probability (dr_forecast df)))
  | _, _ => None
  end.

Definition questionRowOf (q : Question) : QuestionRow :=
  mkQuestionRow (q_id q) (resolutionValue q) (questionTitle q).

(** The key under which [buildDataset] groups a deliberative result. *)
Definition groupKey (f : DeliberativeResult) : string :=
  pretty (dr_questionId f) +:+ "-" +:+ dr_condition f.

Definition questionEntryOf (q : Question) : QuestionEntry :=
  mkQuestionEntry (q_id q) (questionTitle q) (resolutionValue q).

(** ** [main] of the dataset reducer *)

Module Reducer.

(** What [main] writes to the three files of [data/analysis]. *)
Record AnalysisFiles := mkAnalysisFiles {
  forecasts_csv : string;
  condition_pairs_csv : string;
  questions_csv : string
}.

Definition main (questions : list Question)
    (independentForecasts : list IndependentResult)
    (deliberativeForecasts : list DeliberativeResult) : AnalysisFiles :=
  let dataset := buildDataset questions independentForecasts deliberativeForecasts in
  mkAnalysisFiles
    (toCSV (forecastRowObject <$> forecastRows dataset))
    (toCSV (conditionRowObject <$> conditionRows dataset))
    (toCSV (questionRowObject <$> questionRows dataset)).

End Reducer.

(** The columns of the three tables and the texts of a row's cells. *)
Definition forecastColumns : list string :=
  ["question_id"; "resolution"; "forecast_id"; "stage"; "condition"; "model";
   "info_label"; "position"; "probability"].

Definition forecastFields (r : ForecastRow) : list string :=
  [pretty (fr_question_id r); pretty (fr_resolution r); fr_forecast_id r; fr_stage r;
   fr_condition r; fr_model r; fr_info_label r;
   match fr_position r with Some n => pretty (Z.of_nat n) | None => "" end;
   pretty (fr_probability r)].

Definition conditionColumns : list string :=
  ["question_id"; "resolution"; "condition"; "model"; "info_label"; "position";
   "independent_forecast_id"; "deliberative_forecast_id"; "independent_prob";
   "deliberative_prob"].

Definition conditionFields (r : ConditionRow) : list string :=
  [pretty (cr_question_id r); pretty (cr_resolution r); cr_condition r; cr_model r;
   cr_info_label r; pretty (Z.of_nat (cr_position r)); cr_independent_forecast_id r;
   cr_deliberative_forecast_id r; pretty (cr_independent_prob r);
   pretty (cr_deliberative_prob r)].

Definition questionColumns : list string := ["question_id"; "resolution"; "title"].

Definition questionFields (r : QuestionRow) : list string :=
  [pretty (qr_question_id r); pretty (qr_resolution r); qr_title r].

(** ** What the deliberative stage stores can be joined *)

(** Every record of the deliberative directory belongs to a question of
    the corpus and refers, by [independentForecastId], to a record stored in
    the independent directory under a name
    [data/independent-forecasts/<name>.json]. *)
Definition deliberativeStoreJoins {World} (questions : list Question)
    (st : State World) : Prop :=
  forall path r, fs_deliberative st !! path = Some r ->
    (∃ id, path = Deliberative.outputFileOf id)
    ∧ (∃ q, q ∈ questions ∧ q_id q = dr_questionId r)
    ∧ ∃ name own, fs_independent st !! Independent.outputFileOf name = Some own
                  ∧ ir_forecastId own = dr_independentForecastId r.

(** The relation the deliberative stage keeps between the states before
    and after a step, for an independent directory [ind]. *)
Definition joinStep {World} (questions : list Question) (ind : gmap string IndependentResult)
    (st st' : State World) : Prop :=
  fs_independent st = ind ->
  fs_independent st' = ind
  ∧ (deliberativeStoreJoins questions st -> deliberativeStoreJoins questions st').

(** A task that belongs to a question of the corpus and carries records
    loaded from [ind]. *)
Definition taskLoaded (questions : list Question) (ind : gmap string IndependentResult)
    (task : Deliberative.Task) : Prop :=
  taskWf task
  ∧ Deliberative.t_question task ∈ questions
  ∧ Forall (fun f => forall own, f = Some own ->
              ∃ name, ind !! Independent.outputFileOf name = Some own)
           (Deliberative.t_independentForecasts task).

(** ** [loadForecasts] *)

Definition INDEPENDENT_DIR : string := "data/independent-forecasts".
Definition DELIBERATIVE_DIR : string := "data/deliberative-forecasts".

(** [s.endsWith(suffix)] *)
Fixpoint endsWith (suffix s : string) : bool :=
  if bool_decide (s = suffix) then true
  else match s with
       | EmptyString => false
       | String _ rest => endsWith suffix rest
       end.

(** [loadForecasts(dir)].  [readdirSync] is what the file system lists for
    [dir], [None] when the directory does not exist; [files] maps the path
    of a file to its parsed content.  Reading a listed name that is not a
    file throws ([None]). *)
Definition loadForecasts {A} (dir : string) (readdirSync : option (list string))
    (files : gmap string A) : option (list A) :=
  match readdirSync with
  | None => Some []
  | Some names =>
      let files_ := List.filter (fun f => endsWith ".json" f) names in
      mapM (fun f => files !! (dir +:+ "/" +:+ f)) files_
  end.

(** ** Concrete services and stores *)

(** A model service that answers every call with the same forecast. *)
Definition answeringService
    : unit -> Agent.ModelHandle -> Agent.Payload -> unit * except ForecastObject :=
  fun w _ _ => (w, Return (mkForecastObject 65 "updated rationale")).

Definition examplePrompt : Question -> option string -> string :=
  fun _ _ => "prompt".

(** A store with one independent record and the deliberative record that
    refers to it, and the listings of its two directories. *)
Definition exampleStore : State unit :=
  mkState {[ Independent.outputFileOf "7-pro-full" := exampleIndependent ]}
          {[ Deliberative.outputFileOf "7-diverse_full-pro-1" := exampleDeliberative ]}
          tt [].

Definition exampleIndependentNames : list string := ["7-pro-full.json"].
Definition exampleDeliberativeNames : list string := ["7-diverse_full-pro-1.json"].

(* ================================================================== *)
(** * Theorems *)
(* ================================================================== *)

(** ** The seeded shuffle *)

Section SeededFacts.

Variable Math_sin : Q -> Q.

Lemma seededRandom_unit (seed : Q) :
  (0 <= seededRandom Math_sin seed)%Q ∧ (seededRandom Math_sin seed < 1)%Q.
Proof.
  unfold seededRandom, Math_floor.
  set (x := (Math_sin (seed * 9999) * 10000)%Q).
  pose proof (Qfloor_le x) as Hlo.
  pose proof (Qlt_floor x) as Hhi.
  rewrite inject_Z_plus in Hhi. change (inject_Z 1) with 1%Q in Hhi.
  split; lra.
Qed.

(** Every index drawn for a non-empty prefix lies inside that prefix. *)
Lemma draw_in_range (seed : Q) (m : nat) :
  (0 < m)%nat → (draw Math_sin seed m < m)%nat.
Proof.
  intros Hm. unfold draw, Math_floor.
  set (r := seededRandom Math_sin (seed + inject_Z (Z.of_nat m))).
  destruct (seededRandom_unit (seed + inject_Z (Z.of_nat m))) as [Hr0 Hr1].
  fold r in Hr0, Hr1.
  assert (Hm0 : (0 < inject_Z (Z.of_nat m))%Q).
  { change 0%Q with (inject_Z 0). rewrite <- Zlt_Qlt. lia. }
  assert (Hlo : (0 <= Qfloor (r * inject_Z (Z.of_nat m)))%Z).
  { rewrite <- (Qfloor_Z 0). apply Qfloor_resp_le.
    apply Qmult_le_0_compat; [exact Hr0 | apply Qlt_le_weak, Hm0]. }
  assert (Hhi : (Qfloor (r * inject_Z (Z.of_nat m)) < Z.of_nat m)%Z).
  { rewrite Zlt_Qlt.
    eapply Qle_lt_trans; [apply Qfloor_le|].
    assert (H := Qmult_lt_compat_r r 1 _ Hm0 Hr1). lra. }
  lia.
Qed.

Lemma swap_length {A} (l : list A) m i : length (swap l m i) = length l.
Proof.
  unfold swap. destruct (l !! i), (l !! m); try done.
  by rewrite !length_insert.
Qed.

Lemma swap_Permutation {A} (l : list A) m i : swap l m i ≡ₚ l.
Proof.
  unfold swap.
  destruct (l !! i) as [x|] eqn:Hi, (l !! m) as [y|] eqn:Hm; try done.
  by apply Permutation_insert_swap.
Qed.

Lemma shuffleLoop_Permutation {A} m seed (l : list A) :
  shuffleLoop Math_sin m seed l ≡ₚ l.
Proof.
  revert l. induction m as [|m IH]; intros l; simpl; [done|].
  rewrite IH. apply swap_Permutation.
Qed.

(** Inside the loop both indices of every swap are valid positions, so the
    fall-through branch of [swap] is never taken. *)
Lemma swap_in_range {A} (l : list A) m i :
  (m < length l)%nat → (i < length l)%nat →
  ∃ x y, l !! i = Some x ∧ l !! m = Some y ∧
         swap l m i = <[i := y]> (<[m := x]> l).
Proof.
  intros Hm Hi.
  destruct (lookup_lt_is_Some_2 l i Hi) as [x Hx].
  destruct (lookup_lt_is_Some_2 l m Hm) as [y Hy].
  exists x, y. unfold swap. by rewrite Hx, Hy.
Qed.

Lemma shuffle3 {A} (a b c : A) (seed : Q) :
  seededShuffle Math_sin [a; b; c] seed ∈
    [ [a; b; c]; [b; a; c]; [a; c; b]; [c; a; b]; [c; b; a]; [b; c; a] ].
Proof.
  unfold seededShuffle. simpl.
  pose proof (draw_in_range seed 3 ltac:(lia)) as H3.
  pose proof (draw_in_range seed 2 ltac:(lia)) as H2.
  pose proof (draw_in_range seed 1 ltac:(lia)) as H1.
  destruct (draw Math_sin seed 3) as [|[|[|?]]]; [| | |lia];
  destruct (draw Math_sin seed 2) as [|[|?]]; try lia;
  destruct (draw Math_sin seed 1) as [|?]; try lia;
  simpl; set_solver.
Qed.

Lemma heapShuffleLoop_spec {A} m seed result (arr : list A) h :
  h !! result = Some arr →
  heapShuffleLoop Math_sin m seed result h
  = <[result := shuffleLoop Math_sin m seed arr]> h.
Proof.
  revert arr h. induction m as [|m IH]; intros arr h Hr; simpl.
  - by rewrite insert_id.
  - unfold heapSwap at 1. rewrite Hr.
    rewrite (IH (swap arr m (draw Math_sin seed (S m)))).
    + by rewrite insert_insert_eq.
    + by rewrite lookup_insert_eq.
Qed.


(** C1. For every question the list required by the independent stage is
    the concatenation, in the order of [CONDITIONS], of the groups that
    the deliberative stage computes: the k-th block of three required
    forecasts is, element by element, the group of the k-th condition. *)
Theorem composition_agreement (questionId : Z) (qIndex : nat) :
  ∃ groups : list (list ParticipantSpec),
    Forall2 (fun condition g =>
               getGroupComposition Math_sin condition questionId qIndex = Return g
               ∧ length g = 3%nat)
            CONDITIONS groups
    ∧ getRequiredForecasts Math_sin questionId qIndex = concat groups.
Proof.
  pose proof (shuffle3 "info1" "info2" "info3" (inject_Z questionId)) as Hi.
  pose proof (shuffle3 "pro" "sonnet" "gpt5" (inject_Z questionId + 1)%Q) as Hm.
  pose proof (Nat.mod_upper_bound qIndex 3 ltac:(lia)) as Hq.
  unfold getRequiredForecasts, CONDITIONS.
  eexists [_; _; _; _; _; _]. split.
  { repeat (constructor; [split; reflexivity|]). constructor. }
  unfold MODELS in *.
  set (infoLabels := seededShuffle Math_sin ["info1"; "info2"; "info3"] _) in *.
  set (models := seededShuffle Math_sin ["pro"; "sonnet"; "gpt5"] _) in *.
  clearbody infoLabels models.
  set (r := (qIndex mod 3)%nat) in *. clearbody r.
  destruct r as [|[|[|?]]]; [| | |lia]; clear Hq;
  repeat (apply elem_of_cons in Hm as [-> | Hm]);
    try (by apply elem_of_nil in Hm);
  repeat (apply elem_of_cons in Hi as [-> | Hi]);
    try (by apply elem_of_nil in Hi);
  vm_compute; reflexivity.
Qed.

End SeededFacts.

(** ** The seeded shuffle on JavaScript numbers *)

Section JsSeededFacts.

Variable Math_sin : Q -> Q.

Lemma ofExact_in_range (q : Q) :
  (Qabs q < inject_Z Js.overflowBound)%Q -> Js.ofExact q = Js.Finite q.
Proof.
  intros Hq. unfold Js.ofExact.
  destruct (Qle_bool _ _) eqn:Hle; [|done].
  apply Qle_bool_iff in Hle. exfalso. eapply Qlt_not_le; eassumption.
Qed.

Lemma half_range (q : Q) :
  (Qabs q < inject_Z (2 ^ 1023))%Q -> (Qabs q < inject_Z Js.overflowBound)%Q.
Proof.
  intros Hq. eapply Qlt_trans; [exact Hq|]. rewrite <- Zlt_Qlt. by vm_compute.
Qed.

Lemma draw_finite (seed : Q) (m : nat) :
  (Qabs ((seed + inject_Z (Z.of_nat m)) * 9999) < inject_Z Js.overflowBound)%Q ->
  Js.draw Math_sin (Js.Finite seed) m = Js.Index (draw Math_sin seed m).
Proof.
  intros Hm. unfold Js.draw, Js.seededRandom, Js.plus, Js.times.
  assert (Hs : (Qabs (seed + inject_Z (Z.of_nat m)) < inject_Z Js.overflowBound)%Q).
  { eapply Qle_lt_trans; [|exact Hm]. rewrite Qabs_Qmult.
    pose proof (Qabs_nonneg (seed + inject_Z (Z.of_nat m))) as H0.
    change (Qabs 9999) with 9999%Q. lra. }
  rewrite (ofExact_in_range _ Hs), (ofExact_in_range _ Hm). reflexivity.
Qed.

Lemma swap_finite {A} (l : list A) (nan : option A) (m i : nat) :
  (m < length l)%nat -> (i < length l)%nat ->
  Js.swap (Js.mkArray (Some <$> l) nan) m (Js.Index i)
  = Js.mkArray (Some <$> swap l m i) nan.
Proof.
  intros Hm Hi. unfold Js.swap, swap, Js.get.
  destruct (lookup_lt_is_Some_2 l i Hi) as [x Hx].
  destruct (lookup_lt_is_Some_2 l m Hm) as [y Hy].
  cbn [Js.elements Js.propertyNaN]. rewrite !list_lookup_fmap, Hx, Hy.
  cbn [fmap option_fmap option_map mjoin option_join].
  assert (H1 : Js.put (Js.mkArray (Some <$> l) nan) (Js.Index m) (Some x)
               = Js.mkArray (Some <$> <[m := x]> l) nan).
  { unfold Js.put. cbn [Js.elements Js.propertyNaN]. rewrite length_fmap.
    destruct (Nat.ltb_spec m (length l)) as [_|]; [|lia].
    by rewrite list_fmap_insert. }
  rewrite H1. unfold Js.put. cbn [Js.elements Js.propertyNaN].
  rewrite length_fmap, length_insert.
  destruct (Nat.ltb_spec i (length l)) as [_|]; [|lia].
  by rewrite !list_fmap_insert.
Qed.

Lemma shuffleLoop_finite {A} (m : nat) (seed : Q) (l : list A) (nan : option A) :
  (m <= length l)%nat ->
  Js.finiteDraws seed m ->
  Js.shuffleLoop Math_sin m (Js.Finite seed) (Js.mkArray (Some <$> l) nan)
  = Js.mkArray (Some <$> shuffleLoop Math_sin m seed l) nan.
Proof.
  revert l. induction m as [|m IH]; intros l Hm Hfin; [done|].
  cbn [Js.shuffleLoop shuffleLoop].
  rewrite draw_finite by (apply half_range, Hfin; lia).
  pose proof (draw_in_range Math_sin seed (S m) ltac:(lia)) as Hd.
  rewrite swap_finite by lia.
  apply IH.
  - rewrite swap_length. lia.
  - intros m' Hm'. apply Hfin. lia.
Qed.

(** On seeds whose products stay in range the two embeddings agree. *)
Lemma seededShuffle_finite {A} (array : list A) (seed : Q) :
  Js.finiteDraws seed (length array) ->
  Js.seededShuffle Math_sin array (Js.Finite seed)
  = Some <$> seededShuffle Math_sin array seed.
Proof.
  intros Hfin. unfold Js.seededShuffle, seededShuffle.
  cbn [Js.elements]. rewrite length_fmap.
  by rewrite shuffleLoop_finite.
Qed.

Lemma Qabs_inject_Z (z : Z) : Qabs (inject_Z z) = inject_Z (Z.abs z).
Proof. reflexivity. Qed.

Lemma half_range_large : (10 ^ 300 < 2 ^ 1023)%Z.
Proof. by vm_compute. Qed.

(** Integer seeds up to [2^53 + 1] in magnitude are in range for arrays of
    up to a thousand elements. *)
Lemma finiteDraws_integer (z : Z) (n : nat) :
  (Z.abs z <= 2 ^ 53)%Z -> (n <= 1000)%nat -> Js.finiteDraws (inject_Z z) n.
Proof.
  intros Hz Hn m Hm.
  rewrite <- inject_Z_plus.
  change 9999%Q with (inject_Z 9999). rewrite <- inject_Z_mult.
  rewrite Qabs_inject_Z, <- Zlt_Qlt.
  eapply Z.lt_trans; [|apply half_range_large].
  assert (H53 : (2 ^ 53 = 9007199254740992)%Z) by reflexivity.
  assert (H300 : (10 ^ 20 < 10 ^ 300)%Z) by (by vm_compute).
  assert (H20 : (10 ^ 20 = 100000000000000000000)%Z) by reflexivity.
  rewrite H53 in Hz. eapply Z.lt_trans; [|exact H300]. rewrite H20. lia.
Qed.

Lemma finiteDraws_safe (questionId : Z) :
  safeInteger questionId ->
  Js.finiteDraws (inject_Z questionId) 3
  ∧ Js.finiteDraws (inject_Z questionId + 1) 3.
Proof.
  unfold safeInteger. intros Hs. split.
  - apply finiteDraws_integer; lia.
  - change 1%Q with (inject_Z 1).
    intros m Hm.
    pose proof (finiteDraws_integer (questionId + 1) 3 ltac:(lia) ltac:(lia) m Hm) as H.
    by rewrite inject_Z_plus in H.
Qed.

End JsSeededFacts.

Lemma hugeSeed_shuffle :
  Js.seededShuffle constantSin ["info1"; "info2"; "info3"] (Js.Finite hugeSeed)
  = [Some "info2"; Some "info3"; None].
Proof. by vm_compute. Qed.

Section ShuffleClaim.

Variable Math_sin : Q -> Q.

(** C9. On the seeds whose products stay in range, which include every
    question id that is a safe integer, [seededShuffle] returns a
    permutation of its input of the same length: the shuffle on JavaScript
    numbers returns the elements of the exact shuffle, none of them
    [undefined].  On the heap, the result is a freshly allocated array and
    no array that existed before the call, the argument included, is
    changed.  Consequently, for a safe id, the [diverse_info] group is made
    of the two shuffles the code computes and uses each of the three models
    exactly once and each of [info1], [info2], [info3] exactly once. *)
Theorem seededShuffle_pure_permutation {A} (h : gmap positive (list A))
    (array : positive) (arr : list A) (seed : Q) (qid : Z) (qi : nat) :
  Js.finiteDraws seed (length arr) ->
  safeInteger qid ->
  (Js.seededShuffle Math_sin arr (Js.Finite seed)
   = Some <$> seededShuffle Math_sin arr seed ∧
   length (seededShuffle Math_sin arr seed) = length arr ∧
   seededShuffle Math_sin arr seed ≡ₚ arr) ∧
  (∃ result h',
      seededShuffle_heap Math_sin (<[array := arr]> h) array seed = Some (result, h') ∧
      (<[array := arr]> h) !! result = None ∧
      h' !! result = Some (seededShuffle Math_sin arr seed) ∧
      h' !! array = Some arr ∧
      ∀ l, l ≠ result → h' !! l = (<[array := arr]> h) !! l) ∧
  (∃ g, getGroupComposition Math_sin "diverse_info" qid qi = Return g ∧
        Js.seededShuffle Math_sin ["info1"; "info2"; "info3"] (Js.Finite (inject_Z qid))
        = Some <$> (infoLabel <$> g) ∧
        Js.seededShuffle Math_sin MODELS (Js.plus (Js.Finite (inject_Z qid)) 1)
        = Some <$> (model <$> g) ∧
        model <$> g ≡ₚ MODELS ∧
        infoLabel <$> g ≡ₚ ["info1"; "info2"; "info3"]).
Proof.
  intros Hfin Hsafe.
  assert (Hperm : seededShuffle Math_sin arr seed ≡ₚ arr)
    by apply shuffleLoop_Permutation.
  split; [split; [by apply seededShuffle_finite|split; [by rewrite Hperm | done]]|].
  split.
  - set (h0 := <[array := arr]> h).
    assert (Hfresh : h0 !! fresh (dom h0) = None).
    { apply not_elem_of_dom, is_fresh. }
    assert (Harr : h0 !! array = Some arr) by apply lookup_insert_eq.
    assert (Hne : array ≠ fresh (dom h0)) by congruence.
    eexists _, _. unfold seededShuffle_heap. rewrite Harr.
    split; [reflexivity|]. split; [exact Hfresh|].
    rewrite (heapShuffleLoop_spec _ _ _ _ arr) by apply lookup_insert_eq.
    rewrite insert_insert_eq. split; [by rewrite lookup_insert_eq|].
    split.
    + by rewrite lookup_insert_ne.
    + intros l Hl. by rewrite lookup_insert_ne.
  - destruct (finiteDraws_safe qid Hsafe) as [Hl Hm'].
    pose proof (seededShuffle_finite Math_sin ["info1"; "info2"; "info3"]
                  (inject_Z qid) Hl) as Hjl.
    pose proof (seededShuffle_finite Math_sin MODELS (inject_Z qid + 1)%Q Hm') as Hjm.
    assert (Hplus : Js.plus (Js.Finite (inject_Z qid)) 1
                    = Js.Finite (inject_Z qid + 1)%Q).
    { unfold Js.plus. apply ofExact_in_range, half_range.
      change 1%Q with (inject_Z 1). rewrite <- inject_Z_plus, Qabs_inject_Z.
      rewrite <- Zlt_Qlt. eapply Z.lt_trans; [|apply half_range_large].
      unfold safeInteger in Hsafe.
      assert (H53 : (2 ^ 53 = 9007199254740992)%Z) by reflexivity.
      assert (H300 : (10 ^ 20 < 10 ^ 300)%Z) by (by vm_compute).
      assert (H20 : (10 ^ 20 = 100000000000000000000)%Z) by reflexivity.
      rewrite H53 in Hsafe. eapply Z.lt_trans; [|exact H300]. rewrite H20. lia. }
    rewrite Hplus, Hjl, Hjm. clear Hjl Hjm Hplus Hl Hm'.
    eexists. split; [reflexivity|].
    pose proof (shuffle3 Math_sin "info1" "info2" "info3" (inject_Z qid)) as Hi.
    pose proof (shuffle3 Math_sin "pro" "sonnet" "gpt5" (inject_Z qid + 1)%Q) as Hm.
    unfold MODELS.
    set (infoLabels := seededShuffle Math_sin ["info1"; "info2"; "info3"] _) in *.
    set (models := seededShuffle Math_sin ["pro"; "sonnet"; "gpt5"] _) in *.
    clearbody infoLabels models. clear Hperm.
    repeat (apply elem_of_cons in Hm as [-> | Hm]);
      [..|by apply elem_of_nil in Hm];
      (repeat (apply elem_of_cons in Hi as [-> | Hi]);
       [..|by apply elem_of_nil in Hi]);
      (split; [reflexivity|]); (split; [reflexivity|]); split;
      cbn; by solve_Permutation.
Qed.

End ShuffleClaim.

(** At the seed [2^1020] every product overflows, every index is [NaN],
    and the result holds [undefined]: it is not a permutation of the
    input. *)
Lemma shuffle_counterexample :
  ¬ shuffleClaim constantSin ["info1"; "info2"; "info3"] hugeSeed.
Proof.
  intros (result & Heq & _). rewrite hugeSeed_shuffle in Heq.
  destruct result as [|a [|b [|c [|d result] ] ] ]; discriminate.
Qed.

Lemma seededShuffle_pure_permutation_witness :
  Js.seededShuffle constantSin [1; 2; 3]%nat (Js.Finite 7)
  = Some <$> seededShuffle constantSin [1; 2; 3]%nat 7
  ∧ seededShuffle constantSin [1; 2; 3]%nat 7 ≡ₚ [1; 2; 3]%nat
  ∧ ∃ g, getGroupComposition constantSin "diverse_info" 7 0 = Return g
         ∧ model <$> g ≡ₚ MODELS
         ∧ infoLabel <$> g ≡ₚ ["info1"; "info2"; "info3"].
Proof.
  destruct (seededShuffle_pure_permutation constantSin ∅ 1%positive
              [1; 2; 3]%nat 7 7 0)
    as ((Hjs & _ & Hperm) & _ & (g & Hg & _ & _ & Hm & Hi)).
  - apply (finiteDraws_integer 7 3); [by vm_compute | lia].
  - unfold safeInteger. by vm_compute.
  - split; [exact Hjs|]. split; [exact Hperm|]. exists g.
    split; [exact Hg|]. split; [exact Hm|exact Hi].
Defined.

(** ** One round of dispatch and the retry loop

    The facts below hold for any task runner that behaves like the two
    [generateSingle...] functions: a task whose file exists is answered from
    the store; otherwise it either throws before calling the service (and
    whether it does is a property of the task alone), or calls the service
    once and writes its file exactly when the call succeeds. *)

Lemma NoDup_fmap_eq {A B} (f : A -> B) (l : list A) x y :
  NoDup (f <$> l) -> x ∈ l -> y ∈ l -> f x = f y -> x = y.
Proof.
  induction l as [|a l IH]; intros Hnd Hx Hy Hf; [by apply elem_of_nil in Hx|].
  rewrite fmap_cons in Hnd. apply NoDup_cons in Hnd as [Ha Hnd].
  apply elem_of_cons in Hx as [->|Hx]; apply elem_of_cons in Hy as [->|Hy].
  - done.
  - exfalso. apply Ha. rewrite Hf. by apply list_elem_of_fmap_2.
  - exfalso. apply Ha. rewrite <- Hf. by apply list_elem_of_fmap_2.
  - by apply IH.
Qed.

Section RetryFacts.

Context {World Task : Type}.
Variable idOf : Task -> string.
Variable run : Task -> State World -> except Outcome * State World.
Variable fileOfId : string -> string.
Variable dir : State World -> gset string.
Variable throws : Task -> Prop.
Variable wf : Task -> Prop.

Notation Round := (Round idOf run fileOfId dir throws).
Notation alwaysFails := (alwaysFails idOf run fileOfId dir).

Hypothesis fileOfId_inj : Inj (=) (=) fileOfId.
Hypothesis dir_logEvent : forall e st, dir (logEvent e st) = dir st.
Hypothesis run_cached : forall t st,
  wf t ->
  fileOfId (idOf t) ∈ dir st ->
  run t st = (Return (mkOutcome cached (idOf t) None), st).
Hypothesis run_fresh : forall t st,
  wf t ->
  fileOfId (idOf t) ∉ dir st ->
  (throws t ∧ ∃ msg, run t st = (Throw msg, st)) ∨
  (¬ throws t ∧ ∃ st',
      (run t st = (Return (mkOutcome success (idOf t) None), st')
       ∧ dir st' = {[ fileOfId (idOf t) ]} ∪ dir st
       ∨ (∃ msg, run t st = (Return (mkOutcome error (idOf t) (Some msg)), st'))
         ∧ dir st' = dir st)
      ∧ trace st' = trace st ++ [EvCall (idOf t)]).

Lemma dispatchAll_Round pending st rs st1 results :
  Forall wf pending ->
  dispatchAll run pending st = (rs, st1) ->
  promiseAll rs = Return results ->
  Round st pending results st1.
Proof.
  intros Hwf. revert st rs st1 results.
  induction Hwf as [|t ts Hwt Hwf IH]; intros st rs st1 results Hd Hp; simpl in Hd.
  - inversion Hd; subst. simpl in Hp. inversion Hp. constructor.
  - destruct (run t st) as [r st'] eqn:Hr.
    destruct (dispatchAll run ts st') as [rs' st''] eqn:Hd'.
    inversion Hd; subst; clear Hd. simpl in Hp.
    destruct r as [o|msg]; [|discriminate].
    destruct (promiseAll rs') as [os|] eqn:Hp'; [|discriminate].
    inversion Hp; subst; clear Hp.
    specialize (IH _ _ _ _ Hd' Hp').
    destruct (decide (fileOfId (idOf t) ∈ dir st)) as [Hin|Hnin].
    + pose proof (run_cached _ _ Hwt Hin) as Hc.
      rewrite Hc in Hr. inversion Hr; subst.
      by apply Round_cached.
    + destruct (run_fresh _ _ Hwt Hnin) as [[_ [msg Hm]]|[Hnt [st2 [Hcase Htr]]]].
      * rewrite Hm in Hr. discriminate.
      * destruct Hcase as [[Hs Hdir]|[[msg Hs] Hdir]];
          pose proof Hs as Hs'; rewrite Hr in Hs'; inversion Hs'; subst.
        -- by eapply Round_success.
        -- by eapply Round_error.
Qed.

Lemma Round_ids st pending results st1 :
  Round st pending results st1 ->
  forecastId <$> results = idOf <$> pending.
Proof. induction 1; csimpl; by f_equal. Qed.

Lemma Round_status st pending results st1 :
  Round st pending results st1 ->
  Forall (fun o => isSucceeded o = true ∨ isFailed o = true) results.
Proof. induction 1; constructor; auto. Qed.

Lemma Round_dir_mono st pending results st1 :
  Round st pending results st1 -> dir st ⊆ dir st1.
Proof. induction 1; set_solver. Qed.

Lemma Round_dir_bound st pending results st1 :
  Round st pending results st1 ->
  dir st1 ⊆ dir st ∪ list_to_set (fileOfId <$> (idOf <$> pending)).
Proof. induction 1; simpl; set_solver. Qed.

(** The events of a round are calls for tasks of the round whose file was
    missing when the round began. *)
Lemma Round_trace st pending results st1 :
  Round st pending results st1 ->
  ∃ evs, trace st1 = trace st ++ evs ∧
         Forall (fun e => ∃ t, t ∈ pending ∧ e = EvCall (idOf t)
                               ∧ fileOfId (idOf t) ∉ dir st) evs.
Proof.
  induction 1 as [st|st t ts os st1 Hin Hrun HR IH
                  |st st' t ts os st1 Hnin Hnt Hrun Hdir Htr HR IH
                  |st st' t ts os st1 msg Hnin Hnt Hrun Hdir Htr HR IH].
  - exists []. by rewrite app_nil_r.
  - destruct IH as (evs & -> & Hevs). exists evs. split; [done|].
    eapply Forall_impl; [exact Hevs|]. intros e (t' & ? & ? & ?).
    exists t'. split; [by right|done].
  - destruct IH as (evs & -> & Hevs). exists (EvCall (idOf t) :: evs).
    rewrite Htr, <- app_assoc. split; [done|]. constructor.
    + exists t. split; [left|done].
    + eapply Forall_impl; [exact Hevs|]. intros e (t' & ? & ? & Hn).
      exists t'. rewrite Hdir in Hn. split; [by right|]. split; [done|].
      set_solver.
  - destruct IH as (evs & -> & Hevs). exists (EvCall (idOf t) :: evs).
    rewrite Htr, <- app_assoc. split; [done|]. constructor.
    + exists t. split; [left|done].
    + eapply Forall_impl; [exact Hevs|]. intros e (t' & ? & ? & Hn).
      exists t'. rewrite Hdir in Hn. split; [by right|]. split; [done|].
      set_solver.
Qed.

(** A task answered [success] or [cached] has its file afterwards. *)
Lemma Round_succeeded_present st pending results st1 :
  Round st pending results st1 ->
  forall o, o ∈ results -> isSucceeded o = true -> fileOfId (forecastId o) ∈ dir st1.
Proof.
  induction 1 as [st|st t ts os st1 Hin Hrun HR IH
                  |st st' t ts os st1 Hnin Hnt Hrun Hdir Htr HR IH
                  |st st' t ts os st1 msg Hnin Hnt Hrun Hdir Htr HR IH];
    intros o Ho Hs.
  - by apply elem_of_nil in Ho.
  - apply elem_of_cons in Ho as [->|Ho]; [|by apply IH].
    simpl. by apply (Round_dir_mono _ _ _ _ HR).
  - apply elem_of_cons in Ho as [->|Ho]; [|by apply IH].
    simpl. apply (Round_dir_mono _ _ _ _ HR). set_solver.
  - apply elem_of_cons in Ho as [->|Ho]; [|by apply IH].
    discriminate.
Qed.

(** With pairwise distinct identifiers, a task answered [error] still has
    no file at the end of the round, and does not throw. *)
Lemma Round_failed_absent st pending results st1 :
  Round st pending results st1 ->
  NoDup (idOf <$> pending) ->
  forall t, t ∈ pending ->
    (∃ o, o ∈ results ∧ forecastId o = idOf t ∧ isFailed o = true) ->
    fileOfId (idOf t) ∉ dir st1 ∧ ¬ throws t.
Proof.
  intros HR Hnd t Ht (o & Ho & Hid & Hf).
  revert Hnd t Ht o Ho Hid Hf.
  induction HR as [st|st t0 ts os st1 Hin Hrun HR IH
                  |st st' t0 ts os st1 Hnin Hnt Hrun Hdir Htr HR IH
                  |st st' t0 ts os st1 msg Hnin Hnt Hrun Hdir Htr HR IH];
    intros Hnd t Ht o Ho Hid Hf.
  - by apply elem_of_nil in Ht.
  - rewrite fmap_cons in Hnd. apply NoDup_cons in Hnd as [Hn0 Hnd].
    apply elem_of_cons in Ho as [->|Ho]; [discriminate|].
    apply elem_of_cons in Ht as [->|Ht].
    + exfalso. apply Hn0. rewrite <- Hid, <- (Round_ids _ _ _ _ HR).
      by apply list_elem_of_fmap_2.
    + by eapply IH.
  - rewrite fmap_cons in Hnd. apply NoDup_cons in Hnd as [Hn0 Hnd].
    apply elem_of_cons in Ho as [->|Ho]; [discriminate|].
    apply elem_of_cons in Ht as [->|Ht].
    + exfalso. apply Hn0. rewrite <- Hid, <- (Round_ids _ _ _ _ HR).
      by apply list_elem_of_fmap_2.
    + by eapply IH.
  - rewrite fmap_cons in Hnd. apply NoDup_cons in Hnd as [Hn0 Hnd].
    apply elem_of_cons in Ht as [->|Ht].
    + split; [|done].
      pose proof (Round_dir_bound _ _ _ _ HR) as Hb. rewrite Hdir in Hb.
      intros Hin. apply Hb in Hin. apply elem_of_union in Hin as [Hin|Hin];
        [done|].
      apply elem_of_list_to_set, list_elem_of_fmap in Hin as (i & Hi & Hin).
      apply fileOfId_inj in Hi. subst i. done.
    + apply elem_of_cons in Ho as [->|Ho].
      * exfalso. simpl in Hid. apply Hn0. rewrite Hid.
        by apply list_elem_of_fmap_2.
      * by eapply IH.
Qed.

(** The tasks kept for the next round are those answered [error]. *)
Lemma elem_of_retained (pending : list Task) (results : list Outcome) t :
  t ∈ filter (fun task =>
                existsb (fun f => bool_decide (forecastId f = idOf task))
                        (filter (fun r => isFailed r) results))
             pending
  <-> t ∈ pending ∧ ∃ o, o ∈ results ∧ forecastId o = idOf t ∧ isFailed o = true.
Proof.
  rewrite list_elem_of_filter. split.
  - intros [He Ht]. split; [done|].
    apply Is_true_true, existsb_exists in He as (o & Ho & Hid).
    apply list_elem_of_In, list_elem_of_filter in Ho as [Hf Ho].
    apply bool_decide_eq_true in Hid. apply Is_true_true in Hf. eauto.
  - intros [Ht (o & Ho & Hid & Hf)]. split; [|done].
    apply Is_true_true, existsb_exists. exists o. split.
    + apply list_elem_of_In, list_elem_of_filter. split; [|done].
      by apply Is_true_true.
    + by apply bool_decide_eq_true.
Qed.

Lemma Round_outcome st pending results st1 t :
  Round st pending results st1 -> t ∈ pending ->
  ∃ o, o ∈ results ∧ forecastId o = idOf t.
Proof.
  intros HR Ht. apply (list_elem_of_fmap_2 idOf) in Ht.
  rewrite <- (Round_ids _ _ _ _ HR) in Ht.
  apply list_elem_of_fmap in Ht as (o & ? & ?). eauto.
Qed.

(** What the loop guarantees, whatever the identifiers. *)
Lemma retryLoop_spec remaining rc pending all st pending' all' st' :
  Forall wf pending ->
  retryLoop idOf run remaining rc pending all st = (Return (pending', all'), st') ->
  dir st ⊆ dir st' ∧
  dir st' ⊆ dir st ∪ list_to_set (fileOfId <$> (idOf <$> pending)) ∧
  sublist pending' pending ∧
  (∃ new, all' = all ++ new ∧
     Forall (fun o => isSucceeded o = true ∧ fileOfId (forecastId o) ∈ dir st'
                      ∧ forecastId o ∈ idOf <$> pending) new ∧
     forall t, t ∈ pending -> t ∈ pending' ∨ ∃ o, o ∈ new ∧ forecastId o = idOf t) ∧
  (∃ evs, trace st' = trace st ++ evs ∧
     Forall (fun e => e = EvSleep RETRY_DELAY_MS ∨
                      ∃ t, t ∈ pending ∧ e = EvCall (idOf t)
                           ∧ fileOfId (idOf t) ∉ dir st) evs).
Proof.
  revert rc pending all st pending' all' st'.
  induction remaining as [|remaining IH];
    intros rc pending all st pending' all' st' Hwf Hl.
  - simpl in Hl. assert (pending' = pending ∧ all' = all ∧ st' = st) as (-> & -> & ->)
      by (destruct pending; by inversion Hl).
    split; [done|]. split; [set_solver|]. split; [done|]. split.
    + exists []. rewrite app_nil_r. split; [done|]. split; [constructor|]. auto.
    + exists []. by rewrite app_nil_r.
  - destruct pending as [|t0 ts].
    { simpl in Hl. inversion Hl; subst.
      split; [done|]. split; [set_solver|]. split; [done|]. split.
      + exists []. rewrite app_nil_r. split; [done|]. split; [constructor|]. auto.
      + exists []. by rewrite app_nil_r. }
    set (pending := t0 :: ts) in *.
    cbn [retryLoop] in Hl. fold pending in Hl.
    set (st0 := if (0 <? rc)%nat then logEvent (EvSleep RETRY_DELAY_MS) st else st) in *.
    assert (Hd0 : dir st0 = dir st).
    { unfold st0. destruct (0 <? rc)%nat; [apply dir_logEvent|done]. }
    assert (Ht0 : ∃ ev0, trace st0 = trace st ++ ev0 ∧
                         Forall (fun e => e = EvSleep RETRY_DELAY_MS) ev0).
    { unfold st0. destruct (0 <? rc)%nat.
      - exists [EvSleep RETRY_DELAY_MS]. split; [done|]. by constructor.
      - exists []. by rewrite app_nil_r. }
    destruct (dispatchAll run pending st0) as [rs st1] eqn:Hd.
    destruct (promiseAll rs) as [results|] eqn:Hp; [|discriminate].
    pose proof (dispatchAll_Round _ _ _ _ _ Hwf Hd Hp) as HR.
    pose proof (Round_dir_mono _ _ _ _ HR) as Hmono.
    pose proof (Round_dir_bound _ _ _ _ HR) as Hbound.
    pose proof (Round_succeeded_present _ _ _ _ HR) as Hpres.
    pose proof (Round_status _ _ _ _ HR) as Hstat.
    destruct (Round_trace _ _ _ _ HR) as (ev1 & Htr1 & Hev1).
    destruct Ht0 as (ev0 & Htr0 & Hev0).
    rewrite Hd0 in *.
    assert (Hsucc : Forall (fun o => isSucceeded o = true
                             ∧ fileOfId (forecastId o) ∈ dir st1
                             ∧ forecastId o ∈ idOf <$> pending)
                           (filter (fun r => isSucceeded r) results)).
    { apply Forall_forall. intros o Ho.
      apply list_elem_of_filter in Ho as [Hs Ho]. apply Is_true_true in Hs.
      split; [done|]. split; [by apply Hpres|].
      rewrite <- (Round_ids _ _ _ _ HR). by apply list_elem_of_fmap_2. }
    assert (Hacc : forall t, t ∈ pending ->
              (∃ o, o ∈ results ∧ forecastId o = idOf t ∧ isFailed o = true) ∨
              (∃ o, o ∈ filter (fun r => isSucceeded r) results
                    ∧ forecastId o = idOf t)).
    { intros t Ht. destruct (Round_outcome _ _ _ _ t HR Ht) as (o & Ho & Hid).
      rewrite Forall_forall in Hstat. destruct (Hstat o Ho) as [Hs|Hf].
      - right. exists o. split; [|done]. apply list_elem_of_filter.
        split; [by apply Is_true_true|done].
      - left. eauto. }
    destruct (length (filter (fun r => isFailed r) results) =? 0)%nat eqn:Hlen.
    + inversion Hl; subst; clear Hl.
      apply Nat.eqb_eq, nil_length_inv in Hlen.
      split; [done|]. split; [done|]. split; [apply sublist_nil_l|]. split.
      * eexists. split; [done|]. split; [done|].
        intros t Ht. right. destruct (Hacc t Ht) as [(o & Ho & _ & Hf)|?]; [|done].
        exfalso. assert (o ∈ filter (fun r => isFailed r) results) as Hin.
        { apply list_elem_of_filter. split; [by apply Is_true_true|done]. }
        rewrite Hlen in Hin. by apply elem_of_nil in Hin.
      * exists (ev0 ++ ev1). rewrite Htr1, Htr0, <- app_assoc. split; [done|].
        apply Forall_app. split.
        -- eapply Forall_impl; [exact Hev0|]. auto.
        -- eapply Forall_impl; [exact Hev1|]. auto.
    + set (pending1 := filter _ pending) in Hl.
      assert (Hsub1 : sublist pending1 pending) by apply sublist_filter.
      apply IH in Hl as (Hm & Hb & Hsub & (new & -> & Hnew & Hall) & (ev2 & Htr2 & Hev2));
        [|apply Forall_forall; intros t Ht; rewrite Forall_forall in Hwf;
          apply Hwf; by apply list_elem_of_filter in Ht as [_ ?]].
      assert (Hin1 : forall t, t ∈ pending1 -> t ∈ pending).
      { intros t Ht. by apply elem_of_retained in Ht as [? _]. }
      assert (Hfiles : (list_to_set (fileOfId <$> (idOf <$> pending1)) : gset string)
                       ⊆ list_to_set (fileOfId <$> (idOf <$> pending))).
      { intros f Hf. apply elem_of_list_to_set in Hf. apply elem_of_list_to_set.
        apply list_elem_of_fmap in Hf as (i & -> & Hi).
        apply list_elem_of_fmap in Hi as (t & -> & Ht).
        apply list_elem_of_fmap_2, list_elem_of_fmap_2. auto. }
      split; [by etrans|]. split.
      { intros f Hf. apply Hb, elem_of_union in Hf as [Hf|Hf]; [by apply Hbound|].
        apply elem_of_union. right. by apply Hfiles. }
      split; [by etrans|]. split.
      * exists (filter (fun r => isSucceeded r) results ++ new).
        rewrite app_assoc. split; [done|]. split.
        -- apply Forall_app. split.
           ++ eapply Forall_impl; [exact Hsucc|]. intros o (? & ? & ?).
              split; [done|]. split; [by apply Hm|done].
           ++ eapply Forall_impl; [exact Hnew|]. intros o (? & ? & Hi).
              split; [done|]. split; [done|].
              apply list_elem_of_fmap in Hi as (t & -> & Ht).
              apply list_elem_of_fmap_2. auto.
        -- intros t Ht. destruct (Hacc t Ht) as [Hf|(o & Ho & Hid)].
           ++ assert (t ∈ pending1) as Ht1 by (apply elem_of_retained; auto).
              destruct (Hall t Ht1) as [?|(o & Ho & Hid)]; [by left|].
              right. exists o. split; [|done]. apply elem_of_app. by right.
           ++ right. exists o. split; [|done]. apply elem_of_app. by left.
      * exists (ev0 ++ ev1 ++ ev2).
        rewrite Htr2, Htr1, Htr0, <- !app_assoc. split; [done|].
        apply Forall_app. split; [|apply Forall_app; split].
        -- eapply Forall_impl; [exact Hev0|]. auto.
        -- eapply Forall_impl; [exact Hev1|]. auto.
        -- eapply Forall_impl; [exact Hev2|]. intros e [?|(t & Ht & ? & Hn)];
             [by left|]. right. exists t. split; [auto|]. split; [done|].
           intros Hin. apply Hn. by apply Hmono.
Qed.

(** With pairwise distinct identifiers, what is still pending when the loop
    ends has no file and does not throw. *)
Lemma retryLoop_pending_absent remaining rc pending all st pending' all' st' :
  Forall wf pending ->
  NoDup (idOf <$> pending) ->
  (remaining = 0%nat ->
   forall t, t ∈ pending -> fileOfId (idOf t) ∉ dir st ∧ ¬ throws t) ->
  retryLoop idOf run remaining rc pending all st = (Return (pending', all'), st') ->
  forall t, t ∈ pending' -> fileOfId (idOf t) ∉ dir st' ∧ ¬ throws t.
Proof.
  revert rc pending all st pending' all' st'.
  induction remaining as [|remaining IH];
    intros rc pending all st pending' all' st' Hwf Hnd H0 Hl.
  - simpl in Hl. assert (pending' = pending ∧ st' = st) as (-> & ->)
      by (destruct pending; by inversion Hl). by apply H0.
  - destruct pending as [|t0 ts].
    { simpl in Hl. inversion Hl; subst. intros t Ht. by apply elem_of_nil in Ht. }
    set (pending := t0 :: ts) in *.
    cbn [retryLoop] in Hl. fold pending in Hl.
    set (st0 := if (0 <? rc)%nat then logEvent (EvSleep RETRY_DELAY_MS) st else st) in *.
    destruct (dispatchAll run pending st0) as [rs st1] eqn:Hd.
    destruct (promiseAll rs) as [results|] eqn:Hp; [|discriminate].
    pose proof (dispatchAll_Round _ _ _ _ _ Hwf Hd Hp) as HR.
    destruct (length (filter (fun r => isFailed r) results) =? 0)%nat eqn:Hlen.
    + inversion Hl; subst. intros t Ht. by apply elem_of_nil in Ht.
    + set (pending1 := filter _ pending) in Hl.
      assert (Hsub1 : sublist pending1 pending) by apply sublist_filter.
      refine (IH _ _ _ _ _ _ _ _ _ _ Hl).
      * apply Forall_forall; intros t Ht; rewrite Forall_forall in Hwf;
          apply Hwf; by apply list_elem_of_filter in Ht as [_ ?].
      * eapply sublist_NoDup; [exact Hnd|]. by apply fmap_sublist.
      * intros _ t Ht. apply elem_of_retained in Ht as [Ht Ho].
        by eapply Round_failed_absent.
Qed.

Lemma callsFor_app id a b : callsFor id (a ++ b) = (callsFor id a + callsFor id b)%nat.
Proof. unfold callsFor. by rewrite filter_app, length_app. Qed.

Lemma sleepsIn_app a b : sleepsIn (a ++ b) = (sleepsIn a + sleepsIn b)%nat.
Proof. unfold sleepsIn. by rewrite filter_app, length_app. Qed.

Lemma callsFor_other id id' : id' ≠ id -> callsFor id [EvCall id'] = 0%nat.
Proof.
  intros Hne. unfold callsFor. rewrite filter_cons_False; [done|]. congruence.
Qed.

Lemma callsFor_same id : callsFor id [EvCall id] = 1%nat.
Proof. unfold callsFor. by rewrite filter_cons_True. Qed.

Lemma sleepsIn_call id : sleepsIn [EvCall id] = 0%nat.
Proof. reflexivity. Qed.

Lemma sleepsIn_sleep ms : sleepsIn [EvSleep ms] = 1%nat.
Proof. reflexivity. Qed.

Lemma callsFor_sleep id ms : callsFor id [EvSleep ms] = 0%nat.
Proof. unfold callsFor. by rewrite filter_cons_False. Qed.

Lemma Round_sleeps st pending results st1 :
  Round st pending results st1 -> sleepsIn (trace st1) = sleepsIn (trace st).
Proof.
  induction 1 as [st|st t ts os st1 Hin Hrun HR IH
                  |st st' t ts os st1 Hnin Hnt Hrun Hdir Htr HR IH
                  |st st' t ts os st1 msg Hnin Hnt Hrun Hdir Htr HR IH];
    [done|done|..]; rewrite IH, Htr, sleepsIn_app, sleepsIn_call; lia.
Qed.

Lemma Round_calls_other st pending results st1 id :
  Round st pending results st1 -> id ∉ idOf <$> pending ->
  callsFor id (trace st1) = callsFor id (trace st).
Proof.
  induction 1 as [st|st t ts os st1 Hin Hrun HR IH
                  |st st' t ts os st1 Hnin Hnt Hrun Hdir Htr HR IH
                  |st st' t ts os st1 msg Hnin Hnt Hrun Hdir Htr HR IH];
    intros Hid; [done|..]; rewrite fmap_cons, not_elem_of_cons in Hid;
    destruct Hid as [Hne Hid]; rewrite (IH Hid); [done|..];
    rewrite Htr, callsFor_app, callsFor_other by done; lia.
Qed.

Lemma Round_always_failing st pending results st1 t :
  Round st pending results st1 ->
  NoDup (idOf <$> pending) -> t ∈ pending ->
  fileOfId (idOf t) ∉ dir st -> alwaysFails t ->
  callsFor (idOf t) (trace st1) = S (callsFor (idOf t) (trace st)) ∧
  fileOfId (idOf t) ∉ dir st1 ∧
  ∃ o, o ∈ results ∧ forecastId o = idOf t ∧ isFailed o = true.
Proof.
  intros HR Hnd Ht Habs Hfail. revert Hnd Ht Habs.
  induction HR as [st|st t0 ts os st1 Hin Hrun HR IH
                  |st st' t0 ts os st1 Hnin Hnt Hrun Hdir Htr HR IH
                  |st st' t0 ts os st1 msg Hnin Hnt Hrun Hdir Htr HR IH];
    intros Hnd Ht Habs.
  - by apply elem_of_nil in Ht.
  - rewrite fmap_cons in Hnd. apply NoDup_cons in Hnd as [Hn0 Hnd].
    apply elem_of_cons in Ht as [->|Ht]; [done|].
    destruct (IH Hnd Ht Habs) as (? & ? & o & ? & ? & ?).
    split; [done|]. split; [done|]. exists o. split; [by right|done].
  - rewrite fmap_cons in Hnd. apply NoDup_cons in Hnd as [Hn0 Hnd].
    apply elem_of_cons in Ht as [->|Ht].
    { destruct (Hfail st Habs) as (msg & st2 & Hr). rewrite Hr in Hrun. discriminate. }
    assert (Hne : idOf t0 ≠ idOf t).
    { intros He. apply Hn0. rewrite He. by apply list_elem_of_fmap_2. }
    assert (Habs' : fileOfId (idOf t) ∉ dir st').
    { rewrite Hdir. intros Hin. apply elem_of_union in Hin as [Hin|Hin]; [|done].
      apply elem_of_singleton in Hin. apply fileOfId_inj in Hin. congruence. }
    destruct (IH Hnd Ht Habs') as (Hc & ? & o & ? & ? & ?).
    split; [|split; [done|exists o; split; [by right|done]]].
    rewrite Hc, Htr, callsFor_app, callsFor_other by done. lia.
  - rewrite fmap_cons in Hnd. apply NoDup_cons in Hnd as [Hn0 Hnd].
    apply elem_of_cons in Ht as [->|Ht].
    + split; [|split].
      * rewrite (Round_calls_other _ _ _ _ _ HR Hn0), Htr, callsFor_app, callsFor_same.
        lia.
      * pose proof (Round_dir_bound _ _ _ _ HR) as Hb. rewrite Hdir in Hb.
        intros Hin. apply Hb, elem_of_union in Hin as [Hin|Hin]; [done|].
        apply elem_of_list_to_set, list_elem_of_fmap in Hin as (i & Hi & Hin).
        apply fileOfId_inj in Hi. by subst i.
      * eexists. split; [by left|done].
    + assert (Hne : idOf t0 ≠ idOf t).
      { intros He. apply Hn0. rewrite He. by apply list_elem_of_fmap_2. }
      assert (Habs' : fileOfId (idOf t) ∉ dir st') by by rewrite Hdir.
      destruct (IH Hnd Ht Habs') as (Hc & ? & o & ? & ? & ?).
      split; [|split; [done|exists o; split; [by right|done]]].
      rewrite Hc, Htr, callsFor_app, callsFor_other by done. lia.
Qed.

(** A task that fails at every attempt is executed once in each of the
    [remaining] rounds, and the loop sleeps before every round but the one
    entered with [retryCount = 0]. *)
Lemma retryLoop_always_failing remaining rc pending all st pending' all' st' t :
  Forall wf pending ->
  NoDup (idOf <$> pending) -> t ∈ pending ->
  fileOfId (idOf t) ∉ dir st -> alwaysFails t ->
  retryLoop idOf run remaining rc pending all st = (Return (pending', all'), st') ->
  t ∈ pending' ∧
  callsFor (idOf t) (trace st') = (callsFor (idOf t) (trace st) + remaining)%nat ∧
  sleepsIn (trace st') =
    (sleepsIn (trace st) + if (0 <? rc)%nat then remaining else remaining - 1)%nat.
Proof.
  revert rc pending all st pending' all' st'.
  induction remaining as [|remaining IH];
    intros rc pending all st pending' all' st' Hwf Hnd Ht Habs Hfail Hl.
  - simpl in Hl. assert (pending' = pending ∧ st' = st) as (-> & ->)
      by (destruct pending; by inversion Hl).
    split; [done|]. split; [lia|]. destruct (0 <? rc)%nat; lia.
  - destruct pending as [|t0 ts]; [by apply elem_of_nil in Ht|].
    set (pending := t0 :: ts) in *.
    cbn [retryLoop] in Hl. fold pending in Hl.
    set (st0 := if (0 <? rc)%nat then logEvent (EvSleep RETRY_DELAY_MS) st else st) in *.
    assert (Hd0 : dir st0 = dir st).
    { unfold st0. destruct (0 <? rc)%nat; [apply dir_logEvent|done]. }
    assert (Hc0 : callsFor (idOf t) (trace st0) = callsFor (idOf t) (trace st)).
    { unfold st0. destruct (0 <? rc)%nat; [|done]. simpl.
      rewrite callsFor_app, callsFor_sleep. lia. }
    assert (Hs0 : sleepsIn (trace st0)
                  = (sleepsIn (trace st) + if (0 <? rc)%nat then 1 else 0)%nat).
    { unfold st0. destruct (0 <? rc)%nat; [|lia]. simpl.
      by rewrite sleepsIn_app, sleepsIn_sleep. }
    destruct (dispatchAll run pending st0) as [rs st1] eqn:Hd.
    destruct (promiseAll rs) as [results|] eqn:Hp; [|discriminate].
    pose proof (dispatchAll_Round _ _ _ _ _ Hwf Hd Hp) as HR.
    rewrite <- Hd0 in Habs.
    destruct (Round_always_failing _ _ _ _ t HR Hnd Ht Habs Hfail)
      as (Hc1 & Habs1 & o & Ho & Hid & Hf).
    pose proof (Round_sleeps _ _ _ _ HR) as Hs1.
    destruct (length (filter (fun r => isFailed r) results) =? 0)%nat eqn:Hlen.
    { exfalso. apply Nat.eqb_eq, nil_length_inv in Hlen.
      assert (o ∈ filter (fun r => isFailed r) results) as Hin.
      { apply list_elem_of_filter. split; [by apply Is_true_true|done]. }
      rewrite Hlen in Hin. by apply elem_of_nil in Hin. }
    set (pending1 := filter _ pending) in Hl.
    assert (Ht1 : t ∈ pending1) by (apply elem_of_retained; eauto).
    eapply IH in Hl as (Hin & Hc & Hs); [| |  |exact Ht1|exact Habs1|exact Hfail].
    + split; [done|]. split; [lia|]. rewrite Hs, Hs1, Hs0.
      change (0 <? S rc)%nat with true. cbv iota. destruct (0 <? rc)%nat; lia.
    + apply Forall_forall; intros t' Ht'; rewrite Forall_forall in Hwf;
        apply Hwf; by apply list_elem_of_filter in Ht' as [_ ?].
    + eapply sublist_NoDup; [exact Hnd|]. apply fmap_sublist, sublist_filter.
Qed.

(** *** [retryAndReport]: the loop together with the marking of failures *)

Lemma retryAndReport_all_cached tasks sk st :
  Forall wf tasks ->
  (forall t, t ∈ tasks -> fileOfId (idOf t) ∈ dir st) ->
  retryAndReport idOf run tasks sk st
  = (Return (mkQuestionResult
               ((fun t => mkOutcome cached (idOf t) None) <$> tasks) 0 sk), st).
Proof.
  intros Hwf Hall.
  assert (Hd : forall st', dir st' = dir st -> st' = st ->
            dispatchAll run tasks st
            = ((fun t => Return (mkOutcome cached (idOf t) None)) <$> tasks, st)).
  { intros _ _ _. clear sk. induction Hwf as [|t ts Hwt Hwf IH]; [done|].
    simpl. rewrite (run_cached t st Hwt) by (apply Hall; by left).
    rewrite IH; [done|]. intros t' Ht'. apply Hall. by right. }
  specialize (Hd st eq_refl eq_refl).
  assert (Hp : promiseAll ((fun t => Return (mkOutcome cached (idOf t) None)) <$> tasks)
               = Return ((fun t => mkOutcome cached (idOf t) None) <$> tasks)).
  { clear. induction tasks as [|t ts IH]; [done|]. csimpl. by rewrite IH. }
  unfold retryAndReport. destruct tasks as [|t0 ts]; [done|].
  change MAX_RETRIES_PER_QUESTION with 3%nat.
  cbn [retryLoop]. change (0 <? 0)%nat with false. cbv iota.
  rewrite Hd, Hp.
  set (rs := (fun t => mkOutcome cached (idOf t) None) <$> t0 :: ts).
  assert (Hs : filter (fun r => isSucceeded r) rs = rs).
  { unfold rs. clear. induction (t0 :: ts) as [|t l IH]; [done|].
    rewrite fmap_cons, filter_cons_True by done. by rewrite IH. }
  assert (Hf : filter (fun r => isFailed r) rs = []).
  { unfold rs. clear. induction (t0 :: ts) as [|t l IH]; [done|].
    rewrite fmap_cons, filter_cons_False by (simpl; auto). by rewrite IH. }
  rewrite Hs, Hf. done.
Qed.

Lemma retryAndReport_spec tasks sk st r st' :
  Forall wf tasks ->
  retryAndReport idOf run tasks sk st = (Return r, st') ->
  skipped r = sk ∧
  dir st ⊆ dir st' ∧
  dir st' ⊆ dir st ∪ list_to_set (fileOfId <$> (idOf <$> tasks)) ∧
  (forall o, o ∈ results r ->
     (isSucceeded o = true ∨ o = mkOutcome persistent_failure (forecastId o) None)
     ∧ forecastId o ∈ idOf <$> tasks) ∧
  (forall o, o ∈ results r -> isSucceeded o = true ->
     fileOfId (forecastId o) ∈ dir st') ∧
  (forall t, t ∈ tasks -> ∃ o, o ∈ results r ∧ forecastId o = idOf t) ∧
  persistentFailures r = countStatus persistent_failure (results r) ∧
  (NoDup (idOf <$> tasks) ->
   forall o, o ∈ results r -> status o = persistent_failure ->
     fileOfId (forecastId o) ∉ dir st'
     ∧ ∃ t, t ∈ tasks ∧ idOf t = forecastId o ∧ ¬ throws t) ∧
  (∃ evs, trace st' = trace st ++ evs ∧
     Forall (fun e => e = EvSleep RETRY_DELAY_MS ∨
                      ∃ t, t ∈ tasks ∧ e = EvCall (idOf t)
                           ∧ fileOfId (idOf t) ∉ dir st) evs).
Proof.
  intros Hwf Hrun. unfold retryAndReport in Hrun.
  destruct (retryLoop idOf run MAX_RETRIES_PER_QUESTION 0 tasks [] st)
    as [[[pending all]|msg] st1] eqn:Hl; [|discriminate].
  pose proof (retryLoop_spec _ _ _ _ _ _ _ _ Hwf Hl)
    as (Hmono & Hbound & Hsub & (new & Hall & Hnew & Hacc) & Htr).
  assert (Habs : NoDup (idOf <$> tasks) ->
            forall t, t ∈ pending -> fileOfId (idOf t) ∉ dir st1 ∧ ¬ throws t).
  { intros Hnd. eapply retryLoop_pending_absent; [exact Hwf|exact Hnd| |exact Hl].
    intros H0. vm_compute in H0. discriminate. }
  simpl in Hall. subst all.
  assert (Hpin : forall t, t ∈ pending -> t ∈ tasks).
  { intros t Ht. eapply elem_of_sublist; eauto. }
  set (marks := (fun task => mkOutcome persistent_failure (idOf task) None) <$> pending).
  assert (Hres : results r = new ++ marks ∧ persistentFailures r = length pending
                 ∧ skipped r = sk ∧ st' = st1).
  { destruct pending as [|p ps].
    - simpl in Hrun. inversion Hrun; subst; simpl. by rewrite app_nil_r.
    - simpl in Hrun. inversion Hrun; subst; simpl. done. }
  destruct Hres as (Hres & Hpf & Hsk & ->).
  rewrite Forall_forall in Hnew.
  assert (Hmarks : forall o, o ∈ marks <->
            ∃ t, t ∈ pending ∧ o = mkOutcome persistent_failure (idOf t) None).
  { intros o. unfold marks. rewrite list_elem_of_fmap. naive_solver. }
  split; [done|]. split; [done|]. split; [done|]. split; [|split; [|split; [|split; [|split]]]].
  - intros o Ho. rewrite Hres in Ho. apply elem_of_app in Ho as [Ho|Ho].
    + destruct (Hnew o Ho) as (? & ? & ?). auto.
    + apply Hmarks in Ho as (t & Ht & ->). split; [by right|].
      simpl. apply list_elem_of_fmap_2. auto.
  - intros o Ho Hs. rewrite Hres in Ho. apply elem_of_app in Ho as [Ho|Ho].
    + by destruct (Hnew o Ho) as (? & ? & ?).
    + apply Hmarks in Ho as (t & Ht & ->). discriminate.
  - intros t Ht. destruct (Hacc t Ht) as [Hp|(o & Ho & Hid)].
    + exists (mkOutcome persistent_failure (idOf t) None). split; [|done].
      rewrite Hres. apply elem_of_app. right. apply Hmarks. eauto.
    + exists o. split; [|done]. rewrite Hres. apply elem_of_app. by left.
  - rewrite Hpf, Hres. unfold countStatus. rewrite filter_app, length_app.
    assert (Hn0 : filter (fun r0 => status r0 = persistent_failure) new = []).
    { assert (Hf : Forall (fun o => isSucceeded o = true) new).
      { apply Forall_forall. intros o Ho. by destruct (Hnew o Ho). }
      clear -Hf. induction Hf as [|o l Ho Hf IH]; [done|].
      rewrite filter_cons_False; [done|]. intros Hs.
      unfold isSucceeded in Ho. rewrite Hs in Ho. discriminate. }
    rewrite Hn0. simpl. unfold marks. clear.
    induction pending as [|p ps IH]; [done|].
    rewrite fmap_cons, filter_cons_True by done. simpl. by rewrite <- IH.
  - intros Hnd o Ho Hs. rewrite Hres in Ho. apply elem_of_app in Ho as [Ho|Ho].
    + destruct (Hnew o Ho) as (Hsucc & _). unfold isSucceeded in Hsucc.
      rewrite Hs in Hsucc. discriminate.
    + apply Hmarks in Ho as (t & Ht & ->). simpl.
      destruct (Habs Hnd t Ht). split; [done|]. exists t. auto.
  - exact Htr.
Qed.

(** Tasks that do not throw never reject their question. *)
Lemma dispatchAll_no_throw pending st :
  Forall wf pending -> (forall t, t ∈ pending -> ¬ throws t) ->
  ∃ rs results st1, dispatchAll run pending st = (rs, st1)
                    ∧ promiseAll rs = Return results.
Proof.
  intros Hwf. revert st. induction Hwf as [|t ts Hwt Hwf IH]; intros st Hnt.
  - by eexists _, _, _.
  - assert (Hr : ∃ o st', run t st = (Return o, st')).
    { destruct (decide (fileOfId (idOf t) ∈ dir st)) as [Hin|Hnin].
      - rewrite (run_cached _ _ Hwt Hin). by eexists _, _.
      - destruct (run_fresh _ _ Hwt Hnin)
          as [[Ht _]|(_ & st' & [[Hr _]|[[msg Hr] _]] & _)].
        + exfalso. apply (Hnt t); [by left|done].
        + by eexists _, _.
        + by eexists _, _. }
    destruct Hr as (o & st' & Hr).
    destruct (IH st') as (rs & results & st1 & Hd & Hp).
    { intros t' Ht'. apply Hnt. by right. }
    exists (Return o :: rs), (o :: results), st1.
    cbn [dispatchAll promiseAll]. by rewrite Hr, Hd, Hp.
Qed.

Lemma retryLoop_no_throw remaining rc pending all st :
  Forall wf pending -> (forall t, t ∈ pending -> ¬ throws t) ->
  ∃ pending' all' st',
    retryLoop idOf run remaining rc pending all st = (Return (pending', all'), st').
Proof.
  revert rc pending all st.
  induction remaining as [|remaining IH]; intros rc pending all st Hwf Hnt.
  - destruct pending; by eexists _, _, _.
  - destruct pending as [|t0 ts]; [by eexists _, _, _|].
    set (pending := t0 :: ts) in *. cbn [retryLoop]. fold pending.
    set (st0 := if (0 <? rc)%nat then logEvent (EvSleep RETRY_DELAY_MS) st else st).
    destruct (dispatchAll_no_throw pending st0 Hwf Hnt) as (rs & results & st1 & -> & ->).
    destruct (length _ =? 0)%nat; [by eexists _, _, _|].
    apply IH.
    + apply Forall_forall; intros t Ht; rewrite Forall_forall in Hwf;
        apply Hwf; by apply list_elem_of_filter in Ht as [_ ?].
    + intros t Ht. apply Hnt. by apply list_elem_of_filter in Ht as [_ ?].
Qed.

Lemma retryAndReport_no_throw tasks sk st :
  Forall wf tasks -> (forall t, t ∈ tasks -> ¬ throws t) ->
  ∃ r st', retryAndReport idOf run tasks sk st = (Return r, st').
Proof.
  intros Hwf Hnt. unfold retryAndReport.
  destruct (retryLoop_no_throw MAX_RETRIES_PER_QUESTION 0 tasks [] st Hwf Hnt)
    as (pending & all & st' & ->).
  by eexists _, _.
Qed.

Lemma retryAndReport_rerun tasks sk st r st1 t :
  Forall wf tasks ->
  NoDup (idOf <$> tasks) ->
  retryAndReport idOf run tasks sk st = (Return r, st1) ->
  t ∈ tasks ->
  rerunPrecise idOf run t r st1.
Proof.
  intros Hwf Hnd Hrun Ht.
  destruct (retryAndReport_spec _ _ _ _ _ Hwf Hrun)
    as (_ & _ & _ & Hstat & Hpres & Hevery & _ & Habs & _).
  specialize (Habs Hnd). rewrite Forall_forall in Hwf.
  split; [|split].
  - destruct (Hevery t Ht) as (o & Ho & Hid).
    destruct (Hstat o Ho) as [[Hs|Hs] _]; [left; eauto|right].
    rewrite Hs, Hid in Ho. exact Ho.
  - intros Ho. destruct (Habs _ Ho eq_refl) as (Hnin & t' & Ht' & Hid & Hnt).
    cbn [forecastId] in Hid, Hnin.
    assert (t' = t) as -> by (by eapply NoDup_fmap_eq).
    destruct (run_fresh t st1 (Hwf _ Ht) Hnin)
      as [[? _]|(_ & st2 & [[Hr _]|[[msg Hr] _]] & Htr)]; [done|..];
      by eexists _, _.
  - intros (o & Ho & Hid & Hs). apply run_cached; [by apply Hwf|].
    rewrite <- Hid. by apply Hpres.
Qed.

Lemma retryAndReport_always_failing tasks sk st r st' t :
  Forall wf tasks ->
  NoDup (idOf <$> tasks) -> t ∈ tasks ->
  fileOfId (idOf t) ∉ dir st -> alwaysFails t ->
  retryAndReport idOf run tasks sk st = (Return r, st') ->
  mkOutcome persistent_failure (idOf t) None ∈ results r ∧
  callsFor (idOf t) (trace st')
    = (callsFor (idOf t) (trace st) + MAX_RETRIES_PER_QUESTION)%nat ∧
  sleepsIn (trace st') = (sleepsIn (trace st) + (MAX_RETRIES_PER_QUESTION - 1))%nat.
Proof.
  intros Hwf Hnd Ht Habs Hfail Hrun. unfold retryAndReport in Hrun.
  destruct (retryLoop idOf run MAX_RETRIES_PER_QUESTION 0 tasks [] st)
    as [[[pending all]|msg] st1] eqn:Hl; [|discriminate].
  destruct (retryLoop_always_failing _ _ _ _ _ _ _ _ t Hwf Hnd Ht Habs Hfail Hl)
    as (Hin & Hc & Hs).
  destruct pending as [|p ps]; [by apply elem_of_nil in Hin|].
  simpl in Hrun. inversion Hrun; subst; simpl. split; [|done].
  apply elem_of_app. right.
  apply (list_elem_of_fmap_2 (fun task => mkOutcome persistent_failure (idOf task) None))
    in Hin. exact Hin.
Qed.

End RetryFacts.

(** ** Facts about strings used as file names *)

Lemma string_app_length (s1 s2 : string) :
  String.length (s1 +:+ s2) = (String.length s1 + String.length s2)%nat.
Proof. induction s1 as [|c s1 IH]; simpl; [done|]. by rewrite IH. Qed.

Lemma string_app_inj_r (s1 s2 t : string) : s1 +:+ t = s2 +:+ t -> s1 = s2.
Proof.
  revert s2. induction s1 as [|c s1 IH]; intros [|d s2] H.
  - done.
  - apply (f_equal String.length) in H.
    rewrite !string_app_length in H. simpl in H. lia.
  - apply (f_equal String.length) in H.
    rewrite !string_app_length in H. simpl in H. lia.
  - simpl in H. inversion H. f_equal. by apply IH.
Qed.

Lemma independent_outputFileOf_inj : Inj (=) (=) Independent.outputFileOf.
Proof.
  intros a b H. unfold Independent.outputFileOf in H.
  apply (inj (String.append _)) in H. by apply string_app_inj_r in H.
Qed.

Lemma deliberative_outputFileOf_inj : Inj (=) (=) Deliberative.outputFileOf.
Proof.
  intros a b H. unfold Deliberative.outputFileOf in H.
  apply (inj (String.append _)) in H. by apply string_app_inj_r in H.
Qed.

(** ** The two task runners meet the assumptions of the retry loop *)

Section StageFacts.

Context {World : Type}.
Variable Math_sin : Q -> Q.
Variable independentForecastingAgent :
  World -> Question -> option string -> string -> string -> option nat ->
  World * except AgentForecast.
Variable deliberativeForecastingAgent :
  World -> DeliberationRequest -> World * except DeliberativeResult.

Lemma independent_run_cached question req (st : State World) :
  Independent.outputFileOf (Independent.forecastIdOf question req) ∈ independentDir st ->
  Independent.generateSingleForecast independentForecastingAgent question req st
  = (Return (mkOutcome cached (Independent.forecastIdOf question req) None), st).
Proof.
  intros Hin. unfold Independent.generateSingleForecast.
  unfold independentDir in Hin. apply elem_of_dom in Hin. by rewrite decide_True.
Qed.

Lemma independent_run_fresh question req (st : State World) :
  Independent.outputFileOf (Independent.forecastIdOf question req) ∉ independentDir st ->
  (independentThrows question req ∧
   ∃ msg, Independent.generateSingleForecast independentForecastingAgent question req st
          = (Throw msg, st)) ∨
  (¬ independentThrows question req ∧ ∃ st',
      (Independent.generateSingleForecast independentForecastingAgent question req st
       = (Return (mkOutcome success (Independent.forecastIdOf question req) None), st')
       ∧ independentDir st'
         = {[ Independent.outputFileOf (Independent.forecastIdOf question req) ]}
           ∪ independentDir st
       ∨ (∃ msg,
            Independent.generateSingleForecast independentForecastingAgent question req st
            = (Return (mkOutcome error (Independent.forecastIdOf question req) (Some msg)),
               st'))
         ∧ independentDir st' = independentDir st)
      ∧ trace st' = trace st ++ [EvCall (Independent.forecastIdOf question req)]).
Proof.
  intros Hnin. unfold Independent.generateSingleForecast, independentThrows.
  unfold independentDir in Hnin.
  rewrite decide_False by (by rewrite <- elem_of_dom).
  destruct (Independent.getInformation question (infoLabel req)) as [info|msg] eqn:Hi.
  - right. split; [by intros [? ?]|].
    destruct (independentForecastingAgent _ _ _ _ _ _) as [w [forecast|msg]];
      eexists; split.
    + left. split; [reflexivity|]. unfold independentDir. simpl.
      by rewrite dom_insert_L.
    + reflexivity.
    + right. split; [by eexists|]. done.
    + reflexivity.
  - left. split; by eexists.
Qed.

Lemma deliberative_run_cached task (st : State World) :
  taskWf task ->
  Deliberative.outputFileOf (Deliberative.t_forecastId task) ∈ deliberativeDir st ->
  Deliberative.runTask deliberativeForecastingAgent task st
  = (Return (mkOutcome cached (Deliberative.t_forecastId task) None), st).
Proof.
  intros Hwf Hin. unfold Deliberative.runTask,
    Deliberative.generateSingleDeliberativeForecast.
  rewrite Hwf in *. unfold Deliberative.deliberativeId in *.
  unfold deliberativeDir in Hin. apply elem_of_dom in Hin. by rewrite decide_True.
Qed.

Lemma deliberative_run_fresh task (st : State World) :
  taskWf task ->
  Deliberative.outputFileOf (Deliberative.t_forecastId task) ∉ deliberativeDir st ->
  (False ∧ ∃ msg, Deliberative.runTask deliberativeForecastingAgent task st
                  = (Throw msg, st)) ∨
  (¬ False ∧ ∃ st',
      (Deliberative.runTask deliberativeForecastingAgent task st
       = (Return (mkOutcome success (Deliberative.t_forecastId task) None), st')
       ∧ deliberativeDir st'
         = {[ Deliberative.outputFileOf (Deliberative.t_forecastId task) ]}
           ∪ deliberativeDir st
       ∨ (∃ msg,
            Deliberative.runTask deliberativeForecastingAgent task st
            = (Return (mkOutcome error (Deliberative.t_forecastId task) (Some msg)), st'))
         ∧ deliberativeDir st' = deliberativeDir st)
      ∧ trace st' = trace st ++ [EvCall (Deliberative.t_forecastId task)]).
Proof.
  intros Hwf Hnin. unfold Deliberative.runTask,
    Deliberative.generateSingleDeliberativeForecast.
  rewrite Hwf in *. unfold Deliberative.deliberativeId in *.
  unfold deliberativeDir in Hnin.
  rewrite decide_False by (by rewrite <- elem_of_dom).
  right. split; [tauto|].
  destruct (deliberativeForecastingAgent _ _) as [w [result|msg]];
    eexists; split.
  - left. split; [reflexivity|]. unfold deliberativeDir. simpl.
    by rewrite dom_insert_L.
  - reflexivity.
  - right. split; [by eexists|]. done.
  - reflexivity.
Qed.

End StageFacts.

(** ** The batch loop *)

Lemma slice_batch {A} (l : list A) (batchStart : nat) :
  slice l batchStart (Nat.min (batchStart + BATCH_SIZE) (length l))
  = take BATCH_SIZE (drop batchStart l).
Proof.
  unfold slice.
  destruct (decide (batchStart + BATCH_SIZE <= length l)%nat) as [Hle|Hgt].
  - rewrite Nat.min_l by done. f_equal. lia.
  - rewrite Nat.min_r by lia.
    rewrite !take_ge; [done| |]; rewrite length_drop; lia.
Qed.

Lemma processResults_tally batchResults acc acc' exited :
  (length (questionsWithFailures acc) < MAX_TOTAL_FAILURES)%nat ->
  processResults batchResults acc = (acc', exited) ->
  if exited
  then length (questionsWithFailures acc') = MAX_TOTAL_FAILURES
  else (length (questionsWithFailures acc') < MAX_TOTAL_FAILURES)%nat.
Proof.
  revert acc. induction batchResults as [|[r question] rest IH]; intros acc Hlt Hp.
  - simpl in Hp. by inversion Hp; subst.
  - cbn [processResults] in Hp. destruct (0 <? persistentFailures r)%nat.
    + cbn [questionsWithFailures totalCompleted totalCached totalSkipped
           totalPersistentFailures] in Hp.
      destruct (MAX_TOTAL_FAILURES <=? _)%nat eqn:Hle.
      * inversion Hp; subst. cbn [questionsWithFailures] in *.
        rewrite length_app in *. cbn [length] in *.
        apply Nat.leb_le in Hle. lia.
      * apply IH in Hp; [done|]. cbn [questionsWithFailures] in *.
        rewrite length_app in *. cbn [length] in *.
        apply Nat.leb_gt in Hle. lia.
    + apply IH in Hp; [done|]. done.
Qed.

(** The tally never shrinks and grows only by questions that report a
    persistent failure. *)
Lemma processResults_clean batchResults acc :
  Forall (fun p => persistentFailures (fst p) = 0%nat
                   ∧ countStatus success (results (fst p)) = 0%nat) batchResults ->
  ∃ acc', processResults batchResults acc = (acc', false)
          ∧ questionsWithFailures acc' = questionsWithFailures acc
          ∧ totalPersistentFailures acc' = totalPersistentFailures acc
          ∧ totalCompleted acc' = totalCompleted acc.
Proof.
  intros Hall. revert acc.
  induction Hall as [|[r question] rest [Hr Hc] Hall IH]; intros acc.
  - by exists acc.
  - cbn [processResults fst] in *. rewrite Hr, Hc.
    change (0 <? 0)%nat with false. cbv iota.
    destruct (IH (mkTotals (totalCompleted acc + 0)
                           (totalCached acc + countStatus cached (results r))
                           (totalSkipped acc + skipped r)
                           (totalPersistentFailures acc + 0)
                           (questionsWithFailures acc)))
      as (acc' & -> & Hq & Hp & Ht).
    exists acc'. cbn in Hq, Hp, Ht. split; [done|]. split; [done|]. split; lia.
Qed.

Section BatchFacts.

Context {World : Type}.
Variable processQuestion :
  Question -> nat -> State World -> except QuestionResult * State World.

(** The loop needs at most one unit of fuel per remaining question. *)
Lemma batchLoop_total fuel questions batchStart acc st :
  (length questions - batchStart <= fuel)%nat ->
  ∃ r, batchLoop processQuestion fuel questions batchStart acc st = Some r.
Proof.
  revert batchStart acc st.
  induction fuel as [|fuel IH]; intros batchStart acc st Hf.
  - simpl. destruct (batchStart <? length questions)%nat eqn:Hlt.
    + apply Nat.ltb_lt in Hlt. lia.
    + eauto.
  - cbn [batchLoop]. destruct (batchStart <? length questions)%nat eqn:Hlt; [|eauto].
    apply Nat.ltb_lt in Hlt.
    destruct (processBatch _ _ _ _) as [rs st1].
    destruct (promiseAll rs) as [batchResults|msg]; [|eauto].
    destruct (processResults batchResults acc) as [acc1 [|]]; [eauto|].
    apply IH. unfold BATCH_SIZE. lia.
Qed.

Lemma batchLoop_fuel_mono fuel fuel' questions batchStart acc st r :
  batchLoop processQuestion fuel questions batchStart acc st = Some r ->
  (fuel <= fuel')%nat ->
  batchLoop processQuestion fuel' questions batchStart acc st = Some r.
Proof.
  revert fuel' batchStart acc st.
  induction fuel as [|fuel IH]; intros fuel' batchStart acc st Hb Hle.
  - simpl in Hb. destruct (batchStart <? length questions)%nat eqn:Hlt; [done|].
    destruct fuel'; simpl; by rewrite Hlt.
  - destruct fuel' as [|fuel']; [lia|].
    cbn [batchLoop] in *. destruct (batchStart <? length questions)%nat; [|done].
    destruct (processBatch _ _ _ _) as [rs st1].
    destruct (promiseAll rs) as [batchResults|msg]; [|done].
    destruct (processResults batchResults acc) as [acc1 [|]]; [done|].
    apply IH; [done|lia].
Qed.

(** How the loop can end, in terms of the tally. *)
Lemma batchLoop_tally fuel questions batchStart acc st x st' :
  (length (questionsWithFailures acc) < MAX_TOTAL_FAILURES)%nat ->
  batchLoop processQuestion fuel questions batchStart acc st = Some (x, st') ->
  match x with
  | inl acc' => (length (questionsWithFailures acc') < MAX_TOTAL_FAILURES)%nat
  | inr (Exited code, acc') =>
      code = 1%nat ∧ length (questionsWithFailures acc') = MAX_TOTAL_FAILURES
  | inr (Rejected _, acc') =>
      (length (questionsWithFailures acc') < MAX_TOTAL_FAILURES)%nat
  | inr (Finished, _) => False
  end.
Proof.
  revert batchStart acc st.
  induction fuel as [|fuel IH]; intros batchStart acc st Hlt Hb.
  - simpl in Hb. destruct (batchStart <? length questions)%nat; [done|].
    by inversion Hb; subst.
  - cbn [batchLoop] in Hb. destruct (batchStart <? length questions)%nat;
      [|by inversion Hb; subst].
    destruct (processBatch _ _ _ _) as [rs st1].
    destruct (promiseAll rs) as [batchResults|msg]; [|by inversion Hb; subst].
    destruct (processResults batchResults acc) as [acc1 exited] eqn:Hp.
    pose proof (processResults_tally _ _ _ _ Hlt Hp) as Ht.
    destruct exited; [by inversion Hb; subst|].
    by eapply IH.
Qed.

(** When no question of the corpus rejects, the run is never rejected. *)
Lemma processBatch_no_reject batch qIndex st rs st1 :
  (forall question i s, ∃ r s', processQuestion question i s = (Return r, s')) ->
  processBatch processQuestion batch qIndex st = (rs, st1) ->
  ∃ batchResults, promiseAll rs = Return batchResults.
Proof.
  intros Hno. revert qIndex st rs st1.
  induction batch as [|question rest IH]; intros qIndex st rs st1 Hb; simpl in Hb.
  - inversion Hb; subst. by eexists.
  - destruct (Hno question qIndex st) as (r & s' & Hq). rewrite Hq in Hb.
    destruct (processBatch processQuestion rest (S qIndex) s') as [rs' st''] eqn:Hr.
    inversion Hb; subst. destruct (IH _ _ _ _ Hr) as (l & Hl).
    simpl. rewrite Hl. by eexists.
Qed.

Lemma batchLoop_no_reject fuel questions batchStart acc st msg acc' st' :
  (forall question i s, ∃ r s', processQuestion question i s = (Return r, s')) ->
  batchLoop processQuestion fuel questions batchStart acc st
  ≠ Some (inr (Rejected msg, acc'), st').
Proof.
  intros Hno. revert batchStart acc st.
  induction fuel as [|fuel IH]; intros batchStart acc st Hb.
  - simpl in Hb. by destruct (batchStart <? length questions)%nat.
  - cbn [batchLoop] in Hb. destruct (batchStart <? length questions)%nat; [|done].
    destruct (processBatch _ _ _ _) as [rs st1] eqn:Hpb.
    destruct (processBatch_no_reject _ _ _ _ _ Hno Hpb) as (l & Hl).
    rewrite Hl in Hb.
    destruct (processResults l acc) as [acc1 [|]]; [done|].
    by eapply IH.
Qed.

(** A corpus whose questions are all answered without touching the state
    and without failure is run to the end, and the state is the one the run
    started from. *)
Lemma processBatch_unchanged batch qIndex st :
  (forall j question, batch !! j = Some question ->
     ∃ r, processQuestion question (qIndex + j) st = (Return r, st)
          ∧ persistentFailures r = 0%nat ∧ countStatus success (results r) = 0%nat) ->
  ∃ rs batchResults,
    processBatch processQuestion batch qIndex st = (rs, st)
    ∧ promiseAll rs = Return batchResults
    ∧ Forall (fun p => persistentFailures (fst p) = 0%nat
                       ∧ countStatus success (results (fst p)) = 0%nat) batchResults.
Proof.
  revert qIndex. induction batch as [|question rest IH]; intros qIndex Hall.
  - exists [], []. by repeat split.
  - destruct (Hall 0%nat question eq_refl) as (r & Hq & Hpf & Hc).
    rewrite Nat.add_0_r in Hq.
    destruct (IH (S qIndex)) as (rs & l & Hb & Hp & Hl).
    { intros j q Hj. destruct (Hall (S j) q Hj) as (r' & Hq' & ?).
      exists r'. by rewrite <- Nat.add_succ_comm in Hq'. }
    exists (Return (r, question) :: rs), ((r, question) :: l).
    cbn [processBatch]. rewrite Hq, Hb. cbn [promiseAll]. rewrite Hp.
    split; [done|]. split; [done|]. by constructor.
Qed.

Lemma batchLoop_unchanged fuel questions batchStart acc st :
  (forall i question, questions !! i = Some question ->
     ∃ r, processQuestion question i st = (Return r, st)
          ∧ persistentFailures r = 0%nat ∧ countStatus success (results r) = 0%nat) ->
  (length questions - batchStart <= fuel)%nat ->
  ∃ acc', batchLoop processQuestion fuel questions batchStart acc st = Some (inl acc', st)
          ∧ questionsWithFailures acc' = questionsWithFailures acc
          ∧ totalPersistentFailures acc' = totalPersistentFailures acc
          ∧ totalCompleted acc' = totalCompleted acc.
Proof.
  intros Hall. revert batchStart acc.
  induction fuel as [|fuel IH]; intros batchStart acc Hf.
  - simpl. destruct (batchStart <? length questions)%nat eqn:Hlt.
    + apply Nat.ltb_lt in Hlt. lia.
    + by exists acc.
  - cbn [batchLoop]. destruct (batchStart <? length questions)%nat eqn:Hlt;
      [|by exists acc].
    rewrite slice_batch.
    destruct (processBatch_unchanged (take BATCH_SIZE (drop batchStart questions))
                batchStart st) as (rs & l & -> & -> & Hl).
    { intros j q Hj. apply lookup_take_Some in Hj as [Hj _].
      rewrite lookup_drop in Hj. by apply Hall. }
    destruct (processResults_clean l acc Hl) as (acc1 & -> & Hq & Hp & Ht).
    destruct (IH (batchStart + BATCH_SIZE)%nat acc1) as (acc' & -> & ? & ? & ?).
    { unfold BATCH_SIZE. lia. }
    exists acc'. split; [done|]. split; [congruence|]. split; congruence.
Qed.




End BatchFacts.

(** ** The tally of a run *)

Lemma hasPersistentFailure_count (r : QuestionResult) :
  hasPersistentFailure r = (0 <? countStatus persistent_failure (results r))%nat.
Proof.
  unfold hasPersistentFailure, countStatus.
  induction (results r) as [|o l IH]; [done|]. cbn [existsb].
  destruct (decide (status o = persistent_failure)) as [Ho|Ho].
  - rewrite bool_decide_eq_true_2, filter_cons_True by done. done.
  - rewrite bool_decide_eq_false_2, filter_cons_False by done. exact IH.
Qed.

Section TallyFacts.

Context {World : Type}.
Variable processQuestion :
  Question -> nat -> State World -> except QuestionResult * State World.
Hypothesis never_rejects :
  forall question i s, ∃ r s', processQuestion question i s = (Return r, s').
Hypothesis failures_counted :
  forall question i s r s',
    processQuestion question i s = (Return r, s') ->
    persistentFailures r = countStatus persistent_failure (results r).

Lemma processResults_failed batchResults acc acc' exited :
  (length (questionsWithFailures acc) < MAX_TOTAL_FAILURES)%nat ->
  processResults batchResults acc = (acc', exited) ->
  questionsWithFailures acc'
  = take MAX_TOTAL_FAILURES (questionsWithFailures acc ++ failedIds batchResults)
  ∧ (exited = true ->
     (MAX_TOTAL_FAILURES
      <= length (questionsWithFailures acc ++ failedIds batchResults))%nat)
  ∧ (exited = false ->
     questionsWithFailures acc'
     = questionsWithFailures acc ++ failedIds batchResults).
Proof.
  revert acc. induction batchResults as [|[r question] rest IH]; intros acc Hlt Hp.
  - cbn [processResults] in Hp. inversion Hp; subst. unfold failedIds.
    cbn [mbind list_bind]. rewrite app_nil_r.
    split; [by rewrite take_ge by (by apply Nat.lt_le_incl)|]. split; [done|done].
  - cbn [processResults] in Hp. unfold failedIds. cbn [mbind list_bind fst snd].
    fold (failedIds rest).
    destruct (0 <? persistentFailures r)%nat.
    + cbn [questionsWithFailures totalCompleted totalCached totalSkipped
           totalPersistentFailures] in Hp.
      destruct (MAX_TOTAL_FAILURES <=? _)%nat eqn:Hle.
      * inversion Hp; subst. cbn [questionsWithFailures].
        apply Nat.leb_le in Hle. rewrite length_app in Hle. cbn [length] in Hle.
        rewrite (app_assoc _ [q_id question]).
        split; [|split; [|done]].
        -- rewrite take_app_le, take_ge; [done| |]; rewrite length_app; cbn; lia.
        -- intros _. rewrite !length_app. cbn [length]. lia.
      * apply Nat.leb_gt in Hle.
        apply IH in Hp; [|done]. cbn [questionsWithFailures] in Hp.
        by rewrite <- !app_assoc in Hp.
    + apply IH in Hp; [|done]. cbn [questionsWithFailures] in Hp. exact Hp.
Qed.

Lemma processBatch_failed batch qIndex st rs st1 batchResults :
  processBatch processQuestion batch qIndex st = (rs, st1) ->
  promiseAll rs = Return batchResults ->
  failedIds batchResults = failedQuestions processQuestion batch qIndex st.
Proof.
  revert qIndex st rs st1 batchResults.
  induction batch as [|question rest IH]; intros qIndex st rs st1 batchResults Hb Hp.
  - cbn in Hb. inversion Hb; subst. cbn in Hp. by inversion Hp; subst.
  - cbn [processBatch failedQuestions] in *.
    destruct (processQuestion question qIndex st) as [[r|msg] s'] eqn:Hq.
    + destruct (processBatch processQuestion rest (S qIndex) s') as [rs' st''] eqn:Hr.
      inversion Hb; subst. cbn [promiseAll] in Hp.
      destruct (promiseAll rs') as [l|msg] eqn:Hl; [|discriminate].
      inversion Hp; subst. unfold failedIds. cbn [mbind list_bind fst snd].
      fold (failedIds l). rewrite (IH _ _ _ _ _ Hr Hl).
      rewrite (failures_counted _ _ _ _ _ Hq), hasPersistentFailure_count. done.
    + destruct (processBatch processQuestion rest (S qIndex) s') as [rs' st''].
      inversion Hb; subst. discriminate.
Qed.

Lemma failedQuestions_app batch rest qIndex st :
  failedQuestions processQuestion (batch ++ rest) qIndex st
  = failedQuestions processQuestion batch qIndex st
    ++ failedQuestions processQuestion rest (qIndex + length batch)
         (snd (processBatch processQuestion batch qIndex st)).
Proof.
  revert qIndex st. induction batch as [|question batch IH]; intros qIndex st.
  - cbn. by rewrite Nat.add_0_r.
  - cbn [app failedQuestions processBatch length].
    destruct (never_rejects question qIndex st) as (r & s' & Hq). rewrite Hq.
    rewrite IH, <- app_assoc.
    destruct (processBatch processQuestion batch (S qIndex) s') as [rs st''].
    cbn [snd]. do 3 f_equal. lia.
Qed.

(** The tally of a run: the first [MAX_TOTAL_FAILURES] of the questions
    with a persistently failed task, in corpus order. *)
Lemma batchLoop_failed fuel questions batchStart acc st x st' :
  (length (questionsWithFailures acc) < MAX_TOTAL_FAILURES)%nat ->
  batchLoop processQuestion fuel questions batchStart acc st = Some (x, st') ->
  questionsWithFailures (totalsOf x)
  = take MAX_TOTAL_FAILURES
      (questionsWithFailures acc
       ++ failedQuestions processQuestion (drop batchStart questions) batchStart st).
Proof.
  revert batchStart acc st.
  induction fuel as [|fuel IH]; intros batchStart acc st Hlt Hb.
  - cbn [batchLoop] in Hb. destruct (batchStart <? length questions)%nat eqn:Hs; [done|].
    apply Nat.ltb_ge in Hs. inversion Hb; subst. cbn [totalsOf].
    rewrite drop_ge by done. cbn [failedQuestions]. rewrite app_nil_r.
    by rewrite take_ge by (by apply Nat.lt_le_incl).
  - cbn [batchLoop] in Hb.
    destruct (batchStart <? length questions)%nat eqn:Hs.
    2:{ apply Nat.ltb_ge in Hs. inversion Hb; subst. cbn [totalsOf].
        rewrite drop_ge by done. cbn [failedQuestions]. rewrite app_nil_r.
        by rewrite take_ge by (by apply Nat.lt_le_incl). }
    rewrite slice_batch in Hb.
    rewrite <- (take_drop BATCH_SIZE (drop batchStart questions)).
    rewrite failedQuestions_app.
    destruct (processBatch processQuestion _ batchStart st) as [rs st1] eqn:Hpb.
    cbn [snd].
    destruct (processBatch_no_reject _ _ _ _ _ _ never_rejects Hpb) as (l & Hl).
    rewrite Hl in Hb.
    rewrite <- (processBatch_failed _ _ _ _ _ _ Hpb Hl).
    destruct (processResults l acc) as [acc1 exited] eqn:Hpr.
    destruct (processResults_failed _ _ _ _ Hlt Hpr) as (Htake & Hex & Hno).
    pose proof (processResults_tally _ _ _ _ Hlt Hpr) as Htally.
    destruct exited.
    + inversion Hb; subst. cbn [totalsOf]. rewrite Htake.
      rewrite app_assoc. symmetry. apply take_app_le. by apply Hex.
    + rewrite (IH _ _ _ Htally Hb). rewrite Hno by done.
      rewrite <- app_assoc. do 2 f_equal.
      rewrite drop_drop, length_take, length_drop.
      destruct (decide (BATCH_SIZE <= length questions - batchStart)%nat).
      * by rewrite Nat.min_l.
      * rewrite (drop_ge questions) by lia. done.
Qed.

End TallyFacts.

(** ** Both stages *)

Lemma countStatus_cached {Task} (idOf : Task -> string) (tasks : list Task) s :
  s ≠ cached ->
  countStatus s ((fun t => mkOutcome cached (idOf t) None) <$> tasks) = 0%nat.
Proof.
  intros Hs. unfold countStatus. induction tasks as [|t ts IH]; [done|].
  rewrite fmap_cons, filter_cons_False by (simpl; congruence). exact IH.
Qed.

Lemma slice_test_lookup {A} (l : list A) i x :
  slice l 0 2 !! i = Some x -> l !! i = Some x.
Proof. unfold slice. rewrite drop_0. by intros [? _]%lookup_take_Some. Qed.

Section StageTheorems.

Context {World : Type}.
Variable Math_sin : Q -> Q.
Variable independentForecastingAgent :
  World -> Question -> option string -> string -> string -> option nat ->
  World * except AgentForecast.
Variable deliberativeForecastingAgent :
  World -> DeliberationRequest -> World * except DeliberativeResult.

Notation generateSingleForecast :=
  (Independent.generateSingleForecast independentForecastingAgent).
Notation generateSingleDeliberativeForecast :=
  (Deliberative.generateSingleDeliberativeForecast deliberativeForecastingAgent).
Notation independentMain :=
  (Independent.main Math_sin independentForecastingAgent).
Notation deliberativeMain :=
  (Deliberative.main Math_sin deliberativeForecastingAgent).

(** Every task collected by the deliberative [processQuestion] is built by
    [createTask]. *)
Lemma collectTasks_wf conditions question qIndex (st : State World)
    allTasks skipped tasks skipped' :
  Forall taskWf allTasks ->
  Deliberative.collectTasks Math_sin conditions question qIndex st allTasks skipped
  = Return (tasks, skipped') ->
  Forall taskWf tasks.
Proof.
  revert allTasks skipped.
  induction conditions as [|condition rest IH]; intros allTasks skipped Hwf Hc.
  - simpl in Hc. by inversion Hc; subst.
  - cbn [Deliberative.collectTasks] in Hc.
    destruct (getGroupComposition Math_sin condition (q_id question) qIndex)
      as [g|msg]; [|done].
    destruct (existsb _ _).
    + by eapply IH.
    + eapply IH; [|exact Hc]. apply Forall_app. split; [done|].
      repeat constructor.
Qed.

Lemma getGroupComposition_known condition questionId questionIndex :
  condition ∈ CONDITIONS ->
  ∃ g, getGroupComposition Math_sin condition questionId questionIndex = Return g.
Proof.
  unfold CONDITIONS. intros Hc.
  repeat (apply elem_of_cons in Hc as [->|Hc]; [by eexists|]).
  by apply elem_of_nil in Hc.
Qed.

Lemma collectTasks_no_throw conditions question qIndex (st : State World)
    allTasks skipped :
  Forall (fun c => c ∈ CONDITIONS) conditions ->
  ∃ tasks skipped',
    Deliberative.collectTasks Math_sin conditions question qIndex st allTasks skipped
    = Return (tasks, skipped').
Proof.
  intros Hall. revert allTasks skipped.
  induction Hall as [|condition rest Hc Hall IH]; intros allTasks skipped.
  - by eexists _, _.
  - cbn [Deliberative.collectTasks].
    destruct (getGroupComposition_known condition (q_id question) qIndex Hc)
      as (g & ->).
    destruct (existsb _ _); apply IH.
Qed.

Lemma CONDITIONS_known : Forall (fun c => c ∈ CONDITIONS) CONDITIONS.
Proof. apply Forall_forall. auto. Qed.

(** *** The task lists of the two stages *)

(** Case analysis on the two shuffles and on the rotating index: 6 x 6 x 3
    closed cases. *)
Ltac enumerate_compositions questionId qIndex :=
  let Hi := fresh "Hi" in
  let Hm := fresh "Hm" in
  let Hq := fresh "Hq" in
  pose proof (shuffle3 Math_sin "info1" "info2" "info3" (inject_Z questionId)) as Hi;
  pose proof (shuffle3 Math_sin "pro" "sonnet" "gpt5" (inject_Z questionId + 1)%Q) as Hm;
  pose proof (Nat.mod_upper_bound qIndex 3 ltac:(lia)) as Hq;
  unfold MODELS in *;
  set (infoLabels := seededShuffle Math_sin ["info1"; "info2"; "info3"] _) in *;
  set (models := seededShuffle Math_sin ["pro"; "sonnet"; "gpt5"] _) in *;
  clearbody infoLabels models;
  set (r := (qIndex mod 3)%nat) in *; clearbody r;
  destruct r as [|[|[|?]]]; [| | |lia]; clear Hq;
  repeat (apply elem_of_cons in Hm as [-> | Hm]);
    try (by apply elem_of_nil in Hm);
  repeat (apply elem_of_cons in Hi as [-> | Hi]);
    try (by apply elem_of_nil in Hi).

Lemma required_ids_NoDup question qIndex :
  NoDup (Independent.forecastIdOf question
           <$> getRequiredForecasts Math_sin (q_id question) qIndex).
Proof.
  assert (H : NoDup (independentSuffix
                       <$> getRequiredForecasts Math_sin (q_id question) qIndex)).
  { unfold getRequiredForecasts.
    enumerate_compositions (q_id question) qIndex;
      apply (bool_decide_unpack _); vm_compute; exact I. }
  apply (NoDup_fmap_2 (String.append (pretty (q_id question)))) in H.
  by rewrite <- list_fmap_compose in H.
Qed.

Lemma required_labels question qIndex req :
  req ∈ getRequiredForecasts Math_sin (q_id question) qIndex ->
  ¬ independentThrows question req.
Proof.
  intros Hreq [msg Hm].
  assert (H : Forall (fun r => infoLabel r ∈ ["full"; "none"; "info1"; "info2"; "info3"])
                     (getRequiredForecasts Math_sin (q_id question) qIndex)).
  { unfold getRequiredForecasts.
    enumerate_compositions (q_id question) qIndex;
      apply (bool_decide_unpack _); vm_compute; exact I. }
  rewrite Forall_forall in H. pose proof (H req Hreq) as Hmem. clear H.
  unfold Independent.getInformation in Hm.
  repeat (apply elem_of_cons in Hmem as [He|Hmem];
          [rewrite He in Hm; by repeat (case_decide; try discriminate)|]).
  by apply elem_of_nil in Hmem.
Qed.

Lemma existsb_missing (l : list (option IndependentResult)) :
  existsb (fun f => bool_decide (f = None)) l = false <-> Forall is_Some l.
Proof.
  induction l as [|[x|] l IH]; simpl.
  - split; [constructor|done].
  - rewrite IH. split; [by constructor|by inversion 1].
  - split; [done|]. inversion 1 as [|?? [? ?]]. done.
Qed.

(** [collectTasks] computes the tasks of the complete conditions, in order,
    and counts three skipped tasks for every incomplete condition. *)
Lemma collectTasks_spec conditions question qIndex (st : State World) allTasks skipped :
  Forall (fun c => c ∈ CONDITIONS) conditions ->
  Deliberative.collectTasks Math_sin conditions question qIndex st allTasks skipped
  = Return
      (allTasks ++ (filter (groupComplete Math_sin question qIndex st) conditions
                      ≫= tasksFor Math_sin question qIndex st),
       (skipped + 3 * length (filter (fun c => ¬ groupComplete Math_sin question qIndex st c)
                                     conditions))%nat).
Proof.
  intros Hall. revert allTasks skipped.
  induction Hall as [|condition rest Hc Hall IH]; intros allTasks skipped.
  - cbn. rewrite app_nil_r. do 2 f_equal. lia.
  - cbn [Deliberative.collectTasks].
    destruct (getGroupComposition_known condition (q_id question) qIndex Hc)
      as (g & Hg).
    rewrite Hg. fold (loadGroup question g st).
    destruct (existsb _ (loadGroup question g st)) eqn:He.
    + assert (Hn : ¬ groupComplete Math_sin question qIndex st condition).
      { unfold groupComplete. rewrite Hg. rewrite <- existsb_missing. congruence. }
      rewrite IH, filter_cons_False, filter_cons_True by done.
      do 2 f_equal. simpl. lia.
    + assert (Hn : groupComplete Math_sin question qIndex st condition).
      { unfold groupComplete. rewrite Hg. by apply existsb_missing. }
      rewrite IH, filter_cons_True, filter_cons_False by tauto.
      rewrite bind_cons, app_assoc. unfold tasksFor at 2. by rewrite Hg.
Qed.

Lemma sublist_bind {A B} (f : A -> list B) (l1 l2 : list A) :
  sublist l1 l2 -> sublist (l1 ≫= f) (l2 ≫= f).
Proof.
  induction 1 as [|x l1 l2 Hs IH|x l1 l2 Hs IH]; [done|..]; rewrite ?bind_cons.
  - by apply sublist_app.
  - by apply sublist_inserts_l.
Qed.

Lemma tasksFor_ids question qIndex (st : State World) conditions :
  Deliberative.t_forecastId <$> (conditions ≫= tasksFor Math_sin question qIndex st)
  = String.append (pretty (q_id question))
      <$> (conditions ≫= suffixesFor Math_sin (q_id question) qIndex).
Proof.
  induction conditions as [|c rest IH]; [done|].
  rewrite !bind_cons, !fmap_app, IH. f_equal.
  unfold tasksFor, suffixesFor.
  by destruct (getGroupComposition Math_sin c (q_id question) qIndex).
Qed.

Lemma deliberative_ids_NoDup question qIndex (st : State World) :
  NoDup (Deliberative.t_forecastId
           <$> (filter (groupComplete Math_sin question qIndex st) CONDITIONS
                  ≫= tasksFor Math_sin question qIndex st)).
Proof.
  eapply sublist_NoDup;
    [|apply fmap_sublist, sublist_bind, (sublist_filter _ CONDITIONS)].
  rewrite tasksFor_ids. apply (NoDup_fmap_2 _).
  unfold CONDITIONS, suffixesFor. cbn [mbind list_bind]. cbn [getGroupComposition].
  unfold getGroupComposition.
  enumerate_compositions (q_id question) qIndex;
    apply (bool_decide_unpack _); vm_compute; exact I.
Qed.

(** C6. A task whose result file exists is answered [cached]: the service
    is not called and nothing is written (the state, trace included, is the
    one before).  Hence a run of either stage against a store that holds
    the result of every task of every question ends normally in the very
    state it started from: no forecasting call, every stored record as it
    was. *)
Theorem cache_idempotence :
  (forall question req (st : State World),
     is_Some (fs_independent st
                !! Independent.outputFileOf (Independent.forecastIdOf question req)) ->
     generateSingleForecast question req st
     = (Return (mkOutcome cached (Independent.forecastIdOf question req) None), st)) ∧
  (forall question condition groupComposition independentForecasts position
          (st : State World),
     is_Some (fs_deliberative st
                !! Deliberative.outputFileOf
                     (Deliberative.deliberativeId question condition groupComposition
                                                  position)) ->
     generateSingleDeliberativeForecast question condition groupComposition
       independentForecasts position st
     = (Return (mkOutcome cached
                  (Deliberative.deliberativeId question condition groupComposition
                                               position) None), st)) ∧
  (forall TEST_MODE questions (st : State World),
     (forall i question req,
        questions !! i = Some question ->
        req ∈ getRequiredForecasts Math_sin (q_id question) i ->
        is_Some (fs_independent st
                   !! Independent.outputFileOf (Independent.forecastIdOf question req))) ->
     ∃ totals, independentMain TEST_MODE questions st = Some ((Finished, totals), st)
               ∧ totalCompleted totals = 0%nat
               ∧ totalPersistentFailures totals = 0%nat) ∧
  (forall TEST_MODE questions (st : State World),
     (forall i question tasks skipped task,
        questions !! i = Some question ->
        Deliberative.collectTasks Math_sin CONDITIONS question i st [] 0
        = Return (tasks, skipped) ->
        task ∈ tasks ->
        is_Some (fs_deliberative st
                   !! Deliberative.outputFileOf (Deliberative.t_forecastId task))) ->
     ∃ totals, deliberativeMain TEST_MODE questions st = Some ((Finished, totals), st)
               ∧ totalCompleted totals = 0%nat
               ∧ totalPersistentFailures totals = 0%nat).
Proof.
  split; [|split; [|split]].
  - intros question req st Hin. apply independent_run_cached.
    unfold independentDir. by apply elem_of_dom.
  - intros question condition g ifs position st Hin.
    unfold Deliberative.generateSingleDeliberativeForecast.
    unfold Deliberative.deliberativeId in *. by rewrite decide_True.
  - intros TEST_MODE questions st Hpop. unfold Independent.main.
    set (qs := if TEST_MODE then slice questions 0 2 else questions).
    assert (Hqs : forall i q, qs !! i = Some q -> questions !! i = Some q).
    { intros i q. unfold qs. destruct TEST_MODE; [apply slice_test_lookup|done]. }
    edestruct (batchLoop_unchanged
                 (fun question qIndex =>
                    Independent.processQuestion independentForecastingAgent question qIndex
                      (getRequiredForecasts Math_sin (q_id question) qIndex))
                 (length qs) qs 0 (mkTotals 0 0 0 0 []) st)
      as (acc & Hb & Hq & Hp & Hc).
    + intros i question Hi. eexists. unfold Independent.processQuestion.
      rewrite (retryAndReport_all_cached _ _ Independent.outputFileOf independentDir
                 (fun _ => True)).
      * split; [reflexivity|]. split; [done|]. by apply countStatus_cached.
      * intros t s _. apply independent_run_cached.
      * by apply Forall_true.
      * intros t Ht. unfold independentDir. apply elem_of_dom.
        eapply Hpop; [by apply Hqs|done].
    + lia.
    + rewrite Hb. rewrite Hq. simpl. eauto.
  - intros TEST_MODE questions st Hpop. unfold Deliberative.main.
    set (qs := if TEST_MODE then slice questions 0 2 else questions).
    assert (Hqs : forall i q, qs !! i = Some q -> questions !! i = Some q).
    { intros i q. unfold qs. destruct TEST_MODE; [apply slice_test_lookup|done]. }
    edestruct (batchLoop_unchanged
                 (Deliberative.processQuestion Math_sin deliberativeForecastingAgent)
                 (length qs) qs 0 (mkTotals 0 0 0 0 []) st)
      as (acc & Hb & Hq & Hp & Hc).
    + intros i question Hi. unfold Deliberative.processQuestion.
      destruct (Deliberative.collectTasks Math_sin CONDITIONS question i st [] 0)
        as [[tasks skipped]|msg] eqn:Hct.
      * destruct (length tasks =? 0)%nat; [by eexists|].
        eexists.
        rewrite (retryAndReport_all_cached _ _ Deliberative.outputFileOf deliberativeDir
                   taskWf).
        -- split; [reflexivity|]. split; [done|]. by apply countStatus_cached.
        -- intros t s. apply deliberative_run_cached.
        -- eapply collectTasks_wf; [|exact Hct]. constructor.
        -- intros t Ht. unfold deliberativeDir. apply elem_of_dom.
           eapply Hpop; [by apply Hqs|exact Hct|done].
      * destruct (collectTasks_no_throw CONDITIONS question i st [] 0 CONDITIONS_known)
          as (? & ? & Hr). congruence.
    + lia.
    + rewrite Hb. simpl. eauto.
Qed.

End StageTheorems.

(** ** Failed attempts and re-runs *)

Section StoreOnError.

Context {World : Type}.
Variable Math_sin : Q -> Q.
Variable independentForecastingAgent :
  World -> Question -> option string -> string -> string -> option nat ->
  World * except AgentForecast.
Variable deliberativeForecastingAgent :
  World -> DeliberationRequest -> World * except DeliberativeResult.

Notation generateSingleForecast :=
  (Independent.generateSingleForecast independentForecastingAgent).
Notation runTask := (Deliberative.runTask deliberativeForecastingAgent).

Lemma independent_error_unchanged :
  forall question req (st : State World) info w msg,
     fs_independent st
       !! Independent.outputFileOf (Independent.forecastIdOf question req) = None ->
     Independent.getInformation question (infoLabel req) = Return info ->
     independentForecastingAgent (world st) question info (model req) (infoLabel req)
                                 (instance req) = (w, Throw msg) ->
     ∃ st', generateSingleForecast question req st
            = (Return (mkOutcome error (Independent.forecastIdOf question req) (Some msg)),
               st')
            ∧ fs_independent st' = fs_independent st
            ∧ fs_deliberative st' = fs_deliberative st.
Proof.
  intros question req st info w msg Hnone Hinfo Hcall.
    unfold Independent.generateSingleForecast.
    rewrite decide_False by (rewrite Hnone; by intros [? ?]).
    rewrite Hinfo. cbn [world logEvent]. rewrite Hcall. by eexists.
Qed.

Lemma deliberative_error_unchanged :
  forall task (st : State World) w msg,
     taskWf task ->
     fs_deliberative st
       !! Deliberative.outputFileOf (Deliberative.t_forecastId task) = None ->
     deliberativeForecastingAgent (world st)
       (mkDeliberationRequest (Deliberative.t_question task)
          (Deliberative.informationFor (Deliberative.t_question task)
             (Deliberative.agentAt (Deliberative.t_groupComposition task)
                                   (Deliberative.t_position task)))
          (mjoin (Deliberative.t_independentForecasts task
                    !! (Deliberative.t_position task - 1)%nat))
          (Deliberative.others (Deliberative.t_independentForecasts task)
                               (Deliberative.t_position task))
          (model (Deliberative.agentAt (Deliberative.t_groupComposition task)
                                       (Deliberative.t_position task)))
          (Deliberative.t_condition task) (Deliberative.t_position task))
     = (w, Throw msg) ->
     ∃ st', runTask task st
            = (Return (mkOutcome error (Deliberative.t_forecastId task) (Some msg)), st')
            ∧ fs_independent st' = fs_independent st
            ∧ fs_deliberative st' = fs_deliberative st.
Proof.
  intros task st w msg Hwf Hnone Hcall.
    unfold Deliberative.runTask, Deliberative.generateSingleDeliberativeForecast.
    rewrite Hwf in *. unfold Deliberative.deliberativeId in *.
    rewrite decide_False by (rewrite Hnone; by intros [? ?]).
    cbn [world logEvent]. rewrite Hcall. by eexists.
Qed.

Lemma independent_write_on_success :
  forall question req (st : State World) r st',
     generateSingleForecast question req st = (r, st') ->
     fs_deliberative st' = fs_deliberative st ∧
     (fs_independent st' = fs_independent st ∨
      r = Return (mkOutcome success (Independent.forecastIdOf question req) None)
      ∧ ∃ record,
          fs_independent st'
          = <[Independent.outputFileOf (Independent.forecastIdOf question req) := record]>
              (fs_independent st)).
Proof.
  intros question req st r st' Hrun.
    unfold Independent.generateSingleForecast in Hrun.
    destruct (decide _) in Hrun; [by inversion Hrun; subst; auto|].
    destruct (Independent.getInformation _ _) in Hrun; [|by inversion Hrun; subst; auto].
    destruct (independentForecastingAgent _ _ _ _ _ _) as [w [forecast|msg]];
      inversion Hrun; subst; simpl; (split; [done|]); [right|by left].
    split; [done|]. by eexists.
Qed.

Lemma deliberative_write_on_success :
  forall task (st : State World) r st',
     taskWf task ->
     runTask task st = (r, st') ->
     fs_independent st' = fs_independent st ∧
     (fs_deliberative st' = fs_deliberative st ∨
      r = Return (mkOutcome success (Deliberative.t_forecastId task) None)
      ∧ ∃ record,
          fs_deliberative st'
          = <[Deliberative.outputFileOf (Deliberative.t_forecastId task) := record]>
              (fs_deliberative st)).
Proof.
  intros task st r st' Hwf Hrun.
    unfold Deliberative.runTask, Deliberative.generateSingleDeliberativeForecast in Hrun.
    rewrite Hwf in *. unfold Deliberative.deliberativeId in *.
    destruct (decide _) in Hrun; [by inversion Hrun; subst; auto|].
    destruct (deliberativeForecastingAgent _ _) as [w [result|msg]];
      inversion Hrun; subst; simpl; (split; [done|]); [right|by left].
    split; [done|]. by eexists.
Qed.

Lemma independent_rerun :
  forall question qIndex (st : State World) r st1 req,
     Independent.processQuestion independentForecastingAgent question qIndex
       (getRequiredForecasts Math_sin (q_id question) qIndex) st = (Return r, st1) ->
     req ∈ getRequiredForecasts Math_sin (q_id question) qIndex ->
     rerunPrecise (Independent.forecastIdOf question) (generateSingleForecast question)
                  req r st1.
Proof.
  intros question qIndex st r st1 req Hrun Hreq.
  pose proof (required_ids_NoDup Math_sin question qIndex) as Hnd.
  revert Hrun Hreq Hnd.
  generalize (getRequiredForecasts Math_sin (q_id question) qIndex) as reqs.
  intros reqs Hrun Hreq Hnd.
  exact (retryAndReport_rerun (Independent.forecastIdOf question)
           (generateSingleForecast question) Independent.outputFileOf
           independentDir (independentThrows question) (fun _ => True)
           independent_outputFileOf_inj (fun _ _ => eq_refl)
           (fun t s _ => independent_run_cached _ question t s)
           (fun t s _ => independent_run_fresh _ question t s)
           reqs 0%nat st r st1 req (Forall_true _ _ (fun _ => I)) Hnd Hrun Hreq).
Qed.

Lemma deliberative_rerun :
  forall question qIndex (st : State World) r st1 tasks skipped task,
     Deliberative.collectTasks Math_sin CONDITIONS question qIndex st [] 0
     = Return (tasks, skipped) ->
     Deliberative.processQuestion Math_sin deliberativeForecastingAgent question qIndex st
     = (Return r, st1) ->
     task ∈ tasks ->
     rerunPrecise Deliberative.t_forecastId runTask task r st1.
Proof.
  intros question qIndex st r st1 tasks skipped task Hct Hrun Ht.
  unfold Deliberative.processQuestion in Hrun. rewrite Hct in Hrun.
  assert (Hwf : Forall taskWf tasks).
  { eapply collectTasks_wf; [|exact Hct]. constructor. }
  assert (Hnd : NoDup (Deliberative.t_forecastId <$> tasks)).
  { pose proof (deliberative_ids_NoDup Math_sin question qIndex st) as Hnd.
    rewrite (collectTasks_spec Math_sin CONDITIONS question qIndex st [] 0
               CONDITIONS_known) in Hct.
    revert Hnd Hct.
    generalize (filter (groupComplete Math_sin question qIndex st) CONDITIONS
                  ≫= tasksFor Math_sin question qIndex st) as l.
    intros l Hnd Hct. by inversion Hct; subst. }
  clear Hct.
  destruct (length tasks =? 0)%nat eqn:Hlen.
  { apply Nat.eqb_eq, nil_length_inv in Hlen. subst. by apply elem_of_nil in Ht. }
  exact (retryAndReport_rerun Deliberative.t_forecastId runTask
           Deliberative.outputFileOf deliberativeDir (fun _ => False) taskWf
           deliberative_outputFileOf_inj (fun _ _ => eq_refl)
           (deliberative_run_cached _) (deliberative_run_fresh _)
           tasks skipped st r st1 task Hwf Hnd Hrun Ht).
Qed.

(** C10. In either stage a task whose forecasting call throws is answered
    [error] with its identifier and leaves both result directories exactly
    as they were; a directory changes only by the one file of a task whose
    call succeeded.  After a question has been processed, a later execution
    of one of its tasks calls the service again if the task was marked
    [persistent_failure], and is answered from the store if it succeeded or
    was cached. *)
Theorem store_unchanged_on_error :
  (* a throwing call, independent stage *)
  (forall question req (st : State World) info w msg,
     fs_independent st
       !! Independent.outputFileOf (Independent.forecastIdOf question req) = None ->
     Independent.getInformation question (infoLabel req) = Return info ->
     independentForecastingAgent (world st) question info (model req) (infoLabel req)
                                 (instance req) = (w, Throw msg) ->
     ∃ st', generateSingleForecast question req st
            = (Return (mkOutcome error (Independent.forecastIdOf question req) (Some msg)),
               st')
            ∧ fs_independent st' = fs_independent st
            ∧ fs_deliberative st' = fs_deliberative st) ∧
  (* a throwing call, deliberative stage *)
  (forall task (st : State World) w msg,
     taskWf task ->
     fs_deliberative st
       !! Deliberative.outputFileOf (Deliberative.t_forecastId task) = None ->
     deliberativeForecastingAgent (world st)
       (mkDeliberationRequest (Deliberative.t_question task)
          (Deliberative.informationFor (Deliberative.t_question task)
             (Deliberative.agentAt (Deliberative.t_groupComposition task)
                                   (Deliberative.t_position task)))
          (mjoin (Deliberative.t_independentForecasts task
                    !! (Deliberative.t_position task - 1)%nat))
          (Deliberative.others (Deliberative.t_independentForecasts task)
                               (Deliberative.t_position task))
          (model (Deliberative.agentAt (Deliberative.t_groupComposition task)
                                       (Deliberative.t_position task)))
          (Deliberative.t_condition task) (Deliberative.t_position task))
     = (w, Throw msg) ->
     ∃ st', runTask task st
            = (Return (mkOutcome error (Deliberative.t_forecastId task) (Some msg)), st')
            ∧ fs_independent st' = fs_independent st
            ∧ fs_deliberative st' = fs_deliberative st) ∧
  (* a file is written only by a successful call *)
  (forall question req (st : State World) r st',
     generateSingleForecast question req st = (r, st') ->
     fs_deliberative st' = fs_deliberative st ∧
     (fs_independent st' = fs_independent st ∨
      r = Return (mkOutcome success (Independent.forecastIdOf question req) None)
      ∧ ∃ record,
          fs_independent st'
          = <[Independent.outputFileOf (Independent.forecastIdOf question req) := record]>
              (fs_independent st))) ∧
  (forall task (st : State World) r st',
     taskWf task ->
     runTask task st = (r, st') ->
     fs_independent st' = fs_independent st ∧
     (fs_deliberative st' = fs_deliberative st ∨
      r = Return (mkOutcome success (Deliberative.t_forecastId task) None)
      ∧ ∃ record,
          fs_deliberative st'
          = <[Deliberative.outputFileOf (Deliberative.t_forecastId task) := record]>
              (fs_deliberative st))) ∧
  (* re-runs *)
  (forall question qIndex (st : State World) r st1 req,
     Independent.processQuestion independentForecastingAgent question qIndex
       (getRequiredForecasts Math_sin (q_id question) qIndex) st = (Return r, st1) ->
     req ∈ getRequiredForecasts Math_sin (q_id question) qIndex ->
     rerunPrecise (Independent.forecastIdOf question) (generateSingleForecast question)
                  req r st1) ∧
  (forall question qIndex (st : State World) r st1 tasks skipped task,
     Deliberative.collectTasks Math_sin CONDITIONS question qIndex st [] 0
     = Return (tasks, skipped) ->
     Deliberative.processQuestion Math_sin deliberativeForecastingAgent question qIndex st
     = (Return r, st1) ->
     task ∈ tasks ->
     rerunPrecise Deliberative.t_forecastId runTask task r st1).
Proof.
  exact (conj independent_error_unchanged (conj deliberative_error_unchanged
    (conj independent_write_on_success (conj deliberative_write_on_success
    (conj independent_rerun deliberative_rerun))))).
Qed.

End StoreOnError.

(** ** Dependency integrity of the deliberative stage *)

Section Integrity.

Context {World : Type}.
Variable Math_sin : Q -> Q.
Variable deliberativeForecastingAgent :
  World -> DeliberationRequest -> World * except DeliberativeResult.

Notation runTask := (Deliberative.runTask deliberativeForecastingAgent).



End Integrity.

(** ** Exit status and circuit breaker *)

Section RunFacts.

Context {World : Type}.
Variable Math_sin : Q -> Q.
Variable independentForecastingAgent :
  World -> Question -> option string -> string -> string -> option nat ->
  World * except AgentForecast.
Variable deliberativeForecastingAgent :
  World -> DeliberationRequest -> World * except DeliberativeResult.

Notation generateSingleForecast :=
  (Independent.generateSingleForecast independentForecastingAgent).
Notation independentMain :=
  (Independent.main Math_sin independentForecastingAgent).
Notation deliberativeMain :=
  (Deliberative.main Math_sin deliberativeForecastingAgent).
Notation independentQuestion :=
  (fun question qIndex =>
     Independent.processQuestion independentForecastingAgent question qIndex
       (getRequiredForecasts Math_sin (q_id question) qIndex)).
Notation deliberativeQuestion :=
  (Deliberative.processQuestion Math_sin deliberativeForecastingAgent).

Lemma independent_never_rejects question qIndex (st : State World) :
  ∃ r st', independentQuestion question qIndex st = (Return r, st').
Proof.
  apply (retryAndReport_no_throw (Independent.forecastIdOf question)
           (generateSingleForecast question) Independent.outputFileOf
           independentDir (independentThrows question) (fun _ => True)
           (fun t s _ => independent_run_cached _ question t s)
           (fun t s _ => independent_run_fresh _ question t s)).
  - by apply Forall_true.
  - intros t Ht. by apply (required_labels Math_sin question qIndex).
Qed.

Lemma deliberative_never_rejects question qIndex (st : State World) :
  ∃ r st', Deliberative.processQuestion Math_sin deliberativeForecastingAgent
             question qIndex st = (Return r, st').
Proof.
  unfold Deliberative.processQuestion.
  destruct (collectTasks_no_throw Math_sin CONDITIONS question qIndex st [] 0
              CONDITIONS_known) as (tasks & nSkipped & Hct).
  rewrite Hct. destruct (length tasks =? 0)%nat; [by eexists _, _|].
  apply (retryAndReport_no_throw Deliberative.t_forecastId
           (Deliberative.runTask deliberativeForecastingAgent)
           Deliberative.outputFileOf deliberativeDir (fun _ => False) taskWf
           (deliberative_run_cached _) (deliberative_run_fresh _)).
  - eapply collectTasks_wf; [|exact Hct]. constructor.
  - intros t _ [].
Qed.

Lemma independent_failures_counted question qIndex (st : State World) r st' :
  independentQuestion question qIndex st = (Return r, st') ->
  persistentFailures r = countStatus persistent_failure (results r).
Proof.
  cbv beta.
  generalize (getRequiredForecasts Math_sin (q_id question) qIndex) as reqs.
  intros reqs Hrun. unfold Independent.processQuestion in Hrun.
  pose proof (retryAndReport_spec (Independent.forecastIdOf question)
                (generateSingleForecast question) Independent.outputFileOf
                independentDir (independentThrows question) (fun _ => True)
                independent_outputFileOf_inj (fun _ _ => eq_refl)
                (fun t s _ => independent_run_cached _ question t s)
                (fun t s _ => independent_run_fresh _ question t s)
                reqs 0%nat st r st' (Forall_true _ _ (fun _ => I)) Hrun) as Hspec.
  apply Hspec.
Qed.

Lemma deliberative_failures_counted question qIndex (st : State World) r st' :
  deliberativeQuestion question qIndex st = (Return r, st') ->
  persistentFailures r = countStatus persistent_failure (results r).
Proof.
  unfold Deliberative.processQuestion. intros Hrun.
  destruct (Deliberative.collectTasks Math_sin CONDITIONS question qIndex st [] 0)
    as [[tasks nSkipped]|msg] eqn:Hct; [|discriminate].
  destruct (length tasks =? 0)%nat.
  { by inversion Hrun; subst. }
  assert (Hwf : Forall taskWf tasks).
  { eapply collectTasks_wf; [|exact Hct]. constructor. }
  pose proof (retryAndReport_spec Deliberative.t_forecastId
                (Deliberative.runTask deliberativeForecastingAgent)
                Deliberative.outputFileOf deliberativeDir (fun _ => False) taskWf
                deliberative_outputFileOf_inj (fun _ _ => eq_refl)
                (deliberative_run_cached _) (deliberative_run_fresh _)
                tasks nSkipped st r st' Hwf Hrun) as Hspec.
  apply Hspec.
Qed.

Lemma take_nil_iff {A} (l : list A) :
  take MAX_TOTAL_FAILURES l ≠ [] <-> l ≠ [].
Proof. destruct l; [done|]. unfold MAX_TOTAL_FAILURES. done. Qed.

Lemma length_take_threshold {A} (l : list A) :
  (MAX_TOTAL_FAILURES <= length (take MAX_TOTAL_FAILURES l))%nat
  <-> (MAX_TOTAL_FAILURES <= length l)%nat.
Proof. rewrite length_take. lia. Qed.

Lemma zeroTotals_tally :
  (length (questionsWithFailures zeroTotals) < MAX_TOTAL_FAILURES)%nat.
Proof. unfold MAX_TOTAL_FAILURES. simpl. lia. Qed.


(** C3, as the code has it.  Every run of either stage terminates, and
    its tally holds the first [MAX_TOTAL_FAILURES] of the questions that
    report a persistently failed task, in corpus order.  The deliberative
    stage exits with a non-zero status exactly when at least
    [MAX_TOTAL_FAILURES] questions have a persistently failed task, that
    is, when the tally reached the threshold.  The independent stage exits
    with a non-zero status exactly when at least one question has a
    persistently failed task, which includes every run that reached the
    threshold; it exits with status zero exactly on full completion. *)
Theorem exit_status_by_stage (TEST_MODE : bool) (questions : list Question)
    (st : State World) :
  Forall (fun q => safeInteger (q_id q)) questions ->
  let qs := if TEST_MODE then slice questions 0 2 else questions in
  (∃ t acc st',
      independentMain TEST_MODE questions st = Some ((t, acc), st') ∧
      questionsWithFailures acc
      = take MAX_TOTAL_FAILURES (failedQuestions independentQuestion qs 0 st) ∧
      (exitStatus t ≠ 0%nat <-> failedQuestions independentQuestion qs 0 st ≠ []) ∧
      (exitStatus t ≠ 0%nat <-> questionsWithFailures acc ≠ []) ∧
      ((MAX_TOTAL_FAILURES <= length (questionsWithFailures acc))%nat ->
       exitStatus t ≠ 0%nat)) ∧
  (∃ t acc st',
      deliberativeMain TEST_MODE questions st = Some ((t, acc), st') ∧
      questionsWithFailures acc
      = take MAX_TOTAL_FAILURES (failedQuestions deliberativeQuestion qs 0 st) ∧
      (exitStatus t ≠ 0%nat <->
       (MAX_TOTAL_FAILURES
        <= length (failedQuestions deliberativeQuestion qs 0 st))%nat) ∧
      (exitStatus t ≠ 0%nat <->
       (MAX_TOTAL_FAILURES <= length (questionsWithFailures acc))%nat)).
Proof.
  intros _ qs. split.
  - unfold Independent.main. fold qs.
    destruct (batchLoop_total independentQuestion (length qs) qs 0 zeroTotals st
                ltac:(lia)) as ([x st'] & Hb).
    fold zeroTotals. rewrite Hb.
    pose proof (batchLoop_tally _ _ _ _ _ _ _ _ zeroTotals_tally Hb) as Ht.
    pose proof (batchLoop_failed independentQuestion
                  independent_never_rejects
                  independent_failures_counted _ _ _ _ _ _ _ zeroTotals_tally Hb)
      as Hf.
    rewrite drop_0 in Hf. cbn [zeroTotals questionsWithFailures app] in Hf.
    assert (Hiff : forall acc, questionsWithFailures acc
                     = take MAX_TOTAL_FAILURES (failedQuestions independentQuestion qs 0 st) ->
                   questionsWithFailures acc ≠ []
                   <-> failedQuestions independentQuestion qs 0 st ≠ []).
    { intros acc ->. apply take_nil_iff. }
    destruct x as [acc|[[code| |msg] acc]]; cbn [totalsOf] in Hf.
    + destruct (questionsWithFailures acc) as [|q l] eqn:Hq.
      * eexists _, _, _. split; [reflexivity|]. rewrite Hq.
        split; [done|]. rewrite <- (Hiff acc) by (by rewrite Hq). rewrite Hq. simpl.
        split; [tauto|]. split; [tauto|]. unfold MAX_TOTAL_FAILURES. lia.
      * eexists _, _, _. simpl. split; [reflexivity|]. rewrite Hq.
        split; [done|]. rewrite <- (Hiff acc) by (by rewrite Hq). rewrite Hq. simpl.
        split; [done|]. split; done.
    + destruct Ht as [-> Hl]. eexists _, _, _. split; [reflexivity|]. simpl.
      split; [done|]. rewrite <- (Hiff acc) by done.
      assert (Hne : questionsWithFailures acc ≠ []).
      { intros Hn. rewrite Hn in Hl. unfold MAX_TOTAL_FAILURES in Hl. done. }
      split; [done|]. split; [done|done].
    + done.
    + exfalso. eapply (batchLoop_no_reject independentQuestion); [|exact Hb].
      intros. apply independent_never_rejects.
  - unfold Deliberative.main. fold qs.
    destruct (batchLoop_total deliberativeQuestion
                (length qs) qs 0 zeroTotals st ltac:(lia)) as ([x st'] & Hb).
    fold zeroTotals. rewrite Hb.
    pose proof (batchLoop_tally _ _ _ _ _ _ _ _ zeroTotals_tally Hb) as Ht.
    pose proof (batchLoop_failed deliberativeQuestion
                  deliberative_never_rejects
                  deliberative_failures_counted _ _ _ _ _ _ _ zeroTotals_tally Hb)
      as Hf.
    rewrite drop_0 in Hf. cbn [zeroTotals questionsWithFailures app] in Hf.
    assert (Hiff : forall acc, questionsWithFailures acc
                     = take MAX_TOTAL_FAILURES
                         (failedQuestions deliberativeQuestion qs 0 st) ->
                   (MAX_TOTAL_FAILURES <= length (questionsWithFailures acc))%nat
                   <-> (MAX_TOTAL_FAILURES
                        <= length (failedQuestions deliberativeQuestion qs 0 st))%nat).
    { intros acc ->. apply length_take_threshold. }
    destruct x as [acc|[[code| |msg] acc]]; cbn [totalsOf] in Hf.
    + eexists _, _, _. split; [reflexivity|]. split; [done|].
      rewrite <- (Hiff acc) by done. simpl. split; (split; [done|lia]).
    + destruct Ht as [-> Hl]. eexists _, _, _. split; [reflexivity|]. split; [done|].
      rewrite <- (Hiff acc) by done. simpl. split; (split; [lia|done]).
    + done.
    + exfalso. eapply (batchLoop_no_reject deliberativeQuestion); [|exact Hb].
      intros. apply deliberative_never_rejects.
Qed.




End RunFacts.

(** ** The retry bound *)

Section RetryBound.

Context {World : Type}.
Variable Math_sin : Q -> Q.
Variable independentForecastingAgent :
  World -> Question -> option string -> string -> string -> option nat ->
  World * except AgentForecast.
Variable deliberativeForecastingAgent :
  World -> DeliberationRequest -> World * except DeliberativeResult.

Notation generateSingleForecast :=
  (Independent.generateSingleForecast independentForecastingAgent).
Notation runTask := (Deliberative.runTask deliberativeForecastingAgent).

(** C2, as the code has it.  A required forecast whose forecasting call
    throws at every attempt is marked [persistent_failure] after exactly
    [MAX_RETRIES_PER_QUESTION] = 3 executions in all: the first attempt and
    [MAX_RETRIES_PER_QUESTION - 1] = 2 retry rounds (one sleep before
    each), not 3 retry rounds after the first attempt. *)
Theorem retry_bound_attempts question qIndex (st : State World) req r st' :
  req ∈ getRequiredForecasts Math_sin (q_id question) qIndex ->
  fs_independent st
    !! Independent.outputFileOf (Independent.forecastIdOf question req) = None ->
  (forall w info, ∃ w' msg,
     independentForecastingAgent w question info (model req) (infoLabel req)
                                 (instance req) = (w', Throw msg)) ->
  Independent.processQuestion independentForecastingAgent question qIndex
    (getRequiredForecasts Math_sin (q_id question) qIndex) st = (Return r, st') ->
  mkOutcome persistent_failure (Independent.forecastIdOf question req) None ∈ results r ∧
  callsFor (Independent.forecastIdOf question req) (trace st')
  = (callsFor (Independent.forecastIdOf question req) (trace st)
     + MAX_RETRIES_PER_QUESTION)%nat ∧
  sleepsIn (trace st') = (sleepsIn (trace st) + (MAX_RETRIES_PER_QUESTION - 1))%nat.
Proof.
  intros Hreq Hnone Hfail Hrun.
  pose proof (required_ids_NoDup Math_sin question qIndex) as Hnd.
  pose proof (required_labels Math_sin question qIndex req Hreq) as Hlab.
  revert Hrun Hreq Hnd.
  generalize (getRequiredForecasts Math_sin (q_id question) qIndex) as reqs.
  intros reqs Hrun Hreq Hnd.
  apply (retryAndReport_always_failing (Independent.forecastIdOf question)
           (generateSingleForecast question) Independent.outputFileOf
           independentDir (independentThrows question) (fun _ => True)
           independent_outputFileOf_inj (fun _ _ => eq_refl)
           (fun t s _ => independent_run_cached _ question t s)
           (fun t s _ => independent_run_fresh _ question t s)
           reqs 0%nat st r st' req (Forall_true _ _ (fun _ => I)) Hnd Hreq);
    [| |exact Hrun].
  - unfold independentDir. by apply not_elem_of_dom.
  - intros s Hs. unfold independentDir in Hs. apply not_elem_of_dom in Hs.
    unfold Independent.generateSingleForecast.
    rewrite decide_False by (rewrite Hs; by intros [? ?]).
    destruct (Independent.getInformation question (infoLabel req)) as [info|msg] eqn:Hi.
    + cbn [world logEvent].
      destruct (Hfail (world s) info) as (w' & msg & ->). by eexists _, _.
    + exfalso. apply Hlab. by exists msg.
Qed.

(** The same count for a deliberative task. *)
Lemma deliberative_retry_attempts question qIndex (st : State World)
    tasks nSkipped task r st' :
  Deliberative.collectTasks Math_sin CONDITIONS question qIndex st [] 0
  = Return (tasks, nSkipped) ->
  task ∈ tasks ->
  fs_deliberative st
    !! Deliberative.outputFileOf (Deliberative.t_forecastId task) = None ->
  (forall w request, rq_position request = Deliberative.t_position task ->
     rq_condition request = Deliberative.t_condition task ->
     ∃ w' msg, deliberativeForecastingAgent w request = (w', Throw msg)) ->
  Deliberative.processQuestion Math_sin deliberativeForecastingAgent question qIndex st
  = (Return r, st') ->
  mkOutcome persistent_failure (Deliberative.t_forecastId task) None ∈ results r ∧
  callsFor (Deliberative.t_forecastId task) (trace st')
  = (callsFor (Deliberative.t_forecastId task) (trace st) + MAX_RETRIES_PER_QUESTION)%nat ∧
  sleepsIn (trace st') = (sleepsIn (trace st) + (MAX_RETRIES_PER_QUESTION - 1))%nat.
Proof.
  intros Hct Ht Hnone Hfail Hrun.
  unfold Deliberative.processQuestion in Hrun. rewrite Hct in Hrun.
  assert (Hwf : Forall taskWf tasks).
  { eapply collectTasks_wf; [|exact Hct]. constructor. }
  assert (Hnd : NoDup (Deliberative.t_forecastId <$> tasks)).
  { pose proof (deliberative_ids_NoDup Math_sin question qIndex st) as Hnd.
    rewrite (collectTasks_spec Math_sin CONDITIONS question qIndex st [] 0
               CONDITIONS_known) in Hct.
    revert Hnd Hct.
    generalize (filter (groupComplete Math_sin question qIndex st) CONDITIONS
                  ≫= tasksFor Math_sin question qIndex st) as l.
    intros l Hnd Hct. by inversion Hct; subst. }
  clear Hct.
  destruct (length tasks =? 0)%nat eqn:Hlen.
  { apply Nat.eqb_eq, nil_length_inv in Hlen. subst. by apply elem_of_nil in Ht. }
  apply (retryAndReport_always_failing Deliberative.t_forecastId runTask
           Deliberative.outputFileOf deliberativeDir (fun _ => False) taskWf
           deliberative_outputFileOf_inj (fun _ _ => eq_refl)
           (deliberative_run_cached _) (deliberative_run_fresh _)
           tasks nSkipped st r st' task Hwf Hnd Ht); [| |exact Hrun].
  - unfold deliberativeDir. by apply not_elem_of_dom.
  - intros s Hs. unfold deliberativeDir in Hs. apply not_elem_of_dom in Hs.
    rewrite Forall_forall in Hwf. pose proof (Hwf _ Ht) as Hw.
    unfold Deliberative.runTask, Deliberative.generateSingleDeliberativeForecast.
    rewrite Hw in *. unfold Deliberative.deliberativeId in *.
    rewrite decide_False by (rewrite Hs; by intros [? ?]).
    cbn [world logEvent].
    edestruct Hfail as (w' & msg & ->); [| |by eexists _, _]; done.
Qed.

End RetryBound.

(** ** Concrete runs *)

(** One question whose forecasts all fail: the independent stage exits with
    status 1 although the tally, 1, is below the threshold of 5. *)
Lemma exit_status_counterexample :
  ¬ exitStatusClaim (Independent.main constantSin unavailableAgent false
                       [exampleQuestion 7] emptyState).
Proof.
  intros (t & acc & st' & Hrun & [Hexit _]).
  vm_compute in Hrun. inversion Hrun; subst. clear Hrun.
  assert (H : (MAX_TOTAL_FAILURES <= 1)%nat) by (apply Hexit; discriminate).
  unfold MAX_TOTAL_FAILURES in H. lia.
Qed.

Lemma exit_status_by_stage_witness :
  let qs := if false then slice [exampleQuestion 7] 0 2 else [exampleQuestion 7] in
  (∃ t acc st',
      Independent.main constantSin unavailableAgent false [exampleQuestion 7] emptyState = Some ((t, acc), st') ∧
      questionsWithFailures acc
      = take MAX_TOTAL_FAILURES (failedQuestions (fun question qIndex => Independent.processQuestion unavailableAgent question qIndex (getRequiredForecasts constantSin (q_id question) qIndex)) qs 0 emptyState) ∧
      (exitStatus t ≠ 0%nat <-> failedQuestions (fun question qIndex => Independent.processQuestion unavailableAgent question qIndex (getRequiredForecasts constantSin (q_id question) qIndex)) qs 0 emptyState ≠ []) ∧
      (exitStatus t ≠ 0%nat <-> questionsWithFailures acc ≠ []) ∧
      ((MAX_TOTAL_FAILURES <= length (questionsWithFailures acc))%nat ->
       exitStatus t ≠ 0%nat)) ∧
  (∃ t acc st',
      Deliberative.main constantSin unavailableDeliberation false [exampleQuestion 7] emptyState = Some ((t, acc), st') ∧
      questionsWithFailures acc
      = take MAX_TOTAL_FAILURES (failedQuestions (Deliberative.processQuestion constantSin unavailableDeliberation) qs 0 emptyState) ∧
      (exitStatus t ≠ 0%nat <->
       (MAX_TOTAL_FAILURES
        <= length (failedQuestions (Deliberative.processQuestion constantSin unavailableDeliberation) qs 0 emptyState))%nat) ∧
      (exitStatus t ≠ 0%nat <->
       (MAX_TOTAL_FAILURES <= length (questionsWithFailures acc))%nat)).
Proof.
  apply (exit_status_by_stage constantSin unavailableAgent unavailableDeliberation
           false [exampleQuestion 7] emptyState).
  constructor; [unfold safeInteger; by vm_compute|constructor].
Defined.

Lemma retry_bound_attempts_witness :
  let question := exampleQuestion 7 in
  let req := mkSpec "pro" "full" None in
  let run := Independent.processQuestion unavailableAgent question 0
               (getRequiredForecasts constantSin 7 0) emptyState in
  ∃ r, fst run = Return r ∧
       mkOutcome persistent_failure "7-pro-full" None ∈ results r ∧
       callsFor "7-pro-full" (trace (snd run)) = 3%nat ∧
       sleepsIn (trace (snd run)) = 2%nat.
Proof.
  intros question req run.
  destruct run as [[r|msg] st'] eqn:Hrun; [|vm_compute in Hrun; discriminate].
  exists r. split; [reflexivity|].
  apply (retry_bound_attempts constantSin unavailableAgent question 0 emptyState req r st').
  - apply (bool_decide_unpack _). vm_compute. exact I.
  - vm_compute. reflexivity.
  - intros w info. by eexists _, _.
  - exact Hrun.
Defined.



Lemma cache_idempotence_witness :
  (∃ totals,
      Independent.main constantSin answeringAgent false [exampleQuestion 7]
        afterIndependent
      = Some ((Finished, totals), afterIndependent)
      ∧ totalCompleted totals = 0%nat ∧ totalPersistentFailures totals = 0%nat) ∧
  (∃ totals,
      Deliberative.main constantSin answeringDeliberation false [exampleQuestion 7]
        afterDeliberative
      = Some ((Finished, totals), afterDeliberative)
      ∧ totalCompleted totals = 0%nat ∧ totalPersistentFailures totals = 0%nat).
Proof.
  split.
  - apply (proj1 (proj2 (proj2 (cache_idempotence constantSin answeringAgent
                                  answeringDeliberation)))).
    intros i question req Hq Hreq.
    destruct i as [|[|i]]; [|discriminate Hq|discriminate Hq].
    apply (inj Some) in Hq. subst question.
    vm_compute in Hreq.
    repeat (apply elem_of_cons in Hreq as [->|Hreq];
            [vm_compute; eexists; reflexivity|]).
    exfalso. clear -Hreq. by apply elem_of_nil in Hreq.
  - apply (proj2 (proj2 (proj2 (cache_idempotence constantSin answeringAgent
                                  answeringDeliberation)))).
    intros i question tasks nSkipped task Hq Hct Ht.
    destruct i as [|[|i]]; [|discriminate Hq|discriminate Hq].
    apply (inj Some) in Hq. subst question.
    vm_compute in Hct. inversion Hct; subst tasks nSkipped. clear Hct.
    repeat (apply elem_of_cons in Ht as [->|Ht];
            [vm_compute; eexists; reflexivity|]).
    exfalso. clear -Ht. by apply elem_of_nil in Ht.
Defined.

Lemma store_unchanged_on_error_witness :
  ∃ st',
    Independent.generateSingleForecast unavailableAgent (exampleQuestion 8)
      (mkSpec "pro" "full" None) afterIndependent
    = (Return (mkOutcome error "8-pro-full" (Some "service unavailable")), st')
    ∧ fs_independent st' = fs_independent afterIndependent
    ∧ fs_deliberative st' = fs_deliberative afterIndependent.
Proof.
  eapply (proj1 (store_unchanged_on_error constantSin unavailableAgent
                   unavailableDeliberation)
                (exampleQuestion 8) (mkSpec "pro" "full" None) afterIndependent).
  - vm_compute. reflexivity.
  - vm_compute. reflexivity.
  - reflexivity.
Defined.

(** ** The dataset reducer *)

(** ** The delimited-text writer *)

Lemma string_app_cons x (a b : string) : String x a +:+ b = String x (a +:+ b).
Proof. reflexivity. Qed.

Lemma string_app_nil_l (b : string) : "" +:+ b = b.
Proof. reflexivity. Qed.

Lemma string_app_assoc (a b c : string) : (a +:+ b) +:+ c = a +:+ (b +:+ c).
Proof.
  induction a as [|x a IH]; [done|]. rewrite !string_app_cons. by f_equal.
Qed.

Lemma string_app_nil_r (a : string) : a +:+ "" = a.
Proof. induction a as [|x a IH]; [done|]. rewrite string_app_cons. by f_equal. Qed.

Lemma includes_isPlain s :
  includes comma s || includes dquote s || includes newline s = negb (isPlain s).
Proof.
  induction s as [|c s IH]; [done|]. simpl.
  rewrite <- (negb_involutive (isPlain s)), <- IH.
  by destruct (bool_decide (c = comma)), (bool_decide (c = dquote)),
    (bool_decide (c = newline)), (includes comma s), (includes dquote s),
    (includes newline s).
Qed.

Lemma readCSV_unquoted v field record records tail :
  isPlain v = true ->
  readCSV InUnquoted field record records (v +:+ tail)
  = readCSV InUnquoted (field +:+ v) record records tail.
Proof.
  revert field. induction v as [|c v IH]; intros field Hp.
  - by rewrite string_app_nil_r.
  - simpl in Hp. apply andb_true_iff in Hp as [Hc Hp].
    apply andb_true_iff in Hc as [Hc Hn]. apply andb_true_iff in Hc as [Hc Hq].
    apply negb_true_iff in Hc, Hq, Hn.
    rewrite string_app_cons. simpl. rewrite Hc, Hn, Hq. rewrite IH by done.
    unfold snoc. by rewrite string_app_assoc.
Qed.

Lemma readCSV_quoted v field record records tail :
  readCSV InQuoted field record records (doubleQuotes v +:+ tail)
  = readCSV InQuoted (field +:+ v) record records tail.
Proof.
  revert field. induction v as [|c v IH]; intros field.
  - by rewrite string_app_nil_r.
  - cbn [doubleQuotes]. destruct (bool_decide (c = dquote)) eqn:Hc.
    + apply bool_decide_eq_true in Hc. subst c. rewrite !string_app_cons. simpl.
      rewrite IH. unfold snoc. by rewrite string_app_assoc.
    + rewrite string_app_cons. simpl. rewrite Hc, IH. unfold snoc.
      by rewrite string_app_assoc.
Qed.

Lemma unquoted_end field record records tail :
  isDelimited tail ->
  readCSV InUnquoted field record records tail = endField field record records tail.
Proof. intros [-> | [rest [-> | ->] ] ]; done. Qed.

Lemma afterQuote_end field record records tail :
  isDelimited tail ->
  readCSV AfterQuote field record records tail = endField field record records tail.
Proof. intros [-> | [rest [-> | ->] ] ]; done. Qed.

Lemma fieldStart_end record records tail :
  isDelimited tail ->
  readCSV FieldStart "" record records tail = endField "" record records tail.
Proof. intros [-> | [rest [-> | ->] ] ]; done. Qed.

(** A plain text stands for itself. *)
Lemma encodes_plain t : isPlain t = true -> encodes t t.
Proof.
  intros Hp record records tail Ht. destruct t as [|c t].
  - by apply fieldStart_end.
  - simpl in Hp. apply andb_true_iff in Hp as [Hc Hp].
    apply andb_true_iff in Hc as [Hc Hn]. apply andb_true_iff in Hc as [Hc Hq].
    apply negb_true_iff in Hc, Hq, Hn.
    rewrite string_app_cons. simpl. rewrite Hq, Hc, Hn.
    rewrite readCSV_unquoted by done. by apply unquoted_end.
Qed.

(** A quoted text stands for the text between the quotes, every doubled
    quote read as one. *)
Lemma encodes_quoted s :
  encodes (String dquote (doubleQuotes s +:+ String dquote "")) s.
Proof.
  intros record records tail Ht. rewrite string_app_cons. simpl.
  rewrite string_app_assoc, readCSV_quoted, string_app_cons, !string_app_nil_l.
  simpl. by apply afterQuote_end.
Qed.

Lemma isPlain_pretty_N_go x s : isPlain s = true -> isPlain (pretty_N_go x s) = true.
Proof.
  revert s. induction (N.lt_wf_0 x) as [x _ IH]; intros s Hs.
  assert (x = 0 ∨ 0 < x)%N as [->|Hx] by lia.
  - by rewrite pretty_N_go_0.
  - rewrite pretty_N_go_step by done. apply IH.
    { by apply N.div_lt. }
    simpl. rewrite Hs. unfold pretty_N_char. by repeat case_match.
Qed.

Lemma isPlain_pretty_Z (n : Z) : isPlain (pretty n) = true.
Proof.
  assert (HN : forall x : N, isPlain (pretty x) = true).
  { intros x. unfold pretty, pretty_N. case_decide; [done|].
    by apply isPlain_pretty_N_go. }
  destruct n as [|p|p]; [done|apply HN|].
  unfold pretty, pretty_Z. simpl. apply (HN (Npos p)).
Qed.

(** Every cell is written so that it is read back as its text. *)
Lemma encodes_cell (v : option value) : encodes (csvCell v) (cellText v).
Proof.
  destruct v as [[|s|n]|]; simpl.
  - by apply encodes_plain.
  - rewrite includes_isPlain. destruct (isPlain s) eqn:Hp; simpl.
    + by apply encodes_plain.
    + apply encodes_quoted.
  - apply encodes_plain, isPlain_pretty_Z.
  - by apply encodes_plain.
Qed.

Lemma readCSV_line cells record records tail :
  cells ≠ [] ->
  Forall (fun c => encodes (fst c) (snd c)) cells ->
  tail = "" ∨ (∃ rest, tail = String newline rest) ->
  readCSV FieldStart "" record records (lineText cells +:+ tail)
  = match tail with
    | EmptyString => Some (records ++ [record ++ map snd cells])
    | String _ rest =>
        readCSV FieldStart "" [] (records ++ [record ++ map snd cells]) rest
    end.
Proof.
  intros Hne Hall Htail. revert record.
  induction Hall as [|[text content] cells Hc Hall IH]; [done|]. intros record.
  destruct cells as [|c2 cells].
  - unfold lineText. simpl. rewrite Hc.
    + destruct Htail as [-> | [rest ->] ]; done.
    + destruct Htail as [-> | [rest ->] ]; [by left|right; eauto].
  - unfold lineText in *. cbn [map fst String.concat].
    cbn [map fst String.concat] in IH.
    rewrite !string_app_assoc, string_app_cons, string_app_nil_l.
    rewrite Hc by (right; eauto).
    unfold endField. rewrite bool_decide_eq_true_2 by done.
    rewrite IH by done. cbn [map snd]. rewrite <- !app_assoc. done.
Qed.

Lemma readCSV_lines (lines : list (list (string * string))) records :
  lines ≠ [] ->
  Forall (fun cells => cells ≠ [] ∧ Forall (fun c => encodes (fst c) (snd c)) cells)
         lines ->
  readCSV FieldStart "" [] records
          (String.concat (String newline "") (map lineText lines))
  = Some (records ++ map (map snd) lines).
Proof.
  intros Hne Hall. revert records.
  induction Hall as [|cells lines [Hc1 Hc2] Hall IH]; [done|]. intros records.
  destruct lines as [|l2 lines].
  - cbn [map String.concat].
    rewrite <- (string_app_nil_r (lineText cells)).
    rewrite (readCSV_line cells [] records "") by auto. done.
  - cbn [map String.concat]. cbn [map String.concat] in IH.
    rewrite string_app_cons, string_app_nil_l.
    rewrite (readCSV_line cells [] records) by eauto.
    rewrite IH by done. cbn [map]. by rewrite <- app_assoc.
Qed.


(** ** The join of the dataset reducer *)

Lemma objectKeys_Permutation (row : rowObject) : objectKeys row ≡ₚ map fst row.
Proof.
  unfold objectKeys. rewrite merge_sort_Permutation.
  induction row as [|[k v] row IH]; [done|].
  cbn [omap list_omap map fst List.filter].
  destruct (arrayIndexName k) as [n|] eqn:Hk; cbn [fmap option_fmap option_map].
  - rewrite bool_decide_eq_false_2 by done. cbn [map snd app]. by rewrite IH.
  - rewrite bool_decide_eq_true_2 by done.
    rewrite <- Permutation_middle. by rewrite IH.
Qed.

Lemma objectKeys_nonempty (row : rowObject) : row ≠ [] -> objectKeys row ≠ [].
Proof.
  intros Hne Hk. pose proof (objectKeys_Permutation row) as Hp. rewrite Hk in Hp.
  apply Permutation_nil_l in Hp. by destruct row.
Qed.

(** Without a name that is an array index, the keys are in insertion
    order. *)
Lemma objectKeys_insertion_order (row : rowObject) :
  Forall (fun p => arrayIndexName (fst p) = None) row ->
  objectKeys row = map fst row.
Proof.
  intros Hall. unfold objectKeys.
  assert (Hi : omap (fun p : string * value =>
                       (fun n => (n, fst p)) <$> arrayIndexName (fst p)) row = []).
  { induction Hall as [|p row Hp Hall IH]; [done|].
    cbn [omap list_omap]. rewrite Hp. cbn [fmap option_fmap option_map]. exact IH. }
  rewrite Hi. clear Hi.
  change (merge_sort _ []) with (@nil (N * string)). cbn [map app].
  induction Hall as [|p row Hp Hall IH]; [done|].
  cbn [map List.filter]. rewrite bool_decide_eq_true_2 by exact Hp. by f_equal.
Qed.

Lemma isBare_cons c s :
  isBare (String c s) = true ->
  bool_decide (c = comma) = false ∧ bool_decide (c = dquote) = false
  ∧ bool_decide (c = newline) = false ∧ bool_decide (c = carriageReturn) = false
  ∧ isBare s = true.
Proof.
  unfold isBare. cbn [isPlain includes].
  destruct (bool_decide (c = comma)), (bool_decide (c = dquote)),
    (bool_decide (c = newline)), (bool_decide (c = carriageReturn)),
    (isPlain s), (includes carriageReturn s); cbn; intros H; try done.
Qed.

Lemma readStandard_unquoted v field record records tail :
  isBare v = true ->
  readStandard false InUnquoted field record records (v +:+ tail)
  = readStandard false InUnquoted (field +:+ v) record records tail.
Proof.
  revert field. induction v as [|c v IH]; intros field Hp.
  - by rewrite string_app_nil_r.
  - apply isBare_cons in Hp as (Hc & Hq & Hn & Hr & Hp).
    rewrite string_app_cons. cbn [readStandard andb]. rewrite Hc, Hn, Hr, Hq.
    rewrite IH by done. unfold snoc. by rewrite string_app_assoc.
Qed.

Lemma readStandard_quoted v field record records tail :
  readStandard false InQuoted field record records (doubleQuotes v +:+ tail)
  = readStandard false InQuoted (field +:+ v) record records tail.
Proof.
  revert field. induction v as [|c v IH]; intros field.
  - by rewrite string_app_nil_r.
  - cbn [doubleQuotes]. destruct (bool_decide (c = dquote)) eqn:Hc.
    + apply bool_decide_eq_true in Hc. subst c. rewrite !string_app_cons.
      cbn [readStandard andb]. rewrite !bool_decide_eq_true_2 by done.
      rewrite IH. unfold snoc. by rewrite string_app_assoc.
    + rewrite string_app_cons. cbn [readStandard andb]. rewrite Hc, IH. unfold snoc.
      by rewrite string_app_assoc.
Qed.

Lemma standard_unquoted_end field record records tail :
  isDelimited tail ->
  readStandard false InUnquoted field record records tail
  = endFieldStandard field record records tail.
Proof. intros [-> | [rest [-> | ->] ] ]; done. Qed.

Lemma standard_afterQuote_end field record records tail :
  isDelimited tail ->
  readStandard false AfterQuote field record records tail
  = endFieldStandard field record records tail.
Proof. intros [-> | [rest [-> | ->] ] ]; done. Qed.

Lemma standard_fieldStart_end record records tail :
  isDelimited tail ->
  readStandard false FieldStart "" record records tail
  = endFieldStandard "" record records tail.
Proof. intros [-> | [rest [-> | ->] ] ]; done. Qed.

Lemma encodesStandard_bare t : isBare t = true -> encodesStandard t t.
Proof.
  intros Hp record records tail Ht. destruct t as [|c t].
  - by apply standard_fieldStart_end.
  - apply isBare_cons in Hp as (Hc & Hq & Hn & Hr & Hp).
    rewrite string_app_cons. cbn [readStandard andb]. rewrite Hq, Hc, Hn, Hr.
    rewrite readStandard_unquoted by done. by apply standard_unquoted_end.
Qed.

Lemma encodesStandard_quoted s :
  encodesStandard (String dquote (doubleQuotes s +:+ String dquote "")) s.
Proof.
  intros record records tail Ht. rewrite string_app_cons. cbn [readStandard andb].
  rewrite bool_decide_eq_true_2 by done.
  rewrite string_app_assoc, readStandard_quoted, string_app_cons, !string_app_nil_l.
  cbn [readStandard andb]. rewrite bool_decide_eq_true_2 by done.
  by apply standard_afterQuote_end.
Qed.

Lemma pretty_N_char_digit d : isDigit (pretty_N_char d) = true.
Proof. unfold pretty_N_char. by repeat case_match. Qed.

Lemma includes_pretty_N_go c x s :
  isDigit c = false -> includes c s = false -> includes c (pretty_N_go x s) = false.
Proof.
  intros Hc. revert s. induction (N.lt_wf_0 x) as [x _ IH]; intros s Hs.
  assert (x = 0 ∨ 0 < x)%N as [->|Hx] by lia.
  - by rewrite pretty_N_go_0.
  - rewrite pretty_N_go_step by done. apply IH.
    { by apply N.div_lt. }
    cbn [includes]. rewrite Hs, orb_false_r. apply bool_decide_eq_false.
    intros <-. by rewrite pretty_N_char_digit in Hc.
Qed.

Lemma includes_pretty_Z c (n : Z) :
  isDigit c = false -> c ≠ Ascii.ascii_of_nat 45 -> includes c (pretty n) = false.
Proof.
  intros Hc Hm.
  assert (HN : forall x : N, includes c (pretty x) = false).
  { intros x. unfold pretty, pretty_N. case_decide.
    - cbn [includes]. rewrite bool_decide_eq_false_2; [done|].
      intros <-. by vm_compute in Hc.
    - by apply includes_pretty_N_go. }
  destruct n as [|p|p]; [apply (HN 0%N)|apply HN|].
  unfold pretty, pretty_Z. rewrite string_app_cons, string_app_nil_l.
  cbn [includes]. rewrite bool_decide_eq_false_2 by (intros <-; by apply Hm).
  apply (HN (Npos p)).
Qed.

Lemma isBare_pretty_Z (n : Z) : isBare (pretty n) = true.
Proof.
  unfold isBare. rewrite isPlain_pretty_Z, includes_pretty_Z; done.
Qed.

Lemma encodesStandard_cell (v : option value) :
  quotedCell v -> encodesStandard (csvCell v) (cellText v).
Proof.
  destruct v as [[|s|n]|]; cbn [csvCell cellText quotedCell]; intros Hv.
  - by apply encodesStandard_bare.
  - rewrite includes_isPlain. destruct (isPlain s) eqn:Hp; cbn [negb].
    + apply encodesStandard_bare. unfold isBare. by rewrite Hp, Hv.
    + apply encodesStandard_quoted.
  - apply encodesStandard_bare, isBare_pretty_Z.
  - by apply encodesStandard_bare.
Qed.

Lemma readStandard_line cells record records tail :
  cells ≠ [] ->
  Forall (fun c => encodesStandard (fst c) (snd c)) cells ->
  tail = "" ∨ (∃ rest, tail = String newline rest) ->
  readStandard false FieldStart "" record records (lineText cells +:+ tail)
  = match tail with
    | EmptyString => Some (records ++ [record ++ map snd cells])
    | String _ rest =>
        readStandard false FieldStart "" [] (records ++ [record ++ map snd cells]) rest
    end.
Proof.
  intros Hne Hall Htail. revert record.
  induction Hall as [|[text content] cells Hc Hall IH]; [done|]. intros record.
  destruct cells as [|c2 cells].
  - unfold lineText. simpl. rewrite Hc.
    + destruct Htail as [-> | [rest ->] ]; done.
    + destruct Htail as [-> | [rest ->] ]; [by left|right; eauto].
  - unfold lineText in *. cbn [map fst String.concat].
    cbn [map fst String.concat] in IH.
    rewrite !string_app_assoc, string_app_cons, string_app_nil_l.
    rewrite Hc by (right; eauto).
    unfold endFieldStandard. rewrite bool_decide_eq_true_2 by done.
    rewrite IH by done. cbn [map snd]. rewrite <- !app_assoc. done.
Qed.

Lemma readStandard_lines (lines : list (list (string * string))) records :
  lines ≠ [] ->
  Forall (fun cells => cells ≠ []
                       ∧ Forall (fun c => encodesStandard (fst c) (snd c)) cells)
         lines ->
  readStandard false FieldStart "" [] records
               (String.concat (String newline "") (map lineText lines))
  = Some (records ++ map (map snd) lines).
Proof.
  intros Hne Hall. revert records.
  induction Hall as [|cells lines [Hc1 Hc2] Hall IH]; [done|]. intros records.
  destruct lines as [|l2 lines].
  - cbn [map String.concat].
    rewrite <- (string_app_nil_r (lineText cells)).
    rewrite (readStandard_line cells [] records "") by auto. done.
  - cbn [map String.concat]. cbn [map String.concat] in IH.
    rewrite string_app_cons, string_app_nil_l.
    rewrite (readStandard_line cells [] records) by eauto.
    rewrite IH by done. cbn [map]. by rewrite <- app_assoc.
Qed.

(** The text [toCSV] writes, as lines of cells paired with their
    contents. *)
Lemma toCSV_lines (first : rowObject) (others : list rowObject) :
  let headers := objectKeys first in
  toCSV (first :: others)
  = String.concat (String newline "")
      (map lineText
         (map (fun h => (h, h)) headers
          :: map (fun row =>
                    map (fun h => (csvCell (property row h), cellText (property row h)))
                        headers)
                 (first :: others))).
Proof.
  intros headers. unfold toCSV. fold headers. f_equal. cbn [map]. f_equal.
  - unfold lineText. by rewrite map_map, map_id.
  - f_equal.
    + unfold lineText. by rewrite map_map.
    + rewrite map_map. apply map_ext. intros row. unfold lineText. by rewrite map_map.
Qed.

(** C8. [toCSV] writes a table that a standard reader takes apart into
    the header, which lists the property names of the first row in the
    order of [Object.keys], followed by one record per row holding the text
    of each cell: a string value, with its commas, double quotes and line
    feeds, comes back exactly, and so does a carriage return in a value
    that is quoted.  This needs column names that are written as they are,
    and every string value that holds a carriage return to hold a comma, a
    double quote or a line feed as well, and no line to be empty (readers
    differ on empty lines).  [toCSV] writes a value that holds
    a carriage return and none of these three without quotes, and the
    reader ends the record there: the value [a], carriage return, [b] comes
    back as two records. *)
Theorem toCSV_round_trip :
  (forall (first : rowObject) (others : list rowObject),
     let rows := first :: others in
     let headers := objectKeys first in
     first ≠ [] ->
     Forall columnName headers ->
     Forall (fun row => Forall (fun h => quotedCell (property row h)) headers) rows ->
     Forall (fun line => line ≠ "") (writtenLines rows) ->
     toCSV rows = String.concat (String newline "") (writtenLines rows)
     ∧ headers ≡ₚ map fst first
     ∧ parseStandard (toCSV rows)
       = Some (headers
               :: map (fun row => map (fun h => cellText (property row h)) headers)
                      rows)
     ∧ parseCSV (toCSV rows) = parseStandard (toCSV rows))
  ∧ toCSV [carriageReturnRow]
    = "rationale" +:+ String newline ("a" +:+ String carriageReturn "b")
  ∧ parseStandard (toCSV [carriageReturnRow]) = Some [["rationale"]; ["a"]; ["b"]].
Proof.
  split; [|split; reflexivity].
  intros first others rows headers Hne Hnames Hcells _. split; [reflexivity|].
  assert (Hh : headers ≠ []) by (by apply objectKeys_nonempty).
  split; [apply objectKeys_Permutation|].
  unfold parseStandard, parseCSV, rows. rewrite toCSV_lines. fold headers.
  rewrite readStandard_lines, readCSV_lines; [| done | | done |].
  - rewrite app_nil_l. cbn [map]. split; [|done].
    f_equal. f_equal.
    + by rewrite map_map, map_id.
    + f_equal.
      * by rewrite map_map.
      * rewrite map_map. apply map_ext. intros row. by rewrite map_map.
  - constructor.
    + split; [by destruct headers|].
      apply Forall_map. eapply Forall_impl; [exact Hnames|].
      intros h (Hp & _ & _). by apply encodes_plain.
    + apply Forall_forall. intros cells Hin.
      apply list_elem_of_In, in_map_iff in Hin as (row & <- & _). split.
      * by destruct headers.
      * apply Forall_map, Forall_forall. intros h _. apply encodes_cell.
  - constructor.
    + split; [by destruct headers|].
      apply Forall_map. eapply Forall_impl; [exact Hnames|].
      intros h (Hp & Hr & _). cbn [fst snd]. apply encodesStandard_bare.
      unfold isBare. by rewrite Hp, Hr.
    + apply Forall_forall. intros cells Hin.
      apply list_elem_of_In, in_map_iff in Hin as (row & <- & Hrow). split.
      * by destruct headers.
      * apply Forall_map. rewrite Forall_forall in Hcells.
        specialize (Hcells row (proj2 (list_elem_of_In _ _) Hrow)).
        eapply Forall_impl; [exact Hcells|]. intros h Hv. by apply encodesStandard_cell.
Qed.

Lemma foldl_push {A B} (f : list B -> A -> list B) (g : A -> option B) l rows :
  (forall rows x, f rows x = match g x with None => rows | Some r => rows ++ [r] end) ->
  foldl f rows l = rows ++ omap g l.
Proof.
  intros Hf. revert rows. induction l as [|x l IH]; intros rows; simpl.
  - by rewrite app_nil_r.
  - rewrite IH, Hf. destruct (g x); simpl; [|done]. by rewrite <- app_assoc.
Qed.

Lemma foldl_extend {A B} (f : list B -> A -> list B) (h : A -> list B) l rows :
  (forall rows x, f rows x = rows ++ h x) ->
  foldl f rows l = rows ++ (l ≫= h).
Proof.
  intros Hf. revert rows. induction l as [|x l IH]; intros rows; simpl.
  - by rewrite app_nil_r.
  - rewrite IH, Hf. by rewrite <- app_assoc.
Qed.

Lemma objectSet_other {V} (m : list (Z * V)) p key v :
  fst p ≠ key -> objectSet (p :: m) key v = p :: objectSet m key v.
Proof.
  intros Hp. unfold objectSet. simpl. rewrite (bool_decide_eq_false_2 _ Hp). simpl.
  by destruct (existsb _ m).
Qed.

Lemma objectGet_cons {V} (m : list (Z * V)) p key :
  objectGet (p :: m) key
  = if bool_decide (fst p = key) then Some (snd p) else objectGet m key.
Proof. unfold objectGet. simpl. by destruct (bool_decide (fst p = key)). Qed.

Lemma objectGet_update_other {V} (m : list (Z * V)) key v key' :
  key ≠ key' ->
  objectGet (map (fun p => if bool_decide (fst p = key) then (key, v) else p) m) key'
  = objectGet m key'.
Proof.
  intros Hk. induction m as [|p m IH]; [done|]. cbn [map].
  rewrite !objectGet_cons, IH.
  destruct (bool_decide (fst p = key)) eqn:Hp; [|done].
  apply bool_decide_eq_true in Hp. simpl.
  by rewrite !bool_decide_eq_false_2 by congruence.
Qed.

Lemma objectGet_objectSet {V} (m : list (Z * V)) key v key' :
  objectGet (objectSet m key v) key'
  = if bool_decide (key = key') then Some v else objectGet m key'.
Proof.
  induction m as [|p m IH].
  - unfold objectSet. simpl. by rewrite objectGet_cons.
  - destruct (decide (fst p = key)) as [Hp|Hp].
    + unfold objectSet. cbn [existsb]. rewrite (bool_decide_eq_true_2 _ Hp).
      cbn [orb map]. rewrite (bool_decide_eq_true_2 _ Hp), !objectGet_cons. simpl.
      destruct (decide (key = key')) as [Hk|Hk].
      * by rewrite (bool_decide_eq_true_2 _ Hk).
      * rewrite (bool_decide_eq_false_2 _ Hk).
        rewrite bool_decide_eq_false_2 by congruence.
        by apply objectGet_update_other.
    + rewrite objectSet_other by done. rewrite !objectGet_cons, IH.
      destruct (decide (fst p = key')) as [Hk|Hk].
      * rewrite (bool_decide_eq_true_2 _ Hk).
        by rewrite bool_decide_eq_false_2 by congruence.
      * by rewrite (bool_decide_eq_false_2 _ Hk).
Qed.

(** The question lookup knows exactly the ids of the corpus. *)
Lemma questionMap_known (entry : Question -> QuestionEntry) questions m id :
  (is_Some (objectGet m id) ∨ exists q, q ∈ questions ∧ q_id q = id) ->
  is_Some (objectGet (foldl (fun m q => objectSet m (q_id q) (entry q)) m questions) id).
Proof.
  revert m. induction questions as [|q questions IH]; intros m [Hm|(q' & Hq' & Hid)].
  - done.
  - by apply elem_of_nil in Hq'.
  - simpl. apply IH. left. rewrite objectGet_objectSet. by case_bool_decide.
  - simpl. apply IH. apply elem_of_cons in Hq' as [->|Hq'].
    + left. rewrite objectGet_objectSet. by rewrite bool_decide_eq_true_2.
    + right. eauto.
Qed.

(** The independent lookup holds results of the list only, under their id. *)
Lemma independentMap_lookup (independentForecasts : list IndependentResult)
    (m : gmap string IndependentResult) id indF :
  foldl (fun m f => <[ir_forecastId f := f]> m) m independentForecasts !! id = Some indF ->
  m !! id = Some indF ∨ (indF ∈ independentForecasts ∧ ir_forecastId indF = id).
Proof.
  revert m. induction independentForecasts as [|f l IH]; intros m Hm; simpl in Hm.
  - by left.
  - apply IH in Hm as [Hm|[Hin Hid]].
    + apply lookup_insert_Some in Hm as [[<- <-]|[_ Hm]].
      * right. split; [by left|done].
      * by left.
    + right. split; [by right|done].
Qed.

(** The forecast rows are the rows of the independent results whose
    question is known, followed by those of the deliberative results whose
    question is known. *)
Lemma buildDataset_forecastRows questions independentForecasts deliberativeForecasts :
  exists questionMap : list (Z * QuestionEntry),
    (forall id, (exists q, q ∈ questions ∧ q_id q = id) ->
                is_Some (objectGet questionMap id))
    ∧ forecastRows (buildDataset questions independentForecasts deliberativeForecasts)
      = omap (fun f => (fun q => independentRow (qe_resolution q) f)
                         <$> objectGet questionMap (ir_questionId f))
             independentForecasts
        ++ omap (fun f => (fun q => deliberativeRow (qe_resolution q) f)
                            <$> objectGet questionMap (dr_questionId f))
                deliberativeForecasts.
Proof.
  unfold buildDataset. cbn [forecastRows].
  set (questionMap := foldl _ [] questions).
  exists questionMap. split.
  - intros id Hid. apply questionMap_known. by right.
  - rewrite (foldl_push _ (fun f => (fun q => deliberativeRow (qe_resolution q) f)
                                      <$> objectGet questionMap (dr_questionId f))).
    + f_equal.
      rewrite (foldl_push _ (fun f => (fun q => independentRow (qe_resolution q) f)
                                        <$> objectGet questionMap (ir_questionId f))).
      * done.
      * intros rows f. by destruct (objectGet questionMap (ir_questionId f)).
    + intros rows f. by destruct (objectGet questionMap (dr_questionId f)).
Qed.

(** Every condition-pair row joins on an id found in the independent
    lookup. *)
Lemma buildDataset_conditionRows questions independentForecasts deliberativeForecasts row :
  row ∈ conditionRows (buildDataset questions independentForecasts deliberativeForecasts) ->
  exists indF, indF ∈ independentForecasts
               ∧ ir_forecastId indF = cr_independent_forecast_id row
               ∧ probability (ir_forecast indF) = cr_independent_prob row.
Proof.
  unfold buildDataset. cbn [conditionRows].
  set (questionMap := foldl _ [] questions).
  set (independentMap := foldl _ ∅ independentForecasts).
  set (groups := foldl _ [] deliberativeForecasts).
  set (pairRow := fun (qid : Z) (q : QuestionEntry) (condition : string)
                      (df : DeliberativeResult) =>
                    (fun indF : IndependentResult =>
                       mkConditionRow qid (qe_resolution q) condition (dr_model df)
                         (dr_infoLabel df) (dr_position df)
                         (dr_independentForecastId df) (dr_forecastId df)
                         (probability (ir_forecast indF))
                         (probability (dr_forecast df)))
                      <$> independentMap !! dr_independentForecastId df).
  rewrite (foldl_extend _
             (fun entry : string * list DeliberativeResult =>
                match snd entry with
                | [] => []
                | first :: _ =>
                    match objectGet questionMap (dr_questionId first) with
                    | None => []
                    | Some q =>
                        omap (pairRow (dr_questionId first) q (dr_condition first))
                             (snd entry)
                    end
                end)).
  - rewrite app_nil_l. intros Hrow.
    apply list_elem_of_bind in Hrow as ([key group] & Hrow & _). simpl in Hrow.
    destruct group as [|first group]; [by apply elem_of_nil in Hrow|].
    destruct (objectGet questionMap (dr_questionId first)) as [q|];
      [|by apply elem_of_nil in Hrow].
    apply list_elem_of_omap in Hrow as (df & _ & Hdf). unfold pairRow in Hdf.
    destruct (independentMap !! dr_independentForecastId df) as [indF|] eqn:Hind;
      [|done].
    apply (inj Some) in Hdf. subst row. simpl.
    apply independentMap_lookup in Hind as [Hind|[Hin Hid]]; [done|]. eauto.
  - intros rows [key group]. simpl.
    destruct group as [|first group]; [by rewrite app_nil_r|].
    destruct (objectGet questionMap (dr_questionId first)) as [q|];
      [|by rewrite app_nil_r].
    apply foldl_push. intros rows' df. unfold pairRow.
    by destruct (independentMap !! dr_independentForecastId df).
Qed.

(** C7. One question that resolved yes, one independent result of
    probability 70 and one deliberative result of probability 65 that
    refers to it give one condition-pair row, holding 70, 65 and
    resolution 1, and exactly two forecast rows, the independent one and
    the deliberative one.  For inputs on which the lookup of independent
    results is a map ([ownReferences]: no reference finds a member
    inherited from [Object.prototype], at which the code throws), every
    condition-pair row joins on the id of an independent result, so a
    deliberative result whose reference is absent has none; its forecast
    row is emitted whenever its question is in the corpus. *)
Theorem buildDataset_join :
  (forall (q : Question) (indF : IndependentResult) (df : DeliberativeResult),
     resolution q = "yes" ->
     ir_questionId indF = q_id q ->
     dr_questionId df = q_id q ->
     dr_independentForecastId df = ir_forecastId indF ->
     probability (ir_forecast indF) = 70%Z ->
     probability (dr_forecast df) = 65%Z ->
     let dataset := buildDataset [q] [indF] [df] in
     conditionRows dataset
     = [mkConditionRow (q_id q) 1 (dr_condition df) (dr_model df) (dr_infoLabel df)
          (dr_position df) (ir_forecastId indF) (dr_forecastId df) 70 65]
     ∧ forecastRows dataset = [independentRow 1 indF; deliberativeRow 1 df]
     ∧ fr_stage (independentRow 1 indF) = "independent"
     ∧ fr_stage (deliberativeRow 1 df) = "deliberative")
  ∧ (forall questions independentForecasts deliberativeForecasts f,
       let dataset := buildDataset questions independentForecasts deliberativeForecasts in
       f ∈ deliberativeForecasts ->
       ownReferences independentForecasts deliberativeForecasts ->
       referenceAbsent independentForecasts f ->
       (forall row, row ∈ conditionRows dataset ->
          cr_independent_forecast_id row ≠ dr_independentForecastId f)
       ∧ (questionKnown questions f ->
          exists res, deliberativeRow res f ∈ forecastRows dataset)).
Proof.
  split.
  - intros q indF df Hres Hiq Hdq Href Hip Hdp dataset. unfold dataset, buildDataset.
    cbn [conditionRows forecastRows foldl groupPush snd].
    rewrite Hiq, Hdq, objectGet_objectSet, (bool_decide_eq_true_2 (q_id q = q_id q))
      by done.
    rewrite (bool_decide_eq_true_2 _ Hres), Href, lookup_insert_eq.
    cbn [qe_resolution app]. unfold independentRow, deliberativeRow.
    by rewrite Hiq, Hdq, Hip, Hdp.
  - intros questions independentForecasts deliberativeForecasts f dataset Hf _ Habsent.
    split.
    + intros row Hrow Heq.
      apply buildDataset_conditionRows in Hrow as (indF & Hin & Hid & _).
      apply (Habsent indF Hin). congruence.
    + intros Hknown. unfold dataset.
      destruct (buildDataset_forecastRows questions independentForecasts
                  deliberativeForecasts) as (questionMap & Hmap & ->).
      destruct (Hmap _ Hknown) as [entry Hentry].
      exists (qe_resolution entry). apply elem_of_app. right.
      apply list_elem_of_omap. exists f. split; [done|]. by rewrite Hentry.
Qed.

(** With the question missing from the corpus the deliberative result has
    no forecast row: the claim of C7 about missing joins fails without the
    premise that the question is known. *)
Lemma missing_join_counterexample :
  ~ missingJoinClaim [exampleQuestion 8] [] [exampleDeliberative].
Proof.
  intros Hclaim.
  destruct (Hclaim exampleDeliberative) as [_ [res Hrow]].
  - by left.
  - intros indF Hin. by apply elem_of_nil in Hin.
  - vm_compute in Hrow. by apply elem_of_nil in Hrow.
Qed.

Lemma buildDataset_join_witness :
  (conditionRows (buildDataset [exampleQuestion 7] [exampleIndependent]
                    [exampleDeliberative])
   = [mkConditionRow 7 1 "diverse_full" "pro" "full" 1 "7-pro-full"
        "7-diverse_full-pro-1" 70 65])
  ∧ (exists res, deliberativeRow res exampleDeliberative
                 ∈ forecastRows (buildDataset [exampleQuestion 7] []
                                   [exampleDeliberative])).
Proof.
  split.
  - apply (proj1 buildDataset_join (exampleQuestion 7) exampleIndependent
             exampleDeliberative); reflexivity.
  - apply (proj2 buildDataset_join [exampleQuestion 7] [] [exampleDeliberative]
             exampleDeliberative).
    + by left.
    + split; [constructor|]. constructor; [|constructor].
      intros Hin. exfalso. revert Hin. by apply (bool_decide_unpack _).
    + intros indF Hin. by apply elem_of_nil in Hin.
    + exists (exampleQuestion 7). split; [by left|reflexivity].
Defined.

Lemma toCSV_round_trip_witness :
  parseStandard (toCSV [[("rationale", VString trickyText); ("probability", VNumber 70)]])
  = Some [["rationale"; "probability"]; [trickyText; "70"]].
Proof.
  apply (proj1 toCSV_round_trip
           [("rationale", VString trickyText); ("probability", VNumber 70)] []).
  - done.
  - repeat constructor; by apply (bool_decide_unpack _).
  - repeat constructor; first [done | unfold safeInteger; by vm_compute].
  - unfold writtenLines. cbn [map].
    repeat (constructor; [by vm_compute|]). constructor.
Defined.


(* ================================================================== *)
(** * Properties of the rest of the pipeline *)
(* ================================================================== *)

Section DesignFacts.

Variable Math_sin : Q -> Q.

Lemma allDigits_app s t : allDigits (s +:+ t) = allDigits s && allDigits t.
Proof.
  induction s as [|c s IH]; [done|].
  change (String c s +:+ t) with (String c (s +:+ t)). simpl.
  by rewrite IH, andb_assoc.
Qed.


(** The digits [pretty_N_go] puts in front of its accumulator. *)
Lemma pretty_N_go_digits (x : N) (s : string) :
  ∃ t, pretty_N_go x s = t +:+ s ∧ allDigits t = true ∧ ((0 < x)%N -> t ≠ "").
Proof.
  revert s. induction (N.lt_wf_0 x) as [x _ IH]; intros s.
  assert (x = 0 ∨ 0 < x)%N as [->|Hx] by lia.
  - exists "". rewrite pretty_N_go_0. split; [done|]. split; [done|lia].
  - rewrite pretty_N_go_step by done.
    destruct (IH (x `div` 10)%N (N.div_lt x 10 Hx ltac:(lia))
                (String (pretty_N_char (x `mod` 10)) s)) as (t & -> & Ht & _).
    exists (t +:+ String (pretty_N_char (x `mod` 10)) "").
    split; [|split].
    + clear. induction t as [|c t IH]; [done|].
      change (String c t +:+ ?u) with (String c (t +:+ u)).
      change ((String c t +:+ ?u) +:+ ?v) with (String c ((t +:+ u) +:+ v)).
      by rewrite IH.
    + rewrite allDigits_app, Ht. simpl. by rewrite pretty_N_char_digit.
    + intros _. by destruct t.
Qed.

Lemma pretty_N_digits (x : N) : allDigits (pretty x) = true ∧ pretty x ≠ "".
Proof.
  unfold pretty, pretty_N. case_decide as Hx; [done|].
  destruct (pretty_N_go_digits x "") as (t & -> & Ht & Hne).
  assert (Ht' : t +:+ "" = t).
  { clear. induction t as [|c t IH]; [done|].
    change (String c t +:+ "") with (String c (t +:+ "")). by rewrite IH. }
  rewrite Ht'. split; [done|]. apply Hne. lia.
Qed.

(** Two runs of digits, each followed by a dash, that start equal texts are
    the same run. *)
Lemma digits_dash_inj d d' s s' :
  allDigits d = true -> allDigits d' = true ->
  d +:+ "-" +:+ s = d' +:+ "-" +:+ s' -> d = d' ∧ s = s'.
Proof.
  revert d'. induction d as [|c d IH]; intros d' Hd Hd' Heq.
  - destruct d' as [|c' d']; [by inversion Heq|].
    inversion Heq as [[Hc Hrest]]. subst c'. simpl in Hd'. discriminate.
  - destruct d' as [|c' d'].
    + inversion Heq as [[Hc Hrest]]. subst c. simpl in Hd. discriminate.
    + inversion Heq as [[Hc Hrest]]. subst c'.
      simpl in Hd, Hd'. apply andb_true_iff in Hd as [_ Hd].
      apply andb_true_iff in Hd' as [_ Hd'].
      destruct (IH d' Hd Hd' Hrest) as [-> ->]. done.
Qed.

(** A rendered integer followed by a dash determines the integer. *)
Lemma pretty_Z_dash_inj (z z' : Z) (s s' : string) :
  pretty z +:+ "-" +:+ s = pretty z' +:+ "-" +:+ s' -> z = z' ∧ s = s'.
Proof.
  assert (Hnat : forall x : Z, (0 <= x)%Z ->
            allDigits (pretty x) = true ∧ ∃ c r, pretty x = String c r ∧ isDigit c = true).
  { intros x Hx. assert (Hp : pretty x = pretty (Z.to_N x)).
    { destruct x as [|p|p]; [done|done|lia]. }
    rewrite Hp. destruct (pretty_N_digits (Z.to_N x)) as [Hd Hne].
    split; [done|]. destruct (pretty (Z.to_N x)) as [|c r]; [done|].
    exists c, r. split; [done|]. simpl in Hd. by apply andb_true_iff in Hd as [? _]. }
  assert (Hneg : forall p, pretty (Z.neg p) = "-" +:+ pretty (Z.pos p)) by done.
  intros Heq.
  destruct z as [|p|p], z' as [|p'|p'].
  all: try (destruct (Hnat 0%Z ltac:(lia)) as [Hd0 _]).
  all: try (destruct (Hnat (Z.pos p) ltac:(lia)) as [Hdp (cp & rp & Hcp & Hip)]).
  all: try (destruct (Hnat (Z.pos p') ltac:(lia)) as [Hdp' (cp' & rp' & Hcp' & Hip')]).
  - by apply digits_dash_inj in Heq as [_ ->].
  - apply digits_dash_inj in Heq as [Hz ->]; [|done..].
    by apply (inj pretty) in Hz.
  - rewrite Hneg in Heq. exfalso. inversion Heq.
  - apply digits_dash_inj in Heq as [Hz ->]; [|done..].
    by apply (inj pretty) in Hz.
  - apply digits_dash_inj in Heq as [Hz ->]; [|done..].
    by apply (inj pretty) in Hz.
  - rewrite Hneg, Hcp in Heq. exfalso. inversion Heq. subst.
    vm_compute in Hip. discriminate.
  - rewrite Hneg in Heq. exfalso. inversion Heq.
  - rewrite Hneg, Hcp' in Heq. exfalso. inversion Heq. subst.
    vm_compute in Hip'. discriminate.
  - rewrite !Hneg in Heq. inversion Heq as [Hrest].
    apply digits_dash_inj in Hrest as [Hz ->]; [|done..].
    apply (inj pretty) in Hz. by simplify_eq.
Qed.


(** Case analysis on the two shuffles and on the rotating index. *)
Ltac enumerate_groups questionId qIndex :=
  let Hi := fresh "Hi" in
  let Hm := fresh "Hm" in
  let Hq := fresh "Hq" in
  pose proof (shuffle3 Math_sin "info1" "info2" "info3" (inject_Z questionId)) as Hi;
  pose proof (shuffle3 Math_sin "pro" "sonnet" "gpt5" (inject_Z questionId + 1)%Q) as Hm;
  pose proof (Nat.mod_upper_bound qIndex 3 ltac:(lia)) as Hq;
  unfold MODELS in *;
  set (infoLabels := seededShuffle Math_sin ["info1"; "info2"; "info3"] _) in *;
  set (models := seededShuffle Math_sin ["pro"; "sonnet"; "gpt5"] _) in *;
  clearbody infoLabels models;
  set (r := (qIndex mod 3)%nat) in *; clearbody r;
  destruct r as [|[|[|?]]]; [| | |lia]; clear Hq;
  repeat (apply elem_of_cons in Hm as [-> | Hm]);
    try (by apply elem_of_nil in Hm);
  repeat (apply elem_of_cons in Hi as [-> | Hi]);
    try (by apply elem_of_nil in Hi).

Lemma required_length questionId qIndex :
  length (getRequiredForecasts Math_sin questionId qIndex) = 18%nat.
Proof.
  unfold getRequiredForecasts.
  enumerate_groups questionId qIndex; vm_compute; reflexivity.
Qed.

Lemma independentFiles_NoDup question qIndex :
  NoDup (independentFiles Math_sin question qIndex)
  ∧ length (independentFiles Math_sin question qIndex) = 18%nat.
Proof.
  unfold independentFiles. split.
  - rewrite (list_fmap_compose (Independent.forecastIdOf question)
               Independent.outputFileOf).
    apply (@NoDup_fmap_2 _ _ _ independent_outputFileOf_inj), required_ids_NoDup.
  - rewrite length_fmap. apply required_length.
Qed.

Lemma independentCorpusFiles_cons question rest qIndex :
  independentCorpusFiles Math_sin (question :: rest) qIndex
  = independentFiles Math_sin question qIndex
    ++ independentCorpusFiles Math_sin rest (S qIndex).
Proof. reflexivity. Qed.

Lemma independentFiles_elem question qIndex file :
  file ∈ independentFiles Math_sin question qIndex ->
  ∃ req, req ∈ getRequiredForecasts Math_sin (q_id question) qIndex
         ∧ file = Independent.outputFileOf (Independent.forecastIdOf question req).
Proof.
  unfold independentFiles.
  generalize (getRequiredForecasts Math_sin (q_id question) qIndex) as reqs.
  intros reqs Hin. apply list_elem_of_fmap in Hin as (req & -> & Hreq). eauto.
Qed.

Lemma independentCorpusFiles_question questions qIndex file :
  file ∈ independentCorpusFiles Math_sin questions qIndex ->
  ∃ question req, question ∈ questions
    ∧ file = Independent.outputFileOf (Independent.forecastIdOf question req).
Proof.
  revert qIndex. induction questions as [|q rest IH]; intros qIndex Hin.
  - by apply elem_of_nil in Hin.
  - rewrite independentCorpusFiles_cons in Hin. apply elem_of_app in Hin as [Hin|Hin].
    + apply independentFiles_elem in Hin as (req & _ & ->).
      exists q, req. split; [by left|done].
    + destruct (IH _ Hin) as (q' & req & Hq' & ->).
      exists q', req. split; [by right|done].
Qed.

(** The file of an independent forecast names its question. *)
Lemma independent_file_question q q' req req' :
  Independent.outputFileOf (Independent.forecastIdOf q req)
  = Independent.outputFileOf (Independent.forecastIdOf q' req') ->
  q_id q = q_id q'.
Proof.
  intros Heq. apply independent_outputFileOf_inj in Heq.
  unfold Independent.forecastIdOf in Heq.
  by apply pretty_Z_dash_inj in Heq as [? _].
Qed.


(** X1. In a corpus whose question ids are pairwise distinct, the output
    files of the required independent forecasts, 18 for each question,
    are pairwise distinct: no two tasks of a run write the same file. *)
Theorem independent_files_distinct (questions : list Question) (qIndex : nat) :
  NoDup (q_id <$> questions) ->
  NoDup (independentCorpusFiles Math_sin questions qIndex)
  ∧ length (independentCorpusFiles Math_sin questions qIndex)
    = (18 * length questions)%nat.
Proof.
  revert qIndex. induction questions as [|q rest IH]; intros qIndex Hnd.
  - split; [constructor|done].
  - rewrite fmap_cons in Hnd. apply NoDup_cons in Hnd as [Hq Hnd].
    destruct (IH (S qIndex) Hnd) as [IHnd IHlen].
    destruct (independentFiles_NoDup q qIndex) as [Hfiles Hlen].
    rewrite independentCorpusFiles_cons. split.
    + apply NoDup_app. split; [done|]. split; [|done].
      intros file Hin Hin'.
      apply independentFiles_elem in Hin as (req & _ & ->).
      apply independentCorpusFiles_question in Hin' as (q' & req' & Hq' & Heq).
      apply independent_file_question in Heq.
      apply Hq. rewrite Heq. by apply list_elem_of_fmap_2.
    + rewrite length_app, Hlen, IHlen. cbn [length]. lia.
Qed.


Lemma deliberativeFiles_suffixes question qIndex :
  deliberativeFiles Math_sin question qIndex
  = (fun suffix => Deliberative.outputFileOf (pretty (q_id question) +:+ suffix))
      <$> (CONDITIONS ≫= suffixesFor Math_sin (q_id question) qIndex).
Proof.
  unfold deliberativeFiles. generalize CONDITIONS as conditions.
  induction conditions as [|c rest IH]; [done|].
  rewrite !bind_cons, fmap_app, IH. f_equal.
  unfold suffixesFor.
  by destruct (getGroupComposition Math_sin c (q_id question) qIndex).
Qed.

Lemma suffixes_NoDup questionId qIndex :
  NoDup (CONDITIONS ≫= suffixesFor Math_sin questionId qIndex).
Proof.
  unfold CONDITIONS, suffixesFor. cbn [mbind list_bind]. unfold getGroupComposition.
  enumerate_groups questionId qIndex;
    apply (bool_decide_unpack _); vm_compute; exact I.
Qed.

Lemma suffixes_length questionId qIndex conditions :
  Forall (fun c => c ∈ CONDITIONS) conditions ->
  length (conditions ≫= suffixesFor Math_sin questionId qIndex)
  = (3 * length conditions)%nat.
Proof.
  induction 1 as [|c rest Hc _ IH]; [done|].
  rewrite bind_cons, length_app, IH. unfold suffixesFor.
  destruct (getGroupComposition_known Math_sin c questionId qIndex Hc) as [g ->].
  cbn [length fmap list_fmap]. lia.
Qed.

Lemma deliberativeFiles_NoDup question qIndex :
  NoDup (deliberativeFiles Math_sin question qIndex)
  ∧ length (deliberativeFiles Math_sin question qIndex) = 18%nat.
Proof.
  rewrite deliberativeFiles_suffixes.
  pose proof (suffixes_NoDup (q_id question) qIndex) as Hnd.
  pose proof (suffixes_length (q_id question) qIndex CONDITIONS CONDITIONS_known)
    as Hlen.
  revert Hnd Hlen.
  generalize (CONDITIONS ≫= suffixesFor Math_sin (q_id question) qIndex) as l.
  intros l Hnd Hlen. split; [|by rewrite length_fmap].
  assert (Hinj : Inj (=) (=)
            (fun suffix => Deliberative.outputFileOf (pretty (q_id question) +:+ suffix))).
  { intros x y Heq. apply deliberative_outputFileOf_inj in Heq.
    by apply (inj (String.append _)) in Heq. }
  by apply (NoDup_fmap_2 _).
Qed.

Lemma deliberativeCorpusFiles_cons question rest qIndex :
  deliberativeCorpusFiles Math_sin (question :: rest) qIndex
  = deliberativeFiles Math_sin question qIndex
    ++ deliberativeCorpusFiles Math_sin rest (S qIndex).
Proof. reflexivity. Qed.

Lemma deliberativeFiles_elem question qIndex file :
  file ∈ deliberativeFiles Math_sin question qIndex ->
  ∃ suffix, file = Deliberative.outputFileOf (pretty (q_id question) +:+ suffix)
            ∧ ∃ s, suffix = "-" +:+ s.
Proof.
  rewrite deliberativeFiles_suffixes. intros Hin.
  apply list_elem_of_fmap in Hin as (suffix & -> & Hin).
  exists suffix. split; [done|].
  apply list_elem_of_bind in Hin as (c & Hin & _). unfold suffixesFor in Hin.
  destruct (getGroupComposition Math_sin c (q_id question) qIndex) as [g|];
    [|by apply elem_of_nil in Hin].
  apply list_elem_of_fmap in Hin as (p & -> & _). unfold deliberativeSuffix. eauto.
Qed.

Lemma deliberativeCorpusFiles_question questions qIndex file :
  file ∈ deliberativeCorpusFiles Math_sin questions qIndex ->
  ∃ question s, question ∈ questions
    ∧ file = Deliberative.outputFileOf (pretty (q_id question) +:+ "-" +:+ s).
Proof.
  revert qIndex. induction questions as [|q rest IH]; intros qIndex Hin.
  - by apply elem_of_nil in Hin.
  - rewrite deliberativeCorpusFiles_cons in Hin. apply elem_of_app in Hin as [Hin|Hin].
    + apply deliberativeFiles_elem in Hin as (suffix & -> & s & ->).
      exists q, s. split; [by left|done].
    + destruct (IH _ Hin) as (q' & s & Hq' & ->).
      exists q', s. split; [by right|done].
Qed.

(** X2. The same for the deliberative stage: with pairwise distinct
    question ids, the output files of the deliberative tasks, 18 for each
    question (six conditions, three positions), are pairwise distinct. *)
Theorem deliberative_files_distinct (questions : list Question) (qIndex : nat) :
  NoDup (q_id <$> questions) ->
  NoDup (deliberativeCorpusFiles Math_sin questions qIndex)
  ∧ length (deliberativeCorpusFiles Math_sin questions qIndex)
    = (18 * length questions)%nat.
Proof.
  revert qIndex. induction questions as [|q rest IH]; intros qIndex Hnd.
  - split; [constructor|done].
  - rewrite fmap_cons in Hnd. apply NoDup_cons in Hnd as [Hq Hnd].
    destruct (IH (S qIndex) Hnd) as [IHnd IHlen].
    destruct (deliberativeFiles_NoDup q qIndex) as [Hfiles Hlen].
    rewrite deliberativeCorpusFiles_cons. split.
    + apply NoDup_app. split; [done|]. split; [|done].
      intros file Hin Hin'.
      apply deliberativeFiles_elem in Hin as (suffix & -> & s & ->).
      apply deliberativeCorpusFiles_question in Hin' as (q' & s' & Hq' & Heq).
      apply deliberative_outputFileOf_inj, pretty_Z_dash_inj in Heq as [Heq _].
      apply Hq. rewrite Heq. by apply list_elem_of_fmap_2.
    + rewrite length_app, Hlen, IHlen. cbn [length]. lia.
Qed.


Lemma getGroupComposition_unknown condition questionId qIndex :
  condition ∉ CONDITIONS ->
  getGroupComposition Math_sin condition questionId qIndex
  = Throw ("Unknown condition: " +:+ condition).
Proof.
  intros Hc. unfold getGroupComposition.
  repeat (case_decide as Heq;
          [exfalso; apply Hc; rewrite Heq; apply (bool_decide_unpack _);
           vm_compute; exact I|]; clear Heq).
  done.
Qed.

(** Every group has three agents, each with one of the three models and one
    of the five information labels: no read of [MODELS] or of a shuffled
    array falls outside it. *)
Lemma group_members condition questionId qIndex g :
  getGroupComposition Math_sin condition questionId qIndex = Return g ->
  condition ∈ CONDITIONS ∧ length g = 3%nat
  ∧ Forall (fun a => model a ∈ MODELS ∧ infoLabel a ∈ INFO_LABELS) g.
Proof.
  intros Hg.
  assert (Hc : condition ∈ CONDITIONS).
  { destruct (decide (condition ∈ CONDITIONS)) as [|Hn]; [done|].
    by rewrite (getGroupComposition_unknown _ _ _ Hn) in Hg. }
  split; [done|]. revert Hg. unfold CONDITIONS in Hc.
  repeat (apply elem_of_cons in Hc as [->|Hc]); try (by apply elem_of_nil in Hc);
    unfold getGroupComposition; cbn [decide]; intros Hg;
    enumerate_groups questionId qIndex;
    vm_compute in Hg; injection Hg as <-;
    (split; [reflexivity|]);
    apply (bool_decide_unpack _); vm_compute; exact I.
Qed.

(** Every required forecast names one of the three models and a known
    information label. *)
Lemma required_members questionId qIndex :
  Forall (fun a => model a ∈ MODELS ∧ infoLabel a ∈ INFO_LABELS)
         (getRequiredForecasts Math_sin questionId qIndex).
Proof.
  unfold getRequiredForecasts.
  enumerate_groups questionId qIndex;
    apply (bool_decide_unpack _); vm_compute; exact I.
Qed.

(** X3. For a question id that is a safe integer, [getGroupComposition]
    answers exactly for the six conditions of [CONDITIONS], with three
    agents that each have one of the three models and a known information
    label, and throws [Unknown condition] for every other name. *)
Theorem getGroupComposition_outcomes condition questionId qIndex :
  safeInteger questionId ->
  (condition ∈ CONDITIONS ->
   ∃ g, getGroupComposition Math_sin condition questionId qIndex = Return g
        ∧ length g = 3%nat
        ∧ Forall (fun a => model a ∈ MODELS ∧ infoLabel a ∈ INFO_LABELS) g)
  ∧ (condition ∉ CONDITIONS ->
     getGroupComposition Math_sin condition questionId qIndex
     = Throw ("Unknown condition: " +:+ condition)).
Proof.
  intros _. split.
  - intros Hc.
    destruct (getGroupComposition_known Math_sin condition questionId qIndex Hc)
      as [g Hg].
    exists g. split; [done|]. by apply group_members in Hg as (_ & ? & ?).
  - apply getGroupComposition_unknown.
Qed.

Lemma information_known_label question agent :
  infoLabel agent ∈ INFO_LABELS ->
  Independent.getInformation question (infoLabel agent)
  = Return (Deliberative.informationFor question agent).
Proof.
  intros Hl. unfold Independent.getInformation, Deliberative.informationFor.
  unfold INFO_LABELS in Hl.
  repeat (apply elem_of_cons in Hl as [->|Hl]); try (by apply elem_of_nil in Hl);
    reflexivity.
Qed.

(** X4. For a question id that is a safe integer and every agent of every
    group, the deliberative stage hands over the same information text as
    [getInformation] gave the agent in the independent stage. *)
Theorem information_agreement question condition questionId qIndex g agent :
  safeInteger questionId ->
  getGroupComposition Math_sin condition questionId qIndex = Return g ->
  agent ∈ g ->
  Independent.getInformation question (infoLabel agent)
  = Return (Deliberative.informationFor question agent).
Proof.
  intros _ Hg Ha. apply group_members in Hg as (_ & _ & Hall).
  rewrite Forall_forall in Hall. destruct (Hall _ Ha) as [_ Hl].
  by apply information_known_label.
Qed.

End DesignFacts.

Section LoopFrames.

Context {World Task : Type}.
Variable idOf : Task -> string.
Variable run : Task -> State World -> except Outcome * State World.
Variable R : State World -> State World -> Prop.
Variable P : Task -> Prop.

Hypothesis R_refl : forall st, R st st.
Hypothesis R_trans : forall st1 st2 st3, R st1 st2 -> R st2 st3 -> R st1 st3.
Hypothesis R_logEvent : forall e st, R st (logEvent e st).
Hypothesis run_R : forall t st r st', P t -> run t st = (r, st') -> R st st'.

Lemma Forall_filter_keep {A} (Q : A -> Prop) `{forall x, Decision (Q x)} (S : A -> Prop)
    (l : list A) :
  Forall S l -> Forall S (filter Q l).
Proof.
  induction 1 as [|x l Hx _ IH]; [constructor|].
  rewrite filter_cons. destruct (decide (Q x)); [by constructor|done].
Qed.

Lemma dispatchAll_rel pending st rs st' :
  Forall P pending -> dispatchAll run pending st = (rs, st') -> R st st'.
Proof.
  intros HP. revert st rs st'. induction HP as [|t pending Ht HP IH]; intros st rs st' Hd.
  - inversion Hd; subst. apply R_refl.
  - cbn [dispatchAll] in Hd.
    destruct (run t st) as [r st1] eqn:Hrun.
    destruct (dispatchAll run pending st1) as [rs1 st2] eqn:Hrest.
    inversion Hd; subst.
    eapply R_trans; [by eapply run_R|by eapply IH].
Qed.

Lemma retryLoop_rel remaining rc pending all st r st' :
  Forall P pending ->
  retryLoop idOf run remaining rc pending all st = (r, st') -> R st st'.
Proof.
  revert rc pending all st. induction remaining as [|remaining IH];
    intros rc pending all st HP Hloop.
  - destruct pending; inversion Hloop; subst; apply R_refl.
  - destruct pending as [|t pending]; [inversion Hloop; subst; apply R_refl|].
    cbn [retryLoop] in Hloop.
    set (st0 := if (0 <? rc)%nat then logEvent (EvSleep RETRY_DELAY_MS) st else st) in *.
    assert (H0 : R st st0).
    { unfold st0. destruct (0 <? rc)%nat; [apply R_logEvent|apply R_refl]. }
    destruct (dispatchAll run (t :: pending) st0) as [rs st1] eqn:Hd.
    pose proof (dispatchAll_rel _ _ _ _ HP Hd) as H1.
    destruct (promiseAll rs) as [results|msg].
    + destruct (length (filter (fun r => isFailed r) results) =? 0)%nat.
      * inversion Hloop; subst. by eapply R_trans.
      * apply IH in Hloop.
        -- eapply R_trans; [exact H0|]. by eapply R_trans.
        -- by apply Forall_filter_keep.
    + inversion Hloop; subst. by eapply R_trans.
Qed.

Lemma retryAndReport_rel tasks sk st r st' :
  Forall P tasks ->
  retryAndReport idOf run tasks sk st = (r, st') -> R st st'.
Proof.
  intros HP Hrun. unfold retryAndReport in Hrun.
  destruct (retryLoop idOf run MAX_RETRIES_PER_QUESTION 0 tasks [] st)
    as [[[pending all]|msg] st1] eqn:Hloop;
    apply retryLoop_rel in Hloop; [|done|idtac|done]; by inversion Hrun; subst.
Qed.

End LoopFrames.

Section BatchFrames.

Context {World : Type}.
Variable processQuestion :
  Question -> nat -> State World -> except QuestionResult * State World.
Variable questions : list Question.
Variable R : State World -> State World -> Prop.

Hypothesis R_refl : forall st, R st st.
Hypothesis R_trans : forall st1 st2 st3, R st1 st2 -> R st2 st3 -> R st1 st3.
Hypothesis processQuestion_R : forall question qIndex st r st',
  questions !! qIndex = Some question ->
  processQuestion question qIndex st = (r, st') -> R st st'.

Lemma processBatch_rel batch qIndex st rs st' :
  (forall j question, batch !! j = Some question ->
     questions !! (qIndex + j)%nat = Some question) ->
  processBatch processQuestion batch qIndex st = (rs, st') -> R st st'.
Proof.
  revert qIndex st rs st'. induction batch as [|q batch IH]; intros qIndex st rs st' Hb Hp.
  - inversion Hp; subst. apply R_refl.
  - cbn [processBatch] in Hp.
    destruct (processQuestion q qIndex st) as [r st1] eqn:Hq.
    destruct (processBatch processQuestion batch (S qIndex) st1) as [rs1 st2] eqn:Hrest.
    inversion Hp; subst.
    eapply R_trans.
    + eapply processQuestion_R; [|exact Hq]. specialize (Hb 0%nat q eq_refl).
      by rewrite Nat.add_0_r in Hb.
    + eapply IH; [|exact Hrest]. intros j question Hj.
      specialize (Hb (S j) question Hj). by rewrite Nat.add_succ_r in Hb.
Qed.

Lemma batchLoop_rel fuel batchStart acc st x st' :
  batchLoop processQuestion fuel questions batchStart acc st = Some (x, st') ->
  R st st'.
Proof.
  revert batchStart acc st. induction fuel as [|fuel IH]; intros batchStart acc st Hb.
  - cbn [batchLoop] in Hb. destruct (batchStart <? length questions)%nat; [done|].
    inversion Hb; subst. apply R_refl.
  - cbn [batchLoop] in Hb. destruct (batchStart <? length questions)%nat eqn:Hlt;
      [|inversion Hb; subst; apply R_refl].
    destruct (processBatch processQuestion _ batchStart st) as [rs st1] eqn:Hp.
    apply processBatch_rel in Hp.
    + destruct (promiseAll rs) as [batchResults|msg]; [|by inversion Hb; subst].
      destruct (processResults batchResults acc) as [acc1 exited].
      destruct exited; [by inversion Hb; subst|].
      apply IH in Hb. by eapply R_trans.
    + intros j question Hj. unfold slice in Hj.
      apply lookup_take_Some in Hj as [Hj _]. by rewrite lookup_drop in Hj.
Qed.

End BatchFrames.

Section StageFrames.

Context {World : Type}.
Variable Math_sin : Q -> Q.
Variable independentForecastingAgent :
  World -> Question -> option string -> string -> string -> option nat ->
  World * except AgentForecast.
Variable deliberativeForecastingAgent :
  World -> DeliberationRequest -> World * except DeliberativeResult.

Lemma independentFrame_refl files (st : State World) : independentFrame files st st.
Proof. repeat split; [done|set_solver]. Qed.

Lemma independentFrame_trans files (st1 st2 st3 : State World) :
  independentFrame files st1 st2 -> independentFrame files st2 st3 ->
  independentFrame files st1 st3.
Proof.
  intros (Ha & Hb & Hc) (Ha' & Hb' & Hc'). split; [by etrans|].
  split; [set_solver|congruence].
Qed.

Lemma independentFrame_logEvent files e (st : State World) :
  independentFrame files st (logEvent e st).
Proof. unfold independentFrame, logEvent. cbn. repeat split; [done|set_solver]. Qed.

Lemma deliberativeFrame_refl files (st : State World) : deliberativeFrame files st st.
Proof. repeat split; [done|set_solver]. Qed.

Lemma deliberativeFrame_trans files (st1 st2 st3 : State World) :
  deliberativeFrame files st1 st2 -> deliberativeFrame files st2 st3 ->
  deliberativeFrame files st1 st3.
Proof.
  intros (Ha & Hb & Hc) (Ha' & Hb' & Hc'). split; [by etrans|].
  split; [set_solver|congruence].
Qed.

Lemma deliberativeFrame_logEvent files e (st : State World) :
  deliberativeFrame files st (logEvent e st).
Proof. unfold deliberativeFrame, logEvent. cbn. repeat split; [done|set_solver]. Qed.

Lemma independent_task_frame (files : gset string) question req (st : State World) r st' :
  Independent.outputFileOf (Independent.forecastIdOf question req) ∈ files ->
  Independent.generateSingleForecast independentForecastingAgent question req st
  = (r, st') ->
  independentFrame files st st'.
Proof.
  intros Hfile Hrun. unfold Independent.generateSingleForecast in Hrun.
  case_decide as Hex.
  { inversion Hrun; subst. apply independentFrame_refl. }
  destruct (Independent.getInformation question (infoLabel req)) as [information|msg].
  2: { inversion Hrun; subst. apply independentFrame_refl. }
  cbn [logEvent world fs_independent fs_deliberative trace] in Hrun.
  destruct (independentForecastingAgent _ _ _ _ _ _) as [w [forecast|msg]];
    inversion Hrun; subst; clear Hrun.
  - split; [|split]; cbn [fs_independent fs_deliberative].
    + apply insert_subseteq. apply eq_None_not_Some. exact Hex.
    + rewrite dom_insert. set_solver.
    + done.
  - repeat split; cbn [fs_independent fs_deliberative]; [done|set_solver].
Qed.

Lemma deliberative_task_frame (files : gset string) task (st : State World) r st' :
  taskWf task ->
  Deliberative.outputFileOf (Deliberative.t_forecastId task) ∈ files ->
  Deliberative.runTask deliberativeForecastingAgent task st = (r, st') ->
  deliberativeFrame files st st'.
Proof.
  intros Hwf Hfile Hrun.
  unfold Deliberative.runTask, Deliberative.generateSingleDeliberativeForecast in Hrun.
  unfold taskWf, Deliberative.deliberativeId in Hwf. rewrite <- Hwf in Hrun.
  case_decide as Hex.
  { inversion Hrun; subst. apply deliberativeFrame_refl. }
  cbn [logEvent world fs_independent fs_deliberative trace] in Hrun.
  destruct (deliberativeForecastingAgent _ _) as [w [result|msg]];
    inversion Hrun; subst; clear Hrun.
  - split; [|split]; cbn [fs_independent fs_deliberative].
    + apply insert_subseteq. apply eq_None_not_Some. exact Hex.
    + rewrite dom_insert. set_solver.
    + done.
  - repeat split; cbn [fs_independent fs_deliberative]; [done|set_solver].
Qed.

Lemma independentCorpusFiles_lookup questions start i question file :
  questions !! i = Some question ->
  file ∈ independentFiles Math_sin question (start + i) ->
  file ∈ independentCorpusFiles Math_sin questions start.
Proof.
  revert start i. induction questions as [|q rest IH]; intros start i Hq Hfile; [done|].
  rewrite independentCorpusFiles_cons. apply elem_of_app.
  destruct i as [|i].
  - injection Hq as ->. rewrite Nat.add_0_r in Hfile. by left.
  - right. apply (IH (S start) i Hq). by rewrite Nat.add_succ_comm.
Qed.

Lemma deliberativeCorpusFiles_lookup questions start i question file :
  questions !! i = Some question ->
  file ∈ deliberativeFiles Math_sin question (start + i) ->
  file ∈ deliberativeCorpusFiles Math_sin questions start.
Proof.
  revert start i. induction questions as [|q rest IH]; intros start i Hq Hfile; [done|].
  rewrite deliberativeCorpusFiles_cons. apply elem_of_app.
  destruct i as [|i].
  - injection Hq as ->. rewrite Nat.add_0_r in Hfile. by left.
  - right. apply (IH (S start) i Hq). by rewrite Nat.add_succ_comm.
Qed.

Lemma independent_question_frame (files : gset string) question qIndex
    (st : State World) r st' :
  (forall file, file ∈ independentFiles Math_sin question qIndex -> file ∈ files) ->
  Independent.processQuestion independentForecastingAgent question qIndex
    (getRequiredForecasts Math_sin (q_id question) qIndex) st = (r, st') ->
  independentFrame files st st'.
Proof.
  unfold independentFiles, Independent.processQuestion.
  generalize (getRequiredForecasts Math_sin (q_id question) qIndex) as reqs.
  intros reqs Hfiles Hrun.
  eapply (retryAndReport_rel (Independent.forecastIdOf question)
            (Independent.generateSingleForecast independentForecastingAgent question)
            (independentFrame files)
            (fun req => Independent.outputFileOf (Independent.forecastIdOf question req)
                        ∈ files)
            (independentFrame_refl files) (independentFrame_trans files)
            (independentFrame_logEvent files)); [| |exact Hrun].
  - intros t s r0 s' Ht Hr. by eapply independent_task_frame.
  - apply Forall_forall. intros req Hreq. apply Hfiles.
    apply (list_elem_of_fmap_2 (fun req => Independent.outputFileOf
                                             (Independent.forecastIdOf question req))).
    exact Hreq.
Qed.

(** The files of the tasks [processQuestion] collects are among the 18
    deliberative files of the question. *)
Lemma collected_files question qIndex (st : State World) tasks nSkipped task :
  Deliberative.collectTasks Math_sin CONDITIONS question qIndex st [] 0
  = Return (tasks, nSkipped) ->
  task ∈ tasks ->
  Deliberative.outputFileOf (Deliberative.t_forecastId task)
  ∈ deliberativeFiles Math_sin question qIndex.
Proof.
  rewrite (collectTasks_spec Math_sin CONDITIONS question qIndex st [] 0 CONDITIONS_known).
  intros Hct Ht. injection Hct as <- _.
  cbn [app] in Ht.
  apply list_elem_of_bind in Ht as (c & Ht & Hc).
  apply list_elem_of_filter in Hc as [_ Hc].
  unfold deliberativeFiles. apply list_elem_of_bind. exists c. split; [|done].
  unfold tasksFor in Ht.
  destruct (getGroupComposition Math_sin c (q_id question) qIndex) as [g|];
    [|by apply elem_of_nil in Ht].
  apply list_elem_of_fmap in Ht as (p & -> & Hp).
  by apply (list_elem_of_fmap_2 (fun position =>
              Deliberative.outputFileOf
                (Deliberative.deliberativeId question c g position))).
Qed.

Lemma deliberative_question_frame (files : gset string) question qIndex
    (st : State World) r st' :
  (forall file, file ∈ deliberativeFiles Math_sin question qIndex -> file ∈ files) ->
  Deliberative.processQuestion Math_sin deliberativeForecastingAgent question qIndex st
  = (r, st') ->
  deliberativeFrame files st st'.
Proof.
  intros Hfiles Hrun. unfold Deliberative.processQuestion in Hrun.
  destruct (Deliberative.collectTasks Math_sin CONDITIONS question qIndex st [] 0)
    as [[tasks nSkipped]|msg] eqn:Hct.
  2: { inversion Hrun; subst. apply deliberativeFrame_refl. }
  destruct (length tasks =? 0)%nat.
  { inversion Hrun; subst. apply deliberativeFrame_refl. }
  assert (Hwf : Forall taskWf tasks).
  { eapply collectTasks_wf; [|exact Hct]. constructor. }
  eapply (retryAndReport_rel Deliberative.t_forecastId
            (Deliberative.runTask deliberativeForecastingAgent)
            (deliberativeFrame files)
            (fun task => taskWf task
                         ∧ Deliberative.outputFileOf (Deliberative.t_forecastId task)
                           ∈ files)
            (deliberativeFrame_refl files) (deliberativeFrame_trans files)
            (deliberativeFrame_logEvent files)); [| |exact Hrun].
  - intros t s r0 s' [Ht1 Ht2] Hr. by eapply deliberative_task_frame.
  - rewrite Forall_forall in Hwf. apply Forall_forall. intros task Ht.
    split; [by apply Hwf|]. apply Hfiles. by eapply collected_files.
Qed.

(** X5. A run of the independent stage, whatever the service answers and
    however it ends, terminates and leaves every file that was in the
    independent directory as it was; the files it adds are output files of
    required forecasts of the questions it processes; it does not touch the
    deliberative directory. *)
Theorem independent_stage_frame (TEST_MODE : bool) (questions : list Question)
    (st : State World) :
  let qs := if TEST_MODE then slice questions 0 2 else questions in
  ∃ t totals st',
    Independent.main Math_sin independentForecastingAgent TEST_MODE questions st
    = Some ((t, totals), st')
    ∧ fs_independent st ⊆ fs_independent st'
    ∧ dom (fs_independent st')
      ⊆ dom (fs_independent st) ∪ list_to_set (independentCorpusFiles Math_sin qs 0)
    ∧ fs_deliberative st' = fs_deliberative st.
Proof.
  intros qs. unfold Independent.main. fold qs.
  set (pq := fun question qIndex =>
               Independent.processQuestion independentForecastingAgent question qIndex
                 (getRequiredForecasts Math_sin (q_id question) qIndex)).
  destruct (batchLoop_total pq (length qs) qs 0 (mkTotals 0 0 0 0 []) st ltac:(lia))
    as ([x st'] & Hb).
  rewrite Hb.
  assert (HR : independentFrame (list_to_set (independentCorpusFiles Math_sin qs 0))
                 st st').
  { eapply (batchLoop_rel pq qs (independentFrame _) (independentFrame_refl _)
              (independentFrame_trans _)); [|exact Hb].
    intros question qIndex s r s' Hq Hrun.
    eapply independent_question_frame; [|exact Hrun].
    intros file Hfile. apply elem_of_list_to_set.
    by apply (independentCorpusFiles_lookup qs 0 qIndex question). }
  destruct x as [acc|[t acc]].
  - destruct (0 <? length (questionsWithFailures acc))%nat; by eexists _, _, _.
  - by eexists _, _, _.
Qed.

(** X6. A run of the deliberative stage terminates and leaves every file
    that was in the deliberative directory as it was; the files it adds are
    among the deliberative files of the questions it processes; it does not
    touch the independent directory. *)
Theorem deliberative_stage_frame (TEST_MODE : bool) (questions : list Question)
    (st : State World) :
  let qs := if TEST_MODE then slice questions 0 2 else questions in
  ∃ t totals st',
    Deliberative.main Math_sin deliberativeForecastingAgent TEST_MODE questions st
    = Some ((t, totals), st')
    ∧ fs_deliberative st ⊆ fs_deliberative st'
    ∧ dom (fs_deliberative st')
      ⊆ dom (fs_deliberative st) ∪ list_to_set (deliberativeCorpusFiles Math_sin qs 0)
    ∧ fs_independent st' = fs_independent st.
Proof.
  intros qs. unfold Deliberative.main. fold qs.
  set (pq := Deliberative.processQuestion Math_sin deliberativeForecastingAgent).
  destruct (batchLoop_total pq (length qs) qs 0 (mkTotals 0 0 0 0 []) st ltac:(lia))
    as ([x st'] & Hb).
  rewrite Hb.
  assert (HR : deliberativeFrame (list_to_set (deliberativeCorpusFiles Math_sin qs 0))
                 st st').
  { eapply (batchLoop_rel pq qs (deliberativeFrame _) (deliberativeFrame_refl _)
              (deliberativeFrame_trans _)); [|exact Hb].
    intros question qIndex s r s' Hq Hrun.
    eapply deliberative_question_frame; [|exact Hrun].
    intros file Hfile. apply elem_of_list_to_set.
    by apply (deliberativeCorpusFiles_lookup qs 0 qIndex question). }
  destruct x as [acc|[t acc]]; by eexists _, _, _.
Qed.

End StageFrames.

Section RetryCounts.

Context {World Task : Type}.
Variable idOf : Task -> string.
Variable run : Task -> State World -> except Outcome * State World.
Variable fileOfId : string -> string.
Variable dir : State World -> gset string.
Variable throws : Task -> Prop.
Variable wf : Task -> Prop.

Hypothesis fileOfId_inj : Inj (=) (=) fileOfId.
Hypothesis dir_logEvent : forall e st, dir (logEvent e st) = dir st.
Hypothesis run_cached : forall t st,
  wf t ->
  fileOfId (idOf t) ∈ dir st ->
  run t st = (Return (mkOutcome cached (idOf t) None), st).
Hypothesis run_fresh : forall t st,
  wf t ->
  fileOfId (idOf t) ∉ dir st ->
  (throws t ∧ ∃ msg, run t st = (Throw msg, st)) ∨
  (¬ throws t ∧ ∃ st',
      (run t st = (Return (mkOutcome success (idOf t) None), st')
       ∧ dir st' = {[ fileOfId (idOf t) ]} ∪ dir st
       ∨ (∃ msg, run t st = (Return (mkOutcome error (idOf t) (Some msg)), st'))
         ∧ dir st' = dir st)
      ∧ trace st' = trace st ++ [EvCall (idOf t)]).

Notation Round := (Round idOf run fileOfId dir throws).

(** One round calls the service at most once for an identifier, and not at
    all for one whose file is in the store. *)
Lemma Round_calls_le st pending results st1 id :
  Round st pending results st1 ->
  NoDup (idOf <$> pending) ->
  (callsFor id (trace st1) <= callsFor id (trace st) + 1)%nat
  ∧ (fileOfId id ∈ dir st -> callsFor id (trace st1) = callsFor id (trace st)).
Proof.
  induction 1 as [st|st t ts os st1 Hin Hrun HR IH
                  |st st' t ts os st1 Hnin Hnt Hrun Hdir Htr HR IH
                  |st st' t ts os st1 msg Hnin Hnt Hrun Hdir Htr HR IH];
    intros Hnd; [split; [lia|done]|..];
    rewrite fmap_cons in Hnd; apply NoDup_cons in Hnd as [Hid Hnd];
    destruct (IH Hnd) as [IH1 IH2].
  - split; [lia|done].
  - destruct (decide (id = idOf t)) as [->|Hne].
    + rewrite (Round_calls_other _ _ _ _ _ _ _ _ _ _ HR Hid).
      rewrite Htr, callsFor_app, callsFor_same. split; [lia|done].
    + rewrite Htr, callsFor_app, callsFor_other in IH1, IH2 by done.
      split; [lia|]. intros Hfile. rewrite IH2; [lia|]. rewrite Hdir. set_solver.
  - destruct (decide (id = idOf t)) as [->|Hne].
    + rewrite (Round_calls_other _ _ _ _ _ _ _ _ _ _ HR Hid).
      rewrite Htr, callsFor_app, callsFor_same. split; [lia|done].
    + rewrite Htr, callsFor_app, callsFor_other in IH1, IH2 by done.
      split; [lia|]. intros Hfile. rewrite IH2; [lia|]. by rewrite Hdir.
Qed.

Lemma callsFor_logSleep id (st : State World) :
  callsFor id (trace (logEvent (EvSleep RETRY_DELAY_MS) st)) = callsFor id (trace st).
Proof. cbn [logEvent trace]. rewrite callsFor_app, callsFor_sleep. lia. Qed.

Lemma sleepsIn_logSleep (st : State World) :
  sleepsIn (trace (logEvent (EvSleep RETRY_DELAY_MS) st)) = S (sleepsIn (trace st)).
Proof. cbn [logEvent trace]. rewrite sleepsIn_app, sleepsIn_sleep. lia. Qed.

Lemma filter_retained_wf (pending : list Task) (Q : Task -> bool) :
  Forall wf pending -> Forall wf (filter (fun t => Q t) pending).
Proof.
  induction 1 as [|x l Hx _ IH]; [constructor|].
  rewrite filter_cons. destruct (decide (Q x)); [by constructor|done].
Qed.

(** The loop calls the service at most once per round for an identifier,
    never for one whose file is in the store, and sleeps before every round
    but the first. *)
Lemma retryLoop_calls_le remaining rc pending all st pending' all' st' id :
  Forall wf pending ->
  NoDup (idOf <$> pending) ->
  retryLoop idOf run remaining rc pending all st = (Return (pending', all'), st') ->
  (callsFor id (trace st') <= callsFor id (trace st) + remaining)%nat
  ∧ (fileOfId id ∈ dir st -> callsFor id (trace st') = callsFor id (trace st))
  ∧ (sleepsIn (trace st')
     <= sleepsIn (trace st) + if (0 <? rc)%nat then remaining else remaining - 1)%nat.
Proof.
  revert rc pending all st pending' all' st'.
  induction remaining as [|remaining IH];
    intros rc pending all st pending' all' st' Hwf Hnd Hl.
  - simpl in Hl. assert (st' = st) as -> by (destruct pending; by inversion Hl).
    split; [lia|]. split; [done|]. destruct (0 <? rc)%nat; lia.
  - destruct pending as [|t0 ts].
    { inversion Hl; subst. split; [lia|]. split; [done|]. destruct (0 <? rc)%nat; lia. }
    set (pending := t0 :: ts) in *.
    cbn [retryLoop] in Hl. fold pending in Hl.
    set (st0 := if (0 <? rc)%nat then logEvent (EvSleep RETRY_DELAY_MS) st else st) in *.
    assert (Hd0 : dir st0 = dir st).
    { unfold st0. destruct (0 <? rc)%nat; [apply dir_logEvent|done]. }
    assert (Hc0 : callsFor id (trace st0) = callsFor id (trace st)).
    { unfold st0. destruct (0 <? rc)%nat; [apply callsFor_logSleep|done]. }
    assert (Hs0 : sleepsIn (trace st0)
                  = (sleepsIn (trace st) + if (0 <? rc)%nat then 1 else 0)%nat).
    { unfold st0. destruct (0 <? rc)%nat; [rewrite sleepsIn_logSleep|]; lia. }
    destruct (dispatchAll run pending st0) as [rs st1] eqn:Hd.
    destruct (promiseAll rs) as [results|] eqn:Hp; [|discriminate].
    pose proof (dispatchAll_Round idOf run fileOfId dir throws wf run_cached run_fresh
                  _ _ _ _ _ Hwf Hd Hp) as HR.
    destruct (Round_calls_le _ _ _ _ id HR Hnd) as [Hc1 Hc1'].
    pose proof (Round_sleeps _ _ _ _ _ _ _ _ _ HR) as Hs1.
    pose proof (Round_dir_mono idOf run fileOfId dir throws wf fileOfId_inj dir_logEvent
                  run_cached run_fresh _ _ _ _ HR) as Hm1.
    destruct (length (filter (fun r => isFailed r) results) =? 0)%nat eqn:Hlen.
    { inversion Hl; subst. split; [lia|]. split.
      - intros Hfile. rewrite Hc1'; [lia|]. by rewrite Hd0.
      - rewrite Hs1, Hs0. destruct (0 <? rc)%nat; lia. }
    eapply IH in Hl as (Hc & Hc' & Hs).
    + split; [lia|]. split.
      * intros Hfile. rewrite Hc'; [|apply Hm1; by rewrite Hd0].
        rewrite Hc1'; [lia|]. by rewrite Hd0.
      * rewrite Hs1, Hs0 in Hs. change (0 <? S rc)%nat with true in Hs. cbv iota in Hs.
        destruct (0 <? rc)%nat; lia.
    + by apply filter_retained_wf.
    + eapply sublist_NoDup; [exact Hnd|]. apply fmap_sublist, sublist_filter.
Qed.

Lemma retryAndReport_calls_le tasks sk st r st' id :
  Forall wf tasks ->
  NoDup (idOf <$> tasks) ->
  retryAndReport idOf run tasks sk st = (Return r, st') ->
  (callsFor id (trace st') <= callsFor id (trace st) + MAX_RETRIES_PER_QUESTION)%nat
  ∧ (fileOfId id ∈ dir st -> callsFor id (trace st') = callsFor id (trace st))
  ∧ (sleepsIn (trace st') <= sleepsIn (trace st) + (MAX_RETRIES_PER_QUESTION - 1))%nat.
Proof.
  intros Hwf Hnd Hrun. unfold retryAndReport in Hrun.
  destruct (retryLoop idOf run MAX_RETRIES_PER_QUESTION 0 tasks [] st)
    as [[[pending all]|msg] st1] eqn:Hloop; [|discriminate].
  inversion Hrun; subst.
  by apply (retryLoop_calls_le _ _ _ _ _ _ _ _ id Hwf Hnd) in Hloop.
Qed.

Lemma filter_ext_elem {A} (P Q : A -> bool) (l : list A) :
  (forall x, x ∈ l -> P x = Q x) ->
  filter (fun x => P x) l = filter (fun x => Q x) l.
Proof.
  induction l as [|x l IH]; intros H; [done|].
  rewrite !filter_cons, (H x) by (by left).
  rewrite IH; [done|]. intros y Hy. apply H. by right.
Qed.

(** The tasks kept for the next round. *)
Notation retained pending results :=
  (filter (fun task =>
             existsb (fun f => bool_decide (forecastId f = idOf task))
                     (filter (fun r => isFailed r) results))
          pending).

Lemma existsb_absent (id : string) (os : list Outcome) :
  id ∉ forecastId <$> os ->
  existsb (fun f => bool_decide (forecastId f = id)) (filter (fun r => isFailed r) os)
  = false.
Proof.
  intros Hid. apply not_true_is_false. intros He.
  apply existsb_exists in He as (o & Ho & Heq).
  apply list_elem_of_In, list_elem_of_filter in Ho as [_ Ho].
  apply bool_decide_eq_true in Heq. apply Hid. rewrite <- Heq.
  by apply list_elem_of_fmap_2.
Qed.

Lemma retained_cons_succeeded t ts o os :
  isFailed o = false -> idOf t ∉ forecastId <$> os ->
  retained (t :: ts) (o :: os) = retained ts os.
Proof.
  intros Ho Hid.
  rewrite (filter_cons_False (fun r => Is_true (isFailed r)) o os)
    by (rewrite Ho; intros []).
  rewrite filter_cons_False; [done|].
  rewrite existsb_absent by done. intros [].
Qed.

Lemma retained_cons_failed t ts o os :
  isFailed o = true -> forecastId o = idOf t -> idOf t ∉ idOf <$> ts ->
  retained (t :: ts) (o :: os) = t :: retained ts os.
Proof.
  intros Ho Heq Hid.
  rewrite (filter_cons_True (fun r => Is_true (isFailed r)) o os)
    by (rewrite Ho; exact I).
  rewrite filter_cons_True.
  2: { cbn [existsb]. rewrite bool_decide_eq_true_2 by done. exact I. }
  f_equal. apply filter_ext_elem. intros t' Ht'. cbn [existsb].
  rewrite bool_decide_eq_false_2; [done|].
  intros E. apply Hid. rewrite <- Heq, E. by apply list_elem_of_fmap_2.
Qed.

(** A round splits its tasks into those that succeeded and those kept. *)
Lemma Round_split st pending results st1 :
  Round st pending results st1 ->
  NoDup (idOf <$> pending) ->
  (forecastId <$> filter (fun r => isSucceeded r) results)
    ++ (idOf <$> retained pending results)
  ≡ₚ idOf <$> pending.
Proof.
  intros HR. pose proof (Round_ids _ _ _ _ _ _ _ _ _ HR) as Hids. revert Hids.
  induction HR as [st|st t ts os st1 Hin Hrun HR IH
                  |st st' t ts os st1 Hnin Hnt Hrun Hdir Htr HR IH
                  |st st' t ts os st1 msg Hnin Hnt Hrun Hdir Htr HR IH];
    intros Hids Hnd; [done|..];
    rewrite !fmap_cons in Hids; injection Hids as Hids;
    rewrite fmap_cons in Hnd; apply NoDup_cons in Hnd as [Hid Hnd];
    specialize (IH Hids Hnd).
  - rewrite retained_cons_succeeded by (done || by rewrite Hids).
    rewrite filter_cons_True by done. rewrite !fmap_cons. cbn [forecastId app].
    by constructor.
  - rewrite retained_cons_succeeded by (done || by rewrite Hids).
    rewrite filter_cons_True by done. rewrite !fmap_cons. cbn [forecastId app].
    by constructor.
  - rewrite retained_cons_failed by done.
    rewrite filter_cons_False by (cbv; intros []). rewrite !fmap_cons.
    rewrite <- Permutation_middle. by constructor.
Qed.

Lemma retained_nil pending results :
  filter (fun r => isFailed r) results = [] -> retained pending results = [].
Proof.
  intros Hf. rewrite Hf. cbn [existsb].
  induction pending as [|t ts IH]; [done|]. rewrite filter_cons_False; [done|intros []].
Qed.

(** The loop hands every task either to the results or to the tasks that
    are still pending. *)
Lemma retryLoop_partition remaining rc pending all st pending' all' st' :
  Forall wf pending ->
  NoDup (idOf <$> pending) ->
  retryLoop idOf run remaining rc pending all st = (Return (pending', all'), st') ->
  ∃ new, all' = all ++ new
         ∧ (forecastId <$> new) ++ (idOf <$> pending') ≡ₚ idOf <$> pending.
Proof.
  revert rc pending all st pending' all' st'.
  induction remaining as [|remaining IH];
    intros rc pending all st pending' all' st' Hwf Hnd Hl.
  - simpl in Hl. assert (pending' = pending ∧ all' = all) as [-> ->]
      by (destruct pending; by inversion Hl).
    exists []. by rewrite app_nil_r.
  - destruct pending as [|t0 ts].
    { inversion Hl; subst. exists []. by rewrite app_nil_r. }
    set (pending := t0 :: ts) in *.
    cbn [retryLoop] in Hl. fold pending in Hl.
    set (st0 := if (0 <? rc)%nat then logEvent (EvSleep RETRY_DELAY_MS) st else st) in *.
    destruct (dispatchAll run pending st0) as [rs st1] eqn:Hd.
    destruct (promiseAll rs) as [results|] eqn:Hp; [|discriminate].
    pose proof (dispatchAll_Round idOf run fileOfId dir throws wf run_cached run_fresh
                  _ _ _ _ _ Hwf Hd Hp) as HR.
    pose proof (Round_split _ _ _ _ HR Hnd) as Hsplit.
    destruct (length (filter (fun r => isFailed r) results) =? 0)%nat eqn:Hlen.
    { inversion Hl; subst. eexists. split; [reflexivity|].
      apply Nat.eqb_eq, nil_length_inv in Hlen.
      rewrite (retained_nil pending _ Hlen) in Hsplit. exact Hsplit. }
    eapply IH in Hl as (new & -> & Hperm).
    + exists (filter (fun r => isSucceeded r) results ++ new).
      split; [by rewrite app_assoc|].
      rewrite fmap_app, <- app_assoc, Hperm. exact Hsplit.
    + by apply filter_retained_wf.
    + eapply sublist_NoDup; [exact Hnd|]. apply fmap_sublist, sublist_filter.
Qed.

(** [processQuestion] reports exactly one outcome for each task. *)
Lemma retryAndReport_partition tasks sk st r st' :
  Forall wf tasks ->
  NoDup (idOf <$> tasks) ->
  retryAndReport idOf run tasks sk st = (Return r, st') ->
  forecastId <$> results r ≡ₚ idOf <$> tasks.
Proof.
  intros Hwf Hnd Hrun. unfold retryAndReport in Hrun.
  destruct (retryLoop idOf run MAX_RETRIES_PER_QUESTION 0 tasks [] st)
    as [[[pending all]|msg] st1] eqn:Hloop; [|discriminate].
  inversion Hrun; subst. cbn [results].
  apply (retryLoop_partition _ _ _ _ _ _ _ _ Hwf Hnd) in Hloop as (new & -> & Hperm).
  rewrite app_nil_l. rewrite <- Hperm.
  destruct pending as [|t ts].
  { change (0 <? length (@nil Task))%nat with false. cbv iota.
    rewrite fmap_nil. by rewrite app_nil_r. }
  change (0 <? length (t :: ts))%nat with true. cbv iota.
  rewrite fmap_app. f_equiv.
  change (map ?f ?l) with (f <$> l). by rewrite <- list_fmap_compose.
Qed.

End RetryCounts.

Section QuestionCounts.

Context {World : Type}.
Variable Math_sin : Q -> Q.
Variable independentForecastingAgent :
  World -> Question -> option string -> string -> string -> option nat ->
  World * except AgentForecast.
Variable deliberativeForecastingAgent :
  World -> DeliberationRequest -> World * except DeliberativeResult.


Lemma collected_NoDup question qIndex (st : State World) tasks nSkipped :
  Deliberative.collectTasks Math_sin CONDITIONS question qIndex st [] 0
  = Return (tasks, nSkipped) ->
  NoDup (Deliberative.t_forecastId <$> tasks).
Proof.
  intros Hct.
  pose proof (deliberative_ids_NoDup Math_sin question qIndex st) as Hnd.
  rewrite (collectTasks_spec Math_sin CONDITIONS question qIndex st [] 0
             CONDITIONS_known) in Hct.
  revert Hnd Hct.
  generalize (filter (groupComplete Math_sin question qIndex st) CONDITIONS
                ≫= tasksFor Math_sin question qIndex st) as l.
  intros l Hnd Hct. by inversion Hct; subst.
Qed.

(** X7. For a question whose id is a safe integer and whatever the
    service answers, [processQuestion] of either stage
    returns, having called the service at most
    [MAX_RETRIES_PER_QUESTION] times for any one forecast, not at all for a
    forecast whose file was in the store, and having waited at most
    [MAX_RETRIES_PER_QUESTION - 1] times. *)
Theorem retry_calls_bounded question qIndex (st : State World) :
  safeInteger (q_id question) ->
  (∃ r st',
      Independent.processQuestion independentForecastingAgent question qIndex
        (getRequiredForecasts Math_sin (q_id question) qIndex) st = (Return r, st')
      ∧ (forall id, callsFor id (trace st')
                    <= callsFor id (trace st) + MAX_RETRIES_PER_QUESTION)%nat
      ∧ (forall id, is_Some (fs_independent st !! Independent.outputFileOf id) ->
                    callsFor id (trace st') = callsFor id (trace st))
      ∧ (sleepsIn (trace st')
         <= sleepsIn (trace st) + (MAX_RETRIES_PER_QUESTION - 1))%nat)
  ∧ (∃ r st',
        Deliberative.processQuestion Math_sin deliberativeForecastingAgent
          question qIndex st = (Return r, st')
        ∧ (forall id, callsFor id (trace st')
                      <= callsFor id (trace st) + MAX_RETRIES_PER_QUESTION)%nat
        ∧ (forall id, is_Some (fs_deliberative st !! Deliberative.outputFileOf id) ->
                      callsFor id (trace st') = callsFor id (trace st))
        ∧ (sleepsIn (trace st')
           <= sleepsIn (trace st) + (MAX_RETRIES_PER_QUESTION - 1))%nat).
Proof.
  intros _. split.
  - destruct (independent_never_rejects Math_sin independentForecastingAgent
                question qIndex st) as (r & st' & Hrun).
    exists r, st'. split; [exact Hrun|].
    pose proof (required_ids_NoDup Math_sin question qIndex) as Hnd.
    revert Hrun Hnd.
    generalize (getRequiredForecasts Math_sin (q_id question) qIndex) as reqs.
    intros reqs Hrun Hnd.
    assert (H : forall id,
      (callsFor id (trace st') <= callsFor id (trace st) + MAX_RETRIES_PER_QUESTION)%nat
      ∧ (Independent.outputFileOf id ∈ independentDir st ->
         callsFor id (trace st') = callsFor id (trace st))
      ∧ (sleepsIn (trace st')
         <= sleepsIn (trace st) + (MAX_RETRIES_PER_QUESTION - 1))%nat).
    { intros id.
      apply (retryAndReport_calls_le (Independent.forecastIdOf question)
               (Independent.generateSingleForecast independentForecastingAgent question)
               Independent.outputFileOf independentDir (independentThrows question)
               (fun _ => True) independent_outputFileOf_inj (fun _ _ => eq_refl)
               (fun t s _ => independent_run_cached _ question t s)
               (fun t s _ => independent_run_fresh _ question t s)
               reqs 0%nat st r st' id (Forall_true _ _ (fun _ => I)) Hnd Hrun). }
    split; [intros id; apply H|]. split; [|apply (H "")].
    intros id Hid. apply H. unfold independentDir. by apply elem_of_dom.
  - destruct (deliberative_never_rejects Math_sin deliberativeForecastingAgent
                question qIndex st) as (r & st' & Hrun).
    exists r, st'. split; [exact Hrun|].
    unfold Deliberative.processQuestion in Hrun.
    destruct (Deliberative.collectTasks Math_sin CONDITIONS question qIndex st [] 0)
      as [[tasks nSkipped]|msg] eqn:Hct; [|discriminate].
    destruct (length tasks =? 0)%nat.
    { inversion Hrun; subst. split; [intros; lia|]. split; [done|lia]. }
    assert (Hwf : Forall taskWf tasks).
    { eapply collectTasks_wf; [|exact Hct]. constructor. }
    pose proof (collected_NoDup _ _ _ _ _ Hct) as Hnd.
    assert (H : forall id,
      (callsFor id (trace st') <= callsFor id (trace st) + MAX_RETRIES_PER_QUESTION)%nat
      ∧ (Deliberative.outputFileOf id ∈ deliberativeDir st ->
         callsFor id (trace st') = callsFor id (trace st))
      ∧ (sleepsIn (trace st')
         <= sleepsIn (trace st) + (MAX_RETRIES_PER_QUESTION - 1))%nat).
    { intros id.
      apply (retryAndReport_calls_le Deliberative.t_forecastId
               (Deliberative.runTask deliberativeForecastingAgent)
               Deliberative.outputFileOf deliberativeDir (fun _ => False) taskWf
               deliberative_outputFileOf_inj (fun _ _ => eq_refl)
               (deliberative_run_cached _) (deliberative_run_fresh _)
               tasks nSkipped st r st' id Hwf Hnd Hrun). }
    split; [intros id; apply H|]. split; [|apply (H "")].
    intros id Hid. apply H. unfold deliberativeDir. by apply elem_of_dom.
Qed.

Lemma countStatus_cons s o rs :
  countStatus s (o :: rs)
  = ((if decide (status o = s) then 1 else 0) + countStatus s rs)%nat.
Proof. unfold countStatus. rewrite filter_cons. by destruct (decide (status o = s)). Qed.

Lemma countStatus_total rs :
  Forall (fun o => status o ∈ [success; cached; persistent_failure]) rs ->
  (countStatus success rs + countStatus cached rs
   + countStatus persistent_failure rs = length rs)%nat.
Proof.
  induction 1 as [|o rs Ho _ IH]; [done|].
  rewrite !countStatus_cons. cbn [length].
  repeat (apply elem_of_cons in Ho as [->|Ho]); [..|by apply elem_of_nil in Ho];
    repeat case_decide; solve [congruence | lia].
Qed.

Lemma reported_statuses (rs : list Outcome) :
  (forall o, o ∈ rs ->
     isSucceeded o = true ∨ o = mkOutcome persistent_failure (forecastId o) None) ->
  Forall (fun o => status o ∈ [success; cached; persistent_failure]) rs.
Proof.
  intros H. apply Forall_forall. intros o Ho.
  destruct (H o Ho) as [Hs| ->].
  - unfold isSucceeded in Hs. apply orb_true_iff in Hs as [Hs|Hs];
      apply bool_decide_eq_true in Hs; rewrite Hs; set_solver.
  - cbn [status]. set_solver.
Qed.

(** X8. For every question whose id is a safe integer,
    [processQuestion] of the independent stage
    reports exactly one outcome for each of the 18 required forecasts; each
    is [success], [cached] or [persistent_failure], never [error];
    [persistentFailures] counts the [persistent_failure] outcomes, and the
    three counts add up to 18. *)
Theorem independent_question_accounting question qIndex (st : State World) :
  safeInteger (q_id question) ->
  ∃ r st',
    Independent.processQuestion independentForecastingAgent question qIndex
      (getRequiredForecasts Math_sin (q_id question) qIndex) st = (Return r, st')
    ∧ forecastId <$> results r
      ≡ₚ Independent.forecastIdOf question
           <$> getRequiredForecasts Math_sin (q_id question) qIndex
    ∧ length (results r) = 18%nat
    ∧ Forall (fun o => status o ∈ [success; cached; persistent_failure]) (results r)
    ∧ persistentFailures r = countStatus persistent_failure (results r)
    ∧ (countStatus success (results r) + countStatus cached (results r)
       + persistentFailures r = 18)%nat
    ∧ skipped r = 0%nat.
Proof.
  intros _.
  destruct (independent_never_rejects Math_sin independentForecastingAgent
              question qIndex st) as (r & st' & Hrun).
  exists r, st'. split; [exact Hrun|].
  pose proof (required_ids_NoDup Math_sin question qIndex) as Hnd.
  pose proof (required_length Math_sin (q_id question) qIndex) as Hlen.
  revert Hrun Hnd Hlen.
  generalize (getRequiredForecasts Math_sin (q_id question) qIndex) as reqs.
  intros reqs Hrun Hnd Hlen.
  pose proof (retryAndReport_partition (Independent.forecastIdOf question)
               (Independent.generateSingleForecast independentForecastingAgent question)
               Independent.outputFileOf independentDir (independentThrows question)
               (fun _ => True)
               (fun t s _ => independent_run_cached _ question t s)
               (fun t s _ => independent_run_fresh _ question t s)
               reqs 0%nat st r st' (Forall_true _ _ (fun _ => I)) Hnd Hrun) as Hperm.
  destruct (retryAndReport_spec (Independent.forecastIdOf question)
               (Independent.generateSingleForecast independentForecastingAgent question)
               Independent.outputFileOf independentDir (independentThrows question)
               (fun _ => True) independent_outputFileOf_inj (fun _ _ => eq_refl)
               (fun t s _ => independent_run_cached _ question t s)
               (fun t s _ => independent_run_fresh _ question t s)
               reqs 0%nat st r st' (Forall_true _ _ (fun _ => I)) Hrun)
    as (Hsk & _ & _ & Hst & _ & _ & Hpf & _).
  assert (Hl : length (results r) = 18%nat).
  { rewrite <- Hlen, <- (length_fmap forecastId (results r)),
      <- (length_fmap (Independent.forecastIdOf question) reqs).
    by apply Permutation_length. }
  assert (Hall : Forall (fun o => status o ∈ [success; cached; persistent_failure])
                        (results r)).
  { apply reported_statuses. intros o Ho. by destruct (Hst o Ho). }
  split; [exact Hperm|]. split; [exact Hl|]. split; [exact Hall|].
  split; [exact Hpf|]. split; [|exact Hsk].
  rewrite Hpf, <- Hl. by apply countStatus_total.
Qed.

Lemma length_filter_split {A} (P : A -> Prop) `{forall x, Decision (P x)} (l : list A) :
  (length (filter P l) + length (filter (fun x => ¬ P x) l) = length l)%nat.
Proof.
  induction l as [|x l IH]; [done|].
  rewrite !filter_cons. destruct (decide (P x)), (decide (¬ P x)); cbn [length];
    try lia; tauto.
Qed.

Lemma tasksFor_length question qIndex (st : State World) (l : list string) :
  Forall (groupComplete Math_sin question qIndex st) l ->
  length (l ≫= tasksFor Math_sin question qIndex st) = (3 * length l)%nat.
Proof.
  induction 1 as [|c l Hc _ IH]; [done|].
  rewrite bind_cons, length_app, IH. unfold groupComplete in Hc. unfold tasksFor.
  destruct (getGroupComposition Math_sin c (q_id question) qIndex); [|done].
  cbn [length fmap list_fmap]. lia.
Qed.

(** A group has three members, so none is complete when the independent
    directory is empty. *)
Lemma empty_store_incomplete question qIndex (st : State World) condition :
  fs_independent st = ∅ -> ¬ groupComplete Math_sin question qIndex st condition.
Proof.
  intros Hempty Hc. unfold groupComplete in Hc.
  destruct (getGroupComposition Math_sin condition (q_id question) qIndex)
    as [g|] eqn:Hg; [|done].
  apply group_members in Hg as (_ & Hlen & _).
  destruct g as [|a g]; [done|]. unfold loadGroup in Hc. cbn [map] in Hc.
  apply Forall_cons in Hc as [[x Hx] _].
  unfold Deliberative.loadIndependentForecast in Hx. by rewrite Hempty in Hx.
Qed.

(** X9. For every question, [processQuestion] of the deliberative stage
    returns; each of the 18 pairs of a condition and a position is either
    skipped, three at a time for a condition with a missing independent
    result, or reported with exactly one outcome that is [success],
    [cached] or [persistent_failure].  With an empty independent directory
    all 18 are skipped and the state is unchanged. *)
Theorem deliberative_question_accounting question qIndex (st : State World) :
  ∃ r st',
    Deliberative.processQuestion Math_sin deliberativeForecastingAgent question qIndex st
    = (Return r, st')
    ∧ (length (results r) + skipped r = 18)%nat
    ∧ skipped r
      = (3 * length (filter (fun c => ¬ groupComplete Math_sin question qIndex st c)
                            CONDITIONS))%nat
    ∧ forecastId <$> results r
      ≡ₚ Deliberative.t_forecastId
           <$> (filter (groupComplete Math_sin question qIndex st) CONDITIONS
                  ≫= tasksFor Math_sin question qIndex st)
    ∧ Forall (fun o => status o ∈ [success; cached; persistent_failure]) (results r)
    ∧ persistentFailures r = countStatus persistent_failure (results r)
    ∧ (fs_independent st = ∅ -> r = mkQuestionResult [] 0 18 ∧ st' = st).
Proof.
  destruct (deliberative_never_rejects Math_sin deliberativeForecastingAgent
              question qIndex st) as (r & st' & Hrun).
  exists r, st'. split; [exact Hrun|].
  unfold Deliberative.processQuestion in Hrun.
  pose proof (collected_NoDup question qIndex st) as Hnd.
  pose proof (collectTasks_wf Math_sin CONDITIONS question qIndex st [] 0) as Hwf.
  rewrite (collectTasks_spec Math_sin CONDITIONS question qIndex st [] 0
             CONDITIONS_known) in Hrun, Hnd, Hwf.
  cbn [app Nat.add] in Hrun, Hnd, Hwf.
  specialize (Hnd _ _ eq_refl). specialize (Hwf _ _ (Forall_nil_2 _) eq_refl).
  pose proof (tasksFor_length question qIndex st
                (filter (groupComplete Math_sin question qIndex st) CONDITIONS))
    as Hlen.
  pose proof (length_filter_split (groupComplete Math_sin question qIndex st) CONDITIONS)
    as Hsplit.
  change (length CONDITIONS) with 6%nat in Hsplit.
  assert (Hcomplete : Forall (groupComplete Math_sin question qIndex st)
                        (filter (groupComplete Math_sin question qIndex st) CONDITIONS)).
  { apply Forall_forall. intros c Hc. by apply list_elem_of_filter in Hc as [? _]. }
  specialize (Hlen Hcomplete).
  assert (Hempty : fs_independent st = ∅ ->
            filter (groupComplete Math_sin question qIndex st) CONDITIONS = []).
  { intros He.
    destruct (filter (groupComplete Math_sin question qIndex st) CONDITIONS)
      as [|c l] eqn:Hf; [done|].
    apply Forall_cons in Hcomplete as [Hc _].
    by apply empty_store_incomplete in Hc. }
  revert Hrun Hnd Hwf Hlen Hsplit Hempty. clear Hcomplete.
  generalize (filter (groupComplete Math_sin question qIndex st) CONDITIONS) as complete.
  generalize (length (filter (fun c => ¬ groupComplete Math_sin question qIndex st c)
                             CONDITIONS)) as n.
  intros n complete.
  generalize (complete ≫= tasksFor Math_sin question qIndex st) as tasks.
  intros tasks Hrun Hnd Hwf Hlen Hsplit Hempty.
  destruct (length tasks =? 0)%nat eqn:Hzero.
  { apply Nat.eqb_eq in Hzero. inversion Hrun; subst. cbn [results skipped persistentFailures].
    apply nil_length_inv in Hzero. subst tasks. cbn [length] in *.
    split; [lia|]. split; [done|]. split; [done|]. split; [constructor|].
    split; [done|]. intros _. split; [|done]. f_equal. lia. }
  pose proof (retryAndReport_partition Deliberative.t_forecastId
               (Deliberative.runTask deliberativeForecastingAgent)
               Deliberative.outputFileOf deliberativeDir (fun _ => False) taskWf
               (deliberative_run_cached _) (deliberative_run_fresh _)
               tasks (3 * n)%nat st r st' Hwf Hnd Hrun) as Hperm.
  destruct (retryAndReport_spec Deliberative.t_forecastId
               (Deliberative.runTask deliberativeForecastingAgent)
               Deliberative.outputFileOf deliberativeDir (fun _ => False) taskWf
               deliberative_outputFileOf_inj (fun _ _ => eq_refl)
               (deliberative_run_cached _) (deliberative_run_fresh _)
               tasks (3 * n)%nat st r st' Hwf Hrun)
    as (Hsk & _ & _ & Hst & _ & _ & Hpf & _).
  assert (Hl : length (results r) = length tasks).
  { rewrite <- (length_fmap forecastId (results r)),
      <- (length_fmap Deliberative.t_forecastId tasks).
    by apply Permutation_length. }
  split; [lia|]. split; [exact Hsk|]. split; [exact Hperm|].
  split; [apply reported_statuses; intros o Ho; by destruct (Hst o Ho)|].
  split; [exact Hpf|].
  intros He. rewrite (Hempty He) in Hlen. cbn [length] in Hlen.
  apply Nat.eqb_neq in Hzero. lia.
Qed.

End QuestionCounts.

Section AgentFacts.

Context {World : Type}.
Variable Math_sin : Q -> Q.
Variable generateObject :
  World -> Agent.ModelHandle -> Agent.Payload -> World * except ForecastObject.
Variable generatePrompt : Question -> option string -> string.
Variable originalPrompt : Question -> option string -> string.

Lemma getOpenModel_no_key modelName :
  Agent.getOpenModel None modelName = Throw "OpenRouter API key not configured"
  ∧ Agent.getOpenModel (Some "") modelName = Throw "OpenRouter API key not configured".
Proof. done. Qed.

Lemma getOpenModel_models key modelName :
  key ≠ "" -> modelName ∈ MODELS ->
  ∃ id, Agent.getOpenModel (Some key) modelName = Return (Agent.OpenRouterModel id).
Proof.
  intros Hkey Hm. unfold Agent.getOpenModel.
  destruct key as [|c key]; [done|]. unfold MODELS in Hm.
  repeat (apply elem_of_cons in Hm as [->|Hm]); try (by apply elem_of_nil in Hm);
    by eexists.
Qed.

Lemma lookupModel_unknown modelName :
  modelName ∉ (fst <$> Agent.modelMapOpenrouter) ->
  modelName ∉ Agent.objectPrototypeNames ->
  Agent.lookupModel modelName = None.
Proof.
  intros Hown Hproto. unfold Agent.lookupModel.
  rewrite (bool_decide_eq_false_2 _ Hproto).
  unfold Agent.modelMapOpenrouter in *. cbn [List.find fst fmap list_fmap] in *.
  repeat (rewrite bool_decide_eq_false_2; [|intros E; apply Hown; rewrite <- E; set_solver]).
  done.
Qed.

(** X10. [getOpenModel] fails with [OpenRouter API key not configured]
    for every model name when the key is absent or empty; with a key it
    returns the table's identifier for each of the three models the stages
    use, and fails with [Invalid model] for a name that is neither in the
    table nor a property inherited from [Object.prototype]. *)
Theorem getOpenModel_outcomes (modelName : string) :
  Agent.getOpenModel None modelName = Throw "OpenRouter API key not configured"
  ∧ Agent.getOpenModel (Some "") modelName = Throw "OpenRouter API key not configured"
  ∧ (forall key, key ≠ "" ->
       (modelName ∈ MODELS ->
        ∃ id, (modelName, id) ∈ Agent.modelMapOpenrouter
              ∧ Agent.getOpenModel (Some key) modelName
                = Return (Agent.OpenRouterModel id))
       ∧ (modelName ∉ (fst <$> Agent.modelMapOpenrouter) ->
          modelName ∉ Agent.objectPrototypeNames ->
          Agent.getOpenModel (Some key) modelName
          = Throw ("Invalid model: " +:+ modelName))).
Proof.
  split; [done|]. split; [done|]. intros key Hkey. split.
  - intros Hm. unfold Agent.getOpenModel.
    destruct key as [|c key]; [done|]. unfold MODELS in Hm.
    repeat (apply elem_of_cons in Hm as [->|Hm]); try (by apply elem_of_nil in Hm);
      eexists; (split; [|reflexivity]); unfold Agent.modelMapOpenrouter; set_solver.
  - intros Hown Hproto. unfold Agent.getOpenModel.
    destruct key as [|c key]; [done|]. by rewrite lookupModel_unknown.
Qed.

(** X11. For every required forecast of a question whose id is a safe
    integer, and with a key configured, the
    independent agent passes both of its guards and the model lookup: it
    asks the model exactly once, fails only if that call fails, and the
    forecast it returns carries the identifier [generateSingleForecast]
    computed for the file name.  Without a key it fails before asking. *)
Theorem independent_agent_answers question qIndex req key :
  safeInteger (q_id question) ->
  req ∈ getRequiredForecasts Math_sin (q_id question) qIndex ->
  key ≠ "" ->
  (∃ id, forall w information,
      Agent.independentForecastingAgent (Some key) generateObject generatePrompt
        w question information (model req) (infoLabel req) (instance req)
      = match generateObject w (Agent.OpenRouterModel id)
                (Agent.Prompt (generatePrompt question information)) with
        | (w', Return object) =>
            (w', Return (mkAgentForecast object (generatePrompt question information)
                           (Independent.forecastIdOf question req) (instance req)))
        | (w', Throw msg) => (w', Throw msg)
        end)
  ∧ (forall w information,
       Agent.independentForecastingAgent None generateObject generatePrompt
         w question information (model req) (infoLabel req) (instance req)
       = (w, Throw "OpenRouter API key not configured")).
Proof.
  intros _ Hreq Hkey.
  pose proof (required_members Math_sin (q_id question) qIndex) as Hall.
  rewrite Forall_forall in Hall. destruct (Hall req Hreq) as [Hm Hl]. clear Hall Hreq.
  assert (Hne : bool_decide (infoLabel req = "") || bool_decide (model req = "") = false).
  { unfold MODELS, INFO_LABELS in *.
    repeat (apply elem_of_cons in Hm as [->|Hm]); try (by apply elem_of_nil in Hm);
      repeat (apply elem_of_cons in Hl as [->|Hl]); try (by apply elem_of_nil in Hl);
      reflexivity. }
  split.
  - destruct (getOpenModel_models key (model req) Hkey Hm) as [id Hid].
    exists id. intros w information. unfold Agent.independentForecastingAgent.
    rewrite Hne, Hid. unfold Independent.forecastIdOf.
    by destruct (generateObject _ _ _) as [w' [object|msg]].
  - intros w information. unfold Agent.independentForecastingAgent.
    by rewrite Hne.
Qed.


Lemma nonempty_name (name : string) (names : list string) :
  name ∈ names -> "" ∉ names -> bool_decide (name = "") = false.
Proof. intros Hin Hn. apply bool_decide_eq_false_2. intros ->. done. Qed.

(** What is known of a task [processQuestion] collected. *)
Lemma collected_task question qIndex (st : State World) tasks nSkipped task :
  Deliberative.collectTasks Math_sin CONDITIONS question qIndex st [] 0
  = Return (tasks, nSkipped) ->
  task ∈ tasks ->
  ∃ condition a b c x y z position,
    condition ∈ CONDITIONS
    ∧ getGroupComposition Math_sin condition (q_id question) qIndex = Return [a; b; c]
    ∧ Forall (fun a => model a ∈ MODELS ∧ infoLabel a ∈ INFO_LABELS) [a; b; c]
    ∧ loadGroup question [a; b; c] st = [Some x; Some y; Some z]
    ∧ position ∈ [1; 2; 3]%nat
    ∧ task = Deliberative.createTask question condition [a; b; c]
               [Some x; Some y; Some z] position.
Proof.
  rewrite (collectTasks_spec Math_sin CONDITIONS question qIndex st [] 0 CONDITIONS_known).
  intros Hct Ht. injection Hct as <- _. cbn [app] in Ht.
  apply list_elem_of_bind in Ht as (condition & Ht & Hc).
  apply list_elem_of_filter in Hc as [Hcomplete Hc].
  unfold groupComplete in Hcomplete. unfold tasksFor in Ht.
  destruct (getGroupComposition Math_sin condition (q_id question) qIndex)
    as [g|] eqn:Hg; [|done].
  destruct (group_members Math_sin _ _ _ _ Hg) as (_ & Hlen & Hall).
  destruct g as [|a [|b [|c [|? ?]]]]; try discriminate.
  remember (loadGroup question [a; b; c] st) as l eqn:Hl.
  assert (length l = 3%nat) as Hlen3 by (rewrite Hl; reflexivity).
  apply list_elem_of_fmap in Ht as (position & -> & Hp).
  destruct l as [|x [|y [|z [|? ?]]]]; try discriminate.
  apply Forall_cons in Hcomplete as [[x' ->] Hcomplete].
  apply Forall_cons in Hcomplete as [[y' ->] Hcomplete].
  apply Forall_cons in Hcomplete as [[z' ->] _].
  exists condition, a, b, c, x', y', z', position.
  repeat split; done.
Qed.

Lemma others_three {A} (a b c : A) :
  Deliberative.others [a; b; c] 1 = [b; c]
  ∧ Deliberative.others [a; b; c] 2 = [a; c]
  ∧ Deliberative.others [a; b; c] 3 = [a; b].
Proof. done. Qed.

(** A task whose file is not in the store calls the agent. *)
Lemma runTask_fresh
    (agent : World -> DeliberationRequest -> World * except DeliberativeResult)
    question condition g l position (st : State World) :
  let forecastId := Deliberative.deliberativeId question condition g position in
  fs_deliberative st !! Deliberative.outputFileOf forecastId = None ->
  Deliberative.runTask agent (Deliberative.createTask question condition g l position) st
  = match agent (world st)
            (mkDeliberationRequest question
               (Deliberative.informationFor question (Deliberative.agentAt g position))
               (mjoin (l !! (position - 1)%nat)) (Deliberative.others l position)
               (model (Deliberative.agentAt g position)) condition position) with
    | (w, Return result) =>
        (Return (mkOutcome success forecastId None),
         mkState (fs_independent st)
                 (<[Deliberative.outputFileOf forecastId := result]> (fs_deliberative st))
                 w (trace st ++ [EvCall forecastId]))
    | (w, Throw msg) =>
        (Return (mkOutcome error forecastId (Some msg)),
         mkState (fs_independent st) (fs_deliberative st) w
                 (trace st ++ [EvCall forecastId]))
    end.
Proof.
  intros forecastId Hfile.
  unfold Deliberative.runTask, Deliberative.generateSingleDeliberativeForecast.
  cbn [Deliberative.createTask Deliberative.t_groupComposition Deliberative.t_position
       Deliberative.t_independentForecasts Deliberative.t_forecastId
       Deliberative.t_question Deliberative.t_condition].
  fold (Deliberative.deliberativeId question condition g position). fold forecastId.
  rewrite decide_False by (rewrite Hfile; by intros [? ?]).
  reflexivity.
Qed.

(** The deliberative agent, given its own forecast, two others, and names
    that are not empty. *)
Lemma deliberative_agent_call key w question information own o1 o2
    model condition position id :
  bool_decide (model = "") = false -> bool_decide (condition = "") = false ->
  position ≠ 0%nat ->
  Agent.getOpenModel (Some key) model = Return (Agent.OpenRouterModel id) ->
  Agent.deliberativeForecastingAgent (Some key) generateObject originalPrompt w
    (mkDeliberationRequest question information (Some own) [Some o1; Some o2]
       model condition position)
  = match generateObject w (Agent.OpenRouterModel id)
            (Agent.Messages
               (Agent.buildDeliberationMessages originalPrompt (ir_forecast own)
                  [ir_forecast o1; ir_forecast o2] question information)) with
    | (w', Return object) =>
        (w', Return (mkDeliberativeResult
                       (pretty (q_id question) +:+ "-" +:+ condition +:+ "-"
                          +:+ model +:+ "-" +:+ pretty position)
                       (q_id question) condition model position (ir_infoLabel own)
                       (pretty (q_id question) +:+ "-" +:+ condition)
                       (ir_forecastId own) [ir_forecastId o1; ir_forecastId o2] object))
    | (w', Throw msg) => (w', Throw msg)
    end.
Proof.
  intros Hm Hc Hp Hid. unfold Agent.deliberativeForecastingAgent.
  cbn [rq_question rq_otherForecasts rq_model rq_condition rq_position
       rq_independentForecast rq_information length Nat.eqb negb].
  rewrite Hm, Hc, Hid. cbn [orb].
  destruct position as [|position]; [done|]. cbn [Nat.eqb].
  reflexivity.
Qed.

(** X12. A task collected by the deliberative [processQuestion], run
    with the deliberative agent and a key configured while its file is not
    in the store, passes both guards of the agent and the model lookup.
    The model is asked once, with the task's own independent forecast as
    the assistant message and those of the two other members of the group,
    in group order, in the deliberation prompt.  If the model answers, the
    file of the task is written with a record that names the task, its
    question, condition, model and position, and refers to the three
    stored independent records by their [forecastId]; if it fails, the
    outcome is [error] and no file is written. *)
Theorem deliberative_task_run question qIndex (st : State World) tasks nSkipped task key :
  Deliberative.collectTasks Math_sin CONDITIONS question qIndex st [] 0
  = Return (tasks, nSkipped) ->
  task ∈ tasks ->
  key ≠ "" ->
  fs_deliberative st !! Deliberative.outputFileOf (Deliberative.t_forecastId task) = None ->
  let g := Deliberative.t_groupComposition task in
  let position := Deliberative.t_position task in
  let file := Deliberative.outputFileOf (Deliberative.t_forecastId task) in
  let st0 := logEvent (EvCall (Deliberative.t_forecastId task)) st in
  ∃ own others id,
    Deliberative.t_independentForecasts task = loadGroup question g st
    ∧ loadGroup question g st !! (position - 1)%nat = Some (Some own)
    ∧ Deliberative.others (loadGroup question g st) position = Some <$> others
    ∧ length others = 2%nat
    ∧ Deliberative.runTask
        (Agent.deliberativeForecastingAgent (Some key) generateObject originalPrompt)
        task st
      = match generateObject (world st) (Agent.OpenRouterModel id)
                (Agent.Messages
                   (Agent.buildDeliberationMessages originalPrompt (ir_forecast own)
                      (ir_forecast <$> others) question
                      (Deliberative.informationFor question
                         (Deliberative.agentAt g position)))) with
        | (w, Return object) =>
            (Return (mkOutcome success (Deliberative.t_forecastId task) None),
             mkState (fs_independent st)
                     (<[file := deliberativeRecord task own others object]>
                        (fs_deliberative st))
                     w (trace st0))
        | (w, Throw msg) =>
            (Return (mkOutcome error (Deliberative.t_forecastId task) (Some msg)),
             mkState (fs_independent st) (fs_deliberative st) w (trace st0))
        end.
Proof.
  intros Hct Ht Hkey Hfile g position file st0.
  destruct (collected_task _ _ _ _ _ _ Hct Ht)
    as (condition & a & b & c & x & y & z & p & Hc & Hg & Hall & Hl & Hp & ->).
  subst g position file st0.
  cbn [Deliberative.createTask Deliberative.t_groupComposition Deliberative.t_position
       Deliberative.t_independentForecasts Deliberative.t_forecastId
       Deliberative.t_question Deliberative.t_condition] in *.
  rewrite Hl. clear Hl Hct Ht Hg.
  assert (Hcond : bool_decide (condition = "") = false).
  { apply (nonempty_name _ CONDITIONS Hc). by apply (bool_decide_unpack _). }
  apply Forall_cons in Hall as [[Ha _] Hall].
  apply Forall_cons in Hall as [[Hb _] Hall].
  apply Forall_cons in Hall as [[Hcm _] _].
  assert (HM : "" ∉ MODELS) by (by apply (bool_decide_unpack _)).
  pose proof (nonempty_name _ MODELS Ha HM) as Hna.
  pose proof (nonempty_name _ MODELS Hb HM) as Hnb.
  pose proof (nonempty_name _ MODELS Hcm HM) as Hnc.
  destruct (getOpenModel_models key _ Hkey Ha) as [ida Hida].
  destruct (getOpenModel_models key _ Hkey Hb) as [idb Hidb].
  destruct (getOpenModel_models key _ Hkey Hcm) as [idc Hidc].
  destruct (others_three (Some x) (Some y) (Some z)) as (Ho1 & Ho2 & Ho3).
  rewrite (runTask_fresh _ question condition [a; b; c] _ _ st Hfile).
  unfold deliberativeRecord.
  cbn [Deliberative.createTask Deliberative.t_groupComposition Deliberative.t_position
       Deliberative.t_independentForecasts Deliberative.t_forecastId
       Deliberative.t_question Deliberative.t_condition logEvent trace].
  repeat (apply elem_of_cons in Hp as [->|Hp]); try (by apply elem_of_nil in Hp).
  - exists x, [y; z], ida. rewrite Ho1.
    change (Deliberative.agentAt [a; b; c] 1) with a.
    change (mjoin ([Some x; Some y; Some z] !! (1 - 1)%nat)) with (Some x).
    rewrite (deliberative_agent_call key _ question _ x y z (model a) condition 1 ida
               Hna Hcond ltac:(lia) Hida).
    repeat split. by destruct (generateObject _ _ _) as [w [object|msg]].
  - exists y, [x; z], idb. rewrite Ho2.
    change (Deliberative.agentAt [a; b; c] 2) with b.
    change (mjoin ([Some x; Some y; Some z] !! (2 - 1)%nat)) with (Some y).
    rewrite (deliberative_agent_call key _ question _ y x z (model b) condition 2 idb
               Hnb Hcond ltac:(lia) Hidb).
    repeat split. by destruct (generateObject _ _ _) as [w [object|msg]].
  - exists z, [x; y], idc. rewrite Ho3.
    change (Deliberative.agentAt [a; b; c] 3) with c.
    change (mjoin ([Some x; Some y; Some z] !! (3 - 1)%nat)) with (Some z).
    rewrite (deliberative_agent_call key _ question _ z x y (model c) condition 3 idc
               Hnc Hcond ltac:(lia) Hidc).
    repeat split. by destruct (generateObject _ _ _) as [w [object|msg]].
Qed.

End AgentFacts.

Lemma lastQuestion_cons q questions id :
  lastQuestion (q :: questions) id
  = match lastQuestion questions id with
    | Some q' => Some q'
    | None => if bool_decide (q_id q = id) then Some q else None
    end.
Proof.
  unfold lastQuestion. rewrite filter_cons.
  destruct (decide (q_id q = id)) as [Hq|Hq].
  - rewrite last_cons, (bool_decide_eq_true_2 _ Hq). done.
  - rewrite (bool_decide_eq_false_2 _ Hq).
    by destruct (last (filter (fun q0 => q_id q0 = id) questions)).
Qed.

Lemma lastIndependent_cons f l id :
  lastIndependent (f :: l) id
  = match lastIndependent l id with
    | Some f' => Some f'
    | None => if bool_decide (ir_forecastId f = id) then Some f else None
    end.
Proof.
  unfold lastIndependent. rewrite filter_cons.
  destruct (decide (ir_forecastId f = id)) as [Hq|Hq].
  - rewrite last_cons, (bool_decide_eq_true_2 _ Hq). done.
  - rewrite (bool_decide_eq_false_2 _ Hq).
    by destruct (last (filter (fun f0 => ir_forecastId f0 = id) l)).
Qed.

(** The question lookup, read after all questions were entered. *)
Lemma questionMap_get questions m id :
  objectGet (foldl (fun m q => objectSet m (q_id q) (questionEntryOf q)) m questions) id
  = match lastQuestion questions id with
    | Some q => Some (questionEntryOf q)
    | None => objectGet m id
    end.
Proof.
  revert m. induction questions as [|q questions IH]; intros m; [done|].
  cbn [foldl]. rewrite IH, lastQuestion_cons, objectGet_objectSet.
  destruct (lastQuestion questions id); [done|].
  by destruct (bool_decide (q_id q = id)).
Qed.

Lemma independentMap_get (l : list IndependentResult) (m : gmap string IndependentResult) id :
  foldl (fun m f => <[ir_forecastId f := f]> m) m l !! id
  = match lastIndependent l id with
    | Some f => Some f
    | None => m !! id
    end.
Proof.
  revert m. induction l as [|f l IH]; intros m; [done|].
  cbn [foldl]. rewrite IH, lastIndependent_cons.
  destruct (lastIndependent l id); [done|].
  case_bool_decide as Hf.
  - subst id. by rewrite lookup_insert_eq.
  - by rewrite lookup_insert_ne.
Qed.

Lemma forecastRows_spec questions independentForecasts deliberativeForecasts :
  forecastRows (buildDataset questions independentForecasts deliberativeForecasts)
  = omap (forecastRowOfIndependent questions) independentForecasts
    ++ omap (forecastRowOfDeliberative questions) deliberativeForecasts.
Proof.
  unfold buildDataset. cbn [forecastRows].
  fold resolutionValue.
  change (fun m q => objectSet m (q_id q)
                       (mkQuestionEntry (q_id q) (questionTitle q) (resolutionValue q)))
    with (fun m q => objectSet m (q_id q) (questionEntryOf q)).
  set (questionMap := foldl _ [] questions).
  assert (Hget : forall id, objectGet questionMap id
                            = questionEntryOf <$> lastQuestion questions id).
  { intros id. unfold questionMap. rewrite questionMap_get.
    by destruct (lastQuestion questions id). }
  rewrite (foldl_push _ (forecastRowOfDeliberative questions)).
  - f_equal. rewrite (foldl_push _ (forecastRowOfIndependent questions)); [done|].
    intros rows f. unfold forecastRowOfIndependent. rewrite Hget.
    by destruct (lastQuestion questions (ir_questionId f)).
  - intros rows f. unfold forecastRowOfDeliberative. rewrite Hget.
    by destruct (lastQuestion questions (dr_questionId f)).
Qed.

(** X13. The forecast table, stated on the inputs on which the lookup of
    independent results is a map ([ownReferences]; elsewhere the code
    throws and returns no table): one row for each
    independent result whose question is in the corpus, in input order,
    followed by one row for each deliberative result whose question is in
    the corpus, in input order; the resolution is that of the last question
    with the result's id.  Results of unknown questions are left out. *)
Theorem buildDataset_forecast_table questions independentForecasts deliberativeForecasts :
  ownReferences independentForecasts deliberativeForecasts ->
  forecastRows (buildDataset questions independentForecasts deliberativeForecasts)
  = omap (forecastRowOfIndependent questions) independentForecasts
    ++ omap (forecastRowOfDeliberative questions) deliberativeForecasts.
Proof.
  intros _. exact (forecastRows_spec questions independentForecasts deliberativeForecasts).
Qed.

(** The groups [buildDataset] forms hold the deliberative results, each
    under its key. *)
Lemma groupPush_spec groups (f : DeliberativeResult) :
  Forall (fun entry => snd entry ≠ [] ∧ Forall (fun f => groupKey f = fst entry) (snd entry))
         groups ->
  Forall (fun entry => snd entry ≠ [] ∧ Forall (fun f => groupKey f = fst entry) (snd entry))
         (groupPush groups (groupKey f) f)
  ∧ concat (snd <$> groupPush groups (groupKey f) f) ≡ₚ concat (snd <$> groups) ++ [f].
Proof.
  induction 1 as [|[k g] groups [Hne Hk] Hall [IH1 IH2]].
  - split; [|done]. repeat constructor; done.
  - cbn [groupPush]. case_bool_decide as Hkey.
    + split.
      * constructor; [|done]. cbn [fst snd] in *. split; [by destruct g|].
        apply Forall_app. split; [done|]. by repeat constructor.
      * cbn [fmap list_fmap concat snd]. rewrite <- !app_assoc. f_equiv.
        apply Permutation_app_comm.
    + split; [by constructor|]. cbn [fmap list_fmap concat snd].
      rewrite <- app_assoc. f_equiv. exact IH2.
Qed.

Lemma groups_spec (deliberativeForecasts : list DeliberativeResult) groups0 :
  Forall (fun entry => snd entry ≠ [] ∧ Forall (fun f => groupKey f = fst entry) (snd entry))
         groups0 ->
  let groups := foldl (fun groups f => groupPush groups (groupKey f) f) groups0
                      deliberativeForecasts in
  Forall (fun entry => snd entry ≠ [] ∧ Forall (fun f => groupKey f = fst entry) (snd entry))
         groups
  ∧ concat (snd <$> groups) ≡ₚ concat (snd <$> groups0) ++ deliberativeForecasts.
Proof.
  revert groups0. induction deliberativeForecasts as [|f l IH]; intros groups0 H0.
  - cbn. split; [done|]. by rewrite app_nil_r.
  - cbn [foldl]. destruct (groupPush_spec groups0 f H0) as [H1 H2].
    destruct (IH _ H1) as [H3 H4]. split; [exact H3|].
    cbn zeta in H4. rewrite H4, H2, <- app_assoc. done.
Qed.

Lemma groupKey_inj f f' :
  groupKey f = groupKey f' ->
  dr_questionId f = dr_questionId f' ∧ dr_condition f = dr_condition f'.
Proof. unfold groupKey. apply pretty_Z_dash_inj. Qed.

Lemma omap_bind_concat {A B} (g : A -> option B) (ls : list (list A)) :
  ls ≫= omap g = omap g (concat ls).
Proof.
  induction ls as [|l ls IH]; [done|].
  by rewrite bind_cons, IH, <- omap_app.
Qed.

Lemma foldl_push_in {A B} (f : list B -> A -> list B) (g : A -> option B) l rows :
  (forall rows x, x ∈ l ->
     f rows x = match g x with None => rows | Some r => rows ++ [r] end) ->
  foldl f rows l = rows ++ omap g l.
Proof.
  revert rows. induction l as [|x l IH]; intros rows Hf; simpl.
  - by rewrite app_nil_r.
  - rewrite IH, Hf by (by left || (intros; apply Hf; by right)).
    destruct (g x); simpl; [|done]. by rewrite <- app_assoc.
Qed.

Lemma foldl_extend_in {A B} (f : list B -> A -> list B) (h : A -> list B) l rows :
  (forall rows x, x ∈ l -> f rows x = rows ++ h x) ->
  foldl f rows l = rows ++ (l ≫= h).
Proof.
  revert rows. induction l as [|x l IH]; intros rows Hf; simpl.
  - by rewrite app_nil_r.
  - rewrite IH, Hf by (by left || (intros; apply Hf; by right)).
    by rewrite <- app_assoc.
Qed.

Lemma conditionRows_spec questions independentForecasts
    deliberativeForecasts :
  conditionRows (buildDataset questions independentForecasts deliberativeForecasts)
  ≡ₚ omap (conditionRowOf questions independentForecasts) deliberativeForecasts.
Proof.
  unfold buildDataset. cbn [conditionRows].
  fold resolutionValue.
  change (fun m q => objectSet m (q_id q)
                       (mkQuestionEntry (q_id q) (questionTitle q) (resolutionValue q)))
    with (fun m q => objectSet m (q_id q) (questionEntryOf q)).
  set (questionMap := foldl _ [] questions).
  set (independentMap := foldl _ ∅ independentForecasts).
  change (fun groups f =>
            groupPush groups (pretty (dr_questionId f) +:+ "-" +:+ dr_condition f) f)
    with (fun groups f => groupPush groups (groupKey f) f).
  set (groups := foldl _ [] deliberativeForecasts).
  assert (Hget : forall id, objectGet questionMap id
                            = questionEntryOf <$> lastQuestion questions id).
  { intros id. unfold questionMap. rewrite questionMap_get.
    by destruct (lastQuestion questions id). }
  assert (Hind : forall id, independentMap !! id = lastIndependent independentForecasts id).
  { intros id. unfold independentMap. rewrite independentMap_get.
    by destruct (lastIndependent independentForecasts id). }
  destruct (groups_spec deliberativeForecasts [] (Forall_nil_2 _)) as [Hgroups Hperm].
  cbn zeta in Hgroups, Hperm. fold groups in Hgroups, Hperm.
  cbn [fmap list_fmap concat app] in Hperm.
  rewrite <- Hperm, <- omap_bind_concat.
  rewrite (foldl_extend_in _
             (fun entry : string * list DeliberativeResult =>
                omap (conditionRowOf questions independentForecasts) (snd entry))).
  - rewrite app_nil_l. clear. induction groups as [|e groups IH]; [done|].
    by rewrite fmap_cons, !bind_cons, IH.
  - intros rows [key group] Hentry. cbn [snd].
    rewrite Forall_forall in Hgroups. destruct (Hgroups _ Hentry) as [Hne Hkey].
    cbn [fst snd] in Hne, Hkey. destruct group as [|first group]; [done|].
    assert (Hsame : forall df, df ∈ first :: group ->
              dr_questionId df = dr_questionId first
              ∧ dr_condition df = dr_condition first).
    { intros df Hdf. rewrite Forall_forall in Hkey. apply groupKey_inj.
      rewrite (Hkey df Hdf). symmetry. apply Hkey. by left. }
    rewrite Hget. destruct (lastQuestion questions (dr_questionId first)) as [q|] eqn:Hq;
      cbn [fmap option_fmap option_map].
    + apply foldl_push_in. intros rows' df Hdf. destruct (Hsame df Hdf) as [Hid Hc].
      unfold conditionRowOf. rewrite Hid, Hq, Hind, Hc.
      by destruct (lastIndependent independentForecasts (dr_independentForecastId df)).
    + assert (Hnone : omap (conditionRowOf questions independentForecasts)
                           (first :: group) = []).
      { generalize (first :: group) Hsame. intros l Hl.
        induction l as [|df l IH]; [done|]. cbn [omap list_omap].
        unfold conditionRowOf at 1. destruct (Hl df ltac:(by left)) as [-> _].
        rewrite Hq. apply IH. intros df' Hdf'. apply Hl. by right. }
      by rewrite Hnone, app_nil_r.
Qed.

(** X14. The condition-pair table, stated on the inputs on which the
    lookup of independent results is a map ([ownReferences]; elsewhere the
    code throws and returns no table): up to the order
    in which the groups are visited, it holds one row for each deliberative
    result whose question is in the corpus and whose independent result is
    loaded, and no other row.  The row takes the probability of the last
    independent result with the id referred to. *)
Theorem buildDataset_condition_table questions independentForecasts
    deliberativeForecasts :
  ownReferences independentForecasts deliberativeForecasts ->
  conditionRows (buildDataset questions independentForecasts deliberativeForecasts)
  ≡ₚ omap (conditionRowOf questions independentForecasts) deliberativeForecasts.
Proof.
  intros _. exact (conditionRows_spec questions independentForecasts deliberativeForecasts).
Qed.

Lemma objectSet_keys {V} (m : list (Z * V)) key v :
  fst <$> objectSet m key v
  = if bool_decide (key ∈ fst <$> m) then fst <$> m else (fst <$> m) ++ [key].
Proof.
  unfold objectSet.
  destruct (existsb (fun p => bool_decide (fst p = key)) m) eqn:He.
  - apply existsb_exists in He as (p & Hp & Hk). apply bool_decide_eq_true in Hk.
    rewrite bool_decide_eq_true_2
      by (rewrite <- Hk; apply list_elem_of_fmap_2; by apply list_elem_of_In).
    clear. induction m as [|p m IH]; [done|]. cbn [map fmap list_fmap] in *.
    rewrite IH. f_equal. by case_bool_decide.
  - rewrite bool_decide_eq_false_2.
    + by rewrite fmap_app.
    + intros (p & Hk & Hp)%list_elem_of_fmap.
      apply not_true_iff_false in He. apply He, existsb_exists.
      exists p. split; [by apply list_elem_of_In|]. by apply bool_decide_eq_true_2.
Qed.

Lemma questionMap_keys questions m :
  NoDup (fst <$> m) ->
  NoDup (fst <$> foldl (fun m q => objectSet m (q_id q) (questionEntryOf q)) m questions).
Proof.
  revert m. induction questions as [|q questions IH]; intros m Hm; [done|].
  cbn [foldl]. apply IH. rewrite objectSet_keys. case_bool_decide as Hk; [done|].
  apply NoDup_app. split; [done|]. split; [|apply NoDup_singleton].
  intros k Hin Hq. apply list_elem_of_singleton in Hq. by subst.
Qed.

Lemma objectGet_elem {V} (m : list (Z * V)) key v :
  NoDup (fst <$> m) -> (key, v) ∈ m <-> objectGet m key = Some v.
Proof.
  induction m as [|[k w] m IH]; intros Hnd.
  - split; [by intros ?%elem_of_nil|done].
  - rewrite fmap_cons in Hnd. apply NoDup_cons in Hnd as [Hk Hnd].
    rewrite objectGet_cons. cbn [fst snd]. case_bool_decide as Heq.
    + subst k. split.
      * intros [Hin|Hin]%elem_of_cons; [by inversion Hin|].
        exfalso. apply Hk. by apply (list_elem_of_fmap_2 fst _ (key, v)).
      * intros [= ->]. by left.
    + rewrite <- (IH Hnd). split.
      * intros [Hin|Hin]%elem_of_cons; [by inversion Hin|done].
      * intros Hin. by right.
Qed.

Lemma lastQuestion_Some questions id q :
  lastQuestion questions id = Some q -> q ∈ questions ∧ q_id q = id.
Proof.
  unfold lastQuestion. intros Hl.
  assert (Hin : q ∈ filter (fun q0 => q_id q0 = id) questions).
  { apply last_Some in Hl as [l' ->]. apply elem_of_app. right. by left. }
  by apply list_elem_of_filter in Hin as [? ?].
Qed.

Lemma lastQuestion_known questions q :
  q ∈ questions -> is_Some (lastQuestion questions (q_id q)).
Proof.
  intros Hq. unfold lastQuestion.
  assert (Hin : q ∈ filter (fun q0 => q_id q0 = q_id q) questions).
  { by apply list_elem_of_filter. }
  destruct (filter (fun q0 => q_id q0 = q_id q) questions) as [|x l] eqn:Hf.
  - by apply elem_of_nil in Hin.
  - rewrite last_cons. by destruct (last l).
Qed.

Lemma List_filter_split {A} (P : A -> bool) (l : list A) :
  List.filter P l ++ List.filter (fun x => negb (P x)) l ≡ₚ l.
Proof.
  induction l as [|x l IH]; [done|]. cbn [List.filter].
  destruct (P x); cbn [negb app].
  - by constructor.
  - rewrite <- Permutation_middle. by constructor.
Qed.

Lemma objectValues_Permutation {V} (m : list (Z * V)) :
  objectValues m ≡ₚ snd <$> m.
Proof.
  unfold objectValues. change (map snd ?l) with (snd <$> l).
  f_equiv. rewrite merge_sort_Permutation. apply List_filter_split.
Qed.

Lemma List_filter_all {A} (P : A -> bool) (l : list A) :
  Forall (fun x => P x = true) l ->
  List.filter P l = l ∧ List.filter (fun x => negb (P x)) l = [].
Proof.
  induction 1 as [|x l Hx _ [IH1 IH2]]; [done|]. cbn [List.filter].
  rewrite Hx. cbn [negb]. by rewrite IH1, IH2.
Qed.

Lemma questionRows_spec questions independentForecasts
    deliberativeForecasts :
  let rows := questionRows (buildDataset questions independentForecasts
                              deliberativeForecasts) in
  (forall row, row ∈ rows <->
     ∃ q, q ∈ questions ∧ lastQuestion questions (q_id q) = Some q
          ∧ row = questionRowOf q)
  ∧ NoDup (qr_question_id <$> rows)
  ∧ (Forall (fun q => isArrayIndex (q_id q) = true) questions ->
     StronglySorted Z.lt (qr_question_id <$> rows)).
Proof.
  intros rows. unfold rows, buildDataset. cbn [questionRows].
  fold resolutionValue.
  change (fun m q => objectSet m (q_id q)
                       (mkQuestionEntry (q_id q) (questionTitle q) (resolutionValue q)))
    with (fun m q => objectSet m (q_id q) (questionEntryOf q)).
  set (questionMap := foldl _ [] questions).
  change (map ?f ?l) with (f <$> l).
  assert (Hnd : NoDup (fst <$> questionMap)).
  { apply questionMap_keys. constructor. }
  assert (Hentry : forall k v, (k, v) ∈ questionMap <->
            ∃ q, lastQuestion questions k = Some q ∧ v = questionEntryOf q).
  { intros k v. rewrite (objectGet_elem _ _ _ Hnd). unfold questionMap.
    rewrite questionMap_get. destruct (lastQuestion questions k) as [q|].
    - split; [intros [= <-]; eauto|]. by intros (q' & [= <-] & ->).
    - split; [done|]. by intros (q' & ? & _). }
  assert (Hid : forall p, p ∈ questionMap -> qe_id (snd p) = fst p).
  { intros [k v] Hp. apply Hentry in Hp as (q & Hq & ->).
    by apply lastQuestion_Some in Hq as [_ ?]. }
  assert (Hids : forall l : list (Z * QuestionEntry),
            (forall p, p ∈ l -> p ∈ questionMap) ->
            qe_id <$> (snd <$> l) = fst <$> l).
  { intros l Hl. induction l as [|p l IH]; [done|].
    rewrite !fmap_cons, IH by (intros; apply Hl; by right).
    f_equal. apply Hid, Hl. by left. }
  split; [|split].
  - intros row. split.
    + intros (v & -> & Hv)%list_elem_of_fmap.
      rewrite objectValues_Permutation in Hv.
      apply list_elem_of_fmap in Hv as ([k v'] & -> & Hp).
      apply Hentry in Hp as (q & Hq & ->). exists q.
      destruct (lastQuestion_Some _ _ _ Hq) as [Hin Hk]. subst k. done.
    + intros (q & Hin & Hq & ->).
      apply (list_elem_of_fmap_2' _ _ (questionEntryOf q)); [|done].
      rewrite objectValues_Permutation.
      apply (list_elem_of_fmap_2' _ _ (q_id q, questionEntryOf q)); [|done].
      apply Hentry. eauto.
  - rewrite <- list_fmap_compose.
    assert (Hp : (fun v => qr_question_id (mkQuestionRow (qe_id v) (qe_resolution v)
                                             (qe_title v)))
                   <$> objectValues questionMap ≡ₚ fst <$> questionMap).
    { rewrite objectValues_Permutation. change (fun v => qr_question_id _) with qe_id.
      by rewrite Hids. }
    unfold compose. by rewrite Hp.
  - intros Hall. rewrite <- list_fmap_compose. unfold compose. cbn [qr_question_id].
    assert (Hkeys : Forall (fun p : Z * QuestionEntry => isArrayIndex (fst p) = true)
                           questionMap).
    { apply Forall_forall. intros [k v] Hp. apply Hentry in Hp as (q & Hq & _).
      apply lastQuestion_Some in Hq as [Hin <-]. rewrite Forall_forall in Hall.
      by apply Hall. }
    unfold objectValues. destruct (List_filter_all _ _ Hkeys) as [-> ->].
    rewrite app_nil_r. change (map snd ?l) with (snd <$> l).
    set (sorted := merge_sort _ questionMap).
    assert (Hperm : sorted ≡ₚ questionMap) by apply merge_sort_Permutation.
    rewrite Hids by (intros p Hp; by rewrite <- Hperm).
    assert (Hs : StronglySorted (fun p q : Z * QuestionEntry => (fst p <= fst q)%Z) sorted).
    { apply StronglySorted_merge_sort.
      - intros x y z. lia.
      - intros x y. lia. }
    assert (Hnd' : NoDup (fst <$> sorted)) by (by rewrite Hperm).
    clear -Hs Hnd'. induction Hs as [|p l Hs IH Hp]; [constructor|].
    rewrite fmap_cons in *. apply NoDup_cons in Hnd' as [Hnin Hnd'].
    constructor; [by apply IH|].
    apply Forall_fmap, Forall_forall. intros q Hq. rewrite Forall_forall in Hp.
    specialize (Hp q Hq). cbn.
    assert (fst p ≠ fst q).
    { intros E. apply Hnin. rewrite E. by apply list_elem_of_fmap_2. }
    lia.
Qed.

(** X15. On the inputs on which the lookup of independent results is a
    map ([ownReferences]; elsewhere the code throws and returns no table),
    the questions table has one row for each question id of the
    corpus: the row of the last question with that id.  Its rows are in
    the order in which JavaScript lists the properties of the lookup, so
    when the ids are array indices (non-negative integers below
    [2^32 - 1]) the table is sorted by id, whatever the order of the
    corpus. *)
Theorem buildDataset_question_table questions independentForecasts
    deliberativeForecasts :
  ownReferences independentForecasts deliberativeForecasts ->
  let rows := questionRows (buildDataset questions independentForecasts
                              deliberativeForecasts) in
  (forall row, row ∈ rows <->
     ∃ q, q ∈ questions ∧ lastQuestion questions (q_id q) = Some q
          ∧ row = questionRowOf q)
  ∧ NoDup (qr_question_id <$> rows)
  ∧ (Forall (fun q => isArrayIndex (q_id q) = true) questions ->
     StronglySorted Z.lt (qr_question_id <$> rows)).
Proof.
  intros _. exact (questionRows_spec questions independentForecasts deliberativeForecasts).
Qed.


(** X16. The three tables agree.  Every forecast row and every
    condition-pair row carries resolution 0 or 1, the resolution of the row
    of the questions table with the same question id; and every
    condition-pair row has a deliberative row in the forecast table with the
    same forecast id, question, condition, model, information label,
    position and probability. *)
Theorem buildDataset_tables_agree questions independentForecasts deliberativeForecasts :
  let dataset := buildDataset questions independentForecasts deliberativeForecasts in
  (forall row, row ∈ forecastRows dataset ->
     (fr_resolution row = 0%Z ∨ fr_resolution row = 1%Z)
     ∧ ∃ qrow, qrow ∈ questionRows dataset
               ∧ qr_question_id qrow = fr_question_id row
               ∧ qr_resolution qrow = fr_resolution row)
  ∧ (forall row, row ∈ conditionRows dataset ->
       (∃ qrow, qrow ∈ questionRows dataset
                ∧ qr_question_id qrow = cr_question_id row
                ∧ qr_resolution qrow = cr_resolution row)
       ∧ mkForecastRow (cr_question_id row) (cr_resolution row)
           (cr_deliberative_forecast_id row) "deliberative" (cr_condition row)
           (cr_model row) (cr_info_label row) (Some (cr_position row))
           (cr_deliberative_prob row)
         ∈ forecastRows dataset).
Proof.
  intros dataset.
  pose proof (forecastRows_spec questions independentForecasts deliberativeForecasts)
    as Hf.
  pose proof (conditionRows_spec questions independentForecasts deliberativeForecasts)
    as Hc.
  destruct (questionRows_spec questions independentForecasts deliberativeForecasts)
    as (Hq & _ & _).
  fold dataset in Hf, Hc, Hq. cbn zeta in Hq.
  assert (Hrow : forall id q, lastQuestion questions id = Some q ->
            questionRowOf q ∈ questionRows dataset ∧ q_id q = id
            ∧ (resolutionValue q = 0%Z ∨ resolutionValue q = 1%Z)).
  { intros id q Hl. destruct (lastQuestion_Some _ _ _ Hl) as [Hin Hid].
    split; [|split; [done|]].
    - apply Hq. exists q. by rewrite Hid.
    - unfold resolutionValue. case_bool_decide; auto. }
  split.
  - intros row Hr. rewrite Hf in Hr. apply elem_of_app in Hr as [Hr|Hr];
      apply list_elem_of_omap in Hr as (f & _ & Hr).
    + unfold forecastRowOfIndependent in Hr.
      destruct (lastQuestion questions (ir_questionId f)) as [q|] eqn:Hl; [|done].
      injection Hr as <-. destruct (Hrow _ _ Hl) as (Hin & Hid & Hres).
      split; [exact Hres|]. exists (questionRowOf q). by repeat split.
    + unfold forecastRowOfDeliberative in Hr.
      destruct (lastQuestion questions (dr_questionId f)) as [q|] eqn:Hl; [|done].
      injection Hr as <-. destruct (Hrow _ _ Hl) as (Hin & Hid & Hres).
      split; [exact Hres|]. exists (questionRowOf q). by repeat split.
  - intros row Hr. rewrite Hc in Hr. apply list_elem_of_omap in Hr as (df & Hdf & Hr).
    unfold conditionRowOf in Hr.
    destruct (lastQuestion questions (dr_questionId df)) as [q|] eqn:Hl; [|done].
    destruct (lastIndependent independentForecasts (dr_independentForecastId df));
      [|done].
    injection Hr as <-. destruct (Hrow _ _ Hl) as (Hin & Hid & Hres).
    split; [exists (questionRowOf q); by repeat split|].
    rewrite Hf. apply elem_of_app. right. apply list_elem_of_omap.
    exists df. split; [done|]. unfold forecastRowOfDeliberative. by rewrite Hl.
Qed.

(** A table whose rows are objects with the same plain property names is
    read back as its header and the texts of its cells. *)
Lemma toCSV_table {R} (toObject : R -> rowObject) (fields : R -> list string)
    (headers : list string) (rows : list R) :
  headers ≠ [] ->
  Forall (fun h => isPlain h = true) headers ->
  (forall r, objectKeys (toObject r) = headers) ->
  (forall r, map (fun h => cellText (property (toObject r) h)) headers = fields r) ->
  rows ≠ [] ->
  parseCSV (toCSV (toObject <$> rows)) = Some (headers :: (fields <$> rows)).
Proof.
  intros Hh Hplain Hkeys Hfields Hrows.
  destruct rows as [|first others]; [done|].
  unfold parseCSV, toCSV. rewrite fmap_cons, Hkeys.
  set (cellsOf := fun row : rowObject =>
                    map (fun h => (csvCell (property row h), cellText (property row h)))
                        headers).
  set (headerCells := map (fun h : string => (h, h)) headers).
  assert (Htext : String.concat (String comma "") headers
                    :: map (fun row => String.concat (String comma "")
                                         (map (fun h => csvCell (property row h)) headers))
                           (toObject first :: (toObject <$> others))
                  = map lineText (headerCells
                                    :: map cellsOf (toObject first :: (toObject <$> others)))).
  { cbn [map]. rewrite (map_map cellsOf). f_equal.
    - unfold lineText, headerCells. by rewrite map_map, map_id.
    - f_equal.
      + unfold lineText, cellsOf. by rewrite map_map.
      + apply map_ext. intros row. unfold lineText, cellsOf. by rewrite map_map. }
  rewrite Htext, readCSV_lines; [| done |].
  - rewrite app_nil_l. cbn [map]. f_equal. f_equal.
    + unfold headerCells. by rewrite map_map, map_id.
    + rewrite fmap_cons. f_equal.
      * unfold cellsOf. rewrite map_map. apply Hfields.
      * change (map ?f ?l) with (f <$> l). rewrite <- !list_fmap_compose.
        apply list_fmap_ext. intros i r _. unfold compose, cellsOf.
        change (?f <$> ?l) with (map f l). rewrite map_map. apply Hfields.
  - constructor.
    + split; [unfold headerCells; by destruct headers|].
      unfold headerCells. apply Forall_map. eapply Forall_impl; [exact Hplain|].
      intros h Hp. by apply encodes_plain.
    + apply Forall_forall. intros cells Hin.
      apply list_elem_of_In, in_map_iff in Hin as (row & <- & _). split.
      * unfold cellsOf. by destruct headers.
      * unfold cellsOf. apply Forall_map, Forall_forall. intros h _.
        apply encodes_cell.
Qed.

Lemma forecast_cells r :
  map (fun h => cellText (property (forecastRowObject r) h)) forecastColumns
  = forecastFields r.
Proof. destruct r as [? ? ? ? ? ? ? [n|] ?]; reflexivity. Qed.

Lemma condition_cells r :
  map (fun h => cellText (property (conditionRowObject r) h)) conditionColumns
  = conditionFields r.
Proof. reflexivity. Qed.

Lemma question_cells r :
  map (fun h => cellText (property (questionRowObject r) h)) questionColumns
  = questionFields r.
Proof. reflexivity. Qed.

(** X17. Each of the three files [main] writes is read back as the header
    of its table, the column names in the order of the row objects, and one
    record for each row of the dataset with the texts of its cells: ids,
    titles and labels come back exactly, whatever commas, quotes or line
    feeds they hold.  A table without rows is written as an empty file,
    without a header. *)
Theorem reducer_files_read_back questions independentForecasts deliberativeForecasts :
  let dataset := buildDataset questions independentForecasts deliberativeForecasts in
  let files := Reducer.main questions independentForecasts deliberativeForecasts in
  (if decide (forecastRows dataset = [])
   then Reducer.forecasts_csv files = ""
   else parseCSV (Reducer.forecasts_csv files)
        = Some (forecastColumns :: (forecastFields <$> forecastRows dataset)))
  ∧ (if decide (conditionRows dataset = [])
     then Reducer.condition_pairs_csv files = ""
     else parseCSV (Reducer.condition_pairs_csv files)
          = Some (conditionColumns :: (conditionFields <$> conditionRows dataset)))
  ∧ (if decide (questionRows dataset = [])
     then Reducer.questions_csv files = ""
     else parseCSV (Reducer.questions_csv files)
          = Some (questionColumns :: (questionFields <$> questionRows dataset))).
Proof.
  intros dataset files. unfold files, Reducer.main. fold dataset.
  cbn [Reducer.forecasts_csv Reducer.condition_pairs_csv Reducer.questions_csv].
  generalize (forecastRows dataset) (conditionRows dataset) (questionRows dataset).
  intros fr cr qr. split; [|split]; case_decide as Hrows; try (by rewrite Hrows).
  - apply toCSV_table;
      first [done | by apply (bool_decide_unpack _) | apply forecast_cells].
  - apply toCSV_table;
      first [done | by apply (bool_decide_unpack _) | apply condition_cells].
  - apply toCSV_table;
      first [done | by apply (bool_decide_unpack _) | apply question_cells].
Qed.

Section JoinFacts.

Context {World : Type}.
Variable Math_sin : Q -> Q.
Variable OPENROUTER_API_KEY : option string.
Variable generateObject :
  World -> Agent.ModelHandle -> Agent.Payload -> World * except ForecastObject.
Variable originalPrompt : Question -> option string -> string.

Notation agent :=
  (Agent.deliberativeForecastingAgent OPENROUTER_API_KEY generateObject originalPrompt).

(** What a record returned by the deliberative agent holds. *)
Lemma deliberative_agent_result w request w' result :
  agent w request = (w', Return result) ->
  dr_questionId result = q_id (rq_question request)
  ∧ ∃ own, rq_independentForecast request = Some own
           ∧ dr_independentForecastId result = ir_forecastId own.
Proof.
  unfold Agent.deliberativeForecastingAgent. intros Hcall.
  destruct (rq_independentForecast request) as [own|]; [|discriminate].
  destruct (negb _); [discriminate|].
  destruct (_ || _); [discriminate|].
  destruct (Agent.forecastsOf _); [|discriminate].
  destruct (Agent.getOpenModel _ _); [|discriminate].
  destruct (generateObject _ _ _) as [w1 [object|msg]]; [|discriminate].
  injection Hcall as _ <-. cbn [dr_questionId dr_independentForecastId]. eauto.
Qed.

Lemma joinStep_refl questions ind (st : State World) : joinStep questions ind st st.
Proof. by intros ?. Qed.

Lemma joinStep_trans questions ind (st1 st2 st3 : State World) :
  joinStep questions ind st1 st2 -> joinStep questions ind st2 st3 ->
  joinStep questions ind st1 st3.
Proof.
  intros H12 H23 H1. destruct (H12 H1) as [H2 Hj]. destruct (H23 H2) as [H3 Hj'].
  split; [done|]. tauto.
Qed.

Lemma joinStep_logEvent questions ind e (st : State World) :
  joinStep questions ind st (logEvent e st).
Proof. by intros ?. Qed.

Lemma task_joinStep questions ind task (st : State World) r st' :
  taskLoaded questions ind task ->
  Deliberative.runTask agent task st = (r, st') ->
  joinStep questions ind st st'.
Proof.
  intros (Hwf & Hq & Hloaded) Hrun Hind.
  unfold Deliberative.runTask, Deliberative.generateSingleDeliberativeForecast in Hrun.
  case_decide as Hex; [by inversion Hrun; subst|].
  cbn [logEvent world fs_independent fs_deliberative trace] in Hrun.
  destruct (agent _ _) as [w [result|msg]] eqn:Hcall;
    inversion Hrun; subst; clear Hrun; cbn [fs_independent]; [|done].
  split; [done|]. intros Hjoins path r0 Hpath. cbn [fs_independent fs_deliberative] in *.
  apply lookup_insert_Some in Hpath as [[<- <-]|[_ Hpath]]; [|by apply Hjoins].
  apply deliberative_agent_result in Hcall as (Hid & own & Hown & Href).
  cbn [rq_question rq_independentForecast] in Hid, Hown.
  split; [eauto|]. split; [exists (Deliberative.t_question task); by rewrite Hid|].
  assert (Hin : Some own ∈ Deliberative.t_independentForecasts task).
  { destruct (Deliberative.t_independentForecasts task !! _) as [f|] eqn:Hl;
      [|discriminate].
    cbn [mjoin option_join] in Hown. subst f. by eapply list_elem_of_lookup_2. }
  rewrite Forall_forall in Hloaded. destruct (Hloaded _ Hin own eq_refl) as [name Hname].
  exists name, own. by rewrite Href.
Qed.

Lemma collected_loaded questions question qIndex (st : State World) tasks nSkipped :
  question ∈ questions ->
  Deliberative.collectTasks Math_sin CONDITIONS question qIndex st [] 0
  = Return (tasks, nSkipped) ->
  Forall (taskLoaded questions (fs_independent st)) tasks.
Proof.
  intros Hq Hct.
  assert (Hwf : Forall taskWf tasks).
  { eapply collectTasks_wf; [|exact Hct]. constructor. }
  rewrite Forall_forall in Hwf. apply Forall_forall. intros task Ht.
  split; [by apply Hwf|].
  rewrite (collectTasks_spec Math_sin CONDITIONS question qIndex st [] 0 CONDITIONS_known)
    in Hct.
  injection Hct as <- _. cbn [app] in Ht.
  apply list_elem_of_bind in Ht as (condition & Ht & _). unfold tasksFor in Ht.
  destruct (getGroupComposition Math_sin condition (q_id question) qIndex) as [g|];
    [|by apply elem_of_nil in Ht].
  apply list_elem_of_fmap in Ht as (p & -> & _).
  cbn [Deliberative.createTask Deliberative.t_question
       Deliberative.t_independentForecasts].
  split; [done|]. unfold loadGroup. apply Forall_forall.
  intros f Hf own ->. apply list_elem_of_In, in_map_iff in Hf as (a & Ha & _).
  unfold Deliberative.loadIndependentForecast in Ha.
  exists (pretty (q_id question) +:+ "-" +:+ model a +:+ "-" +:+ infoLabel a
            +:+ instanceSuffix (instance a)).
  unfold Independent.outputFileOf. rewrite !string_app_assoc. exact Ha.
Qed.

Lemma question_joinStep questions question qIndex (st : State World) r st' :
  question ∈ questions ->
  Deliberative.processQuestion Math_sin agent question qIndex st = (r, st') ->
  fs_independent st' = fs_independent st
  ∧ (deliberativeStoreJoins questions st -> deliberativeStoreJoins questions st').
Proof.
  intros Hq Hrun. unfold Deliberative.processQuestion in Hrun.
  destruct (Deliberative.collectTasks Math_sin CONDITIONS question qIndex st [] 0)
    as [[tasks nSkipped]|msg] eqn:Hct; [|by inversion Hrun; subst].
  destruct (length tasks =? 0)%nat; [by inversion Hrun; subst|].
  apply (retryAndReport_rel Deliberative.t_forecastId (Deliberative.runTask agent)
           (joinStep questions (fs_independent st))
           (taskLoaded questions (fs_independent st))
           (joinStep_refl _ _) (joinStep_trans _ _) (joinStep_logEvent _ _)) in Hrun.
  - by apply Hrun.
  - intros t s r0 s' Ht Hr. by eapply task_joinStep.
  - by eapply collected_loaded.
Qed.

(** X18. A run of the deliberative stage with the deliberative agent,
    whatever the key and the answers of the model, keeps the deliberative
    directory joinable: if every record in it belonged to a question of the
    corpus and referred to a stored independent record before the run, so
    does every record after it, the ones the run wrote included. *)
Theorem deliberative_stage_joinable (questions : list Question) (st : State World) :
  deliberativeStoreJoins questions st ->
  ∃ t totals st',
    Deliberative.main Math_sin agent false questions st = Some ((t, totals), st')
    ∧ fs_independent st' = fs_independent st
    ∧ deliberativeStoreJoins questions st'.
Proof.
  intros Hjoins. unfold Deliberative.main.
  set (pq := Deliberative.processQuestion Math_sin agent).
  destruct (batchLoop_total pq (length questions) questions 0 (mkTotals 0 0 0 0 []) st
              ltac:(lia)) as ([x st'] & Hb).
  rewrite Hb.
  assert (HR : fs_independent st' = fs_independent st
               ∧ (deliberativeStoreJoins questions st ->
                  deliberativeStoreJoins questions st')).
  { eapply (batchLoop_rel pq questions
              (fun s s' => fs_independent s' = fs_independent s
                           ∧ (deliberativeStoreJoins questions s ->
                              deliberativeStoreJoins questions s')));
      [| | |exact Hb].
    - by intros s.
    - intros s1 s2 s3 [H1 H2] [H3 H4]. split; [congruence|tauto].
    - intros question qIndex s r s' Hq Hrun.
      eapply question_joinStep; [|exact Hrun]. by eapply list_elem_of_lookup_2. }
  destruct HR as [Hind Hj].
  destruct x as [acc|[t acc]]; eexists _, _, _; (split; [reflexivity|]); auto.
Qed.

End JoinFacts.

Lemma endsWith_app suffix s : endsWith suffix (s +:+ suffix) = true.
Proof.
  induction s as [|c s IH].
  - rewrite string_app_nil_l. destruct suffix; cbn [endsWith];
      by rewrite bool_decide_eq_true_2.
  - rewrite string_app_cons. cbn [endsWith]. rewrite IH. by case_bool_decide.
Qed.

Lemma loadForecasts_elem {A} dir names (files : gmap string A) l r :
  loadForecasts dir (Some names) files = Some l ->
  r ∈ l <-> ∃ name, name ∈ names ∧ endsWith ".json" name = true
                   ∧ files !! (dir +:+ "/" +:+ name) = Some r.
Proof.
  unfold loadForecasts. intros Hl. apply mapM_Some in Hl. split.
  - intros Hr. apply list_elem_of_lookup in Hr as [i Hi].
    destruct (Forall2_lookup_r _ _ _ _ _ Hl Hi) as (name & Hname & Hfile).
    apply list_elem_of_lookup_2, list_elem_of_In, filter_In in Hname as [Hin He].
    exists name. split; [by apply list_elem_of_In|done].
  - intros (name & Hin & He & Hfile).
    assert (Hn : name ∈ List.filter (fun f => endsWith ".json" f) names).
    { apply list_elem_of_In, filter_In. split; [by apply list_elem_of_In|done]. }
    apply list_elem_of_lookup in Hn as [i Hi].
    destruct (Forall2_lookup_l _ _ _ _ _ Hl Hi) as (r' & Hr' & Hfile').
    rewrite Hfile in Hfile'. injection Hfile' as <-. by eapply list_elem_of_lookup_2.
Qed.

Lemma loadForecasts_listed {A} dir names (files : gmap string A) :
  (forall name, name ∈ names -> is_Some (files !! (dir +:+ "/" +:+ name))) ->
  ∃ l, loadForecasts dir (Some names) files = Some l.
Proof.
  intros Hall. unfold loadForecasts. apply mapM_is_Some, Forall_forall.
  intros name Hname. apply Hall.
  apply list_elem_of_In, filter_In in Hname as [Hin _]. by apply list_elem_of_In.
Qed.

Lemma lastIndependent_known (l : list IndependentResult) f :
  f ∈ l -> is_Some (lastIndependent l (ir_forecastId f)).
Proof.
  intros Hf. unfold lastIndependent.
  assert (Hin : f ∈ filter (fun f0 => ir_forecastId f0 = ir_forecastId f) l).
  { by apply list_elem_of_filter. }
  destruct (filter (fun f0 => ir_forecastId f0 = ir_forecastId f) l) as [|x l'] eqn:Hfl.
  - by apply elem_of_nil in Hin.
  - rewrite last_cons. by destruct (last l').
Qed.

Lemma omap_all_Some {A B} (g : A -> option B) (l : list A) :
  Forall (fun x => is_Some (g x)) l -> length (omap g l) = length l.
Proof.
  induction 1 as [|x l [y Hy] _ IH]; [done|].
  cbn [omap list_omap]. rewrite Hy. cbn [length]. by rewrite IH.
Qed.

Lemma independent_path name :
  INDEPENDENT_DIR +:+ "/" +:+ (name +:+ ".json") = Independent.outputFileOf name.
Proof. reflexivity. Qed.

Lemma deliberative_path name :
  DELIBERATIVE_DIR +:+ "/" +:+ (name +:+ ".json") = Deliberative.outputFileOf name.
Proof. reflexivity. Qed.

Section PipelineFacts.

Context {World : Type}.

(** X19. When every record of the deliberative directory belongs to a
    question of the corpus and refers to a stored independent record, and
    the two listings name the files of the two directories, [loadForecasts]
    loads both directories and [buildDataset] joins every deliberative
    record: the condition-pair table has as many rows as there are loaded
    deliberative records, and holds a row for each record of the
    directory. *)
Theorem joinable_store_reduces (questions : list Question) (st : State World)
    (independentNames deliberativeNames : list string) :
  deliberativeStoreJoins questions st ->
  (forall name, name ∈ independentNames <->
     is_Some (fs_independent st !! (INDEPENDENT_DIR +:+ "/" +:+ name))) ->
  (forall name, name ∈ deliberativeNames <->
     is_Some (fs_deliberative st !! (DELIBERATIVE_DIR +:+ "/" +:+ name))) ->
  ∃ inds dels,
    loadForecasts INDEPENDENT_DIR (Some independentNames) (fs_independent st) = Some inds
    ∧ loadForecasts DELIBERATIVE_DIR (Some deliberativeNames) (fs_deliberative st)
      = Some dels
    ∧ length (conditionRows (buildDataset questions inds dels)) = length dels
    ∧ forall path r, fs_deliberative st !! path = Some r ->
        r ∈ dels
        ∧ ∃ row, row ∈ conditionRows (buildDataset questions inds dels)
                 ∧ cr_question_id row = dr_questionId r
                 ∧ cr_deliberative_forecast_id row = dr_forecastId r
                 ∧ cr_independent_forecast_id row = dr_independentForecastId r
                 ∧ cr_deliberative_prob row = probability (dr_forecast r).
Proof.
  intros Hjoins Hind Hdel.
  destruct (loadForecasts_listed INDEPENDENT_DIR independentNames (fs_independent st))
    as [inds Hinds]; [intros name Hn; by apply Hind|].
  destruct (loadForecasts_listed DELIBERATIVE_DIR deliberativeNames (fs_deliberative st))
    as [dels Hdels]; [intros name Hn; by apply Hdel|].
  exists inds, dels. split; [done|]. split; [done|].
  assert (Hrow : forall r, r ∈ dels ->
            is_Some (conditionRowOf questions inds r)).
  { intros r Hr. apply (loadForecasts_elem _ _ _ _ r Hdels) in Hr as (name & _ & _ & Hfile).
    destruct (Hjoins _ _ Hfile) as (_ & (q & Hq & Hid) & (iname & own & Hown & Href)).
    unfold conditionRowOf.
    destruct (lastQuestion_known questions q Hq) as [q' Hq']. rewrite <- Hid, Hq'.
    assert (Hin : own ∈ inds).
    { apply (loadForecasts_elem _ _ _ _ own Hinds). exists (iname +:+ ".json").
      split; [|split].
      - apply Hind. by rewrite independent_path, Hown.
      - apply endsWith_app.
      - by rewrite independent_path. }
    destruct (lastIndependent_known inds own Hin) as [f Hf].
    rewrite <- Href, Hf. done. }
  pose proof (conditionRows_spec questions inds dels) as Hperm.
  split.
  - rewrite Hperm. apply omap_all_Some, Forall_forall. exact Hrow.
  - intros path r Hpath.
    destruct (Hjoins _ _ Hpath) as ((id & ->) & _ & _).
    assert (Hr : r ∈ dels).
    { apply (loadForecasts_elem _ _ _ _ r Hdels). exists (id +:+ ".json").
      split; [|split].
      - apply Hdel. by rewrite deliberative_path, Hpath.
      - apply endsWith_app.
      - by rewrite deliberative_path. }
    split; [done|]. destruct (Hrow r Hr) as [row Hrow'].
    exists row. split.
    + rewrite Hperm. apply list_elem_of_omap. eauto.
    + unfold conditionRowOf in Hrow'.
      destruct (lastQuestion questions (dr_questionId r)); [|done].
      destruct (lastIndependent inds (dr_independentForecastId r)); [|done].
      by injection Hrow' as <-.
Qed.

End PipelineFacts.

Lemma independent_files_distinct_witness :
  NoDup (independentCorpusFiles constantSin [exampleQuestion 1; exampleQuestion 2] 0)
  ∧ length (independentCorpusFiles constantSin [exampleQuestion 1; exampleQuestion 2] 0)
    = 36%nat.
Proof.
  apply (independent_files_distinct constantSin [exampleQuestion 1; exampleQuestion 2] 0).
  apply (bool_decide_unpack _). vm_compute. exact I.
Defined.

Lemma deliberative_files_distinct_witness :
  NoDup (deliberativeCorpusFiles constantSin [exampleQuestion 1; exampleQuestion 2] 0)
  ∧ length (deliberativeCorpusFiles constantSin [exampleQuestion 1; exampleQuestion 2] 0)
    = 36%nat.
Proof.
  apply (deliberative_files_distinct constantSin [exampleQuestion 1; exampleQuestion 2] 0).
  apply (bool_decide_unpack _). vm_compute. exact I.
Defined.

Lemma information_agreement_witness :
  Independent.getInformation (exampleQuestion 7) "full"
  = Return (Deliberative.informationFor (exampleQuestion 7) (mkSpec "sonnet" "full" None)).
Proof.
  apply (information_agreement constantSin (exampleQuestion 7) "diverse_full" 7 0
           [mkSpec "pro" "full" None; mkSpec "sonnet" "full" None;
            mkSpec "gpt5" "full" None] (mkSpec "sonnet" "full" None)).
  - unfold safeInteger; by vm_compute.
  - vm_compute. reflexivity.
  - right. left.
Defined.

Lemma independent_agent_answers_witness :
  (∃ id, forall w information,
      Agent.independentForecastingAgent (Some "sk-or") answeringService examplePrompt
        w (exampleQuestion 7) information "pro" "full" None
      = match answeringService w (Agent.OpenRouterModel id) (Agent.Prompt "prompt") with
        | (w', Return object) =>
            (w', Return (mkAgentForecast object "prompt" "7-pro-full" None))
        | (w', Throw msg) => (w', Throw msg)
        end)
  ∧ (forall w information,
       Agent.independentForecastingAgent None answeringService examplePrompt
         w (exampleQuestion 7) information "pro" "full" None
       = (w, Throw "OpenRouter API key not configured")).
Proof.
  apply (independent_agent_answers constantSin answeringService examplePrompt
           (exampleQuestion 7) 0 (mkSpec "pro" "full" None) "sk-or").
  - unfold safeInteger; by vm_compute.
  - apply (bool_decide_unpack _). vm_compute. exact I.
  - discriminate.
Defined.

Lemma deliberative_task_run_witness :
  ∃ tasks nSkipped task st',
    Deliberative.collectTasks constantSin CONDITIONS (exampleQuestion 7) 0
      afterIndependent [] 0
    = Return (tasks, nSkipped)
    ∧ task ∈ tasks
    ∧ Deliberative.runTask
        (Agent.deliberativeForecastingAgent (Some "sk-or") answeringService examplePrompt)
        task afterIndependent
      = (Return (mkOutcome success "7-diverse_full-pro-1" None), st')
    ∧ is_Some (fs_deliberative st'
                 !! Deliberative.outputFileOf "7-diverse_full-pro-1").
Proof.
  destruct (Deliberative.collectTasks constantSin CONDITIONS (exampleQuestion 7) 0
              afterIndependent [] 0) as [[tasks nSkipped]|msg] eqn:Hct;
    [|vm_compute in Hct; discriminate].
  destruct tasks as [|task tasks]; [vm_compute in Hct; discriminate|].
  assert (Hid : Deliberative.t_forecastId task = "7-diverse_full-pro-1").
  { vm_compute in Hct. by inversion Hct. }
  destruct (deliberative_task_run constantSin answeringService examplePrompt
              (exampleQuestion 7) 0 afterIndependent (task :: tasks) nSkipped task
              "sk-or" Hct)
    as (own & others & id & _ & _ & _ & _ & Hrun).
  - by left.
  - discriminate.
  - rewrite Hid. vm_compute. reflexivity.
  - cbn [answeringService] in Hrun. rewrite Hid in Hrun.
    eexists (task :: tasks), nSkipped, task, _. split; [reflexivity|].
    split; [by left|]. split; [exact Hrun|].
    cbn [fs_deliberative]. rewrite lookup_insert_eq. by eexists.
Defined.

Lemma deliberative_stage_joinable_witness :
  ∃ t totals st',
    Deliberative.main constantSin
      (Agent.deliberativeForecastingAgent (Some "sk-or") answeringService examplePrompt)
      false [exampleQuestion 7] afterIndependent
    = Some ((t, totals), st')
    ∧ fs_independent st' = fs_independent afterIndependent
    ∧ deliberativeStoreJoins [exampleQuestion 7] st'.
Proof.
  apply (deliberative_stage_joinable constantSin (Some "sk-or") answeringService
           examplePrompt [exampleQuestion 7] afterIndependent).
  intros path r Hr. vm_compute in Hr. discriminate.
Defined.

Lemma joinable_store_reduces_witness :
  ∃ inds dels,
    loadForecasts INDEPENDENT_DIR (Some exampleIndependentNames)
      (fs_independent exampleStore) = Some inds
    ∧ loadForecasts DELIBERATIVE_DIR (Some exampleDeliberativeNames)
        (fs_deliberative exampleStore) = Some dels
    ∧ length (conditionRows (buildDataset [exampleQuestion 7] inds dels)) = length dels
    ∧ forall path r, fs_deliberative exampleStore !! path = Some r ->
        r ∈ dels
        ∧ ∃ row, row ∈ conditionRows (buildDataset [exampleQuestion 7] inds dels)
                 ∧ cr_question_id row = dr_questionId r
                 ∧ cr_deliberative_forecast_id row = dr_forecastId r
                 ∧ cr_independent_forecast_id row = dr_independentForecastId r
                 ∧ cr_deliberative_prob row = probability (dr_forecast r).
Proof.
  apply (joinable_store_reduces [exampleQuestion 7] exampleStore
           exampleIndependentNames exampleDeliberativeNames).
  - intros path r Hr. cbn [exampleStore fs_deliberative] in Hr.
    apply lookup_singleton_Some in Hr as [<- <-].
    split; [by eexists|]. split.
    + exists (exampleQuestion 7). split; [by left|reflexivity].
    + exists "7-pro-full", exampleIndependent. split; [|reflexivity].
      apply lookup_singleton_eq.
  - intros name. cbn [exampleStore fs_independent]. split.
    + intros Hn. apply list_elem_of_singleton in Hn as ->.
      change (INDEPENDENT_DIR +:+ "/" +:+ "7-pro-full.json")
        with (Independent.outputFileOf "7-pro-full").
      eexists. apply lookup_singleton_eq.
    + intros [r Hr]. apply lookup_singleton_Some in Hr as [Hname _].
      apply list_elem_of_singleton. cbv in Hname. by simplify_eq.
  - intros name. cbn [exampleStore fs_deliberative]. split.
    + intros Hn. apply list_elem_of_singleton in Hn as ->.
      change (DELIBERATIVE_DIR +:+ "/" +:+ "7-diverse_full-pro-1.json")
        with (Deliberative.outputFileOf "7-diverse_full-pro-1").
      eexists. apply lookup_singleton_eq.
    + intros [r Hr]. apply lookup_singleton_Some in Hr as [Hname _].
      apply list_elem_of_singleton. cbv in Hname. by simplify_eq.
Defined.

Lemma getGroupComposition_outcomes_witness :
  ("diverse_info" ∈ CONDITIONS ->
   ∃ g, getGroupComposition constantSin "diverse_info" 7%Z 0%nat = Return g
        ∧ length g = 3%nat
        ∧ Forall (fun a => model a ∈ MODELS ∧ infoLabel a ∈ INFO_LABELS) g)
  ∧ ("diverse_info" ∉ CONDITIONS ->
     getGroupComposition constantSin "diverse_info" 7%Z 0%nat
     = Throw ("Unknown condition: " +:+ "diverse_info")).
Proof. apply (getGroupComposition_outcomes constantSin "diverse_info" 7 0). unfold safeInteger; by vm_compute. Defined.

Lemma retry_calls_bounded_witness :
  (∃ r st',
      Independent.processQuestion unavailableAgent (exampleQuestion 7) 0%nat
        (getRequiredForecasts constantSin (q_id (exampleQuestion 7)) 0%nat) emptyState = (Return r, st')
      ∧ (forall id, callsFor id (trace st')
                    <= callsFor id (trace emptyState) + MAX_RETRIES_PER_QUESTION)%nat
      ∧ (forall id, is_Some (fs_independent emptyState !! Independent.outputFileOf id) ->
                    callsFor id (trace st') = callsFor id (trace emptyState))
      ∧ (sleepsIn (trace st')
         <= sleepsIn (trace emptyState) + (MAX_RETRIES_PER_QUESTION - 1))%nat)
  ∧ (∃ r st',
        Deliberative.processQuestion constantSin unavailableDeliberation
          (exampleQuestion 7) 0%nat emptyState = (Return r, st')
        ∧ (forall id, callsFor id (trace st')
                      <= callsFor id (trace emptyState) + MAX_RETRIES_PER_QUESTION)%nat
        ∧ (forall id, is_Some (fs_deliberative emptyState !! Deliberative.outputFileOf id) ->
                      callsFor id (trace st') = callsFor id (trace emptyState))
        ∧ (sleepsIn (trace st')
           <= sleepsIn (trace emptyState) + (MAX_RETRIES_PER_QUESTION - 1))%nat).
Proof.
  apply (retry_calls_bounded constantSin unavailableAgent unavailableDeliberation
           (exampleQuestion 7) 0 emptyState).
  unfold safeInteger; by vm_compute.
Defined.

Lemma independent_question_accounting_witness :
  ∃ r st',
    Independent.processQuestion unavailableAgent (exampleQuestion 7) 0%nat
      (getRequiredForecasts constantSin (q_id (exampleQuestion 7)) 0%nat) emptyState = (Return r, st')
    ∧ forecastId <$> results r
      ≡ₚ Independent.forecastIdOf (exampleQuestion 7)
           <$> getRequiredForecasts constantSin (q_id (exampleQuestion 7)) 0%nat
    ∧ length (results r) = 18%nat
    ∧ Forall (fun o => status o ∈ [success; cached; persistent_failure]) (results r)
    ∧ persistentFailures r = countStatus persistent_failure (results r)
    ∧ (countStatus success (results r) + countStatus cached (results r)
       + persistentFailures r = 18)%nat
    ∧ skipped r = 0%nat.
Proof.
  apply (independent_question_accounting constantSin unavailableAgent
           (exampleQuestion 7) 0 emptyState).
  unfold safeInteger; by vm_compute.
Defined.

Lemma buildDataset_forecast_table_witness :
  forecastRows (buildDataset [exampleQuestion 7] [exampleIndependent] [exampleDeliberative])
  = omap (forecastRowOfIndependent [exampleQuestion 7]) [exampleIndependent]
    ++ omap (forecastRowOfDeliberative [exampleQuestion 7]) [exampleDeliberative].
Proof.
  apply (buildDataset_forecast_table [exampleQuestion 7] [exampleIndependent] [exampleDeliberative]).
  split; (constructor; [|constructor]); [done|].
  intros _. exists exampleIndependent. split; [by left|reflexivity].
Defined.

Lemma buildDataset_condition_table_witness :
  conditionRows (buildDataset [exampleQuestion 7] [exampleIndependent] [exampleDeliberative])
  ≡ₚ omap (conditionRowOf [exampleQuestion 7] [exampleIndependent]) [exampleDeliberative].
Proof.
  apply (buildDataset_condition_table [exampleQuestion 7] [exampleIndependent] [exampleDeliberative]).
  split; (constructor; [|constructor]); [done|].
  intros _. exists exampleIndependent. split; [by left|reflexivity].
Defined.

Lemma buildDataset_question_table_witness :
  let rows := questionRows (buildDataset [exampleQuestion 7] [exampleIndependent]
                              [exampleDeliberative]) in
  (forall row, row ∈ rows <->
     ∃ q, q ∈ [exampleQuestion 7] ∧ lastQuestion [exampleQuestion 7] (q_id q) = Some q
          ∧ row = questionRowOf q)
  ∧ NoDup (qr_question_id <$> rows)
  ∧ (Forall (fun q => isArrayIndex (q_id q) = true) [exampleQuestion 7] ->
     StronglySorted Z.lt (qr_question_id <$> rows)).
Proof.
  apply (buildDataset_question_table [exampleQuestion 7] [exampleIndependent] [exampleDeliberative]).
  split; (constructor; [|constructor]); [done|].
  intros _. exists exampleIndependent. split; [by left|reflexivity].
Defined.
